(** * RAMCloud coordinator server list and hash-table entry packing

    A shallow embedding of [CoordinatorServerList.cc] (the cluster
    membership manager, CMM) and of the [HashTable::Entry] bit packing
    exercised by [HashTableTest.cc] (the open-addressed hash index, OHI),
    together with the properties the specification states about them.

    Conventions.
    - C++ unsigned integers are [Z] values; every [++] and [--] of the
      source is followed by its wrap-around ([wrap32], [wrap64]).
    - [std::vector] indices are list positions ([nat]); [serverList[i]] is
      stdpp's [serverList !! i].
    - Methods that hold the [Lock] are computations in the monad [M]:
      they thread the whole [CoordinatorServerList] object and finish by
      returning, by throwing (the state reached at the [throw] is kept,
      as in C++), or by failing an [assert]. *)

From Stdlib Require Import ZArith Lia.
From stdpp Require Import base option list strings.

#[local] Open Scope Z_scope.

(** ** Machine integers *)

Definition wrap32 (x : Z) : Z := x mod 2 ^ 32.
Definition wrap64 (x : Z) : Z := x mod 2 ^ 64.

(** ** Service masks

    Modelled from the spec: [ServiceMask.h] and the [WireFormat::ServiceType]
    enumeration are not among the sources.  The spec describes a small set
    over a closed enum, serialisable to a 32-bit word; [has] tests one bit
    of that word. *)

Inductive ServiceType :=
  | MASTER_SERVICE
  | BACKUP_SERVICE
  | MEMBERSHIP_SERVICE
  | PING_SERVICE
  | ADMIN_SERVICE.

Definition serviceBit (t : ServiceType) : Z :=
  match t with
  | MASTER_SERVICE => 0
  | BACKUP_SERVICE => 1
  | MEMBERSHIP_SERVICE => 2
  | PING_SERVICE => 3
  | ADMIN_SERVICE => 4
  end.

Definition allServices : list ServiceType :=
  [MASTER_SERVICE; BACKUP_SERVICE; MEMBERSHIP_SERVICE; PING_SERVICE;
   ADMIN_SERVICE].

Definition ServiceMask := Z.

Definition has (m : ServiceMask) (t : ServiceType) : bool :=
  Z.testbit m (serviceBit t).

(** [ServiceMask{a, b, ...}]: the initializer-list constructor. *)
Definition maskOf (ts : list ServiceType) : ServiceMask :=
  foldr (fun t m => Z.lor (Z.shiftl 1 (serviceBit t)) m) 0 ts.

(** Two masks intersect when some service belongs to both. *)
Definition intersects (a b : ServiceMask) : bool :=
  existsb (fun t => has a t && has b t) allServices.

(** ** Server ids, statuses, entries *)

Record ServerId := mkServerId {
  indexNumber : nat;
  generationNumber : Z
}.

#[global] Instance ServerId_eq_dec : EqDecision ServerId.
Proof. solve_decision. Defined.

Inductive ServerStatus := UP | CRASHED | DOWN.

#[global] Instance ServerStatus_eq_dec : EqDecision ServerStatus.
Proof. solve_decision. Defined.

Inductive ServerChangeEvent := SERVER_ADDED | SERVER_CRASHED | SERVER_REMOVED.

#[global] Instance ServerChangeEvent_eq_dec : EqDecision ServerChangeEvent.
Proof. solve_decision. Defined.

(** [CoordinatorServerList::Entry] with the [ServerDetails] fields it
    inherits. *)
Record Entry := mkEntry {
  serverId : ServerId;
  serviceLocator : string;
  services : ServiceMask;
  expectedReadMBytesPerSec : Z;
  status : ServerStatus;
  replicationId : Z;
  masterRecoveryInfo : Z;
  serverListVersion : Z;
  isBeingUpdated : Z;
  serverInfoLogId : Z;
  serverUpdateLogId : Z
}.

#[global] Instance Entry_eq_dec : EqDecision Entry.
Proof. solve_decision. Defined.

(** [Entry::Entry(serverId, serviceLocator, services)]. *)
Definition newEntry (id : ServerId) (loc : string) (sv : ServiceMask) : Entry :=
  mkEntry id loc sv 0 UP 0 0 0 0 0 0.

Definition set_status (st : ServerStatus) (e : Entry) : Entry :=
  mkEntry (serverId e) (serviceLocator e) (services e)
          (expectedReadMBytesPerSec e) st (replicationId e)
          (masterRecoveryInfo e) (serverListVersion e) (isBeingUpdated e)
          (serverInfoLogId e) (serverUpdateLogId e).

Definition set_replicationId (r : Z) (e : Entry) : Entry :=
  mkEntry (serverId e) (serviceLocator e) (services e)
          (expectedReadMBytesPerSec e) (status e) r
          (masterRecoveryInfo e) (serverListVersion e) (isBeingUpdated e)
          (serverInfoLogId e) (serverUpdateLogId e).

Definition set_expectedReadMBytesPerSec (r : Z) (e : Entry) : Entry :=
  mkEntry (serverId e) (serviceLocator e) (services e)
          r (status e) (replicationId e)
          (masterRecoveryInfo e) (serverListVersion e) (isBeingUpdated e)
          (serverInfoLogId e) (serverUpdateLogId e).

Definition set_masterRecoveryInfo (r : Z) (e : Entry) : Entry :=
  mkEntry (serverId e) (serviceLocator e) (services e)
          (expectedReadMBytesPerSec e) (status e) (replicationId e)
          r (serverListVersion e) (isBeingUpdated e)
          (serverInfoLogId e) (serverUpdateLogId e).

Definition set_serverListVersion (v : Z) (e : Entry) : Entry :=
  mkEntry (serverId e) (serviceLocator e) (services e)
          (expectedReadMBytesPerSec e) (status e) (replicationId e)
          (masterRecoveryInfo e) v (isBeingUpdated e)
          (serverInfoLogId e) (serverUpdateLogId e).

Definition set_isBeingUpdated (v : Z) (e : Entry) : Entry :=
  mkEntry (serverId e) (serviceLocator e) (services e)
          (expectedReadMBytesPerSec e) (status e) (replicationId e)
          (masterRecoveryInfo e) (serverListVersion e) v
          (serverInfoLogId e) (serverUpdateLogId e).

Definition set_serverInfoLogId (v : Z) (e : Entry) : Entry :=
  mkEntry (serverId e) (serviceLocator e) (services e)
          (expectedReadMBytesPerSec e) (status e) (replicationId e)
          (masterRecoveryInfo e) (serverListVersion e) (isBeingUpdated e)
          v (serverUpdateLogId e).

Definition set_serverUpdateLogId (v : Z) (e : Entry) : Entry :=
  mkEntry (serverId e) (serviceLocator e) (services e)
          (expectedReadMBytesPerSec e) (status e) (replicationId e)
          (masterRecoveryInfo e) (serverListVersion e) (isBeingUpdated e)
          (serverInfoLogId e) v.

(** Modelled from the spec: [Entry::isMaster] and [Entry::isBackup] are
    declared in [CoordinatorServerList.h], which is not among the sources.
    The spec reads the scans that call them as ranging over "UP backups"
    and counts masters and backups among UP entries only. *)
Definition isMaster (e : Entry) : bool :=
  bool_decide (status e = UP) && has (services e) MASTER_SERVICE.

Definition isBackup (e : Entry) : bool :=
  bool_decide (status e = UP) && has (services e) BACKUP_SERVICE.

(** ** Protocol buffers *)

Module ProtoBuf.

Inductive ServerList_Type := FULL_LIST | UPDATE.

Record ServerList_Entry := mkServerList_Entry {
  entry_services : Z;
  server_id : ServerId;
  service_locator : string;
  entry_status : ServerStatus;
  expected_read_mbytes_per_sec : Z;
  replication_id : Z
}.

Record ServerList := mkServerList {
  server : list ServerList_Entry;
  version_number : Z;
  type : option ServerList_Type
}.

(** A freshly constructed or [Clear()]ed message. *)
Definition empty : ServerList := mkServerList [] 0 None.

Definition add_server (e : ServerList_Entry) (p : ServerList) : ServerList :=
  mkServerList (server p ++ [e]) (version_number p) (type p).

Definition set_version_number (v : Z) (p : ServerList) : ServerList :=
  mkServerList (server p) v (type p).

Definition set_type (t : ServerList_Type) (p : ServerList) : ServerList :=
  mkServerList (server p) (version_number p) (Some t).

#[global] Instance ServerList_Type_eq_dec : EqDecision ServerList_Type.
Proof. solve_decision. Defined.

#[global] Instance ServerList_Entry_eq_dec : EqDecision ServerList_Entry.
Proof. solve_decision. Defined.

#[global] Instance ServerList_eq_dec : EqDecision ServerList.
Proof. solve_decision. Defined.

End ProtoBuf.

(** [Entry::serialize]. *)
Definition serializeEntry (e : Entry) : ProtoBuf.ServerList_Entry :=
  ProtoBuf.mkServerList_Entry
    (services e) (serverId e) (serviceLocator e) (status e)
    (if isBackup e then expectedReadMBytesPerSec e else 0)
    (replicationId e).

(** ** The coordinator server list object *)

(** One slot of [serverList].  Modelled from the spec: the default
    constructor of [GenerationNumberEntryPair] lives in
    [CoordinatorServerList.h], which is not among the sources; the spec
    says [nextGeneration] starts at 1 and the entry is absent. *)
Record GenerationNumberEntryPair := mkPair {
  nextGenerationNumber : Z;
  entry : option Entry
}.

Definition initialGeneration : Z := 1.

Definition emptyPair : GenerationNumberEntryPair :=
  mkPair initialGeneration None.

(** [lastScan]: the cursor of the updater's search. *)
Record ScanMetadata := mkScan {
  noUpdatesFound : bool;
  searchIndex : nat;
  minVersion : Z
}.

(** What a registered [ServerTrackerInterface] has received: the changes
    enqueued with [enqueueChange] and the number of [fireCallback] calls. *)
Record Tracker := mkTracker {
  changes : list (Entry * ServerChangeEvent);
  callbacksFired : nat
}.

(** Records the sagas append to the durable log. *)
Inductive LogRecord :=
  | ServerEnlisting (id : ServerId) (sv : ServiceMask) (readSpeed : Z) (loc : string)
  | ServerEnlisted (id : ServerId) (sv : ServiceMask) (readSpeed : Z) (loc : string)
  | ForceServerDownRecord (id : ServerId)
  | ServerUpdate (id : ServerId) (info : Z).

(** Modelled from the spec: the durable log ([LogCabinHelper]) is an
    external collaborator.  [appendRecord] appends and returns the new
    entry id, [invalidate] marks entry ids obsolete.  Entry ids count from
    1, since the source uses 0 for "no record". *)
Record LogCabin := mkLogCabin {
  logEntries : list (LogRecord * list Z);
  invalidated : list Z
}.

Record CoordinatorServerList := mkCSL {
  serverList : list GenerationNumberEntryPair;
  numberOfMasters : Z;
  numberOfBackups : Z;
  version : Z;
  update : ProtoBuf.ServerList;
  updates : list ProtoBuf.ServerList;
  lastScan : ScanMetadata;
  nextReplicationId : Z;
  trackers : list Tracker;
  recoveries : list Entry;
  logCabin : LogCabin
}.

(** The constructor: no slots, version 0, [nextReplicationId] 1.  The
    trackers are those registered with the list. *)
Definition initial (ts : nat) : CoordinatorServerList :=
  mkCSL [] 0 0 0 ProtoBuf.empty [] (mkScan false 0 0) 1
        (replicate ts (mkTracker [] 0)) [] (mkLogCabin [] []).

Definition with_serverList f (s : CoordinatorServerList) :=
  mkCSL (f (serverList s)) (numberOfMasters s) (numberOfBackups s) (version s)
        (update s) (updates s) (lastScan s) (nextReplicationId s) (trackers s)
        (recoveries s) (logCabin s).

Definition with_numberOfMasters f (s : CoordinatorServerList) :=
  mkCSL (serverList s) (f (numberOfMasters s)) (numberOfBackups s) (version s)
        (update s) (updates s) (lastScan s) (nextReplicationId s) (trackers s)
        (recoveries s) (logCabin s).

Definition with_numberOfBackups f (s : CoordinatorServerList) :=
  mkCSL (serverList s) (numberOfMasters s) (f (numberOfBackups s)) (version s)
        (update s) (updates s) (lastScan s) (nextReplicationId s) (trackers s)
        (recoveries s) (logCabin s).

Definition with_version f (s : CoordinatorServerList) :=
  mkCSL (serverList s) (numberOfMasters s) (numberOfBackups s) (f (version s))
        (update s) (updates s) (lastScan s) (nextReplicationId s) (trackers s)
        (recoveries s) (logCabin s).

Definition with_update f (s : CoordinatorServerList) :=
  mkCSL (serverList s) (numberOfMasters s) (numberOfBackups s) (version s)
        (f (update s)) (updates s) (lastScan s) (nextReplicationId s)
        (trackers s) (recoveries s) (logCabin s).

Definition with_updates f (s : CoordinatorServerList) :=
  mkCSL (serverList s) (numberOfMasters s) (numberOfBackups s) (version s)
        (update s) (f (updates s)) (lastScan s) (nextReplicationId s)
        (trackers s) (recoveries s) (logCabin s).

Definition with_lastScan f (s : CoordinatorServerList) :=
  mkCSL (serverList s) (numberOfMasters s) (numberOfBackups s) (version s)
        (update s) (updates s) (f (lastScan s)) (nextReplicationId s)
        (trackers s) (recoveries s) (logCabin s).

Definition with_nextReplicationId f (s : CoordinatorServerList) :=
  mkCSL (serverList s) (numberOfMasters s) (numberOfBackups s) (version s)
        (update s) (updates s) (lastScan s) (f (nextReplicationId s))
        (trackers s) (recoveries s) (logCabin s).

Definition with_trackers f (s : CoordinatorServerList) :=
  mkCSL (serverList s) (numberOfMasters s) (numberOfBackups s) (version s)
        (update s) (updates s) (lastScan s) (nextReplicationId s)
        (f (trackers s)) (recoveries s) (logCabin s).

Definition with_recoveries f (s : CoordinatorServerList) :=
  mkCSL (serverList s) (numberOfMasters s) (numberOfBackups s) (version s)
        (update s) (updates s) (lastScan s) (nextReplicationId s)
        (trackers s) (f (recoveries s)) (logCabin s).

Definition with_logCabin f (s : CoordinatorServerList) :=
  mkCSL (serverList s) (numberOfMasters s) (numberOfBackups s) (version s)
        (update s) (updates s) (lastScan s) (nextReplicationId s)
        (trackers s) (recoveries s) (f (logCabin s)).

(** ** The monad of lock-holding methods *)

(** [ServerListException] is the "unknown server" error; [OutOfRange] is
    what [std::deque::at] throws. *)
Inductive Exception :=
  | ServerListException
  | OutOfRange.

(** Ways a call can end without returning or throwing: a failed [assert],
    or behaviour C++ leaves undefined (indexing past the end of a vector,
    dereferencing an empty [Tub]). *)
Inductive AbortReason :=
  | AssertionFailed
  | Undefined.

Inductive Outcome (A : Type) :=
  | Returned (a : A) (s : CoordinatorServerList)
  | Thrown (e : Exception) (s : CoordinatorServerList)
  | Abort (why : AbortReason).

Arguments Returned {A} a s.
Arguments Thrown {A} e s.
Arguments Abort {A} why.

Definition M (A : Type) : Type := CoordinatorServerList -> Outcome A.

Definition ret {A} (a : A) : M A := fun s => Returned a s.

Definition bind {A B} (m : M A) (k : A -> M B) : M B :=
  fun s =>
    match m s with
    | Returned a s' => k a s'
    | Thrown e s' => Thrown e s'
    | Abort why => Abort why
    end.

Notation "'let*' x := m 'in' k" := (bind m (fun x => k))
  (at level 10, x name, m at level 100, k at level 200).
Notation "m ;; k" := (bind m (fun _ => k))
  (at level 100, k at level 200, right associativity).

Definition gets {A} (f : CoordinatorServerList -> A) : M A :=
  fun s => Returned (f s) s.

Definition modify (f : CoordinatorServerList -> CoordinatorServerList) : M unit :=
  fun s => Returned tt (f s).

Definition throw {A} (e : Exception) : M A := fun s => Thrown e s.

Definition abort {A} (why : AbortReason) : M A := fun _ => Abort why.

Definition assert (b : bool) : M unit :=
  if b then ret tt else abort AssertionFailed.

Definition when (b : bool) (m : M unit) : M unit :=
  if b then m else ret tt.

(** [try { m } catch (const ServerListException&) { h }]. *)
Definition catch {A} (m : M A) (h : M A) : M A :=
  fun s =>
    match m s with
    | Thrown ServerListException s' => h s'
    | o => o
    end.

(** The state a computation leaves behind, when it leaves one. *)
Definition finalState {A} (o : Outcome A) : option CoordinatorServerList :=
  match o with
  | Returned _ s => Some s
  | Thrown _ s => Some s
  | Abort _ => None
  end.

(** ** Lookups *)

(** [iget(ServerId)]: the entry stored under [id], or [NULL]. *)
Definition iget (id : ServerId) (s : CoordinatorServerList) : option Entry :=
  match serverList s !! indexNumber id with
  | Some p =>
      match entry p with
      | Some details => if decide (serverId details = id) then Some details else None
      | None => None
      end
  | None => None
  end.

(** [getReferenceFromServerId]: as [iget], but throws when [id] is not in
    the list. *)
Definition getReferenceFromServerId (id : ServerId) : M Entry :=
  fun s =>
    match serverList s !! indexNumber id with
    | Some p =>
        match entry p with
        | Some e =>
            if decide (serverId e = id) then Returned e s
            else Thrown ServerListException s
        | None => Thrown ServerListException s
        end
    | None => Thrown ServerListException s
    end.

(** A write through an [Entry&] that refers to [serverList[index].entry]. *)
Definition modifyEntry (index : nat) (f : Entry -> Entry) : M unit :=
  modify (with_serverList
            (alter (fun p => mkPair (nextGenerationNumber p) (f <$> entry p))
                   index)).

(** [*serverList[index].entry]: undefined when the slot or its entry is
    missing. *)
Definition derefEntry (index : nat) : M Entry :=
  fun s =>
    match serverList s !! index with
    | Some p =>
        match entry p with
        | Some e => Returned e s
        | None => Abort Undefined
        end
    | None => Abort Undefined
    end.

(** [update.add_server()] followed by [entry.serialize(protoBufEntry)]. *)
Definition appendToUpdate (e : Entry) : M unit :=
  modify (with_update (ProtoBuf.add_server (serializeEntry e))).

(** The two [foreach] loops over [trackers]: [enqueueChange] on each, then
    [fireCallback] on each. *)
Definition enqueueChange (e : Entry) (ev : ServerChangeEvent) (t : Tracker) : Tracker :=
  mkTracker (changes t ++ [(e, ev)]) (callbacksFired t).

Definition fireCallback (t : Tracker) : Tracker :=
  mkTracker (changes t) (S (callbacksFired t)).

Definition notifyTrackers (e : Entry) (ev : ServerChangeEvent) : M unit :=
  modify (with_trackers (map (enqueueChange e ev))) ;;
  modify (with_trackers (map fireCallback)).

(** ** Identity allocation *)

(** The scan of [firstFreeIndex]: [l] is the part of the vector from
    position [index] on. *)
Fixpoint scanFree (l : list GenerationNumberEntryPair) (index : nat) : nat :=
  match l with
  | [] => index
  | p :: l' =>
      match entry p with
      | None => index
      | Some _ => scanFree l' (S index)
      end
  end.

(** [firstFreeIndex].  [downCast<uint32_t>] asserts that the index fits in
    32 bits. *)
Definition firstFreeIndex : M nat :=
  let* index := gets (fun s => scanFree (drop 1 (serverList s)) 1) in
  let* size := gets (fun s => length (serverList s)) in
  when (bool_decide (size <= index)%nat)
       (modify (with_serverList (fun l => l ++ replicate (S index - length l) emptyPair))) ;;
  assert (bool_decide (index <> 0%nat)) ;;
  assert (bool_decide (Z.of_nat index < 2 ^ 32)) ;;
  ret index.

(** [generateUniqueId(Lock&)]. *)
Definition generateUniqueId : M ServerId :=
  let* index := firstFreeIndex in
  let* slot := gets (fun s => serverList s !! index) in
  match slot with
  | None => abort Undefined
  | Some pr =>
      let id := mkServerId index (nextGenerationNumber pr) in
      modify (with_serverList
                (<[index := mkPair (wrap32 (nextGenerationNumber pr + 1))
                                   (Some (newEntry id "" (maskOf [])))]>)) ;;
      ret id
  end.

(** ** Membership mutations (the [Lock&] overloads) *)

(** [setReplicationId]: only UP entries are changed. *)
Definition setReplicationId (id : ServerId) (rid : Z) : M unit :=
  let* e := getReferenceFromServerId id in
  if bool_decide (status e <> UP) then ret tt
  else
    modifyEntry (indexNumber id) (set_replicationId rid) ;;
    let* e' := derefEntry (indexNumber id) in
    appendToUpdate e'.

Definition addServerInfoLogId (id : ServerId) (entryId : Z) : M unit :=
  let* _ := getReferenceFromServerId id in
  modifyEntry (indexNumber id) (set_serverInfoLogId entryId).

Definition getServerInfoLogId (id : ServerId) : M Z :=
  let* e := getReferenceFromServerId id in
  ret (serverInfoLogId e).

Definition addServerUpdateLogId (id : ServerId) (entryId : Z) : M unit :=
  let* _ := getReferenceFromServerId id in
  modifyEntry (indexNumber id) (set_serverUpdateLogId entryId).

Definition getServerUpdateLogId (id : ServerId) : M Z :=
  let* e := getReferenceFromServerId id in
  ret (serverUpdateLogId e).

(** [serverList.resize(n)]: the vector is cut or padded with empty slots
    to [n] slots. *)
Definition resize (n : nat) (l : list GenerationNumberEntryPair)
    : list GenerationNumberEntryPair :=
  take n l ++ replicate (n - length l) emptyPair.

(** [add(Lock&, serverId, serviceLocator, serviceMask, readSpeed)].
    [index] is a [uint32_t], so [index + 1] wraps to 0 for the index
    0xFFFFFFFF: [resize(0)] then empties the vector, and
    [serverList[index]] is past its end, which is undefined. *)
Definition add (id : ServerId) (loc : string) (mask : ServiceMask)
    (readSpeed : Z) : M unit :=
  let index := indexNumber id in
  let* size := gets (fun s => length (serverList s)) in
  when (bool_decide (size <= index)%nat)
       (modify (with_serverList
                  (resize (Z.to_nat (wrap32 (Z.of_nat index + 1)))))) ;;
  let* slot := gets (fun s => serverList s !! index) in
  match slot with
  | None => abort Undefined
  | Some _ =>
      modify (with_serverList
                (<[index := mkPair (wrap32 (generationNumber id + 1))
                                   (Some (newEntry id loc mask))]>)) ;;
      when (has mask MASTER_SERVICE)
           (modify (with_numberOfMasters (fun n => wrap32 (n + 1)))) ;;
      when (has mask BACKUP_SERVICE)
           (modify (with_numberOfBackups (fun n => wrap32 (n + 1))) ;;
            modifyEntry index (set_expectedReadMBytesPerSec readSpeed)) ;;
      let* e := derefEntry index in
      appendToUpdate e ;;
      notifyTrackers e SERVER_ADDED
  end.

(** The guard shared by [crashed] and [remove]:
    [index >= serverList.size() || !serverList[index].entry ||
     serverList[index].entry->serverId != serverId]. *)
Definition invalidServerId (id : ServerId) (s : CoordinatorServerList) : bool :=
  match serverList s !! indexNumber id with
  | None => true
  | Some p =>
      match entry p with
      | None => true
      | Some e => bool_decide (serverId e <> id)
      end
  end.

(** [crashed(const Lock&, serverId)]. *)
Definition crashed (id : ServerId) : M unit :=
  let index := indexNumber id in
  let* bad := gets (invalidServerId id) in
  if bad then throw ServerListException
  else
    let* e := derefEntry index in
    if bool_decide (status e = CRASHED) then ret tt
    else
      assert (bool_decide (status e <> DOWN)) ;;
      when (isMaster e)
           (modify (with_numberOfMasters (fun n => wrap32 (n - 1)))) ;;
      when (isBackup e)
           (modify (with_numberOfBackups (fun n => wrap32 (n - 1)))) ;;
      modifyEntry index (set_status CRASHED) ;;
      let* e' := derefEntry index in
      appendToUpdate e' ;;
      notifyTrackers e' SERVER_CRASHED.

(** [entry.destroy()] on the [Tub] of a slot. *)
Definition destroyEntry (index : nat) : M unit :=
  modify (with_serverList
            (alter (fun p => mkPair (nextGenerationNumber p) None) index)).

(** [remove(Lock&, serverId)]. *)
Definition remove (id : ServerId) : M unit :=
  let index := indexNumber id in
  let* bad := gets (invalidServerId id) in
  if bad then throw ServerListException
  else
    crashed id ;;
    modifyEntry index (set_status DOWN) ;;
    let* removedEntry := derefEntry index in
    appendToUpdate removedEntry ;;
    destroyEntry index ;;
    notifyTrackers removedEntry SERVER_REMOVED.

(** ** Serialization of the whole list *)

(** The test of the loop body of [serialize(lock, protoBuf, services)]. *)
Definition serializeIncludes (mask : ServiceMask) (e : Entry) : bool :=
  (has (services e) MASTER_SERVICE && has mask MASTER_SERVICE) ||
  (has (services e) BACKUP_SERVICE && has mask BACKUP_SERVICE).

Fixpoint serializeLoop (l : list GenerationNumberEntryPair) (mask : ServiceMask)
    (protoBuf : ProtoBuf.ServerList) : ProtoBuf.ServerList :=
  match l with
  | [] => protoBuf
  | p :: l' =>
      match entry p with
      | None => serializeLoop l' mask protoBuf
      | Some e =>
          if serializeIncludes mask e
          then serializeLoop l' mask (ProtoBuf.add_server (serializeEntry e) protoBuf)
          else serializeLoop l' mask protoBuf
      end
  end.

(** [serialize(lock, protoBuf, services)]: [protoBuf] is the out
    parameter, given here with its contents at the call. *)
Definition serialize (protoBuf : ProtoBuf.ServerList) (mask : ServiceMask)
    (s : CoordinatorServerList) : ProtoBuf.ServerList :=
  ProtoBuf.set_type ProtoBuf.FULL_LIST
    (ProtoBuf.set_version_number (version s)
       (serializeLoop (serverList s) mask protoBuf)).

(** [serialize(lock, protoBuf)]: the overload with the default mask. *)
Definition serializeDefault (protoBuf : ProtoBuf.ServerList)
    (s : CoordinatorServerList) : ProtoBuf.ServerList :=
  serialize protoBuf (maskOf [MASTER_SERVICE; BACKUP_SERVICE]) s.

(** ** Replication groups *)

(** [assignReplicationGroup]: stops at the first id [iget] does not find. *)
Fixpoint assignReplicationGroup (rid : Z) (replicationGroupIds : list ServerId)
    : M bool :=
  match replicationGroupIds with
  | [] => ret true
  | backupId :: rest =>
      let* found := gets (iget backupId) in
      match found with
      | None => ret false
      | Some _ =>
          setReplicationId backupId rid ;;
          assignReplicationGroup rid rest
      end
  end.

(** The first loop of [createReplicationGroup]. *)
Definition freeBackups (l : list GenerationNumberEntryPair) : list ServerId :=
  omap (fun p =>
          match entry p with
          | Some e =>
              if isBackup e && (replicationId e =? 0) then Some (serverId e)
              else None
          | None => None
          end) l.

Definition numReplicas : nat := 3.

(** The [while] loop of [createReplicationGroup].  [stack] is
    [freeBackups] seen from its back: [freeBackups.back()] is the head of
    [stack] and [pop_back] drops it. *)
Fixpoint createGroups (stack : list ServerId) : M unit :=
  match stack with
  | b1 :: b2 :: b3 :: rest =>
      let* next := gets nextReplicationId in
      let* _ := assignReplicationGroup next [b1; b2; b3] in
      modify (with_nextReplicationId (fun n => wrap64 (n + 1))) ;;
      createGroups rest
  | _ => ret tt
  end.

Definition createReplicationGroup : M unit :=
  let* free := gets (fun s => freeBackups (serverList s)) in
  createGroups (rev free).

(** The body of the [for] loop of [removeReplicationGroup], for the slots
    [indices] still to visit; [group] is the vector built so far. *)
Fixpoint removeGroupLoop (groupId : Z) (indices : list nat)
    (group : list ServerId) : M unit :=
  match indices with
  | [] => ret tt
  | i :: rest =>
      let* slot := gets (fun s => serverList s !! i) in
      let group' :=
        match slot with
        | Some p =>
            match entry p with
            | Some e =>
                if isBackup e && (replicationId e =? groupId)
                then group ++ [serverId e] else group
            | None => group
            end
        | None => group
        end in
      when (negb (bool_decide (length group' = 0%nat)))
           (let* _ := assignReplicationGroup 0 group' in ret tt) ;;
      removeGroupLoop groupId rest group'
  end.

Definition removeReplicationGroup (groupId : Z) : M unit :=
  if groupId =? 0 then ret tt
  else
    let* size := gets (fun s => length (serverList s)) in
    removeGroupLoop groupId (seq 0 size) [].

(** ** Committing and pruning updates *)

(** [commitUpdate]. *)
Definition commitUpdate : M unit :=
  let* pending := gets update in
  if bool_decide (length (ProtoBuf.server pending) = 0%nat) then ret tt
  else
    modify (with_version (fun v => wrap64 (v + 1))) ;;
    let* v := gets version in
    modify (with_update (ProtoBuf.set_version_number v)) ;;
    modify (with_update (ProtoBuf.set_type ProtoBuf.UPDATE)) ;;
    let* u := gets update in
    modify (with_updates (fun q => q ++ [u])) ;;
    modify (with_lastScan (fun ls => mkScan false (searchIndex ls) (minVersion ls))) ;;
    modify (with_update (fun _ => ProtoBuf.empty)).

(** The [while] loop of [pruneUpdates]. *)
Fixpoint popUpTo (v : Z) (q : list ProtoBuf.ServerList) : list ProtoBuf.ServerList :=
  match q with
  | [] => []
  | u :: q' => if ProtoBuf.version_number u <=? v then popUpTo v q' else q
  end.

Definition pruneUpdates (v : Z) : M unit :=
  let* cur := gets version in
  assert (v <=? cur) ;;
  modify (with_updates (popUpTo v)).

(** ** The durable log and the recovery manager *)

(** Modelled from the spec: [appendRecord(expectedEntryId, payload,
    invalidates[])] appends atomically and returns the new entry id. *)
Definition appendProtoBuf (r : LogRecord) (invalidates : list Z) : M Z :=
  modify (with_logCabin
            (fun lc => mkLogCabin (logEntries lc ++ [(r, invalidates)])
                                  (invalidated lc ++ invalidates))) ;;
  gets (fun s => Z.of_nat (length (logEntries (logCabin s)))).

(** Modelled from the spec: [invalidate(expectedEntryId, entryId[])]. *)
Definition invalidate (ids : list Z) : M unit :=
  modify (with_logCabin
            (fun lc => mkLogCabin (logEntries lc) (invalidated lc ++ ids))).

(** [recoveryManager->startMasterRecovery(entry)]: the call is recorded. *)
Definition startMasterRecovery (e : Entry) : M unit :=
  modify (with_recoveries (fun l => l ++ [e])).

(** ** Operation sagas *)

Module EnlistServer.

(** [EnlistServer::complete]. *)
Definition complete (newServerId : ServerId) (mask : ServiceMask)
    (readSpeed : Z) (loc : string) (entryId : Z) : M ServerId :=
  add newServerId loc mask readSpeed ;;
  let* e := getReferenceFromServerId newServerId in
  when (isBackup e) createReplicationGroup ;;
  let* newEntryId :=
    appendProtoBuf (ServerEnlisted newServerId mask readSpeed loc) [entryId] in
  addServerInfoLogId newServerId newEntryId ;;
  ret newServerId.

(** [EnlistServer::execute]. *)
Definition execute (mask : ServiceMask) (readSpeed : Z) (loc : string)
    : M ServerId :=
  let* newServerId := generateUniqueId in
  let* entryId :=
    appendProtoBuf (ServerEnlisting newServerId mask readSpeed loc) [] in
  addServerInfoLogId newServerId entryId ;;
  complete newServerId mask readSpeed loc entryId.

End EnlistServer.

Module ForceServerDown.

(** [ForceServerDown::complete]. *)
Definition complete (id : ServerId) (entryId : Z) : M unit :=
  let* infoLogId := getServerInfoLogId id in
  let* updateLogId := getServerUpdateLogId id in
  let* e := getReferenceFromServerId id in
  crashed id ;;
  when (negb (has (services e) MASTER_SERVICE)) (remove id) ;;
  startMasterRecovery e ;;
  removeReplicationGroup (replicationId e) ;;
  createReplicationGroup ;;
  invalidate ([infoLogId; entryId] ++
              (if updateLogId =? 0 then [] else [updateLogId])).

(** [ForceServerDown::execute]. *)
Definition execute (id : ServerId) : M unit :=
  let* entryId := appendProtoBuf (ForceServerDownRecord id) [] in
  complete id entryId.

End ForceServerDown.

Module SetMasterRecoveryInfo.

(** [SetMasterRecoveryInfo::complete].  The handler invalidates
    [vector<EntryId>(entryId)], a vector of [entryId] zeroes. *)
Definition complete (id : ServerId) (recoveryInfo : Z) (entryId : Z) : M unit :=
  catch
    (addServerUpdateLogId id entryId ;;
     let* _ := getReferenceFromServerId id in
     modifyEntry (indexNumber id) (set_masterRecoveryInfo recoveryInfo))
    (invalidate (replicate (Z.to_nat entryId) 0) ;;
     throw ServerListException).

(** [SetMasterRecoveryInfo::execute].  Reading back a record that is not
    a [ServerUpdate] is left undefined. *)
Definition execute (id : ServerId) (recoveryInfo : Z) : M unit :=
  let* oldEntryId := getServerUpdateLogId id in
  let* old := gets (fun s => logEntries (logCabin s) !! (Z.to_nat oldEntryId - 1)%nat) in
  let* serverUpdate :=
    (if oldEntryId =? 0 then ret (ServerUpdate id recoveryInfo, [])
     else
       match old with
       | Some (ServerUpdate id' _, _) =>
           ret (ServerUpdate id' recoveryInfo, [oldEntryId])
       | _ => abort Undefined
       end) in
  let* newEntryId := appendProtoBuf (fst serverUpdate) (snd serverUpdate) in
  complete id recoveryInfo newEntryId.

End SetMasterRecoveryInfo.

Definition forceServerDown (id : ServerId) : M unit :=
  ForceServerDown.execute id.

(** ** The updater's view of the list *)

(** One trip through the body of the [do ... while] of [hasUpdates], at
    slot [i].  [None] means the loop goes on. *)
Definition hasUpdatesBody (i : nat) : M (option bool) :=
  when (bool_decide (i = 0%nat))
       (let* mv := gets (fun s => minVersion (lastScan s)) in
        pruneUpdates mv ;;
        modify (with_lastScan (fun ls => mkScan (noUpdatesFound ls) (searchIndex ls) 0))) ;;
  let* slot := gets (fun s => serverList s !! i) in
  match slot with
  | None => abort Undefined
  | Some p =>
      match entry p with
      | None => ret None
      | Some e =>
          if has (services e) MEMBERSHIP_SERVICE && bool_decide (status e = UP)
          then
            let entryMinVersion :=
              if serverListVersion e =? 0 then isBeingUpdated e
              else serverListVersion e in
            let* mv := gets (fun s => minVersion (lastScan s)) in
            when ((mv =? 0) || ((0 <? entryMinVersion) && (entryMinVersion <? mv)))
                 (modify (with_lastScan
                            (fun ls => mkScan (noUpdatesFound ls) (searchIndex ls)
                                              entryMinVersion))) ;;
            let* v := gets version in
            if negb (serverListVersion e =? v) && (isBeingUpdated e =? 0)
            then
              modify (with_lastScan (fun ls => mkScan false i (minVersion ls))) ;;
              ret (Some true)
            else ret None
          else ret None
      end
  end.

(** The [do ... while (i != lastScan.searchIndex)] loop.  It comes back to
    its start after [serverList.size()] trips, so that much [fuel] is
    enough; running out of it is not a behaviour of the source. *)
Fixpoint hasUpdatesLoop (fuel : nat) (i : nat) : M bool :=
  match fuel with
  | O => abort Undefined
  | S fuel' =>
      let* r := hasUpdatesBody i in
      match r with
      | Some b => ret b
      | None =>
          let* size := gets (fun s => length (serverList s)) in
          let* start := gets (fun s => searchIndex (lastScan s)) in
          let i' := ((i + 1) mod size)%nat in
          if bool_decide (i' <> start) then hasUpdatesLoop fuel' i'
          else
            modify (with_lastScan
                      (fun ls => mkScan true (searchIndex ls) (minVersion ls))) ;;
            ret false
      end
  end.

(** [hasUpdates]. *)
Definition hasUpdates : M bool :=
  let* ls := gets lastScan in
  let* size := gets (fun s => length (serverList s)) in
  if noUpdatesFound ls || bool_decide (size = 0%nat) then ret false
  else hasUpdatesLoop size (searchIndex ls).

Record UpdateSlot := mkUpdateSlot {
  originalVersion : Z;
  slotServerId : ServerId;
  protobuf : ProtoBuf.ServerList
}.

(** [loadNextUpdate]: the slot is returned with the flag. *)
Definition loadNextUpdate (updateSlot : UpdateSlot) : M (bool * UpdateSlot) :=
  let* found := hasUpdates in
  if negb found then ret (false, updateSlot)
  else
    let* index := gets (fun s => searchIndex (lastScan s)) in
    let* e := derefEntry index in
    let* size := gets (fun s => length (serverList s)) in
    modify (with_lastScan
              (fun ls => mkScan (noUpdatesFound ls)
                                ((searchIndex ls + 1) mod size)%nat
                                (minVersion ls))) ;;
    if serverListVersion e =? 0 then
      let* full := gets (serialize ProtoBuf.empty
                           (maskOf [MASTER_SERVICE; BACKUP_SERVICE])) in
      let* v := gets version in
      modifyEntry index (set_isBeingUpdated v) ;;
      ret (true, mkUpdateSlot (serverListVersion e) (serverId e) full)
    else
      let* q := gets updates in
      let* v := gets version in
      assert (negb (bool_decide (length q = 0%nat))) ;;
      assert (match head q with
              | Some u => ProtoBuf.version_number u <=? v
              | None => false
              end) ;;
      assert (match last q with
              | Some u => v <=? ProtoBuf.version_number u
              | None => false
              end) ;;
      let hd := match head q with
                | Some u => ProtoBuf.version_number u
                | None => 0
                end in
      let targetVersion := wrap64 (serverListVersion e + 1) in
      match q !! Z.to_nat (wrap64 (targetVersion - hd)) with
      | None => throw OutOfRange
      | Some u =>
          modifyEntry index (set_isBeingUpdated targetVersion) ;;
          ret (true, mkUpdateSlot (serverListVersion e) (serverId e) u)
      end.

(** [updateEntryVersion]. *)
Definition updateEntryVersion (id : ServerId) (v : Z) : M unit :=
  catch
    (let* _ := getReferenceFromServerId id in
     modifyEntry (indexNumber id) (set_serverListVersion v) ;;
     modifyEntry (indexNumber id) (set_isBeingUpdated 0) ;;
     let* cur := gets version in
     when (v <? cur)
          (modify (with_lastScan
                     (fun ls => mkScan false (searchIndex ls) (minVersion ls)))))
    (ret tt).

(** ** The public interface

    Each method takes the lock and calls the overloads above. *)

Module Public.

Definition enlistedServerRecover (id : ServerId) (mask : ServiceMask)
    (readSpeed : Z) (loc : string) : M unit :=
  add id loc mask readSpeed ;; commitUpdate.

Definition add (id : ServerId) (loc : string) (mask : ServiceMask)
    (readSpeed : Z) : M unit :=
  add id loc mask readSpeed ;; commitUpdate.

Definition crashed (id : ServerId) : M unit :=
  crashed id ;; commitUpdate.

Definition remove (id : ServerId) : M unit :=
  remove id ;; commitUpdate.

Definition generateUniqueId : M ServerId := generateUniqueId.

Definition setMasterRecoveryInfo (id : ServerId) (recoveryInfo : Z) : M unit :=
  let* _ := getReferenceFromServerId id in
  modifyEntry (indexNumber id) (set_masterRecoveryInfo recoveryInfo) ;;
  SetMasterRecoveryInfo.execute id recoveryInfo.

Definition setMasterRecoveryInfoRecover (id : ServerId) (recoveryInfo : Z)
    (entryId : Z) : M unit :=
  SetMasterRecoveryInfo.complete id recoveryInfo entryId.

(** [enlistServer]. *)
Definition enlistServer (replacesId : ServerId) (mask : ServiceMask)
    (readSpeed : Z) (loc : string) : M ServerId :=
  let* old := gets (iget replacesId) in
  when (bool_decide (is_Some old)) (forceServerDown replacesId) ;;
  let* newServerId := EnlistServer.execute mask readSpeed loc in
  commitUpdate ;;
  ret newServerId.

Definition enlistServerRecover (id : ServerId) (mask : ServiceMask)
    (readSpeed : Z) (loc : string) (entryId : Z) : M unit :=
  let* _ := EnlistServer.complete id mask readSpeed loc entryId in
  commitUpdate.

(** [hintServerDown].  [serverFailed] is the verdict of
    [verifyServerFailure]: the ping did not complete, or the test
    override is set. *)
Definition hintServerDown (id : ServerId) (serverFailed : bool) : M bool :=
  let* found := gets (iget id) in
  match found with
  | None => ret true
  | Some e =>
      if bool_decide (status e <> UP) then ret true
      else if negb serverFailed then ret false
      else
        forceServerDown id ;;
        commitUpdate ;;
        ret true
  end.

Definition forceServerDownRecover (id : ServerId) (entryId : Z) : M unit :=
  ForceServerDown.complete id entryId.

End Public.

(** ** Histories of the list *)

(** The calls that change a [CoordinatorServerList]: the public methods,
    the recovery entry points, and the three the updater thread makes
    under the lock. *)
Inductive Call :=
  | CallAdd (id : ServerId) (loc : string) (mask : ServiceMask) (readSpeed : Z)
  | CallCrashed (id : ServerId)
  | CallRemove (id : ServerId)
  | CallGenerateUniqueId
  | CallSetMasterRecoveryInfo (id : ServerId) (recoveryInfo : Z)
  | CallSetMasterRecoveryInfoRecover (id : ServerId) (recoveryInfo : Z) (entryId : Z)
  | CallEnlistServer (replacesId : ServerId) (mask : ServiceMask) (readSpeed : Z)
      (loc : string)
  | CallEnlistServerRecover (id : ServerId) (mask : ServiceMask) (readSpeed : Z)
      (loc : string) (entryId : Z)
  | CallEnlistedServerRecover (id : ServerId) (mask : ServiceMask) (readSpeed : Z)
      (loc : string)
  | CallHintServerDown (id : ServerId) (serverFailed : bool)
  | CallForceServerDownRecover (id : ServerId) (entryId : Z)
  | CallHasUpdates
  | CallLoadNextUpdate (updateSlot : UpdateSlot)
  | CallUpdateEntryVersion (id : ServerId) (v : Z).

Definition perform (c : Call) : M unit :=
  match c with
  | CallAdd id loc mask readSpeed => Public.add id loc mask readSpeed
  | CallCrashed id => Public.crashed id
  | CallRemove id => Public.remove id
  | CallGenerateUniqueId => let* _ := Public.generateUniqueId in ret tt
  | CallSetMasterRecoveryInfo id info => Public.setMasterRecoveryInfo id info
  | CallSetMasterRecoveryInfoRecover id info entryId =>
      Public.setMasterRecoveryInfoRecover id info entryId
  | CallEnlistServer replacesId mask readSpeed loc =>
      let* _ := Public.enlistServer replacesId mask readSpeed loc in ret tt
  | CallEnlistServerRecover id mask readSpeed loc entryId =>
      Public.enlistServerRecover id mask readSpeed loc entryId
  | CallEnlistedServerRecover id mask readSpeed loc =>
      Public.enlistedServerRecover id mask readSpeed loc
  | CallHintServerDown id serverFailed =>
      let* _ := Public.hintServerDown id serverFailed in ret tt
  | CallForceServerDownRecover id entryId =>
      Public.forceServerDownRecover id entryId
  | CallHasUpdates => let* _ := hasUpdates in ret tt
  | CallLoadNextUpdate updateSlot => let* _ := loadNextUpdate updateSlot in ret tt
  | CallUpdateEntryVersion id v => updateEntryVersion id v
  end.

(** [Reachable n s]: [s] is the state of a list with [ts] trackers after
    [n] calls, each of which returned or threw. *)
Inductive Reachable (ts : nat) : nat -> CoordinatorServerList -> Prop :=
  | Reachable_initial : Reachable ts 0 (initial ts)
  | Reachable_call n s c s' :
      Reachable ts n s ->
      finalState (perform c s) = Some s' ->
      Reachable ts (S n) s'.

(** Running a list of calls, for concrete histories; a call that aborts
    leaves the state where it was. *)
Definition exec {A} (m : M A) (s : CoordinatorServerList) : CoordinatorServerList :=
  match finalState (m s) with
  | Some s' => s'
  | None => s
  end.

Definition execAll (cs : list Call) (s : CoordinatorServerList) : CoordinatorServerList :=
  foldl (fun s c => exec (perform c) s) s cs.

(** ** Predicates on states *)

(** Every entry sits in the slot its id names. *)
Definition wellIndexed (l : list GenerationNumberEntryPair) : Prop :=
  forall i p e, l !! i = Some p -> entry p = Some e -> indexNumber (serverId e) = i.

(** The entry in slot [i], if the slot exists and is occupied. *)
Definition entryAt (s : CoordinatorServerList) (i : nat) : option Entry :=
  match serverList s !! i with
  | Some p => entry p
  | None => None
  end.

(** The committed updates carry the versions [v - n + 1, ..., v], where
    [n] is the length of the queue. *)
Definition queueOk (v : Z) (q : list ProtoBuf.ServerList) : Prop :=
  forall i u, q !! i = Some u ->
    ProtoBuf.version_number u = v - Z.of_nat (length q - 1 - i).

(** The record [setReplicationId] appends for an entry. *)
Definition isRecord (id : ServerId) (st : ServerStatus) (r : ProtoBuf.ServerList_Entry) : Prop :=
  ProtoBuf.server_id r = id /\ ProtoBuf.entry_status r = st.

(** ** The hash-table entry word *)

Module HashTable.

Record UnpackedEntry := mkUnpackedEntry {
  hash : Z;
  chain : bool;
  ptr : Z
}.

Inductive PackResult :=
  | Packed (value : Z)
  | PackOutOfRange.

(** Modelled from the spec: [HashTable::Entry::pack] is defined in
    [HashTable.cc], which is not among the sources.  An entry is a 64-bit
    word holding a 16-bit secondary hash, a chain flag and a 47-bit
    reference; packing refuses a reference that does not fit in 47 bits. *)
Definition pack (hash : Z) (chain : bool) (ptr : Z) : PackResult :=
  if Z.shiftr ptr 47 =? 0 then
    Packed (Z.lor (Z.lor (wrap64 (Z.shiftl hash 48))
                         (Z.shiftl (if chain then 1 else 0) 47))
                  ptr)
  else PackOutOfRange.

(** Modelled from the spec: [HashTable::Entry::unpack], the inverse
    reading of the three fields. *)
Definition unpack (value : Z) : UnpackedEntry :=
  mkUnpackedEntry (Z.land (Z.shiftr value 48) 0xffff)
                  (Z.testbit value 47)
                  (Z.land value 0x7fffffffffff).

(** [HashTableEntryTest::packable]: whether the fields make it through
    [pack] and [unpack]; [None] when [pack] throws. *)
Definition packable (hash : Z) (chain : bool) (ptr : Z) : option bool :=
  match pack hash chain ptr with
  | Packed value =>
      let out := unpack value in
      Some ((hash =? HashTable.hash out) &&
            Bool.eqb chain (HashTable.chain out) &&
            (ptr =? HashTable.ptr out))
  | PackOutOfRange => None
  end.

End HashTable.

(** ** States the mutations lead to *)

(** What [enqueueChange] followed by [fireCallback] does to a tracker. *)
Definition notified (e : Entry) (ev : ServerChangeEvent) (t : Tracker) : Tracker :=
  mkTracker (changes t ++ [(e, ev)]) (S (callbacksFired t)).

(** The state [crashed] leaves when it marks the UP entry [e] of [id]. *)
Definition crashedState (id : ServerId) (e : Entry) (s : CoordinatorServerList)
    : CoordinatorServerList :=
  with_trackers (map (notified (set_status CRASHED e) SERVER_CRASHED))
    (with_update (ProtoBuf.add_server (serializeEntry (set_status CRASHED e)))
       (with_serverList
          (alter (fun p => mkPair (nextGenerationNumber p)
                                  (set_status CRASHED <$> entry p))
                 (indexNumber id))
          (with_numberOfBackups
             (fun n => if has (services e) BACKUP_SERVICE then wrap32 (n - 1) else n)
             (with_numberOfMasters
                (fun n => if has (services e) MASTER_SERVICE then wrap32 (n - 1) else n)
                s)))).

(** [serverList.resize(index + 1)] when [index] is past the end. *)
Definition grown (index : nat) (l : list GenerationNumberEntryPair)
    : list GenerationNumberEntryPair :=
  if bool_decide (length l <= index)%nat
  then l ++ replicate (S index - length l) emptyPair
  else l.

(** Two states that differ at most in [serverList]. *)
Definition sameButList (s s' : CoordinatorServerList) : Prop :=
  numberOfMasters s' = numberOfMasters s /\
  numberOfBackups s' = numberOfBackups s /\
  version s' = version s /\
  update s' = update s /\
  updates s' = updates s /\
  lastScan s' = lastScan s /\
  nextReplicationId s' = nextReplicationId s /\
  trackers s' = trackers s /\
  recoveries s' = recoveries s /\
  logCabin s' = logCabin s.

(** The occupied entries of the slot vector, in slot order. *)
Definition occupied (l : list GenerationNumberEntryPair) : list Entry :=
  omap entry l.

(** ** How a method may move the version and the update queue *)

(** [m] leaves the version alone and at most drops updates from the front
    of the queue. *)
Definition prunes {A} (m : M A) : Prop :=
  forall s s', finalState (m s) = Some s' ->
    version s' = version s /\ exists k, updates s' = drop k (updates s).

(** [m] does as [prunes] allows, or commits once: the version moves to its
    successor and one update stamped with it joins the back of the queue. *)
Definition commitsAtMostOnce {A} (m : M A) : Prop :=
  forall s s', finalState (m s) = Some s' ->
    (version s' = version s /\ exists k, updates s' = drop k (updates s)) \/
    (version s' = wrap64 (version s + 1) /\
     exists k u, updates s' = drop k (updates s ++ [u]) /\
                 ProtoBuf.version_number u = version s').

(** ** Replication-group bookkeeping *)

(** A slot whose entry, if any, has its replication id set to [rid]. *)
Definition setRidPair (rid : Z) (p : GenerationNumberEntryPair)
    : GenerationNumberEntryPair :=
  mkPair (nextGenerationNumber p) (set_replicationId rid <$> entry p).

(** The state [setReplicationId id rid] leaves when [e], the entry of
    [id], is UP. *)
Definition assignedState (id : ServerId) (rid : Z) (e : Entry)
    (s : CoordinatorServerList) : CoordinatorServerList :=
  with_update (ProtoBuf.add_server (serializeEntry (set_replicationId rid e)))
    (with_serverList (alter (setRidPair rid) (indexNumber id)) s).

(** The test both group scans apply to a slot: an UP backup whose
    replication id is [groupId]. *)
Definition inGroup (groupId : Z) (p : GenerationNumberEntryPair) : bool :=
  match entry p with
  | Some e => isBackup e && (replicationId e =? groupId)
  | None => false
  end.

(** A slot after [removeReplicationGroup groupId]. *)
Definition resetPair (groupId : Z) (p : GenerationNumberEntryPair)
    : GenerationNumberEntryPair :=
  if inGroup groupId p then setRidPair 0 p else p.

(** The records [removeReplicationGroup groupId] appends while it walks
    the slots [l], having collected the entries [group] so far: at every
    slot, one record for every entry collected up to and including it. *)
Fixpoint removeGroupRecords (groupId : Z) (l : list GenerationNumberEntryPair)
    (group : list Entry) : list ProtoBuf.ServerList_Entry :=
  match l with
  | [] => []
  | p :: rest =>
      let group' :=
        match entry p with
        | Some e =>
            if isBackup e && (replicationId e =? groupId)
            then group ++ [set_replicationId 0 e] else group
        | None => group
        end in
      map serializeEntry group' ++ removeGroupRecords groupId rest group'
  end.

(** How many of the records [recs] are about the server [id]. *)
Definition recordsFor (id : ServerId) (recs : list ProtoBuf.ServerList_Entry) : nat :=
  length (filter (fun r => ProtoBuf.server_id r = id) recs).

(** The pending delta of [s'] is that of [s] with [recs] appended. *)
Definition appended (s s' : CoordinatorServerList)
    (recs : list ProtoBuf.ServerList_Entry) : Prop :=
  update s' =
  ProtoBuf.mkServerList (ProtoBuf.server (update s) ++ recs)
                        (ProtoBuf.version_number (update s))
                        (ProtoBuf.type (update s)).

(** What the group operations may change: replication ids inside UP
    entries, the pending delta (by records of UP entries) and
    [nextReplicationId]. *)
Definition regrouped (s s' : CoordinatorServerList) : Prop :=
  length (serverList s') = length (serverList s) /\
  (forall i,
     match entryAt s i with
     | Some e =>
         exists rid,
           entryAt s' i = Some (set_replicationId rid e) /\
           (status e <> UP -> rid = replicationId e)
     | None => entryAt s' i = None
     end) /\
  (exists recs,
     appended s s' recs /\
     Forall (fun r => ProtoBuf.entry_status r = UP) recs) /\
  numberOfMasters s' = numberOfMasters s /\
  numberOfBackups s' = numberOfBackups s /\
  version s' = version s /\
  updates s' = updates s /\
  lastScan s' = lastScan s /\
  trackers s' = trackers s /\
  recoveries s' = recoveries s /\
  logCabin s' = logCabin s.

(** The replication id handed to the [k]-th group formed from
    [nextReplicationId = next]. *)
Definition nthReplicationId (next : Z) (k : nat) : Z :=
  Nat.iter k (fun n => wrap64 (n + 1)) next.

(** "Pops candidates in list order", as the specification words the
    grouping policy: counting from the front of the candidate list, the
    candidates at positions [3k], [3k+1], [3k+2] form the [k]-th group. *)
Definition assignsInListOrder (s s' : CoordinatorServerList) : Prop :=
  let free := freeBackups (serverList s) in
  forall j id,
    free !! j = Some id -> (j < 3 * (length free / 3))%nat ->
    replicationId <$> iget id s' =
    Some (nthReplicationId (nextReplicationId s) (j / 3)).

(** "Each assignment is atomic": a group whose assignment fails leaves all
    of its members with the replication ids they had. *)
Definition assignsAtomically (rid : Z) (group : list ServerId)
    (s : CoordinatorServerList) : Prop :=
  forall s', assignReplicationGroup rid group s = Returned false s' ->
    forall id, id ∈ group -> iget id s' = iget id s.

(** The state [remove] leaves when the entry [e] of [id] is already
    CRASHED: the slot is emptied after a last record, with status DOWN,
    went to the pending delta and to the trackers. *)
Definition removedState (id : ServerId) (e : Entry) (s : CoordinatorServerList)
    : CoordinatorServerList :=
  with_trackers (map (notified (set_status DOWN e) SERVER_REMOVED))
    (with_serverList
       (alter (fun p => mkPair (nextGenerationNumber p) None) (indexNumber id))
       (with_update (ProtoBuf.add_server (serializeEntry (set_status DOWN e)))
          (with_serverList
             (alter (fun p => mkPair (nextGenerationNumber p)
                                     (set_status DOWN <$> entry p))
                    (indexNumber id))
             s))).

(** The state [crashed] leaves for the entry [e] of [id], UP or already
    CRASHED. *)
Definition markedState (id : ServerId) (e : Entry) (s : CoordinatorServerList)
    : CoordinatorServerList :=
  if bool_decide (status e = UP) then crashedState id e s else s.

(** The first phase of [ForceServerDown::complete] on the entry [e] of
    [id]: [crashed], then [remove] unless the server is a master, then
    the call to the recovery manager. *)
Definition downState (id : ServerId) (e : Entry) (s : CoordinatorServerList)
    : CoordinatorServerList :=
  with_recoveries (fun l => l ++ [e])
    (if has (services e) MASTER_SERVICE then markedState id e s
     else removedState id (set_status CRASHED e) (markedState id e s)).

(** The records that phase appends to the pending delta. *)
Definition downRecords (e : Entry) : list ProtoBuf.ServerList_Entry :=
  (if bool_decide (status e = UP)
   then [serializeEntry (set_status CRASHED e)] else []) ++
  (if has (services e) MASTER_SERVICE then []
   else [serializeEntry (set_status DOWN e)]).

(** What that phase tells a tracker. *)
Definition downNotified (e : Entry) (t : Tracker) : Tracker :=
  let t1 := if bool_decide (status e = UP)
            then notified (set_status CRASHED e) SERVER_CRASHED t else t in
  if has (services e) MASTER_SERVICE then t1
  else notified (set_status DOWN e) SERVER_REMOVED t1.

(** "Resets to 0 the replicationId of every UP backup that shared the
    victim's replication group", read of the state [s'] that
    [ForceServerDown::complete] returns for the victim [id] with entry
    [e] in [s]. *)
Definition groupmatesCleared (id : ServerId) (e : Entry)
    (s s' : CoordinatorServerList) : Prop :=
  forall id' e', id' <> id -> iget id' s = Some e' -> isBackup e' = true ->
    replicationId e' = replicationId e ->
    replicationId <$> iget id' s' = Some 0.

(** The pending delta grows by [recs] while the version, the update queue
    and the updater's cursor stay as they are. *)
Definition queued (s s' : CoordinatorServerList)
    (recs : list ProtoBuf.ServerList_Entry) : Prop :=
  appended s s' recs /\ version s' = version s /\ updates s' = updates s /\
  lastScan s' = lastScan s.

(** The delta of a replacement as the specification describes it: among
    the records, in this order, one for the old id with status CRASHED,
    one for the old id with status DOWN, one for the new id with status
    UP. *)
Definition replacementDelta (old new : ServerId)
    (recs : list ProtoBuf.ServerList_Entry) : Prop :=
  exists a b c pre mid1 mid2 post,
    recs = pre ++ [a] ++ mid1 ++ [b] ++ mid2 ++ [c] ++ post /\
    isRecord old CRASHED a /\ isRecord old DOWN b /\ isRecord new UP c.

(** A check of [wellIndexed] that computes: [l] holds the slots from
    position [i] on. *)
Fixpoint wellIndexedFrom (i : nat) (l : list GenerationNumberEntryPair) : bool :=
  match l with
  | [] => true
  | p :: l' =>
      match entry p with
      | Some e => Nat.eqb (indexNumber (serverId e)) i
      | None => true
      end && wellIndexedFrom (S i) l'
  end.

(** [m] keeps every entry in the slot its id names. *)
Definition keepsIndexed {A} (m : M A) : Prop :=
  forall s s', wellIndexed (serverList s) -> finalState (m s) = Some s' ->
    wellIndexed (serverList s').

(** ** Queries ([operator[]], the counters, the index scans) *)

(** What [getReferenceFromIndex] gives: a copy of the slot's [Tub], or
    the exception "Index beyond array length". *)
Inductive IndexResult :=
  | TubCopy (t : option Entry)
  | IndexBeyondArray.

(** [getReferenceFromIndex(lock, index)]. *)
Definition getReferenceFromIndex (index : nat) (s : CoordinatorServerList)
    : IndexResult :=
  match serverList s !! index with
  | Some p => TubCopy (entry p)
  | None => IndexBeyondArray
  end.

(** The loop shared by [nextMasterIndex] and [nextBackupIndex]: [l] is
    the part of the vector from position [startIndex] on, [wanted] the
    test ([isMaster] or [isBackup]).  The result is the value of
    [startIndex] when the loop ends. *)
Fixpoint scanFor (wanted : Entry -> bool) (l : list GenerationNumberEntryPair)
    (startIndex : nat) : nat :=
  match l with
  | [] => startIndex
  | p :: l' =>
      match entry p with
      | Some e => if wanted e then startIndex else scanFor wanted l' (S startIndex)
      | None => scanFor wanted l' (S startIndex)
      end
  end.

Module Queries.

(** [operator[](const ServerId&)]. *)
Definition atServerId (id : ServerId) : M Entry := getReferenceFromServerId id.

(** [operator[](size_t)]. *)
Definition atIndex (index : nat) (s : CoordinatorServerList) : IndexResult :=
  getReferenceFromIndex index s.

Definition masterCount (s : CoordinatorServerList) : Z := numberOfMasters s.

Definition backupCount (s : CoordinatorServerList) : Z := numberOfBackups s.

(** [nextMasterIndex(startIndex)]: [-1], as a [uint32_t], when the scan
    runs off the end.  The [uint32_t] counter does not wrap while the
    vector has fewer than 2^32 slots. *)
Definition nextMasterIndex (startIndex : nat) (s : CoordinatorServerList) : Z :=
  let i := scanFor isMaster (drop startIndex (serverList s)) startIndex in
  if bool_decide (length (serverList s) <= i)%nat then wrap32 (-1)
  else Z.of_nat i.

(** [nextBackupIndex(startIndex)]. *)
Definition nextBackupIndex (startIndex : nat) (s : CoordinatorServerList) : Z :=
  let i := scanFor isBackup (drop startIndex (serverList s)) startIndex in
  if bool_decide (length (serverList s) <= i)%nat then wrap32 (-1)
  else Z.of_nat i.

End Queries.

(** The loop of [isClusterUpToDate], over the slots still to visit. *)
Fixpoint upToDateLoop (v : Z) (l : list GenerationNumberEntryPair) : bool :=
  match l with
  | [] => true
  | p :: l' =>
      match entry p with
      | None => upToDateLoop v l'
      | Some e =>
          if has (services e) MEMBERSHIP_SERVICE && bool_decide (status e = UP) &&
             (negb (serverListVersion e =? v) || (0 <? isBeingUpdated e))
          then false
          else upToDateLoop v l'
      end
  end.

(** [isClusterUpToDate]. *)
Definition isClusterUpToDate (s : CoordinatorServerList) : bool :=
  upToDateLoop (version s) (serverList s).

(** The test "Check for Update eligibility" of [hasUpdates], together
    with the membership test around it: the entry takes server-list
    updates, is behind version [v], and has no rpc under way. *)
Definition needsUpdate (v : Z) (e : Entry) : bool :=
  has (services e) MEMBERSHIP_SERVICE && bool_decide (status e = UP) &&
  negb (serverListVersion e =? v) && (isBeingUpdated e =? 0).

(** ** Log positions ([Log.h]) *)

Module Log.

(** [Log::Position]: a [std::pair<uint64_t, uint32_t>]. *)
Record Position := mkPosition {
  segmentId : Z;
  segmentOffset : Z
}.

(** [Position()]. *)
Definition origin : Position := mkPosition 0 0.

(** [Position(segmentId, segmentOffset)]: [downCast<uint32_t>] asserts
    that the offset fits in 32 bits. *)
Definition position (segId segOffset : Z) : option Position :=
  if segOffset <? 2 ^ 32 then Some (mkPosition segId segOffset) else None.

(** The comparison operators, which are those of [std::pair]. *)
Definition eq (a b : Position) : bool :=
  (segmentId a =? segmentId b) && (segmentOffset a =? segmentOffset b).

Definition ne (a b : Position) : bool := negb (eq a b).

Definition lt (a b : Position) : bool :=
  (segmentId a <? segmentId b) ||
  (negb (segmentId b <? segmentId a) && (segmentOffset a <? segmentOffset b)).

Definition le (a b : Position) : bool := negb (lt b a).

Definition gt (a b : Position) : bool := lt b a.

Definition ge (a b : Position) : bool := negb (lt a b).

End Log.

(** ** The updater's scan *)

(** [s'] differs from [s] at most in the updater's cursor and in updates
    dropped from the front of the queue: what a scan of [hasUpdates] may
    change. *)
Definition scanned (s s' : CoordinatorServerList) : Prop :=
  serverList s' = serverList s /\
  numberOfMasters s' = numberOfMasters s /\
  numberOfBackups s' = numberOfBackups s /\
  version s' = version s /\
  update s' = update s /\
  nextReplicationId s' = nextReplicationId s /\
  trackers s' = trackers s /\
  recoveries s' = recoveries s /\
  logCabin s' = logCabin s /\
  exists k, updates s' = drop k (updates s).

(** No version recorded in an entry or in the cursor is ahead of the
    version of the list. *)
Definition versionsBounded (s : CoordinatorServerList) : Prop :=
  0 <= version s /\
  minVersion (lastScan s) <= version s /\
  forall j e, entryAt s j = Some e ->
    serverListVersion e <= version s /\ isBeingUpdated e <= version s.

(** The slots a scan that is at [i] visits before it is back at [start],
    in a vector of [size] slots. *)
Definition inCycle (i start size j : nat) : Prop :=
  if (i <? start)%nat then (i <= j < start)%nat
  else (i <= j < size)%nat \/ (j < start)%nat.

(** The number of those slots. *)
Definition cycleLength (i start size : nat) : nat :=
  if (i <? start)%nat then start - i else size - i + start.

(** ** Entries as [add] builds them *)

(** The entry [add] constructs: [expectedReadMBytesPerSec] is set for a
    backup only. *)
Definition addedEntry (id : ServerId) (loc : string) (mask : ServiceMask)
    (readSpeed : Z) : Entry :=
  (if has mask BACKUP_SERVICE then set_expectedReadMBytesPerSec readSpeed
   else fun e => e) (newEntry id loc mask).

(** ** Relations every call respects *)

(** [m] takes every state to one that [R] relates to it, whether it
    returns or throws. *)
Definition relates (R : CoordinatorServerList -> CoordinatorServerList -> Prop)
    {A} (m : M A) : Prop :=
  forall s s', finalState (m s) = Some s' -> R s s'.

(** A field setter that leaves the identity, the status and the services
    of an entry alone. *)
Definition keepsRole (f : Entry -> Entry) : Prop :=
  forall x, serverId (f x) = serverId x /\ status (f x) = status x /\
            services (f x) = services x.

(** What a preorder on states has to satisfy for every
    method that allocates no slot to respect it: the writes to entry
    fields other than the status, the writes to the scalar fields of the
    list, and the five methods whose intermediate states need not be
    related ([crashed], [remove], [appendToUpdate], [commitUpdate],
    [pruneUpdates]). *)
Class Stepwise (R : CoordinatorServerList -> CoordinatorServerList -> Prop) := {
  stepwise_preorder :: PreOrder R;
  stepwise_modifyEntry : forall i f, keepsRole f -> relates R (modifyEntry i f);
  stepwise_crashed : forall id, relates R (crashed id);
  stepwise_remove : forall id, relates R (remove id);
  stepwise_appendToUpdate : forall e, relates R (appendToUpdate e);
  stepwise_nextReplicationId : forall f, relates R (modify (with_nextReplicationId f));
  stepwise_logCabin : forall f, relates R (modify (with_logCabin f));
  stepwise_recoveries : forall f, relates R (modify (with_recoveries f));
  stepwise_lastScan : forall f, relates R (modify (with_lastScan f));
  stepwise_commitUpdate : relates R commitUpdate;
  stepwise_pruneUpdates : forall v, relates R (pruneUpdates v)
}.

(** The two methods that allocate slots. *)
Class Allocates (R : CoordinatorServerList -> CoordinatorServerList -> Prop) := {
  allocates_generateUniqueId : relates R generateUniqueId;
  allocates_add : forall id loc mask readSpeed, relates R (add id loc mask readSpeed)
}.

(** The calls that allocate no slot: all but the enlistments, the raw
    [add] and [generateUniqueId]. *)
Definition steady (c : Call) : bool :=
  match c with
  | CallAdd _ _ _ _ | CallGenerateUniqueId | CallEnlistServer _ _ _ _
  | CallEnlistServerRecover _ _ _ _ _ | CallEnlistedServerRecover _ _ _ _ => false
  | _ => true
  end.

(** What the trackers of [s'] have received since [s]: the same changes,
    in the same order, with one callback for each. *)
Definition told (evs : list (Entry * ServerChangeEvent)) (t : Tracker) : Tracker :=
  mkTracker (changes t ++ evs) (length evs + callbacksFired t).

Definition sameNews (s s' : CoordinatorServerList) : Prop :=
  exists evs, trackers s' = map (told evs) (trackers s).

(** A committed update as [commitUpdate] queues it, and a pending delta
    as [update.Clear()] and [add_server] leave it. *)
Definition stamped (u : ProtoBuf.ServerList) : Prop :=
  ProtoBuf.server u <> [] /\ ProtoBuf.type u = Some ProtoBuf.UPDATE.

Definition queueStamped (s : CoordinatorServerList) : Prop :=
  ProtoBuf.type (update s) = None /\ ProtoBuf.version_number (update s) = 0 /\
  Forall stamped (updates s).

Definition keepsStamped (s s' : CoordinatorServerList) : Prop :=
  queueStamped s -> queueStamped s'.

(** ** Histories that issue ids *)

(** The histories of a coordinator that is not recovering: ids come from
    [generateUniqueId] and [enlistServer] only (the raw [add] and the
    recovery entry points, which take an id from their caller, are left
    out).  [Issued ts n ids s]: after [n] calls the list is in state [s]
    and has handed out the ids [ids], the latest first. *)
Inductive Issued (ts : nat) : nat -> list ServerId -> CoordinatorServerList -> Prop :=
  | Issued_initial : Issued ts 0 [] (initial ts)
  | Issued_generate n ids s id s' :
      Issued ts n ids s ->
      Public.generateUniqueId s = Returned id s' ->
      Issued ts (S n) (id :: ids) s'
  | Issued_enlist n ids s replacesId mask readSpeed loc id s' :
      Issued ts n ids s ->
      Public.enlistServer replacesId mask readSpeed loc s = Returned id s' ->
      Issued ts (S n) (id :: ids) s'
  | Issued_steady n ids s c s' :
      Issued ts n ids s ->
      steady c = true ->
      finalState (perform c s) = Some s' ->
      Issued ts (S n) ids s'.

(** [s'] has the slots of [s], each with the [nextGenerationNumber] it
    had, and holds no entry under an id that was not in the same slot of
    [s]. *)
Definition sameSlots (s s' : CoordinatorServerList) : Prop :=
  forall i,
    match serverList s !! i, serverList s' !! i with
    | Some p, Some p' =>
        nextGenerationNumber p' = nextGenerationNumber p /\
        forall e', entry p' = Some e' ->
                   exists e, entry p = Some e /\ serverId e' = serverId e
    | None, None => True
    | _, _ => False
    end.

(** What the history has established about the ids issued so far. *)
Definition issuedOk (n : nat) (ids : list ServerId) (s : CoordinatorServerList)
    : Prop :=
  NoDup ids /\
  (forall x, x ∈ ids ->
     exists p, serverList s !! indexNumber x = Some p /\
               generationNumber x < nextGenerationNumber p) /\
  (forall i p, serverList s !! i = Some p ->
     1 <= nextGenerationNumber p <= Z.of_nat n + 1) /\
  (forall i p e, serverList s !! i = Some p -> entry p = Some e ->
     serverId e ∈ ids) /\
  (length (serverList s) <= n + 1)%nat.

(** ** The updater's hand-over *)

(** The state [loadNextUpdate] leaves when it has loaded an update for
    the entry in slot [index]: the cursor is one slot further, and the
    entry is marked as being updated to [target]. *)
Definition loadedState (index : nat) (target : Z) (s1 : CoordinatorServerList)
    : CoordinatorServerList :=
  with_serverList
    (alter (fun p => mkPair (nextGenerationNumber p)
                            (set_isBeingUpdated target <$> entry p)) index)
    (with_lastScan
       (fun ls => mkScan (noUpdatesFound ls)
                         ((searchIndex ls + 1) mod length (serverList s1))%nat
                         (minVersion ls)) s1).

(** ** Counting masters and backups *)

(** The number of entries of the vector that pass [wanted]. *)
Fixpoint countOf (wanted : Entry -> bool) (l : list GenerationNumberEntryPair)
    : nat :=
  match l with
  | [] => 0
  | p :: l' =>
      (match entry p with
       | Some e => Nat.b2n (wanted e)
       | None => 0
       end + countOf wanted l')%nat
  end.

(** Whether slot [j] of the vector holds an entry that passes [wanted]. *)
Definition offersAt (wanted : Entry -> bool) (l : list GenerationNumberEntryPair)
    (j : nat) : bool :=
  match l !! j with
  | Some p =>
      match entry p with
      | Some e => wanted e
      | None => false
      end
  | None => false
  end.

(** The two counters, as [uint32_t], are the numbers of masters and of
    backups in the vector. *)
Definition countersOk (s : CoordinatorServerList) : Prop :=
  numberOfMasters s = wrap32 (Z.of_nat (countOf isMaster (serverList s))) /\
  numberOfBackups s = wrap32 (Z.of_nat (countOf isBackup (serverList s))).

Definition keepsCounted (s s' : CoordinatorServerList) : Prop :=
  countersOk s -> countersOk s'.

(** * Properties *)

(** ** Stepping through a method *)

Ltac unfold_monad :=
  unfold bind, gets, modify, ret, when, assert, throw, abort, catch in *.

Lemma iget_Some (id : ServerId) (s : CoordinatorServerList) (e : Entry) :
  iget id s = Some e <->
  exists p, serverList s !! indexNumber id = Some p /\ entry p = Some e /\
            serverId e = id.
Proof.
  unfold iget. split.
  - destruct (serverList s !! indexNumber id) as [p|]; [|discriminate].
    destruct (entry p) as [d|] eqn:Hp; [|discriminate].
    destruct (decide (serverId d = id)); [|discriminate].
    intros [= <-]. eauto.
  - intros (p & -> & -> & Hid). rewrite decide_True by done. reflexivity.
Qed.

Lemma iget_entryAt (id : ServerId) (s : CoordinatorServerList) (e : Entry) :
  iget id s = Some e -> entryAt s (indexNumber id) = Some e.
Proof.
  intros (p & Hp & He & _)%iget_Some. unfold entryAt. rewrite Hp. exact He.
Qed.

Lemma iget_serverId (id : ServerId) (s : CoordinatorServerList) (e : Entry) :
  iget id s = Some e -> serverId e = id.
Proof. intros (p & _ & _ & H)%iget_Some. exact H. Qed.

Lemma invalidServerId_iget (id : ServerId) (s : CoordinatorServerList) :
  invalidServerId id s = bool_decide (iget id s = None).
Proof.
  unfold invalidServerId, iget.
  destruct (serverList s !! indexNumber id) as [p|]; [|reflexivity].
  destruct (entry p) as [e|]; [|reflexivity].
  destruct (decide (serverId e = id)) as [E|E].
  - rewrite bool_decide_false by (intros ?; done).
    rewrite bool_decide_false; [reflexivity|discriminate].
  - rewrite bool_decide_true by done. reflexivity.
Qed.

Lemma getReferenceFromServerId_iget (id : ServerId) (s : CoordinatorServerList) :
  getReferenceFromServerId id s =
  match iget id s with
  | Some e => Returned e s
  | None => Thrown ServerListException s
  end.
Proof.
  unfold getReferenceFromServerId, iget.
  destruct (serverList s !! indexNumber id) as [p|]; [|reflexivity].
  destruct (entry p) as [e|]; [|reflexivity].
  destruct (decide (serverId e = id)); reflexivity.
Qed.

Lemma derefEntry_entryAt (i : nat) (s : CoordinatorServerList) :
  derefEntry i s =
  match entryAt s i with
  | Some e => Returned e s
  | None => Abort Undefined
  end.
Proof.
  unfold derefEntry, entryAt.
  destruct (serverList s !! i) as [p|]; [|reflexivity].
  destruct (entry p); reflexivity.
Qed.

(** ** [commitUpdate] *)

(** What [commitUpdate] does, for an empty and for a non-empty pending
    delta. *)
Lemma commitUpdate_effect (s : CoordinatorServerList) :
  (ProtoBuf.server (update s) = [] -> commitUpdate s = Returned tt s) /\
  (ProtoBuf.server (update s) <> [] ->
   exists s',
     commitUpdate s = Returned tt s' /\
     version s' = wrap64 (version s + 1) /\
     (0 <= version s < 2 ^ 64 - 1 -> version s' = version s + 1) /\
     updates s' =
       updates s ++
       [ProtoBuf.mkServerList (ProtoBuf.server (update s)) (version s')
                              (Some ProtoBuf.UPDATE)] /\
     update s' = ProtoBuf.empty /\
     noUpdatesFound (lastScan s') = false /\
     searchIndex (lastScan s') = searchIndex (lastScan s) /\
     minVersion (lastScan s') = minVersion (lastScan s) /\
     serverList s' = serverList s /\
     numberOfMasters s' = numberOfMasters s /\
     numberOfBackups s' = numberOfBackups s /\
     nextReplicationId s' = nextReplicationId s /\
     trackers s' = trackers s /\
     recoveries s' = recoveries s /\
     logCabin s' = logCabin s).
Proof.
  unfold commitUpdate. unfold_monad. split.
  - intros ->. reflexivity.
  - intros Hne.
    rewrite bool_decide_false
      by (intros Hlen; apply Hne; destruct (ProtoBuf.server (update s)); done).
    eexists. split; [reflexivity|]. simpl.
    repeat split; try reflexivity.
    intros Hv. unfold wrap64. apply Z.mod_small. lia.
Qed.


(** C1.  With an empty pending delta [commitUpdate] changes nothing: the
    version, the update queue and the pending delta stay as they were.
    With a non-empty pending delta it increments the version by one
    (modulo 2^64, so by exactly 1 below the top of the range), stamps the
    delta with type UPDATE and the new version, appends it to the update
    queue, clears the pending delta and clears the no-updates-found flag;
    nothing else changes. *)
Theorem commitUpdate_spec (s : CoordinatorServerList) :
  (ProtoBuf.server (update s) = [] -> commitUpdate s = Returned tt s) /\
  (ProtoBuf.server (update s) <> [] ->
   exists s',
     commitUpdate s = Returned tt s' /\
     version s' = wrap64 (version s + 1) /\
     (0 <= version s < 2 ^ 64 - 1 -> version s' = version s + 1) /\
     updates s' =
       updates s ++
       [ProtoBuf.mkServerList (ProtoBuf.server (update s)) (version s')
                              (Some ProtoBuf.UPDATE)] /\
     update s' = ProtoBuf.empty /\
     noUpdatesFound (lastScan s') = false /\
     searchIndex (lastScan s') = searchIndex (lastScan s) /\
     minVersion (lastScan s') = minVersion (lastScan s) /\
     serverList s' = serverList s /\
     numberOfMasters s' = numberOfMasters s /\
     numberOfBackups s' = numberOfBackups s /\
     nextReplicationId s' = nextReplicationId s /\
     trackers s' = trackers s /\
     recoveries s' = recoveries s /\
     logCabin s' = logCabin s).
Proof. exact (commitUpdate_effect s). Qed.

Lemma commitUpdate_spec_witness :
  let s := with_update (ProtoBuf.add_server (serializeEntry
             (newEntry (mkServerId 1 1) "tcp:1" (maskOf [MASTER_SERVICE]))))
             (initial 1) in
  exists s',
    commitUpdate s = Returned tt s' /\
    version s' = wrap64 (version s + 1) /\
    (0 <= version s < 2 ^ 64 - 1 -> version s' = version s + 1) /\
    updates s' =
      updates s ++
      [ProtoBuf.mkServerList (ProtoBuf.server (update s)) (version s')
                             (Some ProtoBuf.UPDATE)] /\
    update s' = ProtoBuf.empty /\
    noUpdatesFound (lastScan s') = false /\
    searchIndex (lastScan s') = searchIndex (lastScan s) /\
    minVersion (lastScan s') = minVersion (lastScan s) /\
    serverList s' = serverList s /\
    numberOfMasters s' = numberOfMasters s /\
    numberOfBackups s' = numberOfBackups s /\
    nextReplicationId s' = nextReplicationId s /\
    trackers s' = trackers s /\
    recoveries s' = recoveries s /\
    logCabin s' = logCabin s.
Proof.
  intros s. apply (proj2 (commitUpdate_spec s)). simpl. discriminate.
Defined.

(** ** [crashed] *)

Lemma notifyTrackers_eq (e : Entry) (ev : ServerChangeEvent) (s : CoordinatorServerList) :
  notifyTrackers e ev s =
  Returned tt (with_trackers (map (notified e ev)) s).
Proof.
  unfold notifyTrackers. unfold_monad. unfold with_trackers. simpl.
  rewrite map_map. reflexivity.
Qed.

Lemma entryAt_modifyEntry (l : list GenerationNumberEntryPair) (i j : nat)
    (f : Entry -> Entry) :
  match alter (fun p => mkPair (nextGenerationNumber p) (f <$> entry p)) i l !! j with
  | Some p => entry p
  | None => None
  end =
  if decide (i = j) then f <$> match l !! j with Some p => entry p | None => None end
  else match l !! j with Some p => entry p | None => None end.
Proof.
  destruct (decide (i = j)) as [->|Hne].
  - rewrite list_lookup_alter_eq. destruct (l !! j); reflexivity.
  - rewrite list_lookup_alter_ne by done. reflexivity.
Qed.

Lemma crashed_up (id : ServerId) (e : Entry) (s : CoordinatorServerList) :
  iget id s = Some e -> status e = UP ->
  crashed id s = Returned tt (crashedState id e s).
Proof.
  intros Hget Hup. pose proof (iget_entryAt _ _ _ Hget) as Hat.
  unfold crashed. unfold bind at 1. unfold gets at 1.
  rewrite invalidServerId_iget, Hget, bool_decide_false by discriminate.
  unfold bind at 1. rewrite derefEntry_entryAt, Hat.
  rewrite bool_decide_false by (rewrite Hup; discriminate).
  unfold isMaster, isBackup. rewrite Hup.
  rewrite !bool_decide_true by done. simpl.
  unfold crashedState.
  unfold entryAt in Hat.
  destruct (serverList s !! indexNumber id) as [p|] eqn:Hp; [|discriminate].
  destruct (has (services e) MASTER_SERVICE), (has (services e) BACKUP_SERVICE);
    unfold_monad; simpl;
    rewrite derefEntry_entryAt; unfold entryAt; simpl;
    rewrite list_lookup_alter_eq, Hp; simpl; rewrite Hat; simpl;
    rewrite notifyTrackers_eq; reflexivity.
Qed.

Lemma crashed_already (id : ServerId) (e : Entry) (s : CoordinatorServerList) :
  iget id s = Some e -> status e = CRASHED -> crashed id s = Returned tt s.
Proof.
  intros Hget Hst. pose proof (iget_entryAt _ _ _ Hget) as Hat.
  unfold crashed. unfold_monad.
  rewrite invalidServerId_iget, Hget, bool_decide_false by discriminate.
  rewrite derefEntry_entryAt, Hat, bool_decide_true by done. reflexivity.
Qed.

(** C6.  [crashed] is a no-op when the entry is already CRASHED; it
    throws the unknown-server exception and leaves the state as it was
    when the id does not match the slot's current entry; on a DOWN entry
    its assertion fails; on an UP entry it sets the status to CRASHED,
    decrements the master counter iff the entry has the MASTER service and
    the backup counter iff it has the BACKUP service, appends one record
    for the entry to the pending delta, and enqueues CRASHED on every
    tracker and fires its callback. *)
Theorem crashed_spec (id : ServerId) (s : CoordinatorServerList) :
  (forall e, iget id s = Some e -> status e = CRASHED ->
     crashed id s = Returned tt s) /\
  (iget id s = None -> crashed id s = Thrown ServerListException s) /\
  (forall e, iget id s = Some e -> status e = DOWN ->
     crashed id s = Abort AssertionFailed) /\
  (forall e, iget id s = Some e -> status e = UP ->
     exists s',
       crashed id s = Returned tt s' /\
       iget id s' = Some (set_status CRASHED e) /\
       (forall j, j <> indexNumber id -> serverList s' !! j = serverList s !! j) /\
       length (serverList s') = length (serverList s) /\
       numberOfMasters s' =
         (if has (services e) MASTER_SERVICE
          then wrap32 (numberOfMasters s - 1) else numberOfMasters s) /\
       numberOfBackups s' =
         (if has (services e) BACKUP_SERVICE
          then wrap32 (numberOfBackups s - 1) else numberOfBackups s) /\
       update s' =
         ProtoBuf.add_server (serializeEntry (set_status CRASHED e)) (update s) /\
       trackers s' =
         map (fun t => mkTracker
                         (changes t ++ [(set_status CRASHED e, SERVER_CRASHED)])
                         (S (callbacksFired t)))
             (trackers s) /\
       version s' = version s /\
       updates s' = updates s /\
       lastScan s' = lastScan s /\
       nextReplicationId s' = nextReplicationId s /\
       recoveries s' = recoveries s /\
       logCabin s' = logCabin s).
Proof.
  repeat split.
  - intros e Hget Hst. exact (crashed_already id e s Hget Hst).
  - intros Hget. unfold crashed. unfold_monad.
    rewrite invalidServerId_iget, Hget, bool_decide_true by done. reflexivity.
  - intros e Hget Hst. pose proof (iget_entryAt _ _ _ Hget) as Hat.
    unfold crashed. unfold_monad.
    rewrite invalidServerId_iget, Hget, bool_decide_false by discriminate.
    rewrite derefEntry_entryAt, Hat.
    rewrite bool_decide_false by (rewrite Hst; discriminate).
    rewrite bool_decide_false by (rewrite Hst; intros H; apply H; reflexivity).
    reflexivity.
  - intros e Hget Hup. exists (crashedState id e s).
    split; [apply crashed_up; assumption|].
    split.
    { apply iget_Some in Hget as (p & Hp & He & Hid).
      apply iget_Some. simpl. rewrite list_lookup_alter_eq, Hp. simpl.
      eexists. split; [reflexivity|]. simpl. rewrite He. split; [reflexivity|].
      exact Hid. }
    split.
    { intros j Hj. simpl. apply list_lookup_alter_ne. congruence. }
    split.
    { simpl. apply length_alter. }
    simpl. repeat split; reflexivity.
Qed.

Lemma crashed_spec_witness :
  let id := mkServerId 1 1 in
  let e := newEntry id "tcp:1" (maskOf [MASTER_SERVICE; BACKUP_SERVICE]) in
  let s := with_serverList (fun _ => [emptyPair; mkPair 2 (Some e)])
             (with_numberOfMasters (fun _ => 1)
                (with_numberOfBackups (fun _ => 1) (initial 1))) in
  exists s',
    crashed id s = Returned tt s' /\
    iget id s' = Some (set_status CRASHED e) /\
    numberOfMasters s' = 0 /\ numberOfBackups s' = 0 /\
    crashed id s' = Returned tt s' /\
    crashed (mkServerId 1 7) s = Thrown ServerListException s.
Proof.
  intros id e s.
  destruct (crashed_spec id s) as (_ & _ & _ & Hup).
  destruct (Hup e) as (s' & Hrun & Hget & _ & _ & Hm & Hb & _);
    [reflexivity|reflexivity|].
  exists s'. split; [exact Hrun|]. split; [exact Hget|].
  split; [rewrite Hm; reflexivity|]. split; [rewrite Hb; reflexivity|].
  split.
  - apply (proj1 (crashed_spec id s') _ Hget). reflexivity.
  - apply (proj1 (proj2 (crashed_spec (mkServerId 1 7) s))). reflexivity.
Defined.

(** ** [generateUniqueId] *)

Lemma scanFree_bounds (l : list GenerationNumberEntryPair) (i : nat) :
  (i <= scanFree l i <= i + length l)%nat.
Proof.
  revert i. induction l as [|p l IH]; intros i; simpl; [lia|].
  destruct (entry p); [|lia]. specialize (IH (S i)). lia.
Qed.

Lemma scanFree_occupied (l : list GenerationNumberEntryPair) (i j : nat) :
  (i <= j < scanFree l i)%nat ->
  exists p e, l !! (j - i)%nat = Some p /\ entry p = Some e.
Proof.
  revert i. induction l as [|p l IH]; intros i; simpl; [lia|].
  destruct (entry p) as [e|] eqn:He; [|lia].
  intros Hj. destruct (decide (j = i)) as [->|Hne].
  - rewrite Nat.sub_diag. simpl. eauto.
  - destruct (IH (S i)) as (p' & e' & Hp' & He'); [lia|].
    replace (j - i)%nat with (S (j - S i)) by lia. simpl. eauto.
Qed.

Lemma scanFree_free (l : list GenerationNumberEntryPair) (i : nat) :
  (scanFree l i < i + length l)%nat ->
  exists p, l !! (scanFree l i - i)%nat = Some p /\ entry p = None.
Proof.
  revert i. induction l as [|p l IH]; intros i; simpl; [lia|].
  destruct (entry p) as [e|] eqn:He.
  - intros Hlt. destruct (IH (S i)) as (p' & Hp' & He'); [lia|].
    pose proof (scanFree_bounds l (S i)).
    replace (scanFree l (S i) - i)%nat with (S (scanFree l (S i) - S i)) by lia.
    simpl. eauto.
  - intros _. rewrite Nat.sub_diag. simpl. eauto.
Qed.

(** The index [firstFreeIndex] settles on. *)
Lemma firstFree_facts (l : list GenerationNumberEntryPair) :
  let index := scanFree (drop 1 l) 1 in
  (1 <= index)%nat /\ (index <= Nat.max 1 (length l))%nat /\
  (forall j, (1 <= j < index)%nat ->
     exists p e, l !! j = Some p /\ entry p = Some e) /\
  ((index < length l)%nat -> exists p, l !! index = Some p /\ entry p = None).
Proof.
  intros index. subst index.
  pose proof (scanFree_bounds (drop 1 l) 1) as Hb. rewrite length_drop in Hb.
  split; [lia|]. split; [lia|]. split.
  - intros j Hj. destruct (scanFree_occupied (drop 1 l) 1 j Hj) as (p & e & Hp & He).
    rewrite lookup_drop in Hp. replace (1 + (j - 1))%nat with j in Hp by lia.
    eauto.
  - intros Hlt. destruct (scanFree_free (drop 1 l) 1) as (p & Hp & He).
    { rewrite length_drop. lia. }
    rewrite lookup_drop in Hp.
    replace (1 + (scanFree (drop 1 l) 1 - 1))%nat
      with (scanFree (drop 1 l) 1) in Hp by lia.
    eauto.
Qed.

Lemma sameButList_refl (s : CoordinatorServerList) : sameButList s s.
Proof. repeat split. Qed.

Lemma sameButList_with_serverList f (s : CoordinatorServerList) :
  sameButList s (with_serverList f s).
Proof. repeat split. Qed.

Lemma sameButList_trans (s1 s2 s3 : CoordinatorServerList) :
  sameButList s1 s2 -> sameButList s2 s3 -> sameButList s1 s3.
Proof.
  unfold sameButList. intros H1 H2.
  destruct H1 as (?&?&?&?&?&?&?&?&?&?), H2 as (?&?&?&?&?&?&?&?&?&?).
  repeat split; congruence.
Qed.

Lemma firstFreeIndex_run (s : CoordinatorServerList) :
  let index := scanFree (drop 1 (serverList s)) 1 in
  Z.of_nat (length (serverList s)) < 2 ^ 32 ->
  exists s1,
    firstFreeIndex s = Returned index s1 /\
    serverList s1 = grown index (serverList s) /\
    sameButList s s1.
Proof.
  intros index Hlen.
  destruct (firstFree_facts (serverList s)) as (H1 & Hmax & _).
  fold index in H1, Hmax.
  unfold firstFreeIndex, grown. unfold_monad. fold index.
  destruct (bool_decide (length (serverList s) <= index)%nat); simpl;
    rewrite !bool_decide_true by lia; simpl;
    eexists; (split; [reflexivity|]); (split; [reflexivity|]).
  - apply sameButList_with_serverList.
  - apply sameButList_refl.
Qed.

Lemma grown_lookup (index : nat) (l : list GenerationNumberEntryPair) :
  (index < length (grown index l))%nat /\
  length (grown index l) = Nat.max (length l) (S index) /\
  (forall j, (j < length l)%nat -> grown index l !! j = l !! j) /\
  (forall j, (length l <= j < S index)%nat -> grown index l !! j = Some emptyPair).
Proof.
  unfold grown. case_bool_decide as Hc.
  - rewrite length_app, length_replicate.
    split; [lia|]. split; [lia|]. split.
    + intros j Hj. apply lookup_app_l. exact Hj.
    + intros j Hj. rewrite lookup_app_r by lia.
      apply lookup_replicate. split; [reflexivity|lia].
  - split; [lia|]. split; [lia|]. split; [reflexivity|]. intros j Hj. lia.
Qed.

(** What [generateUniqueId] returns and leaves behind. *)
Lemma generateUniqueId_effect (s : CoordinatorServerList) :
  Z.of_nat (length (serverList s)) < 2 ^ 32 ->
  exists index g s',
    generateUniqueId s = Returned (mkServerId index g) s' /\
    index <> 0%nat /\ (1 <= index)%nat /\
    entryAt s index = None /\
    (forall j, (1 <= j < index)%nat -> entryAt s j <> None) /\
    g = match serverList s !! index with
        | Some p => nextGenerationNumber p
        | None => initialGeneration
        end /\
    serverList s' !! index =
      Some (mkPair (wrap32 (g + 1)) (Some (newEntry (mkServerId index g) "" 0))) /\
    (0 <= g < 2 ^ 32 - 1 -> wrap32 (g + 1) = g + 1) /\
    (forall t, has (services (newEntry (mkServerId index g) "" 0)) t = false) /\
    length (serverList s') = Nat.max (length (serverList s)) (S index) /\
    (forall j, j <> index -> (j < length (serverList s))%nat ->
       serverList s' !! j = serverList s !! j) /\
    (forall j, j <> index -> (length (serverList s) <= j < S index)%nat ->
       serverList s' !! j = Some emptyPair) /\
    sameButList s s'.
Proof.
  intros Hlen.
  destruct (firstFree_facts (serverList s)) as (H1 & Hmax & Hocc & Hfree).
  destruct (firstFreeIndex_run s Hlen) as (s1 & Hrun & Hl1 & Hsame).
  set (index := scanFree (drop 1 (serverList s)) 1) in *.
  destruct (grown_lookup index (serverList s)) as (Hin & Hglen & Hlow & Hhigh).
  destruct (serverList s1 !! index) as [pr|] eqn:Hpr;
    [|apply lookup_ge_None in Hpr; rewrite Hl1 in Hpr; lia].
  assert (Hg : nextGenerationNumber pr =
               match serverList s !! index with
               | Some p => nextGenerationNumber p
               | None => initialGeneration
               end).
  { rewrite Hl1 in Hpr.
    destruct (decide (index < length (serverList s))%nat) as [Hlt|Hge].
    - rewrite Hlow in Hpr by exact Hlt. rewrite Hpr. reflexivity.
    - rewrite Hhigh in Hpr by lia. injection Hpr as <-.
      rewrite (lookup_ge_None_2 (serverList s)) by lia. reflexivity. }
  exists index, (nextGenerationNumber pr).
  eexists. split.
  { unfold generateUniqueId. unfold bind at 1. rewrite Hrun.
    unfold_monad. rewrite Hpr. reflexivity. }
  split; [lia|]. split; [lia|].
  split.
  { unfold entryAt. destruct (serverList s !! index) as [p|] eqn:Hp; [|reflexivity].
    destruct Hfree as (p' & Hp' & He'); [eapply lookup_lt_Some; eauto|].
    congruence. }
  split.
  { intros j Hj. unfold entryAt. destruct (Hocc j Hj) as (p & e & -> & ->).
    discriminate. }
  split; [exact Hg|]. simpl. rewrite Hl1.
  split; [apply list_lookup_insert_eq; exact Hin|].
  split; [intros ?; unfold wrap32; apply Z.mod_small; lia|].
  split; [intros t; apply Z.testbit_0_l|].
  split; [rewrite length_insert; exact Hglen|].
  split.
  { intros j Hj Hlt. rewrite list_lookup_insert_ne by done. apply Hlow, Hlt. }
  split.
  { intros j Hj Hlt. rewrite list_lookup_insert_ne by done. apply Hhigh, Hlt. }
  eapply sameButList_trans; [exact Hsame|]. apply sameButList_with_serverList.
Qed.


(** C7.  [generateUniqueId] returns [(index, g)] where [index] is the
    smallest unoccupied slot index that is at least 1 (slots past the end
    of the vector count as unoccupied, and the vector grows to hold
    [index] when every slot from 1 on is occupied), [g] is that slot's
    [nextGenerationNumber] before the call (the initial value, for a slot
    the call creates), the slot's [nextGenerationNumber] becomes [g + 1]
    (modulo 2^32), and a placeholder entry with empty locator and empty
    service mask is installed in the slot.  The index is never 0; other
    slots and all other fields are untouched.  The hypothesis is the
    32-bit range of slot indices. *)
Theorem generateUniqueId_spec (s : CoordinatorServerList) :
  Z.of_nat (length (serverList s)) < 2 ^ 32 ->
  exists index g s',
    generateUniqueId s = Returned (mkServerId index g) s' /\
    index <> 0%nat /\ (1 <= index)%nat /\
    entryAt s index = None /\
    (forall j, (1 <= j < index)%nat -> entryAt s j <> None) /\
    g = match serverList s !! index with
        | Some p => nextGenerationNumber p
        | None => initialGeneration
        end /\
    serverList s' !! index =
      Some (mkPair (wrap32 (g + 1)) (Some (newEntry (mkServerId index g) "" 0))) /\
    (0 <= g < 2 ^ 32 - 1 -> wrap32 (g + 1) = g + 1) /\
    (forall t, has (services (newEntry (mkServerId index g) "" 0)) t = false) /\
    length (serverList s') = Nat.max (length (serverList s)) (S index) /\
    (forall j, j <> index -> (j < length (serverList s))%nat ->
       serverList s' !! j = serverList s !! j) /\
    (forall j, j <> index -> (length (serverList s) <= j < S index)%nat ->
       serverList s' !! j = Some emptyPair) /\
    sameButList s s'.
Proof. exact (generateUniqueId_effect s). Qed.

Lemma generateUniqueId_spec_witness :
  let s := with_serverList
             (fun _ => [emptyPair;
                        mkPair 2 (Some (newEntry (mkServerId 1 1) "tcp:1" 1));
                        mkPair 5 None])
             (initial 0) in
  exists s',
    generateUniqueId s = Returned (mkServerId 2 5) s' /\
    serverList s' !! 2%nat =
      Some (mkPair 6 (Some (newEntry (mkServerId 2 5) "" 0))).
Proof.
  intros s.
  destruct (generateUniqueId_spec s) as
    (index & g & s' & Hrun & _ & _ & _ & _ & _ & Hslot & _); [simpl; lia|].
  exists s'. unfold s in Hrun. vm_compute in Hrun.
  injection Hrun as Hi Hg Hs. subst index g.
  split; [vm_compute; rewrite Hs; reflexivity|]. exact Hslot.
Defined.

(** ** [serialize] *)

Lemma serializeLoop_spec (l : list GenerationNumberEntryPair) (mask : ServiceMask)
    (protoBuf : ProtoBuf.ServerList) :
  serializeLoop l mask protoBuf =
  ProtoBuf.mkServerList
    (ProtoBuf.server protoBuf ++
     map serializeEntry (filter (fun e => serializeIncludes mask e) (occupied l)))
    (ProtoBuf.version_number protoBuf) (ProtoBuf.type protoBuf).
Proof.
  revert protoBuf. induction l as [|p l IH]; intros protoBuf; simpl.
  - rewrite app_nil_r. destruct protoBuf; reflexivity.
  - unfold occupied. simpl. destruct (entry p) as [e|]; simpl; [|apply IH].
    destruct (serializeIncludes mask e) eqn:Hinc.
    + rewrite filter_cons_True by (rewrite Hinc; exact I).
      rewrite IH. simpl. rewrite <- app_assoc. reflexivity.
    + rewrite filter_cons_False by (rewrite Hinc; intros []). apply IH.
Qed.

(** What [serialize] emits: the occupied entries that pass the test of its
    loop, in slot order, after what [protoBuf] already held; the message
    carries the current version and the type FULL_LIST. *)
Lemma serialize_emits (protoBuf : ProtoBuf.ServerList) (mask : ServiceMask)
    (s : CoordinatorServerList) :
  serialize protoBuf mask s =
  ProtoBuf.mkServerList
    (ProtoBuf.server protoBuf ++
     map serializeEntry
         (filter (fun e => serializeIncludes mask e) (occupied (serverList s))))
    (version s) (Some ProtoBuf.FULL_LIST).
Proof. unfold serialize. rewrite serializeLoop_spec. reflexivity. Qed.

(** For a mask within [{MASTER, BACKUP}] the test of the loop is the
    intersection test. *)
Lemma serializeIncludes_intersects (mask : ServiceMask) (e : Entry) :
  (forall t, has mask t = true -> t = MASTER_SERVICE \/ t = BACKUP_SERVICE) ->
  serializeIncludes mask e = intersects (services e) mask.
Proof.
  intros Hsub. unfold serializeIncludes, intersects. simpl.
  assert (Hno : forall t, t <> MASTER_SERVICE -> t <> BACKUP_SERVICE ->
                          has mask t = false).
  { intros t H1 H2. destruct (has mask t) eqn:E; [|reflexivity].
    destruct (Hsub t E); congruence. }
  rewrite (Hno MEMBERSHIP_SERVICE), (Hno PING_SERVICE), (Hno ADMIN_SERVICE)
    by discriminate.
  rewrite !andb_false_r, !orb_false_r. reflexivity.
Qed.

(** The default mask is [{MASTER, BACKUP}]. *)
Lemma serializeDefault_mask (t : ServiceType) :
  has (maskOf [MASTER_SERVICE; BACKUP_SERVICE]) t = true <->
  t = MASTER_SERVICE \/ t = BACKUP_SERVICE.
Proof.
  destruct t; vm_compute; split; intros H;
    try discriminate; try reflexivity; auto;
    destruct H; discriminate.
Qed.

(** C4.  A list that holds one membership-only server, built by
    [enlistServer] from the empty list, serialized with the mask
    [{MEMBERSHIP}]: the entry's services intersect the mask, yet
    [serialize] emits no entry, because its loop tests the MASTER and
    BACKUP services only. *)
Theorem serialize_skips_membership_only :
  let mask := maskOf [MEMBERSHIP_SERVICE] in
  let s := execAll [CallEnlistServer (mkServerId 0 0) mask 0 "tcp:1"] (initial 0) in
  exists e,
    occupied (serverList s) = [e] /\
    intersects (services e) mask = true /\
    ProtoBuf.server (serialize ProtoBuf.empty mask s) = [].
Proof. eexists. vm_compute. repeat split. Qed.

(** ** The version and the update queue *)

Section Prunes.

Context {A B : Type}.

Lemma prunes_ret (a : A) : prunes (ret a).
Proof. intros s s' [= <-]. split; [reflexivity|]. exists 0%nat. reflexivity. Qed.

Lemma prunes_gets (f : CoordinatorServerList -> A) : prunes (gets f).
Proof. intros s s' [= <-]. split; [reflexivity|]. exists 0%nat. reflexivity. Qed.

Lemma prunes_throw (e : Exception) : prunes (throw (A := A) e).
Proof. intros s s' [= <-]. split; [reflexivity|]. exists 0%nat. reflexivity. Qed.

Lemma prunes_abort (why : AbortReason) : prunes (abort (A := A) why).
Proof. intros s s' [=]. Qed.

Lemma prunes_bind (m : M A) (k : A -> M B) :
  prunes m -> (forall a, prunes (k a)) -> prunes (bind m k).
Proof.
  intros Hm Hk s s'. unfold bind.
  destruct (m s) as [a s1|e s1|why] eqn:Hms; simpl.
  - intros Hfin. destruct (Hm s s1) as (Hv1 & k1 & Hq1); [rewrite Hms; reflexivity|].
    destruct (Hk a s1 s' Hfin) as (Hv2 & k2 & Hq2).
    split; [congruence|]. exists (k1 + k2)%nat.
    rewrite Hq2, Hq1, drop_drop. reflexivity.
  - intros [= <-]. apply Hm. rewrite Hms. reflexivity.
  - discriminate.
Qed.

Lemma prunes_catch (m h : M A) : prunes m -> prunes h -> prunes (catch m h).
Proof.
  intros Hm Hh s s'. unfold catch.
  destruct (m s) as [a s1|e s1|why] eqn:Hms; simpl.
  - intros [= <-]. apply Hm. rewrite Hms. reflexivity.
  - destruct (Hm s s1) as (Hv1 & k1 & Hq1); [rewrite Hms; reflexivity|].
    destruct e; simpl.
    + intros Hfin. destruct (Hh s1 s' Hfin) as (Hv2 & k2 & Hq2).
      split; [congruence|]. exists (k1 + k2)%nat.
      rewrite Hq2, Hq1, drop_drop. reflexivity.
    + intros [= <-]. split; [assumption|]. eauto.
  - discriminate.
Qed.

End Prunes.

Lemma prunes_modify (f : CoordinatorServerList -> CoordinatorServerList) :
  (forall s, version (f s) = version s /\ updates (f s) = updates s) ->
  prunes (modify f).
Proof.
  intros Hf s s' [= <-]. destruct (Hf s) as [Hv Hq].
  split; [exact Hv|]. exists 0%nat. exact Hq.
Qed.

Lemma prunes_assert (b : bool) : prunes (assert b).
Proof. unfold assert. destruct b; [apply prunes_ret|apply prunes_abort]. Qed.

Lemma prunes_when (b : bool) (m : M unit) : prunes m -> prunes (when b m).
Proof. unfold when. destruct b; [trivial|intros _; apply prunes_ret]. Qed.

Lemma popUpTo_drop (v : Z) (q : list ProtoBuf.ServerList) :
  exists k, popUpTo v q = drop k q.
Proof.
  induction q as [|u q [k IH]]; simpl.
  - exists 0%nat. reflexivity.
  - destruct (ProtoBuf.version_number u <=? v).
    + exists (S k). exact IH.
    + exists 0%nat. reflexivity.
Qed.

Lemma prunes_modify_popUpTo (v : Z) : prunes (modify (with_updates (popUpTo v))).
Proof.
  intros s s' [= <-]. split; [reflexivity|]. simpl. apply popUpTo_drop.
Qed.

Create HintDb prunes.

#[local] Hint Resolve prunes_ret prunes_gets prunes_throw prunes_abort
  prunes_assert prunes_modify_popUpTo : prunes.

(** One step of a syntax-directed proof that a method [prunes]. *)
Ltac prunes_step :=
  match goal with
  | |- prunes (bind _ _) => apply prunes_bind; [|intros ?]
  | |- prunes (when _ _) => apply prunes_when
  | |- prunes (catch _ _) => apply prunes_catch
  | |- prunes (modify _) =>
      first [apply prunes_modify_popUpTo
            |apply prunes_modify; intros ?; split; reflexivity]
  | |- prunes (if ?b then _ else _) => destruct b
  | |- prunes (match ?x with _ => _ end) => destruct x
  | |- prunes _ => solve [auto with prunes]
  end.

Ltac prunes_auto := repeat prunes_step.

Lemma prunes_getReferenceFromServerId id : prunes (getReferenceFromServerId id).
Proof.
  intros s s' H. rewrite getReferenceFromServerId_iget in H.
  destruct (iget id s); injection H as <-; (split; [reflexivity|]);
    exists 0%nat; reflexivity.
Qed.

Lemma prunes_derefEntry i : prunes (derefEntry i).
Proof.
  intros s s' H. rewrite derefEntry_entryAt in H.
  destruct (entryAt s i); [|discriminate]. injection H as <-.
  split; [reflexivity|]. exists 0%nat. reflexivity.
Qed.

#[local] Hint Resolve prunes_getReferenceFromServerId prunes_derefEntry : prunes.

Lemma prunes_modifyEntry i f : prunes (modifyEntry i f).
Proof. unfold modifyEntry. prunes_auto. Qed.

Lemma prunes_appendToUpdate e : prunes (appendToUpdate e).
Proof. unfold appendToUpdate. prunes_auto. Qed.

Lemma prunes_notifyTrackers e ev : prunes (notifyTrackers e ev).
Proof. unfold notifyTrackers. prunes_auto. Qed.

Lemma prunes_destroyEntry i : prunes (destroyEntry i).
Proof. unfold destroyEntry. prunes_auto. Qed.

#[local] Hint Resolve prunes_modifyEntry prunes_appendToUpdate
  prunes_notifyTrackers prunes_destroyEntry : prunes.

Lemma prunes_setReplicationId id rid : prunes (setReplicationId id rid).
Proof. unfold setReplicationId. prunes_auto. Qed.

Lemma prunes_addServerInfoLogId id entryId : prunes (addServerInfoLogId id entryId).
Proof. unfold addServerInfoLogId. prunes_auto. Qed.

Lemma prunes_getServerInfoLogId id : prunes (getServerInfoLogId id).
Proof. unfold getServerInfoLogId. prunes_auto. Qed.

Lemma prunes_addServerUpdateLogId id entryId : prunes (addServerUpdateLogId id entryId).
Proof. unfold addServerUpdateLogId. prunes_auto. Qed.

Lemma prunes_getServerUpdateLogId id : prunes (getServerUpdateLogId id).
Proof. unfold getServerUpdateLogId. prunes_auto. Qed.

Lemma prunes_firstFreeIndex : prunes firstFreeIndex.
Proof. unfold firstFreeIndex. prunes_auto. Qed.

#[local] Hint Resolve prunes_setReplicationId prunes_addServerInfoLogId
  prunes_getServerInfoLogId prunes_addServerUpdateLogId
  prunes_getServerUpdateLogId prunes_firstFreeIndex : prunes.

Lemma prunes_generateUniqueId : prunes generateUniqueId.
Proof. unfold generateUniqueId. prunes_auto. Qed.

Lemma prunes_add id loc mask readSpeed : prunes (add id loc mask readSpeed).
Proof. unfold add. prunes_auto. Qed.

Lemma prunes_crashed id : prunes (crashed id).
Proof. unfold crashed. prunes_auto. Qed.

#[local] Hint Resolve prunes_generateUniqueId prunes_add prunes_crashed : prunes.

Lemma prunes_remove id : prunes (remove id).
Proof. unfold remove. prunes_auto. Qed.

Lemma prunes_assignReplicationGroup rid g : prunes (assignReplicationGroup rid g).
Proof. induction g as [|id g IH]; simpl; prunes_auto. Qed.

#[local] Hint Resolve prunes_remove prunes_assignReplicationGroup : prunes.

Lemma prunes_createGroups stack : prunes (createGroups stack).
Proof.
  remember (length stack) as n eqn:Hn.
  revert stack Hn. induction n as [n IH] using lt_wf_ind. intros stack Hn.
  destruct stack as [|b1 [|b2 [|b3 rest]]]; simpl; auto with prunes.
  prunes_auto. apply (IH (length rest)); [simpl in Hn; lia|reflexivity].
Qed.

#[local] Hint Resolve prunes_createGroups : prunes.

Lemma prunes_createReplicationGroup : prunes createReplicationGroup.
Proof. unfold createReplicationGroup. prunes_auto. Qed.

Lemma prunes_removeGroupLoop groupId indices group :
  prunes (removeGroupLoop groupId indices group).
Proof.
  revert group. induction indices as [|i rest IH]; intros group; simpl;
    [auto with prunes|].
  apply prunes_bind; [auto with prunes|]. intros slot.
  apply prunes_bind; [prunes_auto|]. intros _. apply IH.
Qed.

#[local] Hint Resolve prunes_createReplicationGroup prunes_removeGroupLoop : prunes.

Lemma prunes_removeReplicationGroup groupId : prunes (removeReplicationGroup groupId).
Proof. unfold removeReplicationGroup. prunes_auto. Qed.

Lemma prunes_appendProtoBuf r inv : prunes (appendProtoBuf r inv).
Proof. unfold appendProtoBuf. prunes_auto. Qed.

Lemma prunes_invalidate ids : prunes (invalidate ids).
Proof. unfold invalidate. prunes_auto. Qed.

Lemma prunes_startMasterRecovery e : prunes (startMasterRecovery e).
Proof. unfold startMasterRecovery. prunes_auto. Qed.

#[local] Hint Resolve prunes_removeReplicationGroup prunes_appendProtoBuf
  prunes_invalidate prunes_startMasterRecovery : prunes.

Lemma prunes_EnlistServer_complete id mask readSpeed loc entryId :
  prunes (EnlistServer.complete id mask readSpeed loc entryId).
Proof. unfold EnlistServer.complete. prunes_auto. Qed.

#[local] Hint Resolve prunes_EnlistServer_complete : prunes.

Lemma prunes_EnlistServer_execute mask readSpeed loc :
  prunes (EnlistServer.execute mask readSpeed loc).
Proof. unfold EnlistServer.execute. prunes_auto. Qed.

Lemma prunes_ForceServerDown_complete id entryId :
  prunes (ForceServerDown.complete id entryId).
Proof. unfold ForceServerDown.complete. prunes_auto. Qed.

#[local] Hint Resolve prunes_EnlistServer_execute
  prunes_ForceServerDown_complete : prunes.

Lemma prunes_forceServerDown id : prunes (forceServerDown id).
Proof. unfold forceServerDown, ForceServerDown.execute. prunes_auto. Qed.

Lemma prunes_SetMasterRecoveryInfo_complete id info entryId :
  prunes (SetMasterRecoveryInfo.complete id info entryId).
Proof. unfold SetMasterRecoveryInfo.complete. prunes_auto. Qed.

#[local] Hint Resolve prunes_forceServerDown
  prunes_SetMasterRecoveryInfo_complete : prunes.

Lemma prunes_SetMasterRecoveryInfo_execute id info :
  prunes (SetMasterRecoveryInfo.execute id info).
Proof. unfold SetMasterRecoveryInfo.execute. prunes_auto. Qed.

Lemma prunes_pruneUpdates v : prunes (pruneUpdates v).
Proof. unfold pruneUpdates. prunes_auto. Qed.

#[local] Hint Resolve prunes_SetMasterRecoveryInfo_execute prunes_pruneUpdates
  : prunes.

Lemma prunes_hasUpdatesBody i : prunes (hasUpdatesBody i).
Proof. unfold hasUpdatesBody. prunes_auto. Qed.

#[local] Hint Resolve prunes_hasUpdatesBody : prunes.

Lemma prunes_hasUpdatesLoop fuel i : prunes (hasUpdatesLoop fuel i).
Proof.
  revert i. induction fuel as [|fuel IH]; intros i; simpl; prunes_auto.
Qed.

#[local] Hint Resolve prunes_hasUpdatesLoop : prunes.

Lemma prunes_hasUpdates : prunes hasUpdates.
Proof. unfold hasUpdates. prunes_auto. Qed.

#[local] Hint Resolve prunes_hasUpdates : prunes.

Lemma prunes_loadNextUpdate updateSlot : prunes (loadNextUpdate updateSlot).
Proof. unfold loadNextUpdate. prunes_auto. Qed.

Lemma prunes_updateEntryVersion id v : prunes (updateEntryVersion id v).
Proof. unfold updateEntryVersion. prunes_auto. Qed.

#[local] Hint Resolve prunes_loadNextUpdate prunes_updateEntryVersion : prunes.

Lemma commitsAtMostOnce_prunes {A} (m : M A) : prunes m -> commitsAtMostOnce m.
Proof. intros Hm s s' Hfin. left. apply Hm, Hfin. Qed.

Lemma commitsAtMostOnce_commitUpdate : commitsAtMostOnce commitUpdate.
Proof.
  intros s s' Hfin.
  destruct (commitUpdate_effect s) as [Hempty Hfull].
  destruct (ProtoBuf.server (update s)) as [|r rs] eqn:Hpending.
  - rewrite Hempty in Hfin by reflexivity. injection Hfin as <-.
    left. split; [reflexivity|]. exists 0%nat. reflexivity.
  - destruct Hfull as (s1 & Hrun & Hv & _ & Hq & _); [discriminate|].
    rewrite Hrun in Hfin. injection Hfin as <-.
    right. split; [exact Hv|]. exists 0%nat. eexists. split; [exact Hq|].
    reflexivity.
Qed.

(** A method that prunes, then goes on with one that commits at most
    once, commits at most once. *)
Lemma commitsAtMostOnce_bind_l {A B} (m : M A) (k : A -> M B) :
  prunes m -> (forall a, commitsAtMostOnce (k a)) -> commitsAtMostOnce (bind m k).
Proof.
  intros Hm Hk s s'. unfold bind.
  destruct (m s) as [a s1|e s1|why] eqn:Hms; simpl.
  - intros Hfin.
    destruct (Hm s s1) as (Hv1 & k1 & Hq1); [rewrite Hms; reflexivity|].
    destruct (Hk a s1 s' Hfin) as [(Hv2 & k2 & Hq2)|(Hv2 & k2 & u & Hq2 & Hu)].
    + left. split; [congruence|]. exists (k1 + k2)%nat.
      rewrite Hq2, Hq1, drop_drop. reflexivity.
    + right. split; [congruence|].
      exists (Nat.min k1 (length (updates s)) + k2)%nat, u.
      split; [|exact Hu]. rewrite Hq2, Hq1, <- drop_drop. f_equal.
      destruct (decide (k1 <= length (updates s))%nat).
      * rewrite Nat.min_l by lia. rewrite drop_app_le by lia. reflexivity.
      * rewrite Nat.min_r by lia. rewrite drop_ge by lia.
        rewrite drop_app_length. reflexivity.
  - intros [= <-]. left. apply Hm. rewrite Hms. reflexivity.
  - discriminate.
Qed.

(** A method that commits at most once, then goes on with one that
    prunes, commits at most once. *)
Lemma commitsAtMostOnce_bind_r {A B} (m : M A) (k : A -> M B) :
  commitsAtMostOnce m -> (forall a, prunes (k a)) -> commitsAtMostOnce (bind m k).
Proof.
  intros Hm Hk s s'. unfold bind.
  destruct (m s) as [a s1|e s1|why] eqn:Hms; simpl.
  - intros Hfin.
    destruct (Hk a s1 s' Hfin) as (Hv2 & k2 & Hq2).
    destruct (Hm s s1) as [(Hv1 & k1 & Hq1)|(Hv1 & k1 & u & Hq1 & Hu)];
      [rewrite Hms; reflexivity| |].
    + left. split; [congruence|]. exists (k1 + k2)%nat.
      rewrite Hq2, Hq1, drop_drop. reflexivity.
    + right. split; [congruence|]. exists (k1 + k2)%nat, u.
      split; [|congruence]. rewrite Hq2, Hq1, drop_drop. reflexivity.
  - intros [= <-]. apply Hm. rewrite Hms. reflexivity.
  - discriminate.
Qed.

Lemma commitsAtMostOnce_when (b : bool) (m : M unit) :
  commitsAtMostOnce m -> commitsAtMostOnce (when b m).
Proof.
  unfold when. destruct b; [trivial|].
  intros _. apply commitsAtMostOnce_prunes, prunes_ret.
Qed.

Ltac commits_then_returns :=
  apply commitsAtMostOnce_bind_r;
    [apply commitsAtMostOnce_commitUpdate|intros ?; apply prunes_ret].

(** Every call commits at most once. *)
Lemma commitsAtMostOnce_perform (c : Call) : commitsAtMostOnce (perform c).
Proof.
  destruct c; simpl.
  - unfold Public.add.
    apply commitsAtMostOnce_bind_l; [auto with prunes|].
    intros _. apply commitsAtMostOnce_commitUpdate.
  - unfold Public.crashed.
    apply commitsAtMostOnce_bind_l; [auto with prunes|].
    intros _. apply commitsAtMostOnce_commitUpdate.
  - unfold Public.remove.
    apply commitsAtMostOnce_bind_l; [auto with prunes|].
    intros _. apply commitsAtMostOnce_commitUpdate.
  - apply commitsAtMostOnce_prunes. unfold Public.generateUniqueId. prunes_auto.
  - apply commitsAtMostOnce_prunes. unfold Public.setMasterRecoveryInfo.
    prunes_auto.
  - apply commitsAtMostOnce_prunes. unfold Public.setMasterRecoveryInfoRecover.
    prunes_auto.
  - unfold Public.enlistServer.
    apply commitsAtMostOnce_bind_r; [|intros ?; apply prunes_ret].
    apply commitsAtMostOnce_bind_l; [auto with prunes|]. intros old.
    apply commitsAtMostOnce_bind_l; [prunes_auto|]. intros _.
    apply commitsAtMostOnce_bind_l; [auto with prunes|]. intros newServerId.
    commits_then_returns.
  - unfold Public.enlistServerRecover.
    apply commitsAtMostOnce_bind_l; [auto with prunes|].
    intros _. apply commitsAtMostOnce_commitUpdate.
  - unfold Public.enlistedServerRecover.
    apply commitsAtMostOnce_bind_l; [auto with prunes|].
    intros _. apply commitsAtMostOnce_commitUpdate.
  - unfold Public.hintServerDown.
    apply commitsAtMostOnce_bind_r; [|intros ?; apply prunes_ret].
    apply commitsAtMostOnce_bind_l; [auto with prunes|]. intros [e|];
      [|apply commitsAtMostOnce_prunes, prunes_ret].
    destruct (bool_decide (status e <> UP));
      [apply commitsAtMostOnce_prunes, prunes_ret|].
    destruct (negb serverFailed); [apply commitsAtMostOnce_prunes, prunes_ret|].
    apply commitsAtMostOnce_bind_l; [auto with prunes|]. intros _.
    commits_then_returns.
  - apply commitsAtMostOnce_prunes. unfold Public.forceServerDownRecover.
    prunes_auto.
  - apply commitsAtMostOnce_prunes. prunes_auto.
  - apply commitsAtMostOnce_prunes. prunes_auto.
  - apply commitsAtMostOnce_prunes. prunes_auto.
Qed.

Lemma queueOk_drop (v : Z) (q : list ProtoBuf.ServerList) (k : nat) :
  queueOk v q -> queueOk v (drop k q).
Proof.
  intros Hq i u Hi. rewrite lookup_drop in Hi.
  pose proof (lookup_lt_Some _ _ _ Hi) as Hlt.
  rewrite (Hq _ _ Hi), length_drop. f_equal. lia.
Qed.

Lemma queueOk_push (v : Z) (q : list ProtoBuf.ServerList) (u : ProtoBuf.ServerList) :
  queueOk v q -> ProtoBuf.version_number u = v + 1 -> queueOk (v + 1) (q ++ [u]).
Proof.
  intros Hq Hu i u' Hi. rewrite length_app. simpl.
  destruct (decide (i < length q)%nat) as [Hlt|Hge].
  - rewrite lookup_app_l in Hi by exact Hlt. rewrite (Hq _ _ Hi). lia.
  - rewrite lookup_app_r in Hi by lia.
    destruct (i - length q)%nat eqn:Hd; [|destruct n; discriminate].
    injection Hi as <-. rewrite Hu. lia.
Qed.

(** The invariant of the induction over histories: the queue carries
    consecutive versions ending at the current one, which has not passed
    the number of calls made. *)
Lemma Reachable_queueOk (ts n : nat) (s : CoordinatorServerList) :
  Reachable ts n s -> Z.of_nat n < 2 ^ 64 ->
  queueOk (version s) (updates s) /\ 0 <= version s <= Z.of_nat n.
Proof.
  induction 1 as [|n s c s' Hreach IH Hstep]; intros Hn.
  - split; [|simpl; lia]. intros i u Hi. discriminate.
  - destruct IH as [Hq Hv]; [lia|].
    destruct (commitsAtMostOnce_perform c s s' Hstep)
      as [(Hv' & k & Hq')|(Hv' & k & u & Hq' & Hu)].
    + rewrite Hv', Hq'. split; [apply queueOk_drop, Hq|lia].
    + assert (Hw : version s' = version s + 1).
      { rewrite Hv'. unfold wrap64. apply Z.mod_small. lia. }
      rewrite Hq', Hw. split; [|lia].
      apply queueOk_drop, queueOk_push; [exact Hq|congruence].
Qed.

(** C8.  In every state reached by a history of calls (shorter than the
    2^64 range of the version counter), the committed updates in the
    queue carry consecutive version numbers, each one more than its
    predecessor's; the head's version is at most the cluster version;
    when the queue is non-empty the tail's version is the cluster version;
    hence the delta for a target version [v] between the head's version
    and the cluster version sits at offset [v] minus the head's version. *)
Theorem update_queue_versions (ts n : nat) (s : CoordinatorServerList) :
  Reachable ts n s -> Z.of_nat n < 2 ^ 64 ->
  (forall i u u',
     updates s !! i = Some u -> updates s !! S i = Some u' ->
     ProtoBuf.version_number u' = ProtoBuf.version_number u + 1) /\
  (forall h, head (updates s) = Some h -> ProtoBuf.version_number h <= version s) /\
  (forall t, last (updates s) = Some t -> ProtoBuf.version_number t = version s) /\
  (forall h v,
     head (updates s) = Some h ->
     ProtoBuf.version_number h <= v <= version s ->
     exists u,
       updates s !! Z.to_nat (v - ProtoBuf.version_number h) = Some u /\
       ProtoBuf.version_number u = v).
Proof.
  intros Hreach Hn. destruct (Reachable_queueOk ts n s Hreach Hn) as [Hq _].
  repeat split.
  - intros i u u' Hi Hi'. pose proof (lookup_lt_Some _ _ _ Hi').
    rewrite (Hq _ _ Hi), (Hq _ _ Hi'). lia.
  - intros h Hh. rewrite head_lookup in Hh. rewrite (Hq _ _ Hh). lia.
  - intros t Ht. rewrite last_lookup in Ht.
    pose proof (lookup_lt_Some _ _ _ Ht). rewrite (Hq _ _ Ht). lia.
  - intros h v Hh Hv. rewrite head_lookup in Hh.
    pose proof (lookup_lt_Some _ _ _ Hh) as Hlen.
    rewrite (Hq _ _ Hh) in *.
    destruct (updates s !! Z.to_nat (v - (version s - Z.of_nat (length (updates s) - 1 - 0))))
      as [u|] eqn:Hu.
    + exists u. split; [reflexivity|]. pose proof (lookup_lt_Some _ _ _ Hu).
      rewrite (Hq _ _ Hu). lia.
    + apply lookup_ge_None in Hu. lia.
Qed.

Lemma update_queue_versions_witness :
  let s := execAll [CallEnlistServer (mkServerId 0 0) 1 100 "tcp:1";
                    CallEnlistServer (mkServerId 1 1) 1 100 "tcp:2"]
                   (initial 1) in
  (forall i u u',
     updates s !! i = Some u -> updates s !! S i = Some u' ->
     ProtoBuf.version_number u' = ProtoBuf.version_number u + 1) /\
  (forall h, head (updates s) = Some h -> ProtoBuf.version_number h <= version s) /\
  (forall t, last (updates s) = Some t -> ProtoBuf.version_number t = version s) /\
  (forall h v,
     head (updates s) = Some h ->
     ProtoBuf.version_number h <= v <= version s ->
     exists u,
       updates s !! Z.to_nat (v - ProtoBuf.version_number h) = Some u /\
       ProtoBuf.version_number u = v).
Proof.
  intros s. apply (update_queue_versions 1 2 s); [|simpl; lia].
  apply (Reachable_call 1 1
           (execAll [CallEnlistServer (mkServerId 0 0) 1 100 "tcp:1"] (initial 1))
           (CallEnlistServer (mkServerId 1 1) 1 100 "tcp:2")).
  - apply (Reachable_call 1 0 (initial 1)
             (CallEnlistServer (mkServerId 0 0) 1 100 "tcp:1")).
    + apply Reachable_initial.
    + vm_compute. reflexivity.
  - vm_compute. reflexivity.
Defined.

(** ** Replication groups: the frame *)

Lemma appended_refl (s s' : CoordinatorServerList) :
  update s' = update s -> appended s s' [].
Proof.
  unfold appended. intros ->. rewrite app_nil_r. destruct (update s); reflexivity.
Qed.

Lemma appended_trans (s1 s2 s3 : CoordinatorServerList) r1 r2 :
  appended s1 s2 r1 -> appended s2 s3 r2 -> appended s1 s3 (r1 ++ r2).
Proof.
  unfold appended. intros H1 H2. rewrite H2, H1. simpl.
  rewrite app_assoc. reflexivity.
Qed.

Lemma appended_add_server (s : CoordinatorServerList) f r :
  appended s (with_update (ProtoBuf.add_server r) (with_serverList f s)) [r].
Proof. reflexivity. Qed.

Lemma set_replicationId_same (e : Entry) (rid : Z) :
  replicationId e = rid -> set_replicationId rid e = e.
Proof. intros <-. destruct e; reflexivity. Qed.

Lemma regrouped_slots_refl (s s' : CoordinatorServerList) :
  (forall i, entryAt s' i = entryAt s i) ->
  forall i,
    match entryAt s i with
    | Some e =>
        exists rid,
          entryAt s' i = Some (set_replicationId rid e) /\
          (status e <> UP -> rid = replicationId e)
    | None => entryAt s' i = None
    end.
Proof.
  intros H i. rewrite H. destruct (entryAt s i) as [e|]; [|reflexivity].
  exists (replicationId e). rewrite set_replicationId_same by reflexivity. auto.
Qed.

Lemma regrouped_refl (s : CoordinatorServerList) : regrouped s s.
Proof.
  split; [reflexivity|]. split; [apply regrouped_slots_refl; reflexivity|]. split.
  - exists []. split; [apply appended_refl; reflexivity|constructor].
  - repeat split.
Qed.

Lemma regrouped_trans (s1 s2 s3 : CoordinatorServerList) :
  regrouped s1 s2 -> regrouped s2 s3 -> regrouped s1 s3.
Proof.
  intros (Hl1 & Hi1 & (r1 & Ha1 & Hu1) & ?&?&?&?&?&?&?&?)
         (Hl2 & Hi2 & (r2 & Ha2 & Hu2) & ?&?&?&?&?&?&?&?).
  split; [congruence|]. split.
  { intros i. specialize (Hi1 i). specialize (Hi2 i).
    destruct (entryAt s1 i) as [e|].
    - destruct Hi1 as (rid1 & Hg1 & Hs1). rewrite Hg1 in Hi2.
      destruct Hi2 as (rid2 & Hg2 & Hs2). exists rid2. split; [exact Hg2|].
      intros Hup. rewrite (Hs2 Hup). simpl. apply Hs1, Hup.
    - rewrite Hi1 in Hi2. exact Hi2. }
  split.
  - exists (r1 ++ r2). split; [eapply appended_trans; eauto|].
    apply Forall_app. split; assumption.
  - repeat split; congruence.
Qed.

Lemma regrouped_nextReplicationId f (s : CoordinatorServerList) :
  regrouped s (with_nextReplicationId f s).
Proof.
  split; [reflexivity|]. split; [apply regrouped_slots_refl; reflexivity|]. split.
  - exists []. split; [apply appended_refl; reflexivity|constructor].
  - repeat split.
Qed.

(** Looking up [id'] after the entry of [id] had its replication id set. *)
Lemma iget_assignedState (id id' : ServerId) (rid : Z) (e : Entry)
    (s : CoordinatorServerList) :
  iget id s = Some e ->
  iget id' (assignedState id rid e s) =
  (if decide (id' = id) then set_replicationId rid else fun x => x) <$> iget id' s.
Proof.
  intros Hget. apply iget_Some in Hget as (p & Hp & He & Hid).
  unfold iget at 1. simpl.
  destruct (decide (indexNumber id' = indexNumber id)) as [Hix|Hix].
  - rewrite Hix, list_lookup_alter_eq, Hp. simpl. rewrite He. simpl.
    unfold iget. rewrite Hix, Hp, He.
    destruct (decide (id' = id)) as [->|Hne].
    + rewrite !decide_True by assumption. reflexivity.
    + rewrite !decide_False by congruence. reflexivity.
  - rewrite list_lookup_alter_ne by congruence.
    rewrite decide_False by congruence.
    unfold iget. destruct (serverList s !! indexNumber id') as [p'|]; [|reflexivity].
    destruct (entry p') as [e'|]; [|reflexivity].
    destruct (decide (serverId e' = id')); reflexivity.
Qed.

Lemma setReplicationId_up (id : ServerId) (rid : Z) (e : Entry)
    (s : CoordinatorServerList) :
  iget id s = Some e -> status e = UP ->
  setReplicationId id rid s = Returned tt (assignedState id rid e s).
Proof.
  intros Hget Hup. unfold setReplicationId. unfold bind at 1.
  rewrite getReferenceFromServerId_iget, Hget.
  rewrite bool_decide_false by (intros H; apply H; exact Hup).
  unfold modifyEntry. unfold_monad. rewrite derefEntry_entryAt.
  unfold entryAt. simpl.
  apply iget_Some in Hget as (p & Hp & He & Hid).
  rewrite list_lookup_alter_eq, Hp. simpl. rewrite He. reflexivity.
Qed.

Lemma setReplicationId_not_up (id : ServerId) (rid : Z) (e : Entry)
    (s : CoordinatorServerList) :
  iget id s = Some e -> status e <> UP ->
  setReplicationId id rid s = Returned tt s.
Proof.
  intros Hget Hup. unfold setReplicationId. unfold bind at 1.
  rewrite getReferenceFromServerId_iget, Hget.
  rewrite bool_decide_true by exact Hup. reflexivity.
Qed.

Lemma regrouped_assignedState (id : ServerId) (rid : Z) (e : Entry)
    (s : CoordinatorServerList) :
  iget id s = Some e -> status e = UP ->
  regrouped s (assignedState id rid e s).
Proof.
  intros Hget Hup.
  split; [simpl; apply length_alter|]. split.
  - intros i. pose proof (iget_entryAt _ _ _ Hget) as Hat.
    unfold entryAt in *. simpl.
    destruct (decide (i = indexNumber id)) as [->|Hne].
    + rewrite list_lookup_alter_eq.
      destruct (serverList s !! indexNumber id) as [p|]; [|discriminate].
      simpl. rewrite Hat. simpl. exists rid. split; [reflexivity|].
      intros H. contradiction.
    + rewrite list_lookup_alter_ne by congruence.
      destruct (serverList s !! i) as [p|]; [|reflexivity].
      destruct (entry p) as [e'|]; [|reflexivity].
      exists (replicationId e').
      rewrite set_replicationId_same by reflexivity. auto.
  - split; [|repeat split].
    eexists. split; [apply appended_add_server|].
    constructor; [exact Hup|constructor].
Qed.

(** [setReplicationId] on a server that is in the list returns, within
    the frame. *)
Lemma setReplicationId_regrouped (id : ServerId) (rid : Z)
    (s : CoordinatorServerList) :
  is_Some (iget id s) ->
  exists s', setReplicationId id rid s = Returned tt s' /\ regrouped s s' /\
             nextReplicationId s' = nextReplicationId s.
Proof.
  intros [e Hget]. destruct (decide (status e = UP)) as [Hup|Hup].
  - exists (assignedState id rid e s).
    split; [apply setReplicationId_up; assumption|].
    split; [apply regrouped_assignedState; assumption|reflexivity].
  - exists s. split; [eapply setReplicationId_not_up; eassumption|].
    split; [apply regrouped_refl|reflexivity].
Qed.

Lemma assignReplicationGroup_regrouped (rid : Z) (g : list ServerId)
    (s : CoordinatorServerList) :
  exists b s', assignReplicationGroup rid g s = Returned b s' /\ regrouped s s' /\
               nextReplicationId s' = nextReplicationId s.
Proof.
  revert s. induction g as [|id g IH]; intros s; simpl.
  - exists true, s. split; [reflexivity|]. split; [apply regrouped_refl|reflexivity].
  - unfold bind at 1. unfold gets.
    destruct (iget id s) as [e|] eqn:Hget.
    + destruct (setReplicationId_regrouped id rid s) as (s1 & Hrun & Hre & Hn);
        [rewrite Hget; eauto|].
      unfold bind. rewrite Hrun.
      destruct (IH s1) as (b & s' & Hrun' & Hre' & Hn').
      exists b, s'. split; [exact Hrun'|].
      split; [eapply regrouped_trans; eassumption|congruence].
    + exists false, s. split; [reflexivity|].
      split; [apply regrouped_refl|reflexivity].
Qed.

Lemma createGroups_regrouped (stack : list ServerId) (s : CoordinatorServerList) :
  exists s', createGroups stack s = Returned tt s' /\ regrouped s s'.
Proof.
  remember (length stack) as n eqn:Hn.
  revert stack s Hn. induction n as [n IH] using lt_wf_ind. intros stack s Hn.
  destruct stack as [|b1 [|b2 [|b3 rest]]];
    try (exists s; split; [reflexivity|apply regrouped_refl]).
  cbn [createGroups]. unfold bind at 1. unfold gets.
  destruct (assignReplicationGroup_regrouped (nextReplicationId s) [b1; b2; b3] s)
    as (b & s1 & Hrun & Hre & _).
  unfold bind at 1. rewrite Hrun. unfold bind at 1. unfold modify.
  destruct (IH (length rest) ltac:(simpl in Hn; lia) rest
               (with_nextReplicationId (fun n => wrap64 (n + 1)) s1) eq_refl)
    as (s' & Hrun' & Hre').
  exists s'. split; [exact Hrun'|].
  eapply regrouped_trans; [exact Hre|].
  eapply regrouped_trans; [apply regrouped_nextReplicationId|exact Hre'].
Qed.

Lemma createReplicationGroup_regrouped (s : CoordinatorServerList) :
  exists s', createReplicationGroup s = Returned tt s' /\ regrouped s s'.
Proof.
  unfold createReplicationGroup. unfold bind, gets.
  apply createGroups_regrouped.
Qed.

Lemma removeGroupLoop_regrouped (groupId : Z) (indices : list nat)
    (group : list ServerId) (s : CoordinatorServerList) :
  exists s', removeGroupLoop groupId indices group s = Returned tt s' /\
             regrouped s s' /\ nextReplicationId s' = nextReplicationId s.
Proof.
  revert group s. induction indices as [|i rest IH]; intros group s; simpl.
  - exists s. split; [reflexivity|]. split; [apply regrouped_refl|reflexivity].
  - unfold bind at 1. unfold gets.
    set (group' := match serverList s !! i with
                   | Some p => match entry p with
                               | Some e => if isBackup e && (replicationId e =? groupId)
                                           then group ++ [serverId e] else group
                               | None => group
                               end
                   | None => group
                   end).
    assert (Hstep : exists s1,
      when (negb (bool_decide (length group' = 0%nat)))
           (let* _ := assignReplicationGroup 0 group' in ret tt) s
      = Returned tt s1 /\ regrouped s s1 /\
        nextReplicationId s1 = nextReplicationId s).
    { unfold when. destruct (negb (bool_decide (length group' = 0%nat))).
      - destruct (assignReplicationGroup_regrouped 0 group' s)
          as (b & s1 & Hrun & Hre & Hn).
        exists s1. unfold bind, ret. rewrite Hrun. auto.
      - exists s. split; [reflexivity|].
        split; [apply regrouped_refl|reflexivity]. }
    destruct Hstep as (s1 & Hrun & Hre & Hn).
    unfold bind at 1. rewrite Hrun.
    destruct (IH group' s1) as (s' & Hrun' & Hre' & Hn').
    exists s'. split; [exact Hrun'|].
    split; [eapply regrouped_trans; eassumption|congruence].
Qed.

Lemma removeReplicationGroup_regrouped (groupId : Z) (s : CoordinatorServerList) :
  exists s', removeReplicationGroup groupId s = Returned tt s' /\
             regrouped s s' /\ nextReplicationId s' = nextReplicationId s.
Proof.
  unfold removeReplicationGroup. destruct (groupId =? 0).
  - exists s. split; [reflexivity|]. split; [apply regrouped_refl|reflexivity].
  - unfold bind, gets. apply removeGroupLoop_regrouped.
Qed.

Lemma regrouped_iget_Some (s s' : CoordinatorServerList) (id : ServerId) (e : Entry) :
  regrouped s s' -> iget id s = Some e ->
  exists rid, iget id s' = Some (set_replicationId rid e) /\
              (status e <> UP -> rid = replicationId e).
Proof.
  intros (_ & Hi & _) Hget. specialize (Hi (indexNumber id)).
  rewrite (iget_entryAt _ _ _ Hget) in Hi. destruct Hi as (rid & Hat & Hr).
  exists rid. split; [|exact Hr]. apply iget_Some.
  unfold entryAt in Hat.
  destruct (serverList s' !! indexNumber id) as [p|]; [|discriminate].
  exists p. split; [reflexivity|]. split; [exact Hat|].
  simpl. eapply iget_serverId, Hget.
Qed.

Lemma regrouped_iget_None (s s' : CoordinatorServerList) (id : ServerId) :
  regrouped s s' -> iget id s = None -> iget id s' = None.
Proof.
  intros (_ & Hi & _) Hget. specialize (Hi (indexNumber id)).
  unfold iget in *. unfold entryAt in Hi.
  destruct (serverList s !! indexNumber id) as [p|].
  - destruct (entry p) as [e|].
    + destruct Hi as (rid & Hat & _).
      destruct (serverList s' !! indexNumber id) as [p'|]; [|reflexivity].
      rewrite Hat. simpl.
      destruct (decide (serverId e = id)); [discriminate|reflexivity].
    + destruct (serverList s' !! indexNumber id) as [p'|]; [|reflexivity].
      rewrite Hi. reflexivity.
  - destruct (serverList s' !! indexNumber id) as [p'|]; [|reflexivity].
    rewrite Hi. reflexivity.
Qed.

Lemma regrouped_iget_not_up (s s' : CoordinatorServerList) (id : ServerId) (e : Entry) :
  regrouped s s' -> iget id s = Some e -> status e <> UP -> iget id s' = Some e.
Proof.
  intros Hre Hget Hup.
  destruct (regrouped_iget_Some _ _ _ _ Hre Hget) as (rid & Hg & Hr).
  rewrite Hg, (Hr Hup), set_replicationId_same by reflexivity. reflexivity.
Qed.

Lemma regrouped_entryAt_None (s s' : CoordinatorServerList) (i : nat) :
  regrouped s s' -> entryAt s i = None -> entryAt s' i = None.
Proof. intros (_ & Hi & _) Hat. specialize (Hi i). rewrite Hat in Hi. exact Hi. Qed.

Lemma regrouped_appended (s s' : CoordinatorServerList) :
  regrouped s s' ->
  exists recs, appended s s' recs /\
               Forall (fun r => ProtoBuf.entry_status r = UP) recs.
Proof. intros (_ & _ & H & _). exact H. Qed.

(** ** Replication groups: who gets which id *)

Lemma wellIndexedFrom_sound (i : nat) (l : list GenerationNumberEntryPair) :
  wellIndexedFrom i l = true ->
  forall j p e, l !! j = Some p -> entry p = Some e ->
                indexNumber (serverId e) = (i + j)%nat.
Proof.
  revert i. induction l as [|q l IH]; intros i Hb j p e Hp He; [discriminate|].
  simpl in Hb. apply andb_true_iff in Hb as [Hq Hl].
  destruct j as [|j]; simpl in Hp.
  - injection Hp as ->. rewrite He in Hq. apply Nat.eqb_eq in Hq. lia.
  - rewrite (IH (S i) Hl j p e Hp He). lia.
Qed.

Lemma wellIndexed_check (l : list GenerationNumberEntryPair) :
  wellIndexedFrom 0 l = true -> wellIndexed l.
Proof. intros Hb i p e. apply (wellIndexedFrom_sound 0 l Hb). Qed.

Lemma wellIndexed_alter (f : GenerationNumberEntryPair -> GenerationNumberEntryPair)
    (i : nat) (l : list GenerationNumberEntryPair) :
  (forall p e', entry (f p) = Some e' ->
     exists e, entry p = Some e /\ serverId e' = serverId e) ->
  wellIndexed l -> wellIndexed (alter f i l).
Proof.
  intros Hf Hwf j p e Hp He.
  destruct (decide (i = j)) as [->|Hne].
  - rewrite list_lookup_alter_eq in Hp.
    destruct (l !! j) as [p0|] eqn:Hp0; [|discriminate].
    injection Hp as <-. destruct (Hf _ _ He) as (e0 & He0 & ->).
    eapply Hwf; eassumption.
  - rewrite list_lookup_alter_ne in Hp by done. eapply Hwf; eassumption.
Qed.

Lemma wellIndexed_assignedState (id : ServerId) (rid : Z) (e : Entry)
    (s : CoordinatorServerList) :
  wellIndexed (serverList s) -> wellIndexed (serverList (assignedState id rid e s)).
Proof.
  simpl. apply wellIndexed_alter. intros p e'. unfold setRidPair. simpl.
  destruct (entry p) as [e0|]; [|discriminate]. intros [= <-]. eauto.
Qed.

(** In a well-indexed list every occupied slot is found under its id. *)
Lemma wellIndexed_iget (s : CoordinatorServerList) (i : nat)
    (p : GenerationNumberEntryPair) (e : Entry) :
  wellIndexed (serverList s) ->
  serverList s !! i = Some p -> entry p = Some e ->
  iget (serverId e) s = Some e /\ indexNumber (serverId e) = i.
Proof.
  intros Hwf Hp He. pose proof (Hwf _ _ _ Hp He) as Hi. split; [|exact Hi].
  apply iget_Some. exists p. rewrite Hi. auto.
Qed.

(** When every member of the group is in the list and UP, the assignment
    goes through and sets exactly the members' replication ids. *)
Lemma assignReplicationGroup_up (rid : Z) (g : list ServerId)
    (s : CoordinatorServerList) :
  (forall id, id ∈ g -> exists e, iget id s = Some e /\ status e = UP) ->
  exists s',
    assignReplicationGroup rid g s = Returned true s' /\
    (forall id, iget id s' =
       (if decide (id ∈ g) then set_replicationId rid else fun x => x)
         <$> iget id s) /\
    nextReplicationId s' = nextReplicationId s /\
    (wellIndexed (serverList s) -> wellIndexed (serverList s')).
Proof.
  revert s. induction g as [|id g IH]; intros s Hg; cbn [assignReplicationGroup].
  - exists s. split; [reflexivity|]. split; [|auto].
    intros id. rewrite decide_False by apply not_elem_of_nil.
    destruct (iget id s); reflexivity.
  - destruct (Hg id) as (e & Hget & Hup); [left|].
    unfold bind at 1. unfold gets. rewrite Hget.
    unfold bind at 1. rewrite (setReplicationId_up _ _ _ _ Hget Hup).
    destruct (IH (assignedState id rid e s)) as (s' & Hrun & Hi & Hn & Hwf).
    { intros id' Hin. destruct (Hg id') as (e' & Hget' & Hup'); [right; exact Hin|].
      rewrite (iget_assignedState _ _ _ _ _ Hget), Hget'. simpl.
      eexists. split; [reflexivity|]. destruct (decide (id' = id)); exact Hup'. }
    exists s'. split; [exact Hrun|]. split; [|split].
    + intros id'. rewrite Hi, (iget_assignedState _ _ _ _ _ Hget).
      destruct (iget id' s) as [e'|]; [|reflexivity]. simpl. f_equal.
      destruct (decide (id' = id)) as [->|Hne].
      * rewrite (decide_True (P := id ∈ id :: g)) by left.
        destruct (decide (id ∈ g)); reflexivity.
      * destruct (decide (id' ∈ g)) as [Hin|Hnin].
        -- rewrite decide_True by (right; exact Hin). reflexivity.
        -- rewrite decide_False; [reflexivity|].
           intros [?|?]%elem_of_cons; contradiction.
    + exact Hn.
    + intros H. apply Hwf, wellIndexed_assignedState, H.
Qed.

Lemma nthReplicationId_succ (next : Z) (k : nat) :
  nthReplicationId (wrap64 (next + 1)) k = nthReplicationId next (S k).
Proof.
  unfold nthReplicationId. symmetry.
  exact (Nat.iter_succ_r k (fun n => wrap64 (n + 1)) next).
Qed.

(** Within the 64-bit range the [k]-th id is [next + k], wrapped. *)
Lemma nthReplicationId_wrap (next : Z) (k : nat) :
  0 <= next < 2 ^ 64 -> nthReplicationId next k = wrap64 (next + Z.of_nat k).
Proof.
  intros Hn. induction k as [|k IH].
  - simpl. unfold wrap64. rewrite Z.add_0_r, Z.mod_small by lia. reflexivity.
  - unfold nthReplicationId in *. simpl Nat.iter. rewrite IH. unfold wrap64.
    rewrite Zplus_mod_idemp_l. f_equal. lia.
Qed.

(** The [while] loop of [createReplicationGroup] on a stack of distinct
    servers that are in the list and UP. *)
Lemma createGroups_spec (stack : list ServerId) (s : CoordinatorServerList) :
  NoDup stack ->
  (forall id, id ∈ stack -> exists e, iget id s = Some e /\ status e = UP) ->
  exists s',
    createGroups stack s = Returned tt s' /\
    nextReplicationId s' =
      nthReplicationId (nextReplicationId s) (length stack / 3) /\
    (forall j id, stack !! j = Some id -> (j < 3 * (length stack / 3))%nat ->
       iget id s' =
       set_replicationId (nthReplicationId (nextReplicationId s) (j / 3))
         <$> iget id s) /\
    (forall id,
       (forall j, stack !! j = Some id -> (3 * (length stack / 3) <= j)%nat) ->
       iget id s' = iget id s) /\
    (wellIndexed (serverList s) -> wellIndexed (serverList s')).
Proof.
  remember (length stack) as n eqn:Hn.
  revert stack s Hn. induction n as [n IH] using lt_wf_ind.
  intros stack s Hn Hnd Hup.
  destruct stack as [|b1 [|b2 [|b3 rest]]].
  1-3: exists s; simpl in Hn; subst n; (split; [reflexivity|]);
       (split; [reflexivity|]); (split; [intros j id _ Hj; simpl in Hj; lia|]);
       split; auto.
  cbn [createGroups]. unfold bind at 1. unfold gets.
  destruct (assignReplicationGroup_up (nextReplicationId s) [b1; b2; b3] s)
    as (s1 & Hrun & Hi1 & Hn1 & Hwf1).
  { intros id Hin. apply Hup.
    repeat (apply elem_of_cons in Hin as [->|Hin]); [left|right; left|do 2 right; left|].
    inversion Hin. }
  unfold bind at 1. rewrite Hrun. unfold bind at 1. unfold modify.
  set (s2 := with_nextReplicationId (fun n => wrap64 (n + 1)) s1).
  assert (Hi2 : forall id, iget id s2 = iget id s1) by reflexivity.
  assert (Hn2 : nextReplicationId s2 = wrap64 (nextReplicationId s + 1))
    by (subst s2; simpl; rewrite Hn1; reflexivity).
  apply NoDup_cons in Hnd as [Hb1 Hnd]. apply NoDup_cons in Hnd as [Hb2 Hnd].
  apply NoDup_cons in Hnd as [Hb3 Hnd].
  assert (Hrest : forall id, id ∈ rest -> id ∉ [b1; b2; b3]).
  { intros id Hin Hin3.
    repeat (apply elem_of_cons in Hin3 as [->|Hin3]).
    - apply Hb1. do 2 right. exact Hin.
    - apply Hb2. right. exact Hin.
    - apply Hb3. exact Hin.
    - inversion Hin3. }
  destruct (IH (length rest) ltac:(simpl in Hn; lia) rest s2 eq_refl Hnd)
    as (s' & Hrun' & Hn' & Hin' & Hout' & Hwf').
  { intros id Hin. destruct (Hup id) as (e & Hget & He); [do 3 right; exact Hin|].
    rewrite Hi2, Hi1, Hget, decide_False by (apply Hrest, Hin).
    simpl. eauto. }
  assert (Hdiv : (n / 3 = S (length rest / 3))%nat).
  { subst n. simpl length.
    replace (S (S (S (length rest)))) with (1 * 3 + length rest)%nat by lia.
    rewrite Nat.div_add_l by lia. reflexivity. }
  exists s'. split; [exact Hrun'|]. split; [|split; [|split]].
  - rewrite Hn', Hn2, Hdiv. apply nthReplicationId_succ.
  - intros j id Hj Hlt.
    destruct (decide (j < 3)%nat) as [Hj3|Hj3].
    + assert (Hin3 : id ∈ [b1; b2; b3]).
      { destruct j as [|[|[|j]]]; simpl in Hj; try lia; injection Hj as <-;
          [left|right; left|do 2 right; left]. }
      rewrite Hout'.
      * rewrite Hi2, Hi1, decide_True by exact Hin3.
        replace (j / 3)%nat with 0%nat by (symmetry; apply Nat.div_small; lia).
        reflexivity.
      * intros j' Hj'. exfalso.
        assert (id ∈ rest) by (eapply list_elem_of_lookup_2; eassumption).
        eapply Hrest; eassumption.
    + replace j with (3 + (j - 3))%nat in Hj by lia. simpl in Hj.
      assert (Hin : id ∈ rest) by (eapply list_elem_of_lookup_2; eassumption).
      rewrite (Hin' _ _ Hj) by lia.
      rewrite Hi2, Hi1, decide_False by (apply Hrest, Hin).
      rewrite Hn2, nthReplicationId_succ.
      replace (S ((j - 3) / 3)) with (j / 3)%nat.
      * destruct (iget id s); reflexivity.
      * replace j with (1 * 3 + (j - 3))%nat at 1 by lia.
        rewrite Nat.div_add_l by lia. reflexivity.
  - intros id Hid.
    assert (Hnot3 : id ∉ [b1; b2; b3]).
    { intros Hin3.
      repeat (apply elem_of_cons in Hin3 as [->|Hin3]).
      - specialize (Hid 0%nat eq_refl). lia.
      - specialize (Hid 1%nat eq_refl). lia.
      - specialize (Hid 2%nat eq_refl). lia.
      - inversion Hin3. }
    rewrite Hout'.
    + rewrite Hi2, Hi1, decide_False by exact Hnot3.
      destruct (iget id s); reflexivity.
    + intros j Hj. specialize (Hid (3 + j)%nat Hj). lia.
  - intros H. apply Hwf', Hwf1, H.
Qed.

(** ** Every history keeps the list well-indexed *)

Section KeepsIndexed.

Context {A B : Type}.

Lemma keepsIndexed_ret (a : A) : keepsIndexed (ret a).
Proof. intros s s' Hwf [= <-]. exact Hwf. Qed.

Lemma keepsIndexed_gets (f : CoordinatorServerList -> A) : keepsIndexed (gets f).
Proof. intros s s' Hwf [= <-]. exact Hwf. Qed.

Lemma keepsIndexed_throw (e : Exception) : keepsIndexed (throw (A := A) e).
Proof. intros s s' Hwf [= <-]. exact Hwf. Qed.

Lemma keepsIndexed_abort (why : AbortReason) : keepsIndexed (abort (A := A) why).
Proof. intros s s' Hwf [=]. Qed.

Lemma keepsIndexed_bind (m : M A) (k : A -> M B) :
  keepsIndexed m -> (forall a, keepsIndexed (k a)) -> keepsIndexed (bind m k).
Proof.
  intros Hm Hk s s' Hwf. unfold bind.
  destruct (m s) as [a s1|e s1|why] eqn:Hms; simpl.
  - apply Hk. apply (Hm s s1 Hwf). rewrite Hms. reflexivity.
  - intros [= <-]. apply (Hm s s1 Hwf). rewrite Hms. reflexivity.
  - discriminate.
Qed.

Lemma keepsIndexed_catch (m h : M A) :
  keepsIndexed m -> keepsIndexed h -> keepsIndexed (catch m h).
Proof.
  intros Hm Hh s s' Hwf. unfold catch.
  destruct (m s) as [a s1|e s1|why] eqn:Hms; simpl.
  - intros [= <-]. apply (Hm s s1 Hwf). rewrite Hms. reflexivity.
  - assert (Hwf1 : wellIndexed (serverList s1))
      by (apply (Hm s s1 Hwf); rewrite Hms; reflexivity).
    destruct e; simpl.
    + apply Hh, Hwf1.
    + intros [= <-]. exact Hwf1.
  - discriminate.
Qed.

End KeepsIndexed.

Lemma keepsIndexed_modify_other (f : CoordinatorServerList -> CoordinatorServerList) :
  (forall s, serverList (f s) = serverList s) -> keepsIndexed (modify f).
Proof. intros Hf s s' Hwf [= <-]. rewrite Hf. exact Hwf. Qed.

Lemma keepsIndexed_modify_list
    (g : list GenerationNumberEntryPair -> list GenerationNumberEntryPair) :
  (forall l, wellIndexed l -> wellIndexed (g l)) ->
  keepsIndexed (modify (with_serverList g)).
Proof. intros Hg s s' Hwf [= <-]. simpl. apply Hg, Hwf. Qed.

Lemma keepsIndexed_assert (b : bool) : keepsIndexed (assert b).
Proof.
  unfold assert. destruct b; [apply keepsIndexed_ret|apply keepsIndexed_abort].
Qed.

Lemma keepsIndexed_when (b : bool) (m : M unit) :
  keepsIndexed m -> keepsIndexed (when b m).
Proof. unfold when. destruct b; [trivial|intros _; apply keepsIndexed_ret]. Qed.

Lemma wellIndexed_insert (i : nat) (g : Z) (e : Entry)
    (l : list GenerationNumberEntryPair) :
  indexNumber (serverId e) = i ->
  wellIndexed l -> wellIndexed (<[i := mkPair g (Some e)]> l).
Proof.
  intros Hi Hwf j p e' Hp He'.
  destruct (decide (i = j)) as [->|Hne].
  - pose proof (lookup_lt_Some _ _ _ Hp) as Hlt. rewrite length_insert in Hlt.
    rewrite list_lookup_insert_eq in Hp by exact Hlt.
    injection Hp as <-. injection He' as <-. exact Hi.
  - rewrite list_lookup_insert_ne in Hp by done. eapply Hwf; eassumption.
Qed.

Lemma wellIndexed_grow (n : nat) (l : list GenerationNumberEntryPair) :
  wellIndexed l -> wellIndexed (l ++ replicate n emptyPair).
Proof.
  intros Hwf j p e Hp He.
  apply lookup_app_Some in Hp as [Hp|[_ Hp]].
  - eapply Hwf; eassumption.
  - apply lookup_replicate in Hp as [-> _]. discriminate.
Qed.

Lemma wellIndexed_resize (n : nat) (l : list GenerationNumberEntryPair) :
  wellIndexed l -> wellIndexed (resize n l).
Proof.
  intros Hwf j p e Hp He. unfold resize in Hp.
  apply lookup_app_Some in Hp as [Hp|[_ Hp]].
  - apply lookup_take_Some in Hp as [Hp _]. eapply Hwf; eassumption.
  - apply lookup_replicate in Hp as [-> _]. discriminate.
Qed.

Lemma keepsIndexed_modifyEntry (i : nat) (f : Entry -> Entry) :
  (forall x, serverId (f x) = serverId x) -> keepsIndexed (modifyEntry i f).
Proof.
  intros Hf. unfold modifyEntry. apply keepsIndexed_modify_list.
  intros l. apply wellIndexed_alter. intros p e'. simpl.
  destruct (entry p) as [e0|]; [|discriminate]. intros [= <-]. eauto.
Qed.

Lemma keepsIndexed_destroyEntry (i : nat) : keepsIndexed (destroyEntry i).
Proof.
  unfold destroyEntry. apply keepsIndexed_modify_list.
  intros l. apply wellIndexed_alter. intros p e'. discriminate.
Qed.

Create HintDb keepsIndexed.

#[local] Hint Resolve keepsIndexed_ret keepsIndexed_gets keepsIndexed_throw
  keepsIndexed_abort keepsIndexed_assert keepsIndexed_destroyEntry : keepsIndexed.

(** One step of a syntax-directed proof that a method [keepsIndexed]. *)
Ltac keeps_step :=
  match goal with
  | |- keepsIndexed (bind _ _) => apply keepsIndexed_bind; [|intros ?]
  | |- keepsIndexed (when _ _) => apply keepsIndexed_when
  | |- keepsIndexed (catch _ _) => apply keepsIndexed_catch
  | |- keepsIndexed (modifyEntry _ _) =>
      apply keepsIndexed_modifyEntry; intros ?; reflexivity
  | |- keepsIndexed (modify _) =>
      first [apply keepsIndexed_modify_other; intros ?; reflexivity
            |apply keepsIndexed_modify_list; intros ?;
             first [apply wellIndexed_grow
                   |apply wellIndexed_resize
                   |apply wellIndexed_insert; reflexivity]]
  | |- keepsIndexed (if ?b then _ else _) => destruct b
  | |- keepsIndexed (match ?x with _ => _ end) => destruct x
  | |- keepsIndexed _ => solve [auto with keepsIndexed]
  end.

Ltac keeps_auto := repeat keeps_step.

Lemma keepsIndexed_getReferenceFromServerId id :
  keepsIndexed (getReferenceFromServerId id).
Proof.
  intros s s' Hwf H. rewrite getReferenceFromServerId_iget in H.
  destruct (iget id s); injection H as <-; exact Hwf.
Qed.

Lemma keepsIndexed_derefEntry i : keepsIndexed (derefEntry i).
Proof.
  intros s s' Hwf H. rewrite derefEntry_entryAt in H.
  destruct (entryAt s i); [|discriminate]. injection H as <-. exact Hwf.
Qed.

#[local] Hint Resolve keepsIndexed_getReferenceFromServerId
  keepsIndexed_derefEntry : keepsIndexed.

Lemma keepsIndexed_appendToUpdate e : keepsIndexed (appendToUpdate e).
Proof. unfold appendToUpdate. keeps_auto. Qed.

Lemma keepsIndexed_notifyTrackers e ev : keepsIndexed (notifyTrackers e ev).
Proof. unfold notifyTrackers. keeps_auto. Qed.

#[local] Hint Resolve keepsIndexed_appendToUpdate keepsIndexed_notifyTrackers
  : keepsIndexed.

Lemma keepsIndexed_setReplicationId id rid : keepsIndexed (setReplicationId id rid).
Proof. unfold setReplicationId. keeps_auto. Qed.

Lemma keepsIndexed_addServerInfoLogId id entryId : keepsIndexed (addServerInfoLogId id entryId).
Proof. unfold addServerInfoLogId. keeps_auto. Qed.

Lemma keepsIndexed_getServerInfoLogId id : keepsIndexed (getServerInfoLogId id).
Proof. unfold getServerInfoLogId. keeps_auto. Qed.

Lemma keepsIndexed_addServerUpdateLogId id entryId : keepsIndexed (addServerUpdateLogId id entryId).
Proof. unfold addServerUpdateLogId. keeps_auto. Qed.

Lemma keepsIndexed_getServerUpdateLogId id : keepsIndexed (getServerUpdateLogId id).
Proof. unfold getServerUpdateLogId. keeps_auto. Qed.

Lemma keepsIndexed_firstFreeIndex : keepsIndexed firstFreeIndex.
Proof. unfold firstFreeIndex. keeps_auto. Qed.

#[local] Hint Resolve keepsIndexed_setReplicationId keepsIndexed_addServerInfoLogId
  keepsIndexed_getServerInfoLogId keepsIndexed_addServerUpdateLogId
  keepsIndexed_getServerUpdateLogId keepsIndexed_firstFreeIndex : keepsIndexed.

Lemma keepsIndexed_generateUniqueId : keepsIndexed generateUniqueId.
Proof. unfold generateUniqueId. keeps_auto. Qed.

Lemma keepsIndexed_add id loc mask readSpeed : keepsIndexed (add id loc mask readSpeed).
Proof. unfold add. keeps_auto. Qed.

Lemma keepsIndexed_crashed id : keepsIndexed (crashed id).
Proof. unfold crashed. keeps_auto. Qed.

#[local] Hint Resolve keepsIndexed_generateUniqueId keepsIndexed_add keepsIndexed_crashed : keepsIndexed.

Lemma keepsIndexed_remove id : keepsIndexed (remove id).
Proof. unfold remove. keeps_auto. Qed.

Lemma keepsIndexed_assignReplicationGroup rid g : keepsIndexed (assignReplicationGroup rid g).
Proof. induction g as [|id g IH]; simpl; keeps_auto. Qed.

#[local] Hint Resolve keepsIndexed_remove keepsIndexed_assignReplicationGroup : keepsIndexed.

Lemma keepsIndexed_createGroups stack : keepsIndexed (createGroups stack).
Proof.
  remember (length stack) as n eqn:Hn.
  revert stack Hn. induction n as [n IH] using lt_wf_ind. intros stack Hn.
  destruct stack as [|b1 [|b2 [|b3 rest]]]; simpl; auto with keepsIndexed.
  keeps_auto. apply (IH (length rest)); [simpl in Hn; lia|reflexivity].
Qed.

#[local] Hint Resolve keepsIndexed_createGroups : keepsIndexed.

Lemma keepsIndexed_createReplicationGroup : keepsIndexed createReplicationGroup.
Proof. unfold createReplicationGroup. keeps_auto. Qed.

Lemma keepsIndexed_removeGroupLoop groupId indices group :
  keepsIndexed (removeGroupLoop groupId indices group).
Proof.
  revert group. induction indices as [|i rest IH]; intros group; simpl;
    [auto with keepsIndexed|].
  apply keepsIndexed_bind; [auto with keepsIndexed|]. intros slot.
  apply keepsIndexed_bind; [keeps_auto|]. intros _. apply IH.
Qed.

#[local] Hint Resolve keepsIndexed_createReplicationGroup keepsIndexed_removeGroupLoop : keepsIndexed.

Lemma keepsIndexed_removeReplicationGroup groupId : keepsIndexed (removeReplicationGroup groupId).
Proof. unfold removeReplicationGroup. keeps_auto. Qed.

Lemma keepsIndexed_appendProtoBuf r inv : keepsIndexed (appendProtoBuf r inv).
Proof. unfold appendProtoBuf. keeps_auto. Qed.

Lemma keepsIndexed_invalidate ids : keepsIndexed (invalidate ids).
Proof. unfold invalidate. keeps_auto. Qed.

Lemma keepsIndexed_startMasterRecovery e : keepsIndexed (startMasterRecovery e).
Proof. unfold startMasterRecovery. keeps_auto. Qed.

#[local] Hint Resolve keepsIndexed_removeReplicationGroup keepsIndexed_appendProtoBuf
  keepsIndexed_invalidate keepsIndexed_startMasterRecovery : keepsIndexed.

Lemma keepsIndexed_EnlistServer_complete id mask readSpeed loc entryId :
  keepsIndexed (EnlistServer.complete id mask readSpeed loc entryId).
Proof. unfold EnlistServer.complete. keeps_auto. Qed.

#[local] Hint Resolve keepsIndexed_EnlistServer_complete : keepsIndexed.

Lemma keepsIndexed_EnlistServer_execute mask readSpeed loc :
  keepsIndexed (EnlistServer.execute mask readSpeed loc).
Proof. unfold EnlistServer.execute. keeps_auto. Qed.

Lemma keepsIndexed_ForceServerDown_complete id entryId :
  keepsIndexed (ForceServerDown.complete id entryId).
Proof. unfold ForceServerDown.complete. keeps_auto. Qed.

#[local] Hint Resolve keepsIndexed_EnlistServer_execute
  keepsIndexed_ForceServerDown_complete : keepsIndexed.

Lemma keepsIndexed_forceServerDown id : keepsIndexed (forceServerDown id).
Proof. unfold forceServerDown, ForceServerDown.execute. keeps_auto. Qed.

Lemma keepsIndexed_SetMasterRecoveryInfo_complete id info entryId :
  keepsIndexed (SetMasterRecoveryInfo.complete id info entryId).
Proof. unfold SetMasterRecoveryInfo.complete. keeps_auto. Qed.

#[local] Hint Resolve keepsIndexed_forceServerDown
  keepsIndexed_SetMasterRecoveryInfo_complete : keepsIndexed.

Lemma keepsIndexed_SetMasterRecoveryInfo_execute id info :
  keepsIndexed (SetMasterRecoveryInfo.execute id info).
Proof. unfold SetMasterRecoveryInfo.execute. keeps_auto. Qed.

Lemma keepsIndexed_pruneUpdates v : keepsIndexed (pruneUpdates v).
Proof. unfold pruneUpdates. keeps_auto. Qed.

#[local] Hint Resolve keepsIndexed_SetMasterRecoveryInfo_execute keepsIndexed_pruneUpdates
  : keepsIndexed.

Lemma keepsIndexed_hasUpdatesBody i : keepsIndexed (hasUpdatesBody i).
Proof. unfold hasUpdatesBody. keeps_auto. Qed.

#[local] Hint Resolve keepsIndexed_hasUpdatesBody : keepsIndexed.

Lemma keepsIndexed_hasUpdatesLoop fuel i : keepsIndexed (hasUpdatesLoop fuel i).
Proof.
  revert i. induction fuel as [|fuel IH]; intros i; simpl; keeps_auto.
Qed.

#[local] Hint Resolve keepsIndexed_hasUpdatesLoop : keepsIndexed.

Lemma keepsIndexed_hasUpdates : keepsIndexed hasUpdates.
Proof. unfold hasUpdates. keeps_auto. Qed.

#[local] Hint Resolve keepsIndexed_hasUpdates : keepsIndexed.

Lemma keepsIndexed_loadNextUpdate updateSlot : keepsIndexed (loadNextUpdate updateSlot).
Proof. unfold loadNextUpdate. keeps_auto. Qed.

Lemma keepsIndexed_updateEntryVersion id v : keepsIndexed (updateEntryVersion id v).
Proof. unfold updateEntryVersion. keeps_auto. Qed.

#[local] Hint Resolve keepsIndexed_loadNextUpdate keepsIndexed_updateEntryVersion : keepsIndexed.

Lemma keepsIndexed_commitUpdate : keepsIndexed commitUpdate.
Proof. unfold commitUpdate. keeps_auto. Qed.

#[local] Hint Resolve keepsIndexed_commitUpdate : keepsIndexed.

Lemma keepsIndexed_perform (c : Call) : keepsIndexed (perform c).
Proof.
  destruct c; simpl;
    unfold Public.add, Public.crashed, Public.remove, Public.generateUniqueId,
      Public.setMasterRecoveryInfo, Public.setMasterRecoveryInfoRecover,
      Public.enlistServer, Public.enlistServerRecover,
      Public.enlistedServerRecover, Public.hintServerDown,
      Public.forceServerDownRecover;
    keeps_auto.
Qed.

(** The hypothesis [wellIndexed] of the theorems on replication groups
    holds in every state a history of calls can reach. *)
Lemma Reachable_wellIndexed (ts n : nat) (s : CoordinatorServerList) :
  Reachable ts n s -> wellIndexed (serverList s).
Proof.
  induction 1 as [|n s c s' Hreach IH Hstep].
  - intros i p e Hp He. simpl in Hp. discriminate.
  - exact (keepsIndexed_perform c s s' IH Hstep).
Qed.

Lemma rev_reverse {A} (l : list A) : rev l = reverse l.
Proof. rewrite rev_alt. reflexivity. Qed.

Lemma NoDup_rev_iff {A} (l : list A) : NoDup (rev l) <-> NoDup l.
Proof. rewrite rev_reverse, reverse_Permutation. reflexivity. Qed.

Lemma elem_of_rev {A} (x : A) (l : list A) : x ∈ rev l <-> x ∈ l.
Proof. rewrite rev_reverse. apply elem_of_reverse. Qed.

Lemma wellIndexed_app_l (l k : list GenerationNumberEntryPair) :
  wellIndexed (l ++ k) -> wellIndexed l.
Proof.
  intros Hwf i p e Hp He. apply (Hwf i p e); [|exact He].
  apply lookup_app_l_Some, Hp.
Qed.

Lemma freeBackups_app (l k : list GenerationNumberEntryPair) :
  freeBackups (l ++ k) = freeBackups l ++ freeBackups k.
Proof. apply omap_app. Qed.

Lemma elem_of_freeBackups (id : ServerId) (l : list GenerationNumberEntryPair) :
  id ∈ freeBackups l <->
  exists i p e, l !! i = Some p /\ entry p = Some e /\
                isBackup e = true /\ replicationId e = 0 /\ serverId e = id.
Proof.
  unfold freeBackups. rewrite list_elem_of_omap. split.
  - intros (p & Hin & Hp). apply list_elem_of_lookup in Hin as [i Hi].
    destruct (entry p) as [e|] eqn:He; [|discriminate].
    destruct (isBackup e) eqn:Hb; [|discriminate].
    destruct (Z.eqb_spec (replicationId e) 0) as [Hr|]; [|discriminate].
    injection Hp as <-. exists i, p, e. auto.
  - intros (i & p & e & Hi & He & Hb & Hr & Hid). exists p.
    split; [eapply list_elem_of_lookup_2; eassumption|].
    rewrite He, Hb, Hr. simpl. congruence.
Qed.

Lemma freeBackups_index (id : ServerId) (l : list GenerationNumberEntryPair) :
  wellIndexed l -> id ∈ freeBackups l -> (indexNumber id < length l)%nat.
Proof.
  intros Hwf (i & p & e & Hi & He & _ & _ & <-)%elem_of_freeBackups.
  rewrite (Hwf _ _ _ Hi He). eapply lookup_lt_Some, Hi.
Qed.

(** The candidates are listed in slot order. *)
Lemma freeBackups_slot_order (l : list GenerationNumberEntryPair) :
  wellIndexed l ->
  forall a b ida idb,
    freeBackups l !! a = Some ida -> freeBackups l !! b = Some idb ->
    (a < b)%nat -> (indexNumber ida < indexNumber idb)%nat.
Proof.
  induction l as [|p l IH] using rev_ind; intros Hwf a b ida idb Ha Hb Hab.
  - discriminate.
  - pose proof (wellIndexed_app_l _ _ Hwf) as Hwfl.
    rewrite freeBackups_app in Ha, Hb.
    destruct (decide (b < length (freeBackups l))%nat) as [Hlt|Hge].
    + rewrite lookup_app_l in Ha, Hb by lia. eauto.
    + pose proof (lookup_lt_Some _ _ _ Hb) as Hblt.
      rewrite length_app in Hblt.
      assert (length (freeBackups [p]) <= 1)%nat
        by (unfold freeBackups; simpl; destruct (entry p) as [e|]; simpl;
            [destruct (isBackup e && (replicationId e =? 0))|]; simpl; lia).
      rewrite lookup_app_l in Ha by lia. rewrite lookup_app_r in Hb by lia.
      assert (Hin : ida ∈ freeBackups l)
        by (eapply list_elem_of_lookup_2; eassumption).
      pose proof (freeBackups_index _ _ Hwfl Hin) as Hia.
      assert (Hinb : idb ∈ freeBackups [p])
        by (eapply list_elem_of_lookup_2; eassumption).
      apply elem_of_freeBackups in Hinb as (i & p' & e & Hi & He & _ & _ & <-).
      destruct i; [|discriminate]. injection Hi as <-.
      rewrite (Hwf (length l) p e); [lia| |exact He].
      rewrite lookup_app_r, Nat.sub_diag by lia. reflexivity.
Qed.

Lemma freeBackups_NoDup (l : list GenerationNumberEntryPair) :
  wellIndexed l -> NoDup (freeBackups l).
Proof.
  intros Hwf. apply NoDup_alt. intros a b id Ha Hb.
  destruct (Nat.lt_trichotomy a b) as [Hlt|[Heq|Hgt]]; [|exact Heq|].
  - pose proof (freeBackups_slot_order l Hwf _ _ _ _ Ha Hb Hlt). lia.
  - pose proof (freeBackups_slot_order l Hwf _ _ _ _ Hb Ha Hgt). lia.
Qed.

Lemma elem_of_freeBackups_iget (id : ServerId) (s : CoordinatorServerList) :
  wellIndexed (serverList s) ->
  id ∈ freeBackups (serverList s) <->
  exists e, iget id s = Some e /\ status e = UP /\
            has (services e) BACKUP_SERVICE = true /\ replicationId e = 0.
Proof.
  intros Hwf. rewrite elem_of_freeBackups. unfold isBackup. split.
  - intros (i & p & e & Hi & He & Hb & Hr & <-).
    apply andb_true_iff in Hb as [Hup%bool_decide_eq_true Hb].
    exists e. split; [|auto]. eapply wellIndexed_iget; eassumption.
  - intros (e & (p & Hp & He & Hid)%iget_Some & Hup & Hb & Hr).
    exists (indexNumber id), p, e. rewrite Hb, bool_decide_true by exact Hup.
    auto.
Qed.

Lemma assignReplicationGroup_app (rid : Z) (g1 g2 : list ServerId)
    (s s1 : CoordinatorServerList) :
  assignReplicationGroup rid g1 s = Returned true s1 ->
  assignReplicationGroup rid (g1 ++ g2) s = assignReplicationGroup rid g2 s1.
Proof.
  revert s. induction g1 as [|id g1 IH]; intros s; cbn [assignReplicationGroup app].
  - intros [= <-]. reflexivity.
  - unfold bind, gets.
    destruct (iget id s); [|discriminate].
    destruct (setReplicationId id rid s); try discriminate.
    apply IH.
Qed.

(** What [createReplicationGroup] does to a well-indexed list. *)
Lemma createReplicationGroup_effect (s : CoordinatorServerList) :
  wellIndexed (serverList s) ->
  let free := freeBackups (serverList s) in
  let next := nextReplicationId s in
  let k := (length free / 3)%nat in
  (forall id, id ∈ free <->
     exists e, iget id s = Some e /\ status e = UP /\
               has (services e) BACKUP_SERVICE = true /\ replicationId e = 0) /\
  (forall a b ida idb,
     free !! a = Some ida -> free !! b = Some idb ->
     (a < b)%nat -> (indexNumber ida < indexNumber idb)%nat) /\
  exists s',
    createReplicationGroup s = Returned tt s' /\
    nextReplicationId s' = nthReplicationId next k /\
    (forall j id, rev free !! j = Some id -> (j < 3 * k)%nat ->
       iget id s' =
       set_replicationId (nthReplicationId next (j / 3)) <$> iget id s) /\
    (forall j id, rev free !! j = Some id -> (3 * k <= j)%nat ->
       iget id s' = iget id s) /\
    (forall id, id ∉ free -> iget id s' = iget id s) /\
    regrouped s s' /\
    wellIndexed (serverList s').
Proof.
  intros Hwf free next k.
  split; [intros id; apply elem_of_freeBackups_iget, Hwf|].
  split; [apply freeBackups_slot_order, Hwf|].
  pose proof (freeBackups_NoDup _ Hwf) as Hnd. fold free in Hnd.
  destruct (createGroups_spec (rev free) s) as (s' & Hrun & Hn & Hin & Hout & Hwf').
  { apply NoDup_rev_iff, Hnd. }
  { intros id Hid. apply (proj1 (elem_of_rev _ _)) in Hid.
    apply (elem_of_freeBackups_iget _ _ Hwf) in Hid as (e & Hget & Hup & _).
    eauto. }
  rewrite length_rev in *. fold k in Hn, Hin, Hout.
  assert (Hrun' : createReplicationGroup s = Returned tt s') by exact Hrun.
  exists s'. split; [exact Hrun'|]. split; [exact Hn|]. split; [exact Hin|].
  split; [|split; [|split]].
  - intros j id Hj Hge. apply Hout. intros j' Hj'.
    assert (j' = j) as ->; [|exact Hge].
    eapply NoDup_lookup; [apply NoDup_rev_iff, Hnd| |]; eassumption.
  - intros id Hid. apply Hout. intros j Hj. exfalso. apply Hid.
    apply (proj1 (elem_of_rev _ _)). eapply list_elem_of_lookup_2, Hj.
  - destruct (createReplicationGroup_regrouped s) as (s'' & Hrun'' & Hre).
    rewrite Hrun' in Hrun''. injection Hrun'' as <-. exact Hre.
  - apply Hwf', Hwf.
Qed.


(** [assignReplicationGroup] stops at the first member that is not in the
    list: the members before it keep the new id, nothing is rolled back. *)
Lemma assignReplicationGroup_stops (rid : Z) (pre post : list ServerId)
    (x : ServerId) (s : CoordinatorServerList) :
  (forall id, id ∈ pre -> exists e, iget id s = Some e /\ status e = UP) ->
  iget x s = None ->
  exists s',
    assignReplicationGroup rid (pre ++ x :: post) s = Returned false s' /\
    (forall id, iget id s' =
       (if decide (id ∈ pre) then set_replicationId rid else fun e => e)
         <$> iget id s).
Proof.
  intros Hpre Hx.
  destruct (assignReplicationGroup_up rid pre s Hpre) as (s1 & Hrun & Hi & _).
  exists s1. split; [|exact Hi].
  rewrite (assignReplicationGroup_app _ _ _ _ _ Hrun).
  cbn [assignReplicationGroup]. unfold bind, gets.
  rewrite Hi, Hx. reflexivity.
Qed.

(** C3 (amended).  [createReplicationGroup] gathers, in slot order,
    exactly the UP backups whose replication id is 0.  While at least
    three remain it takes three candidates from the back of that list, so
    from the highest slots down, and gives them [nextReplicationId], which
    it then increments: counting from the back, candidates [3k], [3k+1],
    [3k+2] get the [k]-th fresh id.  The candidates left over and every
    other server keep their replication id.  In a list where every entry
    sits in the slot its id names, every candidate is retrievable, so
    every group is assigned in full.  The assignment of a group is not
    atomic: it stops at the first member that is not retrievable, and the
    members before it keep the new id. *)
Theorem createReplicationGroup_spec :
  (forall s : CoordinatorServerList,
     wellIndexed (serverList s) ->
     let free := freeBackups (serverList s) in
     let next := nextReplicationId s in
     let k := (length free / 3)%nat in
     (forall id, id ∈ free <->
        exists e, iget id s = Some e /\ status e = UP /\
                  has (services e) BACKUP_SERVICE = true /\ replicationId e = 0) /\
     (forall a b ida idb,
        free !! a = Some ida -> free !! b = Some idb ->
        (a < b)%nat -> (indexNumber ida < indexNumber idb)%nat) /\
     exists s',
       createReplicationGroup s = Returned tt s' /\
       nextReplicationId s' = nthReplicationId next k /\
       (forall j id, rev free !! j = Some id -> (j < 3 * k)%nat ->
          iget id s' =
          set_replicationId (nthReplicationId next (j / 3)) <$> iget id s) /\
       (forall j id, rev free !! j = Some id -> (3 * k <= j)%nat ->
          iget id s' = iget id s) /\
       (forall id, id ∉ free -> iget id s' = iget id s) /\
       regrouped s s' /\
       wellIndexed (serverList s')) /\
  (forall (rid : Z) (pre post : list ServerId) (x : ServerId)
          (s : CoordinatorServerList),
     (forall id, id ∈ pre -> exists e, iget id s = Some e /\ status e = UP) ->
     iget x s = None ->
     exists s',
       assignReplicationGroup rid (pre ++ x :: post) s = Returned false s' /\
       (forall id, iget id s' =
          (if decide (id ∈ pre) then set_replicationId rid else fun e => e)
            <$> iget id s)).
Proof.
  split.
  - exact createReplicationGroup_effect.
  - exact assignReplicationGroup_stops.
Qed.

Lemma createReplicationGroup_spec_witness :
  let B := maskOf [BACKUP_SERVICE] in
  let s := execAll [CallAdd (mkServerId 1 1) "b1" B 100;
                    CallAdd (mkServerId 2 1) "b2" B 100;
                    CallAdd (mkServerId 3 1) "b3" B 100;
                    CallAdd (mkServerId 4 1) "b4" B 100] (initial 0) in
  (exists s',
     createReplicationGroup s = Returned tt s' /\
     nextReplicationId s' = 2 /\
     replicationId <$> iget (mkServerId 4 1) s' = Some 1 /\
     replicationId <$> iget (mkServerId 2 1) s' = Some 1 /\
     replicationId <$> iget (mkServerId 1 1) s' = Some 0) /\
  (exists s',
     assignReplicationGroup 7 [mkServerId 1 1; mkServerId 9 1; mkServerId 2 1] s
       = Returned false s' /\
     replicationId <$> iget (mkServerId 1 1) s' = Some 7 /\
     replicationId <$> iget (mkServerId 2 1) s' = Some 0).
Proof.
  intros B s.
  assert (Hwf : wellIndexed (serverList s))
    by (apply wellIndexed_check; reflexivity).
  split.
  - destruct (proj1 createReplicationGroup_spec s Hwf)
      as (_ & _ & s' & Hrun & Hn & Hin & Hout & _).
    exists s'. split; [exact Hrun|]. split; [exact Hn|].
    split; [rewrite (Hin 0%nat (mkServerId 4 1));
            [reflexivity|reflexivity|vm_compute; lia]|].
    split; [rewrite (Hin 2%nat (mkServerId 2 1));
            [reflexivity|reflexivity|vm_compute; lia]|].
    rewrite (Hout 3%nat (mkServerId 1 1)); [reflexivity|reflexivity|vm_compute; lia].
  - destruct (proj2 createReplicationGroup_spec 7 [mkServerId 1 1] [mkServerId 2 1]
                (mkServerId 9 1) s) as (s' & Hrun & Hi).
    + intros id Hid. apply list_elem_of_singleton in Hid as ->.
      eexists. split; [vm_compute; reflexivity|reflexivity].
    + reflexivity.
    + exists s'. split; [exact Hrun|]. rewrite !Hi. split; reflexivity.
Defined.

(** C3, as stated.  First the order of the candidates: four UP backups
    without a group sit in slots 1 to 4; [createReplicationGroup] groups
    those of slots 4, 3 and 2, and the one of slot 1, first in list order,
    is left out.  Second, atomicity: for a group whose second member is
    not in the list the assignment fails, yet the first member keeps the
    new replication id. *)
Lemma createReplicationGroup_not_in_list_order :
  let B := maskOf [BACKUP_SERVICE] in
  let s := execAll [CallAdd (mkServerId 1 1) "b1" B 100;
                    CallAdd (mkServerId 2 1) "b2" B 100;
                    CallAdd (mkServerId 3 1) "b3" B 100;
                    CallAdd (mkServerId 4 1) "b4" B 100] (initial 0) in
  (exists s',
     createReplicationGroup s = Returned tt s' /\
     ~ assignsInListOrder s s') /\
  ~ assignsAtomically 7 [mkServerId 1 1; mkServerId 9 1] s.
Proof.
  intros B s. split.
  - eexists. split; [vm_compute; reflexivity|].
    intros H. specialize (H 0%nat (mkServerId 1 1) eq_refl).
    vm_compute in H. specialize (H ltac:(lia)). discriminate.
  - intros H.
    specialize (H _ eq_refl (mkServerId 1 1) ltac:(left)).
    vm_compute in H. discriminate.
Qed.

(** ** [removeReplicationGroup], slot by slot *)

Lemma iget_ext (id : ServerId) (s s' : CoordinatorServerList) :
  serverList s' = serverList s -> iget id s' = iget id s.
Proof. unfold iget. intros ->. reflexivity. Qed.

Lemma list_alter_fixed {A} (f : A -> A) (i : nat) (l : list A) (x : A) :
  l !! i = Some x -> f x = x -> alter f i l = l.
Proof.
  intros Hi Hf. apply list_eq. intros j.
  destruct (decide (i = j)) as [->|Hne].
  - rewrite list_lookup_alter_eq, Hi. simpl. rewrite Hf. reflexivity.
  - apply list_lookup_alter_ne. exact Hne.
Qed.

(** Re-assigning 0 to entries that are UP and already have replication
    id 0 leaves the list as it is, and appends one record per entry. *)
Lemma assignReplicationGroup_again (ges : list Entry) (s : CoordinatorServerList) :
  (forall e, e ∈ ges ->
     iget (serverId e) s = Some e /\ status e = UP /\ replicationId e = 0) ->
  exists s',
    assignReplicationGroup 0 (serverId <$> ges) s = Returned true s' /\
    serverList s' = serverList s /\
    appended s s' (map serializeEntry ges).
Proof.
  revert s. induction ges as [|e ges IH]; intros s Hges;
    cbn [assignReplicationGroup fmap list_fmap map].
  - exists s. split; [reflexivity|]. split; [reflexivity|].
    apply appended_refl. reflexivity.
  - destruct (Hges e) as (Hget & Hup & Hrid); [left|].
    unfold bind at 1. unfold gets. rewrite Hget.
    unfold bind at 1. rewrite (setReplicationId_up _ _ _ _ Hget Hup).
    assert (Hl : serverList (assignedState (serverId e) 0 e s) = serverList s).
    { simpl. apply iget_Some in Hget as (p & Hp & He & _).
      eapply list_alter_fixed; [exact Hp|].
      unfold setRidPair. rewrite He. simpl.
      rewrite set_replicationId_same by exact Hrid. destruct p; simpl in *.
      congruence. }
    destruct (IH (assignedState (serverId e) 0 e s)) as (s' & Hrun & Hl' & Happ).
    { intros e' Hin. destruct (Hges e') as (Hget' & Hup' & Hrid'); [right; exact Hin|].
      rewrite (iget_ext _ _ _ Hl). auto. }
    exists s'. split; [exact Hrun|]. split; [congruence|].
    change (serializeEntry e :: map serializeEntry ges)
      with ([serializeEntry e] ++ map serializeEntry ges).
    eapply appended_trans; [|exact Happ].
    unfold appended, assignedState. simpl.
    rewrite (set_replicationId_same e 0 Hrid). reflexivity.
Qed.

Lemma resetPair_not_inGroup (groupId : Z) (p : GenerationNumberEntryPair) :
  inGroup groupId p = false -> resetPair groupId p = p.
Proof. unfold resetPair. intros ->. reflexivity. Qed.

(** The loop of [removeReplicationGroup], from slot [length done] on,
    with the entries [ges] collected in the slots before it. *)
Lemma removeGroupLoop_exact (groupId : Z) (todo done : list GenerationNumberEntryPair)
    (ges : list Entry) (s : CoordinatorServerList) :
  wellIndexed (serverList s) ->
  serverList s = done ++ todo ->
  (forall e, e ∈ ges ->
     iget (serverId e) s = Some e /\ status e = UP /\ replicationId e = 0 /\
     (indexNumber (serverId e) < length done)%nat) ->
  exists s',
    removeGroupLoop groupId (seq (length done) (length todo)) (serverId <$> ges) s
      = Returned tt s' /\
    serverList s' = done ++ map (resetPair groupId) todo /\
    appended s s' (removeGroupRecords groupId todo ges).
Proof.
  revert done ges s. induction todo as [|p rest IH]; intros done ges s Hwf Hl Hges.
  - exists s. split; [reflexivity|]. split; [exact Hl|].
    apply appended_refl. reflexivity.
  - cbn [length seq removeGroupLoop]. unfold bind at 1. unfold gets.
    assert (Hp : serverList s !! length done = Some p).
    { rewrite Hl, lookup_app_r, Nat.sub_diag by lia. reflexivity. }
    rewrite Hp.
    destruct (inGroup groupId p) eqn:Hin.
    + (* an UP backup of the group: collected, then reset *)
      unfold inGroup in Hin. destruct (entry p) as [e|] eqn:He; [|discriminate].
      rewrite Hin. cbn [removeGroupRecords]. rewrite He, Hin.
      destruct (wellIndexed_iget s _ _ _ Hwf Hp He) as [Hget Hix].
      assert (Hup : status e = UP).
      { unfold isBackup in Hin.
        apply andb_true_iff in Hin as [Hin _].
        apply andb_true_iff in Hin as [Hin _].
        apply bool_decide_eq_true in Hin. exact Hin. }
      destruct (assignReplicationGroup_again ges s) as (s1 & Hrun1 & Hl1 & Happ1).
      { intros e' He'. destruct (Hges e' He') as (?&?&?&?). auto. }
      set (s2 := assignedState (serverId e) 0 e s1).
      assert (Hget1 : iget (serverId e) s1 = Some e)
        by (rewrite (iget_ext _ _ _ Hl1); exact Hget).
      assert (Hrun : when (negb (bool_decide
                        (length ((serverId <$> ges) ++ [serverId e]) = 0%nat)))
                      (let* _ := assignReplicationGroup 0
                                   ((serverId <$> ges) ++ [serverId e]) in ret tt) s
                     = Returned tt s2).
      { rewrite bool_decide_false by (rewrite length_app; simpl; lia).
        cbn [negb when]. unfold bind at 1.
        rewrite (assignReplicationGroup_app _ _ _ _ _ Hrun1).
        cbn [assignReplicationGroup]. unfold bind at 1. unfold gets.
        rewrite Hget1. unfold bind at 1.
        rewrite (setReplicationId_up _ _ _ _ Hget1 Hup). reflexivity. }
      unfold bind at 1. rewrite Hrun.
      assert (Hl2 : serverList s2 = (done ++ [setRidPair 0 p]) ++ rest).
      { subst s2. simpl. rewrite Hl1, Hl, Hix, <- app_assoc. simpl.
        apply list_eq. intros j.
        destruct (decide (j = length done)) as [->|Hne].
        - rewrite list_lookup_alter_eq.
          rewrite !lookup_app_r, Nat.sub_diag by lia. reflexivity.
        - rewrite list_lookup_alter_ne by congruence.
          destruct (decide (j < length done)%nat).
          + rewrite !lookup_app_l by lia. reflexivity.
          + rewrite !lookup_app_r by lia.
            replace (j - length done)%nat with (S (j - length done - 1)) by lia.
            reflexivity. }
      destruct (IH (done ++ [setRidPair 0 p]) (ges ++ [set_replicationId 0 e]) s2)
        as (s' & Hrun' & Hl' & Happ').
      { apply wellIndexed_assignedState. rewrite Hl1. exact Hwf. }
      { exact Hl2. }
      { intros e' [He'|He']%elem_of_app.
        - destruct (Hges e' He') as (Hget' & Hup' & Hrid' & Hlt').
          subst s2. rewrite (iget_assignedState _ _ _ _ _ Hget1).
          rewrite decide_False by (intros Heq; rewrite Heq in Hlt'; lia).
          rewrite (iget_ext _ _ _ Hl1), Hget', length_app. simpl.
          repeat split; auto. lia.
        - apply list_elem_of_singleton in He' as ->. subst s2.
          rewrite (iget_assignedState _ _ _ _ _ Hget1).
          simpl serverId. rewrite decide_True by reflexivity.
          rewrite Hget1, length_app. simpl. repeat split; auto. lia. }
      rewrite length_app, Nat.add_1_r in Hrun'. rewrite fmap_app in Hrun'.
      exists s'. split; [exact Hrun'|]. split.
      * rewrite Hl', <- app_assoc. simpl. unfold resetPair at 2, inGroup.
        rewrite He, Hin. reflexivity.
      * eapply appended_trans; [|exact Happ'].
        rewrite map_app. simpl.
        eapply appended_trans; [exact Happ1|]. apply appended_add_server.
    + (* any other slot: the members collected so far are reset again *)
      assert (Hgroup : match entry p with
                       | Some e => if isBackup e && (replicationId e =? groupId)
                                   then (serverId <$> ges) ++ [serverId e]
                                   else serverId <$> ges
                       | None => serverId <$> ges
                       end = serverId <$> ges).
      { unfold inGroup in Hin. destruct (entry p); [rewrite Hin|]; reflexivity. }
      rewrite Hgroup. cbn [removeGroupRecords].
      assert (Hges' : match entry p with
                      | Some e => if isBackup e && (replicationId e =? groupId)
                                  then ges ++ [set_replicationId 0 e] else ges
                      | None => ges
                      end = ges).
      { unfold inGroup in Hin. destruct (entry p); [rewrite Hin|]; reflexivity. }
      rewrite Hges'.
      assert (Hstep : exists s1,
        when (negb (bool_decide (length (serverId <$> ges) = 0%nat)))
             (let* _ := assignReplicationGroup 0 (serverId <$> ges) in ret tt) s
          = Returned tt s1 /\
        serverList s1 = serverList s /\ appended s s1 (map serializeEntry ges)).
      { destruct ges as [|e0 ges0].
        - exists s. split; [reflexivity|]. split; [reflexivity|].
          apply appended_refl. reflexivity.
        - destruct (assignReplicationGroup_again (e0 :: ges0) s)
            as (s1 & Hrun1 & Hl1 & Happ1).
          { intros e' He'. destruct (Hges e' He') as (?&?&?&?). auto. }
          exists s1. rewrite bool_decide_false by (simpl; lia).
          cbn [negb when]. unfold bind, ret. rewrite Hrun1. auto. }
      destruct Hstep as (s1 & Hrun1 & Hl1 & Happ1).
      unfold bind at 1. rewrite Hrun1.
      destruct (IH (done ++ [p]) ges s1) as (s' & Hrun' & Hl' & Happ').
      { rewrite Hl1. exact Hwf. }
      { rewrite Hl1, Hl, <- app_assoc. reflexivity. }
      { intros e' He'. destruct (Hges e' He') as (Hget' & Hup' & Hrid' & Hlt').
        rewrite (iget_ext _ _ _ Hl1), length_app. simpl. repeat split; auto. lia. }
      rewrite length_app, Nat.add_1_r in Hrun'.
      exists s'. split; [exact Hrun'|]. split.
      * rewrite Hl', <- app_assoc. simpl.
        rewrite (resetPair_not_inGroup _ _ Hin). reflexivity.
      * eapply appended_trans; eassumption.
Qed.

Lemma wellIndexed_map_resetPair (groupId : Z) (l : list GenerationNumberEntryPair) :
  wellIndexed l -> wellIndexed (map (resetPair groupId) l).
Proof.
  intros Hwf i p e Hp He. rewrite list_lookup_fmap in Hp.
  destruct (l !! i) as [p0|] eqn:Hp0; [|discriminate]. injection Hp as <-.
  unfold resetPair in He. destruct (inGroup groupId p0).
  - unfold setRidPair in He. simpl in He.
    destruct (entry p0) as [e0|] eqn:He0; [|discriminate].
    injection He as <-. apply (Hwf _ _ _ Hp0 He0).
  - apply (Hwf _ _ _ Hp0 He).
Qed.

(** [removeReplicationGroup] on a well-indexed list: every UP backup of
    the group has its replication id reset, nothing else in the list
    changes, and the records appended are those of [removeGroupRecords]. *)
Lemma removeReplicationGroup_exact (groupId : Z) (s : CoordinatorServerList) :
  groupId <> 0 -> wellIndexed (serverList s) ->
  exists s',
    removeReplicationGroup groupId s = Returned tt s' /\
    serverList s' = map (resetPair groupId) (serverList s) /\
    appended s s' (removeGroupRecords groupId (serverList s) []) /\
    regrouped s s' /\
    nextReplicationId s' = nextReplicationId s /\
    wellIndexed (serverList s').
Proof.
  intros Hg Hwf.
  destruct (removeGroupLoop_exact groupId (serverList s) [] [] s Hwf eq_refl)
    as (s' & Hrun & Hl & Happ).
  { intros e He. inversion He. }
  assert (Hrun' : removeReplicationGroup groupId s = Returned tt s').
  { unfold removeReplicationGroup.
    rewrite (proj2 (Z.eqb_neq groupId 0) Hg). exact Hrun. }
  destruct (removeReplicationGroup_regrouped groupId s) as (s'' & Hrun'' & Hre & Hn).
  rewrite Hrun' in Hrun''. injection Hrun'' as <-.
  exists s'. repeat split; try assumption; try apply Hre.
  rewrite Hl. apply wellIndexed_map_resetPair, Hwf.
Qed.

(** ** How many records [removeReplicationGroup] appends *)

Lemma recordsFor_app (id : ServerId) (a b : list ProtoBuf.ServerList_Entry) :
  recordsFor id (a ++ b) = (recordsFor id a + recordsFor id b)%nat.
Proof. unfold recordsFor. rewrite filter_app, length_app. reflexivity. Qed.

Lemma recordsFor_serialized (id : ServerId) (ges : list Entry) :
  recordsFor id (map serializeEntry ges) =
  length (filter (fun e => serverId e = id) ges).
Proof.
  unfold recordsFor. induction ges as [|e ges IH]; [reflexivity|].
  simpl map. destruct (decide (serverId e = id)) as [Heq|Hne].
  - rewrite !filter_cons_True by exact Heq. simpl. rewrite IH. reflexivity.
  - rewrite !filter_cons_False by exact Hne. exact IH.
Qed.

(** Over slots that hold no entry of [id], every entry of [id] collected
    so far is recorded once per slot. *)
Lemma recordsFor_elsewhere (groupId : Z) (id : ServerId)
    (l : list GenerationNumberEntryPair) (ges : list Entry) :
  (forall p e, p ∈ l -> entry p = Some e -> serverId e <> id) ->
  recordsFor id (removeGroupRecords groupId l ges) =
  (length (filter (fun e => serverId e = id) ges) * length l)%nat.
Proof.
  revert ges. induction l as [|p l IH]; intros ges Hl; simpl;
    [unfold recordsFor; simpl; lia|].
  rewrite recordsFor_app, recordsFor_serialized.
  rewrite IH by (intros p' e' Hin; apply Hl; right; exact Hin).
  assert (Hsame :
    length (filter (fun e => serverId e = id)
              match entry p with
              | Some e => if isBackup e && (replicationId e =? groupId)
                          then ges ++ [set_replicationId 0 e] else ges
              | None => ges
              end)
    = length (filter (fun e => serverId e = id) ges)).
  { destruct (entry p) as [e|] eqn:He; [|reflexivity].
    destruct (isBackup e && (replicationId e =? groupId)); [|reflexivity].
    rewrite filter_app, length_app.
    rewrite filter_cons_False by (apply (Hl p e); [left|exact He]).
    simpl. lia. }
  rewrite Hsame. lia.
Qed.

(** The entry of [id] that the scan collects at slot [length done] is
    recorded at that slot and at every slot after it. *)
Lemma recordsFor_collected (groupId : Z) (id : ServerId)
    (done rest : list GenerationNumberEntryPair) (p : GenerationNumberEntryPair)
    (e : Entry) (ges : list Entry) :
  entry p = Some e -> serverId e = id -> inGroup groupId p = true ->
  (forall p' e', p' ∈ done ++ rest -> entry p' = Some e' -> serverId e' <> id) ->
  filter (fun e => serverId e = id) ges = [] ->
  recordsFor id (removeGroupRecords groupId (done ++ p :: rest) ges) =
  S (length rest).
Proof.
  intros He Hid Hin. revert ges.
  induction done as [|q done IH]; intros ges Hothers Hges.
  - simpl. unfold inGroup in Hin. rewrite He in *. rewrite Hin.
    rewrite recordsFor_app, recordsFor_serialized, recordsFor_elsewhere
      by (intros p' e' Hp'; apply Hothers; exact Hp').
    rewrite filter_app, Hges, filter_cons_True by exact Hid.
    simpl. lia.
  - simpl. rewrite recordsFor_app, recordsFor_serialized.
    assert (Hsame :
      filter (fun e => serverId e = id)
             match entry q with
             | Some e0 => if isBackup e0 && (replicationId e0 =? groupId)
                          then ges ++ [set_replicationId 0 e0] else ges
             | None => ges
             end = []).
    { destruct (entry q) as [e0|] eqn:Hq; [|exact Hges].
      destruct (isBackup e0 && (replicationId e0 =? groupId)); [|exact Hges].
      rewrite filter_app, Hges.
      rewrite filter_cons_False by (apply (Hothers q e0); [left|exact Hq]).
      reflexivity. }
    rewrite Hsame. simpl. apply IH; [|exact Hsame].
    intros p' e' Hp'. apply Hothers. right. exact Hp'.
Qed.

Lemma removeGroupRecords_reset (groupId : Z) (l : list GenerationNumberEntryPair)
    (ges : list Entry) :
  Forall (fun e => replicationId e = 0 /\ status e = UP) ges ->
  Forall (fun r => ProtoBuf.replication_id r = 0 /\ ProtoBuf.entry_status r = UP)
         (removeGroupRecords groupId l ges).
Proof.
  revert ges. induction l as [|p l IH]; intros ges Hges; simpl; [constructor|].
  assert (Hges' : Forall (fun e => replicationId e = 0 /\ status e = UP)
                    match entry p with
                    | Some e => if isBackup e && (replicationId e =? groupId)
                                then ges ++ [set_replicationId 0 e] else ges
                    | None => ges
                    end).
  { destruct (entry p) as [e|]; [|exact Hges].
    destruct (isBackup e && (replicationId e =? groupId)) eqn:Hb; [|exact Hges].
    apply Forall_app. split; [exact Hges|]. constructor; [|constructor].
    split; [reflexivity|]. simpl. unfold isBackup in Hb.
    apply andb_true_iff in Hb as [Hb _]. apply andb_true_iff in Hb as [Hb _].
    apply bool_decide_eq_true in Hb. exact Hb. }
  apply Forall_app. split; [|apply IH, Hges'].
  apply Forall_fmap. eapply Forall_impl; [exact Hges'|].
  intros e [Hr Hs]. simpl. auto.
Qed.

(** In a well-indexed list, the UP backup of the group found at slot [j]
    is recorded [size - j] times. *)
Lemma removeGroupRecords_count (groupId : Z) (l : list GenerationNumberEntryPair)
    (j : nat) (p : GenerationNumberEntryPair) (e : Entry) :
  wellIndexed l -> l !! j = Some p -> entry p = Some e ->
  inGroup groupId p = true ->
  recordsFor (serverId e) (removeGroupRecords groupId l []) = (length l - j)%nat.
Proof.
  intros Hwf Hp He Hin.
  pose proof (lookup_lt_Some _ _ _ Hp) as Hlt.
  rewrite <- (take_drop_middle _ _ _ Hp) at 1.
  rewrite (recordsFor_collected groupId (serverId e) _ _ p e);
    [rewrite length_drop; lia|exact He|reflexivity|exact Hin| |reflexivity].
  intros p' e' Hin' He' Heq.
  apply elem_of_app in Hin' as [Hin'|Hin'];
    apply list_elem_of_lookup in Hin' as [i Hi].
  - pose proof (lookup_lt_Some _ _ _ Hi) as Hi'. rewrite length_take in Hi'.
    rewrite lookup_take_lt in Hi by lia.
    pose proof (Hwf _ _ _ Hi He'). pose proof (Hwf _ _ _ Hp He).
    rewrite Heq in *. lia.
  - rewrite lookup_drop in Hi.
    pose proof (Hwf _ _ _ Hi He'). pose proof (Hwf _ _ _ Hp He).
    rewrite Heq in *. lia.
Qed.

(** C10.  One call of [removeReplicationGroup groupId], [groupId] not 0,
    on a well-indexed list: for an UP backup of the group found at slot
    [j], the call appends to the pending delta not one record but
    [size - j] of them, all with replication id 0: one when the slot is
    visited and one more at each later slot.  So it appends more than one
    whenever slot [j] is not the last. *)
Theorem removeReplicationGroup_repeats_records (groupId : Z)
    (s : CoordinatorServerList) (j : nat) (p : GenerationNumberEntryPair)
    (e : Entry) :
  groupId <> 0 -> wellIndexed (serverList s) ->
  serverList s !! j = Some p -> entry p = Some e ->
  isBackup e = true -> replicationId e = groupId ->
  exists s' recs,
    removeReplicationGroup groupId s = Returned tt s' /\
    appended s s' recs /\
    recordsFor (serverId e) recs = (length (serverList s) - j)%nat /\
    Forall (fun r => ProtoBuf.replication_id r = 0 /\ ProtoBuf.entry_status r = UP)
           recs /\
    ((j + 1 < length (serverList s))%nat -> (1 < recordsFor (serverId e) recs)%nat).
Proof.
  intros Hg Hwf Hp He Hb Hr.
  destruct (removeReplicationGroup_exact groupId s Hg Hwf)
    as (s' & Hrun & _ & Happ & _).
  exists s', (removeGroupRecords groupId (serverList s) []).
  split; [exact Hrun|]. split; [exact Happ|].
  assert (Hcount : recordsFor (serverId e)
                     (removeGroupRecords groupId (serverList s) [])
                   = (length (serverList s) - j)%nat).
  { apply (removeGroupRecords_count groupId _ j p e Hwf Hp He).
    unfold inGroup. rewrite He, Hb, Hr, Z.eqb_refl. reflexivity. }
  split; [exact Hcount|]. split; [apply removeGroupRecords_reset; constructor|].
  rewrite Hcount. lia.
Qed.

Lemma removeReplicationGroup_repeats_records_witness :
  let B := maskOf [BACKUP_SERVICE] in
  let s := execAll [CallEnlistServer (mkServerId 0 0) B 100 "b1";
                    CallEnlistServer (mkServerId 0 0) B 100 "b2";
                    CallEnlistServer (mkServerId 0 0) B 100 "b3"] (initial 0) in
  exists s' recs,
    removeReplicationGroup 1 s = Returned tt s' /\
    appended s s' recs /\
    recordsFor (mkServerId 1 1) recs = 3%nat /\
    recordsFor (mkServerId 2 1) recs = 2%nat /\
    recordsFor (mkServerId 3 1) recs = 1%nat.
Proof.
  intros B s.
  assert (Hwf : wellIndexed (serverList s))
    by (apply wellIndexed_check; reflexivity).
  assert (H1 : 1 <> 0) by lia.
  destruct (serverList s !! 1%nat) as [p1|] eqn:Hp1; [|discriminate].
  destruct (entry p1) as [e1|] eqn:He1;
    [|vm_compute in Hp1; injection Hp1 as <-; discriminate].
  destruct (removeReplicationGroup_repeats_records 1 s 1 p1 e1 H1 Hwf Hp1 He1)
    as (s' & recs & Hrun & Happ & Hcount & _).
  { vm_compute in Hp1. injection Hp1 as <-. injection He1 as <-. reflexivity. }
  { vm_compute in Hp1. injection Hp1 as <-. injection He1 as <-. reflexivity. }
  exists s', recs. split; [exact Hrun|]. split; [exact Happ|].
  assert (Hid : serverId e1 = mkServerId 1 1)
    by (vm_compute in Hp1; injection Hp1 as <-; injection He1 as <-; reflexivity).
  rewrite Hid in Hcount. split; [exact Hcount|].
  vm_compute in Hrun. injection Hrun as <-.
  unfold appended in Happ. vm_compute in Happ.
  injection Happ as Hrecs. subst recs.
  split; vm_compute; reflexivity.
Defined.

(** ** Forcing a server down *)

Lemma iget_crashedState (id id' : ServerId) (e : Entry) (s : CoordinatorServerList) :
  iget id s = Some e ->
  iget id' (crashedState id e s) =
  (if decide (id' = id) then set_status CRASHED else fun x => x) <$> iget id' s.
Proof.
  intros Hget. apply iget_Some in Hget as (p & Hp & He & Hid).
  unfold iget at 1. simpl.
  destruct (decide (indexNumber id' = indexNumber id)) as [Hix|Hix].
  - rewrite Hix, list_lookup_alter_eq, Hp. simpl. rewrite He. simpl.
    unfold iget. rewrite Hix, Hp, He.
    destruct (decide (id' = id)) as [->|Hne].
    + rewrite !decide_True by assumption. reflexivity.
    + rewrite !decide_False by congruence. reflexivity.
  - rewrite list_lookup_alter_ne by congruence.
    rewrite decide_False by congruence.
    unfold iget. destruct (serverList s !! indexNumber id') as [p'|]; [|reflexivity].
    destruct (entry p') as [e'|]; [|reflexivity].
    destruct (decide (serverId e' = id')); reflexivity.
Qed.

Lemma iget_removedState (id id' : ServerId) (e : Entry) (s : CoordinatorServerList) :
  iget id s = Some e ->
  iget id' (removedState id e s) = if decide (id' = id) then None else iget id' s.
Proof.
  intros Hget. apply iget_Some in Hget as (p & Hp & He & Hid).
  unfold iget at 1. simpl.
  destruct (decide (indexNumber id' = indexNumber id)) as [Hix|Hix].
  - rewrite Hix, list_lookup_alter_eq, list_lookup_alter_eq, Hp. simpl.
    destruct (decide (id' = id)) as [->|Hne]; [reflexivity|].
    unfold iget. rewrite Hix, Hp, He, decide_False by congruence. reflexivity.
  - rewrite !list_lookup_alter_ne by congruence.
    rewrite decide_False by congruence. reflexivity.
Qed.

Lemma remove_crashed (id : ServerId) (e : Entry) (s : CoordinatorServerList) :
  iget id s = Some e -> status e = CRASHED ->
  remove id s = Returned tt (removedState id e s).
Proof.
  intros Hget Hst. pose proof (iget_entryAt _ _ _ Hget) as Hat.
  unfold remove. unfold bind at 1. unfold gets at 1.
  rewrite invalidServerId_iget, Hget, bool_decide_false by discriminate.
  unfold bind at 1.
  rewrite (crashed_already id e s Hget Hst).
  unfold modifyEntry, appendToUpdate, destroyEntry. unfold_monad.
  rewrite derefEntry_entryAt. unfold entryAt in *. simpl.
  rewrite list_lookup_alter_eq.
  destruct (serverList s !! indexNumber id) as [p|]; [|discriminate].
  simpl. rewrite Hat. simpl. rewrite notifyTrackers_eq. reflexivity.
Qed.

Lemma wellIndexed_crashedState (id : ServerId) (e : Entry) (s : CoordinatorServerList) :
  wellIndexed (serverList s) -> wellIndexed (serverList (crashedState id e s)).
Proof.
  simpl. apply wellIndexed_alter. intros p e'. simpl.
  destruct (entry p) as [e0|]; [|discriminate]. intros [= <-]. eauto.
Qed.

Lemma wellIndexed_removedState (id : ServerId) (e : Entry) (s : CoordinatorServerList) :
  wellIndexed (serverList s) -> wellIndexed (serverList (removedState id e s)).
Proof.
  intros Hwf. simpl. apply wellIndexed_alter; [intros p e'; discriminate|].
  revert Hwf. apply wellIndexed_alter. intros p e'. simpl.
  destruct (entry p) as [e0|]; [|discriminate]. intros [= <-]. eauto.
Qed.

Lemma set_status_same (e : Entry) (st : ServerStatus) :
  status e = st -> set_status st e = e.
Proof. intros <-. destruct e; reflexivity. Qed.

(** [crashed] on an entry that is not DOWN. *)
Lemma crashed_marks (id : ServerId) (e : Entry) (s : CoordinatorServerList) :
  iget id s = Some e -> status e <> DOWN ->
  crashed id s = Returned tt (markedState id e s) /\
  iget id (markedState id e s) = Some (set_status CRASHED e).
Proof.
  intros Hget Hst. unfold markedState. destruct (status e) eqn:Hs.
  - rewrite bool_decide_true by reflexivity. split.
    + apply crashed_up; assumption.
    + rewrite (iget_crashedState _ _ _ _ Hget), Hget, decide_True by reflexivity.
      reflexivity.
  - rewrite bool_decide_false by discriminate. split.
    + eapply crashed_already; eassumption.
    + rewrite set_status_same by exact Hs. exact Hget.
  - contradiction.
Qed.

(** The first phase of [ForceServerDown::complete], followed by [k]. *)
Lemma forceDown_first_phase_then {A} (id : ServerId) (e : Entry)
    (s : CoordinatorServerList) (k : M A) :
  iget id s = Some e -> status e <> DOWN ->
  (crashed id ;;
   when (negb (has (services e) MASTER_SERVICE)) (remove id) ;;
   startMasterRecovery e ;; k) s
  = k (downState id e s).
Proof.
  intros Hget Hst. destruct (crashed_marks id e s Hget Hst) as [Hrun Hget'].
  unfold bind at 1. rewrite Hrun.
  unfold downState, startMasterRecovery.
  destruct (has (services e) MASTER_SERVICE); simpl.
  - reflexivity.
  - unfold bind at 1. erewrite remove_crashed; [reflexivity|exact Hget'|reflexivity].
Qed.

Lemma forceDown_first_phase (id : ServerId) (e : Entry) (s : CoordinatorServerList) :
  iget id s = Some e -> status e <> DOWN ->
  (crashed id ;;
   when (negb (has (services e) MASTER_SERVICE)) (remove id) ;;
   startMasterRecovery e) s
  = Returned tt (downState id e s).
Proof.
  intros Hget Hst. destruct (crashed_marks id e s Hget Hst) as [Hrun Hget'].
  unfold bind at 1. rewrite Hrun.
  unfold downState, startMasterRecovery.
  destruct (has (services e) MASTER_SERVICE); simpl.
  - reflexivity.
  - unfold bind at 1. erewrite remove_crashed; [reflexivity|exact Hget'|reflexivity].
Qed.

(** What [crashed] changes. *)
Lemma markedState_facts (id : ServerId) (e : Entry) (s : CoordinatorServerList) :
  iget id s = Some e -> status e <> DOWN ->
  let sm := markedState id e s in
  let up := bool_decide (status e = UP) in
  (forall id', iget id' sm =
     if decide (id' = id) then Some (set_status CRASHED e) else iget id' s) /\
  length (serverList sm) = length (serverList s) /\
  appended s sm (if up then [serializeEntry (set_status CRASHED e)] else []) /\
  trackers sm =
    map (fun t => if up then notified (set_status CRASHED e) SERVER_CRASHED t else t)
        (trackers s) /\
  numberOfMasters sm =
    (if up && has (services e) MASTER_SERVICE
     then wrap32 (numberOfMasters s - 1) else numberOfMasters s) /\
  numberOfBackups sm =
    (if up && has (services e) BACKUP_SERVICE
     then wrap32 (numberOfBackups s - 1) else numberOfBackups s) /\
  recoveries sm = recoveries s /\
  version sm = version s /\ updates sm = updates s /\
  lastScan sm = lastScan s /\ logCabin sm = logCabin s /\
  nextReplicationId sm = nextReplicationId s /\
  (wellIndexed (serverList s) -> wellIndexed (serverList sm)).
Proof.
  intros Hget Hst sm up. subst sm up. unfold markedState.
  destruct (status e) eqn:Hs; [| |contradiction].
  - rewrite bool_decide_true by reflexivity. split.
    { intros id'. rewrite (iget_crashedState _ _ _ _ Hget).
      destruct (decide (id' = id)) as [->|]; [rewrite Hget; reflexivity|].
      destruct (iget id' s); reflexivity. }
    split; [simpl; apply length_alter|].
    split; [reflexivity|]. split; [reflexivity|].
    simpl. repeat (split; [reflexivity|]).
    apply (wellIndexed_crashedState id e s).
  - rewrite bool_decide_false by discriminate. split.
    { intros id'. destruct (decide (id' = id)) as [->|]; [|reflexivity].
      rewrite set_status_same by exact Hs. exact Hget. }
    split; [reflexivity|].
    split; [apply appended_refl; reflexivity|].
    split; [rewrite map_id; reflexivity|].
    simpl. repeat (split; [reflexivity|]). trivial.
Qed.

Lemma downState_facts (id : ServerId) (e : Entry) (s : CoordinatorServerList) :
  iget id s = Some e -> status e <> DOWN ->
  let s1 := downState id e s in
  let up := bool_decide (status e = UP) in
  (forall id', iget id' s1 =
     if decide (id' = id)
     then (if has (services e) MASTER_SERVICE
           then Some (set_status CRASHED e) else None)
     else iget id' s) /\
  entryAt s1 (indexNumber id) =
    (if has (services e) MASTER_SERVICE then Some (set_status CRASHED e) else None) /\
  length (serverList s1) = length (serverList s) /\
  appended s s1 (downRecords e) /\
  trackers s1 = map (downNotified e) (trackers s) /\
  recoveries s1 = recoveries s ++ [e] /\
  numberOfMasters s1 =
    (if up && has (services e) MASTER_SERVICE
     then wrap32 (numberOfMasters s - 1) else numberOfMasters s) /\
  numberOfBackups s1 =
    (if up && has (services e) BACKUP_SERVICE
     then wrap32 (numberOfBackups s - 1) else numberOfBackups s) /\
  version s1 = version s /\ updates s1 = updates s /\
  lastScan s1 = lastScan s /\ logCabin s1 = logCabin s /\
  nextReplicationId s1 = nextReplicationId s /\
  (wellIndexed (serverList s) -> wellIndexed (serverList s1)).
Proof.
  intros Hget Hst s1 up. subst s1.
  destruct (markedState_facts id e s Hget Hst)
    as (Hi & Hlen & Happ & Htr & Hm & Hb & Hrec & Hv & Hq & Hl & Hlc & Hn & Hwf).
  fold up in Happ, Htr, Hm, Hb.
  set (sm := markedState id e s) in *.
  assert (Hgetm : iget id sm = Some (set_status CRASHED e)).
  { rewrite Hi, decide_True by reflexivity. reflexivity. }
  unfold downState, downRecords, downNotified. fold sm. fold up.
  destruct (has (services e) MASTER_SERVICE) eqn:Hmaster.
  - split.
    { intros id'. change (iget id' (with_recoveries _ ?x)) with (iget id' x).
      apply Hi. }
    split; [apply (iget_entryAt id sm), Hgetm|].
    split; [exact Hlen|].
    split; [rewrite app_nil_r; exact Happ|].
    split; [exact Htr|].
    split; [simpl; rewrite Hrec; reflexivity|].
    simpl. repeat (split; [assumption|]). exact Hwf.
  - split.
    { intros id'. change (iget id' (with_recoveries _ ?x)) with (iget id' x).
      rewrite (iget_removedState _ _ _ _ Hgetm), Hi.
      destruct (decide (id' = id)); reflexivity. }
    split.
    { pose proof Hgetm as (p & Hp & _)%iget_Some.
      unfold entryAt. simpl. rewrite !list_lookup_alter_eq, Hp. reflexivity. }
    split; [simpl; rewrite !length_alter; exact Hlen|].
    split.
    { eapply appended_trans; [exact Happ|]. reflexivity. }
    split.
    { simpl. rewrite Htr, map_map. reflexivity. }
    split; [simpl; rewrite Hrec; reflexivity|].
    simpl. repeat (split; [assumption|]).
    intros H. apply (wellIndexed_removedState id (set_status CRASHED e) sm (Hwf H)).
Qed.

Lemma bind_Returned {A B} (m : M A) (k : A -> M B) (s s1 : CoordinatorServerList)
    (a : A) :
  m s = Returned a s1 -> bind m k s = k a s1.
Proof. unfold bind. intros ->. reflexivity. Qed.

Lemma getServerInfoLogId_eq (id : ServerId) (e : Entry) (s : CoordinatorServerList) :
  iget id s = Some e -> getServerInfoLogId id s = Returned (serverInfoLogId e) s.
Proof.
  intros Hget. unfold getServerInfoLogId, bind.
  rewrite getReferenceFromServerId_iget, Hget. reflexivity.
Qed.

Lemma getServerUpdateLogId_eq (id : ServerId) (e : Entry) (s : CoordinatorServerList) :
  iget id s = Some e -> getServerUpdateLogId id s = Returned (serverUpdateLogId e) s.
Proof.
  intros Hget. unfold getServerUpdateLogId, bind.
  rewrite getReferenceFromServerId_iget, Hget. reflexivity.
Qed.

Lemma iget_map_resetPair (groupId : Z) (id : ServerId) (s s' : CoordinatorServerList) :
  serverList s' = map (resetPair groupId) (serverList s) ->
  iget id s' =
  (fun e => if isBackup e && (replicationId e =? groupId)
            then set_replicationId 0 e else e) <$> iget id s.
Proof.
  intros Hl. unfold iget. rewrite Hl, list_lookup_fmap.
  destruct (serverList s !! indexNumber id) as [p|]; [|reflexivity]. simpl.
  unfold resetPair, inGroup. destruct (entry p) as [e|] eqn:He;
    [|rewrite He; reflexivity].
  destruct (isBackup e && (replicationId e =? groupId)) eqn:Hb; simpl;
    rewrite He; simpl; destruct (decide (serverId e = id)); simpl;
    rewrite ?Hb; reflexivity.
Qed.

(** [removeReplicationGroup] on a well-indexed list, for any group id. *)
Lemma removeReplicationGroup_wf (groupId : Z) (s : CoordinatorServerList) :
  wellIndexed (serverList s) ->
  exists s' recs,
    removeReplicationGroup groupId s = Returned tt s' /\
    appended s s' recs /\
    Forall (fun r => ProtoBuf.replication_id r = 0 /\ ProtoBuf.entry_status r = UP)
           recs /\
    regrouped s s' /\
    wellIndexed (serverList s') /\
    (forall id e, iget id s = Some e -> isBackup e = true ->
                  replicationId e = groupId ->
       iget id s' = Some (set_replicationId 0 e) /\
       (groupId <> 0 -> (1 <= recordsFor id recs)%nat)).
Proof.
  intros Hwf. destruct (Z.eq_dec groupId 0) as [->|Hg].
  - exists s, []. split; [reflexivity|].
    split; [apply appended_refl; reflexivity|]. split; [constructor|].
    split; [apply regrouped_refl|]. split; [exact Hwf|].
    intros id e Hget _ Hr. split; [|intros H; contradiction].
    rewrite set_replicationId_same by exact Hr. exact Hget.
  - destruct (removeReplicationGroup_exact groupId s Hg Hwf)
      as (s' & Hrun & Hl & Happ & Hre & _ & Hwf').
    exists s', (removeGroupRecords groupId (serverList s) []).
    split; [exact Hrun|]. split; [exact Happ|].
    split; [apply removeGroupRecords_reset; constructor|].
    split; [exact Hre|]. split; [exact Hwf'|].
    intros id e Hget Hb Hr. split.
    + rewrite (iget_map_resetPair _ _ _ _ Hl), Hget. simpl.
      rewrite Hb, Hr, Z.eqb_refl. reflexivity.
    + intros _. pose proof Hget as (p & Hp & He & Hid)%iget_Some.
      rewrite <- Hid at 1.
      rewrite (removeGroupRecords_count groupId _ _ p e Hwf Hp He).
      * apply lookup_lt_Some in Hp. lia.
      * unfold inGroup. rewrite He, Hb, Hr, Z.eqb_refl. reflexivity.
Qed.

(** C5.  For a server id whose entry [e] is UP, in a well-indexed list,
    [ForceServerDown::complete] returns after these steps.  [crashed]
    marks the entry CRASHED: a record with that status joins the pending
    delta and every tracker is told.  Exactly when the victim has no
    MASTER service, [remove] follows: a DOWN record, a REMOVED event, and
    the slot is emptied; a master's entry stays, CRASHED.
    [startMasterRecovery] is called once, with the snapshot [e] taken
    before the crash.  [removeReplicationGroup] then resets to 0 the
    replication id of every UP backup that shared the victim's group,
    with a record for each.  [createReplicationGroup] runs next, on the
    UP backups that now have replication id 0: in the state [complete]
    returns, such a backup has replication id 0 when fewer than three of
    them are left, and otherwise 0 or one of the ids handed to the new
    groups. *)
Theorem forceServerDown_complete_spec (id : ServerId) (entryId : Z) (e : Entry)
    (s : CoordinatorServerList) :
  wellIndexed (serverList s) -> iget id s = Some e -> status e = UP ->
  let master := has (services e) MASTER_SERVICE in
  let crashedEntry := set_status CRASHED e in
  let downEntry := set_status DOWN e in
  exists s1 s2 s3 s' resetRecs groupRecs,
    (crashed id ;; when (negb master) (remove id) ;; startMasterRecovery e) s
      = Returned tt s1 /\
    removeReplicationGroup (replicationId e) s1 = Returned tt s2 /\
    createReplicationGroup s2 = Returned tt s3 /\
    ForceServerDown.complete id entryId s = Returned tt s' /\
    serverList s' = serverList s3 /\
    iget id s' = (if master then Some crashedEntry else None) /\
    entryAt s' (indexNumber id) = (if master then Some crashedEntry else None) /\
    recoveries s' = recoveries s ++ [e] /\
    trackers s' =
      map (fun t =>
             if master then notified crashedEntry SERVER_CRASHED t
             else notified downEntry SERVER_REMOVED
                    (notified crashedEntry SERVER_CRASHED t))
          (trackers s) /\
    appended s s'
      ([serializeEntry crashedEntry] ++
       (if master then [] else [serializeEntry downEntry]) ++
       resetRecs ++ groupRecs) /\
    Forall (fun r => ProtoBuf.replication_id r = 0 /\ ProtoBuf.entry_status r = UP)
           resetRecs /\
    Forall (fun r => ProtoBuf.entry_status r = UP) groupRecs /\
    (forall id' e',
       id' <> id -> iget id' s = Some e' -> isBackup e' = true ->
       replicationId e' = replicationId e ->
       iget id' s2 = Some (set_replicationId 0 e') /\
       (replicationId e <> 0 -> (1 <= recordsFor id' resetRecs)%nat) /\
       exists rid,
         iget id' s' = Some (set_replicationId rid e') /\
         (rid = 0 \/
          exists k, (k < length (freeBackups (serverList s2)) / 3)%nat /\
                    rid = nthReplicationId (nextReplicationId s2) k) /\
         ((length (freeBackups (serverList s2)) < 3)%nat -> rid = 0)) /\
    numberOfMasters s' =
      (if master then wrap32 (numberOfMasters s - 1) else numberOfMasters s) /\
    numberOfBackups s' =
      (if has (services e) BACKUP_SERVICE
       then wrap32 (numberOfBackups s - 1) else numberOfBackups s) /\
    version s' = version s /\
    updates s' = updates s.
Proof.
  intros Hwf Hget Hup master crashedEntry downEntry.
  assert (Hst : status e <> DOWN) by (rewrite Hup; discriminate).
  set (s1 := downState id e s).
  destruct (downState_facts id e s Hget Hst)
    as (Hi1 & Hat1 & Hlen1 & Happ1 & Htr1 & Hrec1 & Hm1 & Hb1 & Hv1 & Hq1 & _ & _ & _ & Hwf1).
  fold s1 in Hi1, Hat1, Hlen1, Happ1, Htr1, Hrec1, Hm1, Hb1, Hv1, Hq1, Hwf1.
  unfold downRecords in Happ1. unfold downNotified in Htr1.
  rewrite bool_decide_true in Happ1, Htr1, Hm1, Hb1 by exact Hup.
  cbn [andb] in Hm1, Hb1.
  specialize (Hwf1 Hwf).
  destruct (removeReplicationGroup_wf (replicationId e) s1 Hwf1)
    as (s2 & resetRecs & Hrun2 & Happ2 & Hreset & Hre2 & Hwf2 & Hmates).
  destruct (createReplicationGroup_effect s2 Hwf2)
    as (Hfree & _ & s3 & Hrun3 & _ & Hin3 & Hout3 & _ & Hre3 & _).
  destruct (regrouped_appended _ _ Hre3) as (groupRecs & Happ3 & Hgroup).
  pose proof (regrouped_trans _ _ _ Hre2 Hre3) as Hre.
  set (ids := [serverInfoLogId e; entryId] ++
              (if serverUpdateLogId e =? 0 then [] else [serverUpdateLogId e])).
  set (s' := with_logCabin
               (fun lc => mkLogCabin (logEntries lc) (invalidated lc ++ ids)) s3).
  exists s1, s2, s3, s', resetRecs, groupRecs.
  split; [apply forceDown_first_phase; assumption|].
  split; [exact Hrun2|]. split; [exact Hrun3|].
  split.
  { unfold ForceServerDown.complete.
    rewrite (bind_Returned _ _ _ _ _ (getServerInfoLogId_eq _ _ _ Hget)).
    rewrite (bind_Returned _ _ _ _ _ (getServerUpdateLogId_eq _ _ _ Hget)).
    unfold bind at 1. rewrite getReferenceFromServerId_iget, Hget.
    rewrite (forceDown_first_phase_then _ _ _ _ Hget Hst). fold s1.
    rewrite (bind_Returned _ _ _ _ _ Hrun2).
    rewrite (bind_Returned _ _ _ _ _ Hrun3). reflexivity. }
  split; [reflexivity|].
  assert (Hvictim : iget id s3 = if master then Some crashedEntry else None).
  { specialize (Hi1 id). rewrite decide_True in Hi1 by reflexivity.
    subst master. destruct (has (services e) MASTER_SERVICE).
    - eapply regrouped_iget_not_up; [exact Hre|exact Hi1|]. simpl. discriminate.
    - eapply regrouped_iget_None; [exact Hre|exact Hi1]. }
  split; [exact Hvictim|].
  split.
  { change (entryAt s' (indexNumber id)) with (entryAt s3 (indexNumber id)).
    subst master. destruct (has (services e) MASTER_SERVICE).
    - apply iget_entryAt, Hvictim.
    - eapply regrouped_entryAt_None; [exact Hre|exact Hat1]. }
  destruct Hre as (_ & _ & _ & Hm & Hb & Hv & Hq & _ & Htr & Hrec & _).
  split; [change (recoveries s') with (recoveries s3); congruence|].
  split; [change (trackers s') with (trackers s3); rewrite Htr; exact Htr1|].
  split.
  { assert (Happ : appended s s3
                      (([serializeEntry (set_status CRASHED e)] ++
                        (if has (services e) MASTER_SERVICE then []
                         else [serializeEntry (set_status DOWN e)])) ++
                       resetRecs ++ groupRecs)).
    { eapply appended_trans; [exact Happ1|].
      eapply appended_trans; eassumption. }
    rewrite <- app_assoc in Happ. exact Happ. }
  split; [exact Hreset|]. split; [exact Hgroup|].
  split.
  { intros id' e' Hne Hget' Hb' Hr'.
    assert (Hget1 : iget id' s1 = Some e').
    { rewrite Hi1, decide_False by exact Hne. exact Hget'. }
    destruct (Hmates id' e' Hget1 Hb' Hr') as [Hget2 Hcount].
    split; [exact Hget2|]. split; [exact Hcount|].
    change (iget id' s') with (iget id' s3).
    set (free := freeBackups (serverList s2)) in *.
    assert (Hmember : id' ∈ rev free).
    { apply elem_of_rev, Hfree. exists (set_replicationId 0 e').
      unfold isBackup in Hb'. apply andb_true_iff in Hb' as [Hup' Hbk].
      apply bool_decide_eq_true in Hup'.
      split; [exact Hget2|]. repeat split; assumption. }
    apply list_elem_of_lookup in Hmember as [j Hj].
    destruct (decide (j < 3 * (length free / 3))%nat) as [Hlt|Hge].
    - exists (nthReplicationId (nextReplicationId s2) (j / 3)).
      rewrite (Hin3 j id' Hj Hlt), Hget2.
      split; [destruct e'; reflexivity|]. split.
      + right. exists (j / 3)%nat. split; [|reflexivity].
        apply Nat.Div0.div_lt_upper_bound. exact Hlt.
      + intros Hfew. rewrite (Nat.div_small (length free) 3) in Hlt by exact Hfew.
        lia.
    - exists 0. rewrite (Hout3 j id' Hj ltac:(lia)), Hget2.
      split; [reflexivity|]. split; [left; reflexivity|reflexivity]. }
  subst master.
  split; [change (numberOfMasters s') with (numberOfMasters s3); congruence|].
  split; [change (numberOfBackups s') with (numberOfBackups s3); congruence|].
  split; [change (version s') with (version s3); congruence|].
  change (updates s') with (updates s3). congruence.
Qed.

Lemma forceServerDown_complete_spec_witness :
  let MB := maskOf [MASTER_SERVICE; BACKUP_SERVICE] in
  let s := execAll [CallEnlistServer (mkServerId 0 0) MB 100 "tcp:1";
                    CallEnlistServer (mkServerId 0 0) MB 100 "tcp:2";
                    CallEnlistServer (mkServerId 0 0) MB 100 "tcp:3"] (initial 1) in
  let id := mkServerId 2 1 in
  exists e s',
    iget id s = Some e /\ replicationId e = 1 /\
    ForceServerDown.complete id 7 s = Returned tt s' /\
    iget id s' = Some (set_status CRASHED e) /\
    recoveries s' = [e] /\
    replicationId <$> iget (mkServerId 1 1) s' = Some 0 /\
    replicationId <$> iget (mkServerId 3 1) s' = Some 0.
Proof.
  intros MB s id.
  destruct (iget id s) as [e|] eqn:He; [|vm_compute in He; discriminate].
  assert (Hwf : wellIndexed (serverList s)) by (apply wellIndexed_check; reflexivity).
  assert (Hup : status e = UP)
    by (vm_compute in He; injection He as <-; reflexivity).
  assert (Hrid : replicationId e = 1)
    by (vm_compute in He; injection He as <-; reflexivity).
  destruct (forceServerDown_complete_spec id 7 e s Hwf He Hup)
    as (s1 & s2 & s3 & s' & resetRecs & groupRecs & Hrun1 & Hrun2 & _ & Hrun & _
        & Hvictim & _ & Hrec & _ & _ & _ & _ & Hmates & _).
  assert (Hmaster : has (services e) MASTER_SERVICE = true)
    by (vm_compute in He; injection He as <-; reflexivity).
  rewrite Hmaster in Hvictim.
  assert (Hfew : (length (freeBackups (serverList s2)) < 3)%nat).
  { vm_compute in He. injection He as <-.
    vm_compute in Hrun1. injection Hrun1 as <-.
    vm_compute in Hrun2. injection Hrun2 as <-.
    apply Nat.ltb_lt. vm_compute. reflexivity. }
  exists e, s'. split; [reflexivity|]. split; [exact Hrid|].
  split; [exact Hrun|]. split; [exact Hvictim|]. split; [exact Hrec|].
  destruct (iget (mkServerId 1 1) s) as [e1|] eqn:He1; [|vm_compute in He1; discriminate].
  destruct (iget (mkServerId 3 1) s) as [e3|] eqn:He3; [|vm_compute in He3; discriminate].
  assert (Hb1 : isBackup e1 = true /\ replicationId e1 = 1)
    by (vm_compute in He1; injection He1 as <-; split; reflexivity).
  assert (Hb3 : isBackup e3 = true /\ replicationId e3 = 1)
    by (vm_compute in He3; injection He3 as <-; split; reflexivity).
  split.
  - destruct (Hmates (mkServerId 1 1) e1) as (_ & _ & rid & Hg & _ & Hzero);
      [discriminate|exact He1|apply Hb1|rewrite Hrid; apply Hb1|].
    rewrite Hg, (Hzero Hfew). reflexivity.
  - destruct (Hmates (mkServerId 3 1) e3) as (_ & _ & rid & Hg & _ & Hzero);
      [discriminate|exact He3|apply Hb3|rewrite Hrid; apply Hb3|].
    rewrite Hg, (Hzero Hfew). reflexivity.
Defined.

(** C5, counterexample.  Four backups enlist: the first three form
    replication group 1, the fourth stays free.  When the second is
    forced down, [removeReplicationGroup] resets the first and the third
    to 0, and [createReplicationGroup] at once groups them with the
    fourth: in the state [complete] returns they are in group 2, not
    0. *)
Lemma forceServerDown_regroups_groupmates :
  let B := maskOf [BACKUP_SERVICE] in
  let s := execAll [CallEnlistServer (mkServerId 0 0) B 100 "b1";
                    CallEnlistServer (mkServerId 0 0) B 100 "b2";
                    CallEnlistServer (mkServerId 0 0) B 100 "b3";
                    CallEnlistServer (mkServerId 0 0) B 100 "b4"] (initial 0) in
  let id := mkServerId 2 1 in
  exists e s',
    iget id s = Some e /\ status e = UP /\ replicationId e = 1 /\
    replicationId <$> iget (mkServerId 1 1) s = Some 1 /\
    replicationId <$> iget (mkServerId 3 1) s = Some 1 /\
    replicationId <$> iget (mkServerId 4 1) s = Some 0 /\
    ForceServerDown.complete id 9 s = Returned tt s' /\
    replicationId <$> iget (mkServerId 1 1) s' = Some 2 /\
    replicationId <$> iget (mkServerId 3 1) s' = Some 2 /\
    replicationId <$> iget (mkServerId 4 1) s' = Some 2 /\
    ~ groupmatesCleared id e s s'.
Proof.
  intros B s id. eexists _, _.
  split; [vm_compute; reflexivity|].
  do 5 (split; [vm_compute; reflexivity|]).
  split; [vm_compute; reflexivity|].
  do 3 (split; [vm_compute; reflexivity|]).
  intros Hcleared.
  destruct (iget (mkServerId 1 1) s) as [e1|] eqn:He1;
    [|vm_compute in He1; discriminate].
  specialize (Hcleared (mkServerId 1 1) e1 ltac:(discriminate) He1).
  vm_compute in He1. injection He1 as <-.
  specialize (Hcleared eq_refl eq_refl).
  vm_compute in Hcleared. discriminate.
Qed.

(** ** Enlisting a server *)

Lemma appendProtoBuf_run (r : LogRecord) (invalidates : list Z)
    (s : CoordinatorServerList) :
  appendProtoBuf r invalidates s =
  Returned
    (Z.of_nat (length (logEntries (logCabin s) ++ [(r, invalidates)])))
    (with_logCabin
       (fun lc => mkLogCabin (logEntries lc ++ [(r, invalidates)])
                             (invalidated lc ++ invalidates)) s).
Proof. reflexivity. Qed.

Lemma iget_with_logCabin f (id : ServerId) (s : CoordinatorServerList) :
  iget id (with_logCabin f s) = iget id s.
Proof. reflexivity. Qed.

(** A write to a field of the entry of [id] that keeps its id. *)
Lemma iget_modifyEntry (f : Entry -> Entry) (id id' : ServerId) (e : Entry)
    (s : CoordinatorServerList) :
  (forall x, serverId (f x) = serverId x) ->
  iget id s = Some e ->
  iget id' (with_serverList
              (alter (fun p => mkPair (nextGenerationNumber p) (f <$> entry p))
                     (indexNumber id)) s)
  = (if decide (id' = id) then f else fun x => x) <$> iget id' s.
Proof.
  intros Hf Hget. apply iget_Some in Hget as (p & Hp & He & Hid).
  unfold iget at 1. simpl.
  destruct (decide (indexNumber id' = indexNumber id)) as [Hix|Hix].
  - rewrite Hix, list_lookup_alter_eq, Hp. simpl. rewrite He. simpl.
    unfold iget. rewrite Hix, Hp, He, Hf.
    destruct (decide (id' = id)) as [->|Hne].
    + rewrite !decide_True by assumption. reflexivity.
    + rewrite !decide_False by congruence. reflexivity.
  - rewrite list_lookup_alter_ne by congruence.
    rewrite decide_False by congruence.
    unfold iget. destruct (serverList s !! indexNumber id') as [p'|]; [|reflexivity].
    destruct (entry p') as [e'|]; [|reflexivity].
    destruct (decide (serverId e' = id')); reflexivity.
Qed.

Lemma addServerInfoLogId_run (id : ServerId) (entryId : Z) (e : Entry)
    (s : CoordinatorServerList) :
  iget id s = Some e ->
  addServerInfoLogId id entryId s =
  Returned tt
    (with_serverList
       (alter (fun p => mkPair (nextGenerationNumber p)
                               (set_serverInfoLogId entryId <$> entry p))
              (indexNumber id)) s).
Proof.
  intros Hget. unfold addServerInfoLogId, bind.
  rewrite getReferenceFromServerId_iget, Hget. reflexivity.
Qed.

Lemma queued_refl (s s' : CoordinatorServerList) :
  update s' = update s -> version s' = version s -> updates s' = updates s ->
  lastScan s' = lastScan s -> queued s s' [].
Proof. intros Hu Hv Hq Hl. split; [apply appended_refl, Hu|auto]. Qed.

Lemma queued_trans (s1 s2 s3 : CoordinatorServerList) r1 r2 :
  queued s1 s2 r1 -> queued s2 s3 r2 -> queued s1 s3 (r1 ++ r2).
Proof.
  intros (Ha1 & ? & ? & ?) (Ha2 & ? & ? & ?).
  split; [eapply appended_trans; eassumption|]. repeat split; congruence.
Qed.

Lemma queued_regrouped (s s' : CoordinatorServerList) :
  regrouped s s' ->
  exists recs, queued s s' recs /\
               Forall (fun r => ProtoBuf.entry_status r = UP) recs.
Proof.
  intros (_ & _ & (recs & Happ & Hup) & _ & _ & Hv & Hq & Hl & _).
  exists recs. split; [|exact Hup]. repeat split; assumption.
Qed.

Lemma regrouped_length (s s' : CoordinatorServerList) :
  regrouped s s' -> length (serverList s') = length (serverList s).
Proof. intros (H & _). exact H. Qed.

(** [ForceServerDown::complete] on an entry that is not DOWN, in any
    list: the records of the first phase, then records of UP entries
    only. *)
Lemma forceDown_complete_frame (id : ServerId) (entryId : Z) (e : Entry)
    (s : CoordinatorServerList) :
  iget id s = Some e -> status e <> DOWN ->
  exists s' mid,
    ForceServerDown.complete id entryId s = Returned tt s' /\
    queued s s' (downRecords e ++ mid) /\
    Forall (fun r => ProtoBuf.entry_status r = UP) mid /\
    length (serverList s') = length (serverList s).
Proof.
  intros Hget Hst.
  set (s1 := downState id e s).
  destruct (downState_facts id e s Hget Hst)
    as (_ & _ & Hlen1 & Happ1 & _ & _ & _ & _ & Hv1 & Hq1 & Hl1 & _).
  fold s1 in Hlen1, Happ1, Hv1, Hq1, Hl1.
  destruct (removeReplicationGroup_regrouped (replicationId e) s1)
    as (s2 & Hrun2 & Hre2 & _).
  destruct (createReplicationGroup_regrouped s2) as (s3 & Hrun3 & Hre3).
  pose proof (regrouped_trans _ _ _ Hre2 Hre3) as Hre.
  destruct (queued_regrouped _ _ Hre) as (mid & Hq & Hmid).
  eexists. exists mid. split.
  { unfold ForceServerDown.complete.
    rewrite (bind_Returned _ _ _ _ _ (getServerInfoLogId_eq _ _ _ Hget)).
    rewrite (bind_Returned _ _ _ _ _ (getServerUpdateLogId_eq _ _ _ Hget)).
    unfold bind at 1. rewrite getReferenceFromServerId_iget, Hget.
    rewrite (forceDown_first_phase_then _ _ _ _ Hget Hst). fold s1.
    rewrite (bind_Returned _ _ _ _ _ Hrun2).
    rewrite (bind_Returned _ _ _ _ _ Hrun3). reflexivity. }
  split.
  { apply (queued_trans s s1 _ (downRecords e) mid).
    - repeat split; assumption.
    - destruct Hq as (Ha & ? & ? & ?). repeat split; assumption. }
  split; [exact Hmid|]. simpl.
  rewrite (regrouped_length _ _ Hre). exact Hlen1.
Qed.

(** The [resize] of [add] for an index within the vector or below
    0xFFFFFFFF: [index + 1] does not wrap, and the vector grows to reach
    the index. *)
Lemma resize_grown (index : nat) (l : list GenerationNumberEntryPair) :
  (length l <= index)%nat -> Z.of_nat index < 2 ^ 32 - 1 ->
  resize (Z.to_nat (wrap32 (Z.of_nat index + 1))) l =
  l ++ replicate (S index - length l) emptyPair.
Proof.
  intros Hle Hlt. unfold wrap32. rewrite Z.mod_small by lia.
  replace (Z.to_nat (Z.of_nat index + 1)) with (S index) by lia.
  unfold resize. rewrite take_ge by lia. reflexivity.
Qed.

Lemma grow_step (index : nat) (s : CoordinatorServerList) :
  (index < length (serverList s))%nat \/ Z.of_nat index < 2 ^ 32 - 1 ->
  exists s1 p,
    when (bool_decide (length (serverList s) <= index)%nat)
         (modify (with_serverList
                    (resize (Z.to_nat (wrap32 (Z.of_nat index + 1)))))) s
    = Returned tt s1 /\
    serverList s1 = grown index (serverList s) /\
    serverList s1 !! index = Some p /\
    sameButList s s1.
Proof.
  intros Hindex.
  destruct (grown_lookup index (serverList s)) as (Hin & _).
  destruct (lookup_lt_is_Some_2 _ _ Hin) as [p Hp].
  unfold grown in *. unfold when, modify, ret.
  case_bool_decide as Hc.
  - exists (with_serverList
              (resize (Z.to_nat (wrap32 (Z.of_nat index + 1)))) s), p.
    split; [reflexivity|]. simpl.
    rewrite (resize_grown index (serverList s)) by lia.
    split; [reflexivity|]. split; [exact Hp|].
    apply sameButList_with_serverList.
  - exists s, p. split; [reflexivity|]. split; [reflexivity|].
    split; [exact Hp|]. apply sameButList_refl.
Qed.

(** [add(Lock&, ...)] for an index within the vector or below
    0xFFFFFFFF: it returns; the new entry is UP, is found under its id,
    and its record joins the pending delta. *)
Lemma add_run (id : ServerId) (loc : string) (mask : ServiceMask) (readSpeed : Z)
    (s : CoordinatorServerList) :
  (indexNumber id < length (serverList s))%nat \/
  Z.of_nat (indexNumber id) < 2 ^ 32 - 1 ->
  exists s' e',
    add id loc mask readSpeed s = Returned tt s' /\
    queued s s' [serializeEntry e'] /\
    iget id s' = Some e' /\
    status e' = UP /\ serverId e' = id /\ services e' = mask.
Proof.
  intros Hindex.
  destruct (grow_step (indexNumber id) s Hindex) as (s1 & p0 & Hrun1 & Hl1 & Hp0 & Hsame).
  destruct (grown_lookup (indexNumber id) (serverList s)) as (Hin & _).
  rewrite <- Hl1 in Hin.
  destruct Hsame as (_ & _ & Hv & Hu & Hq & Hls & _).
  set (e' := (if has mask BACKUP_SERVICE
              then set_expectedReadMBytesPerSec readSpeed else fun x => x)
               (newEntry id loc mask)).
  assert (Hrun : exists s',
    add id loc mask readSpeed s = Returned tt s' /\
    serverList s' !! indexNumber id =
      Some (mkPair (wrap32 (generationNumber id + 1)) (Some e')) /\
    update s' = ProtoBuf.add_server (serializeEntry e') (update s1) /\
    version s' = version s1 /\ updates s' = updates s1 /\
    lastScan s' = lastScan s1).
  { unfold add. unfold bind at 1. unfold gets at 1.
    rewrite (bind_Returned _ _ _ _ _ Hrun1).
    unfold bind at 1. unfold gets at 1. rewrite Hp0.
    unfold modifyEntry, appendToUpdate. unfold_monad. subst e'.
    destruct (has mask MASTER_SERVICE), (has mask BACKUP_SERVICE); simpl;
      rewrite derefEntry_entryAt; unfold entryAt; simpl;
      rewrite ?list_lookup_alter_eq, list_lookup_insert_eq by exact Hin;
      simpl; rewrite notifyTrackers_eq;
      (eexists; split; [reflexivity|]); simpl;
      rewrite ?list_lookup_alter_eq, list_lookup_insert_eq by exact Hin;
      repeat split; reflexivity. }
  destruct Hrun as (s' & Hrun & Hslot & Hu' & Hv' & Hq' & Hls').
  exists s', e'. split; [exact Hrun|]. split.
  { split; [unfold appended; rewrite Hu', Hu; reflexivity|].
    repeat split; congruence. }
  assert (He' : status e' = UP /\ serverId e' = id /\ services e' = mask)
    by (subst e'; destruct (has mask BACKUP_SERVICE); repeat split).
  split; [|exact He'].
  apply iget_Some. eexists. split; [exact Hslot|]. split; [reflexivity|].
  apply He'.
Qed.

(** [EnlistServer::complete] for an id that is not yet UP in the list. *)
Lemma enlist_complete_frame (newServerId : ServerId) (mask : ServiceMask)
    (readSpeed : Z) (loc : string) (entryId : Z) (s : CoordinatorServerList) :
  (indexNumber newServerId < length (serverList s))%nat \/
  Z.of_nat (indexNumber newServerId) < 2 ^ 32 - 1 ->
  exists s' e' tail,
    EnlistServer.complete newServerId mask readSpeed loc entryId s
      = Returned newServerId s' /\
    queued s s' ([serializeEntry e'] ++ tail) /\
    status e' = UP /\ serverId e' = newServerId /\ services e' = mask /\
    Forall (fun r => ProtoBuf.entry_status r = UP) tail.
Proof.
  intros Hindex.
  destruct (add_run newServerId loc mask readSpeed s Hindex)
    as (s1 & e' & Hrun1 & Hq1 & Hget1 & Hup & Hid & Hsv).
  assert (Hgroup : exists s2 tail,
    when (isBackup e') createReplicationGroup s1 = Returned tt s2 /\
    queued s1 s2 tail /\
    Forall (fun r => ProtoBuf.entry_status r = UP) tail /\
    exists e2, iget newServerId s2 = Some e2).
  { unfold when. destruct (isBackup e').
    - destruct (createReplicationGroup_regrouped s1) as (s2 & Hrun2 & Hre).
      destruct (queued_regrouped _ _ Hre) as (tail & Hq & Htail).
      destruct (regrouped_iget_Some _ _ _ _ Hre Hget1) as (rid & Hget2 & _).
      exists s2, tail. eauto.
    - exists s1, []. split; [reflexivity|].
      split; [apply queued_refl; reflexivity|]. split; [constructor|eauto]. }
  destruct Hgroup as (s2 & tail & Hrun2 & Hq2 & Htail & e2 & Hget2).
  eexists. exists e', tail. split.
  { unfold EnlistServer.complete.
    rewrite (bind_Returned _ _ _ _ _ Hrun1).
    unfold bind at 1. rewrite getReferenceFromServerId_iget, Hget1.
    rewrite (bind_Returned _ _ _ _ _ Hrun2).
    rewrite (bind_Returned _ _ _ _ _ (appendProtoBuf_run _ _ _)).
    erewrite bind_Returned;
      [|apply (addServerInfoLogId_run _ _ e2); rewrite iget_with_logCabin;
        exact Hget2].
    reflexivity. }
  split.
  { destruct (queued_trans _ _ _ _ _ Hq1 Hq2) as (Ha & Hv & Hq & Hl).
    repeat split; assumption. }
  auto.
Qed.

(** [EnlistServer::execute]: the id comes from [generateUniqueId], so it
    names a slot that held no entry. *)
Lemma enlist_execute_frame (mask : ServiceMask) (readSpeed : Z) (loc : string)
    (s : CoordinatorServerList) :
  Z.of_nat (length (serverList s)) < 2 ^ 32 ->
  exists newServerId s' e' tail,
    EnlistServer.execute mask readSpeed loc s = Returned newServerId s' /\
    queued s s' ([serializeEntry e'] ++ tail) /\
    status e' = UP /\ serverId e' = newServerId /\ services e' = mask /\
    Forall (fun r => ProtoBuf.entry_status r = UP) tail /\
    entryAt s (indexNumber newServerId) = None /\
    indexNumber newServerId <> 0%nat.
Proof.
  intros Hlen.
  destruct (generateUniqueId_effect s Hlen)
    as (index & g & s1 & Hrun1 & Hne0 & _ & Hfree & _ & _ & Hslot & _ & _ & _ & _ & _
        & Hsame).
  destruct Hsame as (_ & _ & Hv1 & Hu1 & Hq1 & Hl1 & _).
  set (newId := mkServerId index g) in *.
  assert (Hget1 : iget newId s1 = Some (newEntry newId "" 0)).
  { apply iget_Some. eexists. split; [exact Hslot|]. split; reflexivity. }
  match goal with
  | |- context [EnlistServer.execute _ _ _ _] =>
      destruct (enlist_complete_frame newId mask readSpeed loc
        (Z.of_nat (length (logEntries (logCabin s1) ++
                           [(ServerEnlisting newId mask readSpeed loc, [])])))
        (with_serverList
           (alter (fun p => mkPair (nextGenerationNumber p)
                     (set_serverInfoLogId
                        (Z.of_nat (length (logEntries (logCabin s1) ++
                           [(ServerEnlisting newId mask readSpeed loc, [])])))
                        <$> entry p))
                  (indexNumber newId))
           (with_logCabin
              (fun lc => mkLogCabin
                 (logEntries lc ++ [(ServerEnlisting newId mask readSpeed loc, [])])
                 (invalidated lc ++ [])) s1)))
        as (s' & e' & tail & Hrun & Hq & Hup & Hid & Hsv & Htail)
  end.
  { left. simpl. rewrite length_alter. eapply lookup_lt_Some, Hslot. }
  exists newId, s', e', tail. split.
  { unfold EnlistServer.execute.
    rewrite (bind_Returned _ _ _ _ _ Hrun1).
    rewrite (bind_Returned _ _ _ _ _ (appendProtoBuf_run _ _ _)).
    erewrite bind_Returned;
      [|apply (addServerInfoLogId_run _ _ (newEntry newId "" 0));
        rewrite iget_with_logCabin; exact Hget1].
    exact Hrun. }
  split.
  { destruct Hq as (Ha & Hv & Hq & Hl). simpl in Ha, Hv, Hq, Hl.
    split; [unfold appended in *; simpl in Ha; rewrite Ha, Hu1; reflexivity|].
    repeat split; congruence. }
  repeat (split; [assumption|]).
  first [exact Hne0|split; [exact Hfree|exact Hne0]].
Qed.

Lemma isRecord_serializeEntry (e : Entry) :
  isRecord (serverId e) (status e) (serializeEntry e).
Proof. split; reflexivity. Qed.

(** C2 (amended).  An [enlistServer] call whose [replacesId] is in the
    list, UP or CRASHED, commits a single delta.  After what was already
    pending, that delta holds, in this order: a record for the old id
    with status CRASHED, when the old entry was still UP (none when it
    was CRASHED already); a record for the old id with status DOWN, when
    the old server has no MASTER service (none for a master, which stays
    in the list, CRASHED, until its recovery removes it); and later a
    record for the newly assigned id with status UP.  All other records
    of the delta are replication-group updates of UP servers.  So the
    records about the replaced server precede the record that adds its
    replacement. *)
Theorem enlistServer_replacement_delta (replacesId : ServerId) (mask : ServiceMask)
    (readSpeed : Z) (loc : string) (old : Entry) (s : CoordinatorServerList) :
  iget replacesId s = Some old -> status old <> DOWN ->
  Z.of_nat (length (serverList s)) < 2 ^ 32 ->
  exists newServerId s' u rc rd rn mid tail,
    Public.enlistServer replacesId mask readSpeed loc s = Returned newServerId s' /\
    updates s' = updates s ++ [u] /\
    version s' = wrap64 (version s + 1) /\
    ProtoBuf.version_number u = version s' /\
    ProtoBuf.type u = Some ProtoBuf.UPDATE /\
    update s' = ProtoBuf.empty /\
    ProtoBuf.server u =
      ProtoBuf.server (update s) ++
      (if bool_decide (status old = UP) then [rc] else []) ++
      (if has (services old) MASTER_SERVICE then [] else [rd]) ++
      mid ++ [rn] ++ tail /\
    rc = serializeEntry (set_status CRASHED old) /\
    rd = serializeEntry (set_status DOWN old) /\
    isRecord replacesId CRASHED rc /\
    isRecord replacesId DOWN rd /\
    isRecord newServerId UP rn /\
    ProtoBuf.entry_services rn = mask /\
    Forall (fun r => ProtoBuf.entry_status r = UP) mid /\
    Forall (fun r => ProtoBuf.entry_status r = UP) tail.
Proof.
  intros Hget Hst Hlen.
  set (s0 := with_logCabin
               (fun lc => mkLogCabin
                  (logEntries lc ++ [(ForceServerDownRecord replacesId, [])])
                  (invalidated lc ++ [])) s).
  destruct (forceDown_complete_frame replacesId
              (Z.of_nat (length (logEntries (logCabin s) ++
                                 [(ForceServerDownRecord replacesId, [])])))
              old s0 Hget Hst)
    as (s1 & mid & Hrun1 & Hq1 & Hmid & Hlen1).
  destruct (enlist_execute_frame mask readSpeed loc s1)
    as (newId & s2 & new & tail & Hrun2 & Hq2 & Hnup & Hnid & Hnsv & Htail & _).
  { rewrite Hlen1. exact Hlen. }
  destruct (queued_trans _ _ _ _ _ Hq1 Hq2) as (Happ & Hv & Hq & _).
  change (update s0) with (update s) in Happ.
  change (version s0) with (version s) in Hv.
  change (updates s0) with (updates s) in Hq.
  unfold appended in Happ.
  destruct (commitUpdate_effect s2) as [_ Hcommit].
  destruct Hcommit as (s3 & Hrun3 & Hv3 & _ & Hq3 & Hu3 & _).
  { rewrite Happ. simpl. intros Hnil. apply (f_equal length) in Hnil.
    rewrite !length_app in Hnil. simpl in Hnil. lia. }
  exists newId, s3. eexists.
  exists (serializeEntry (set_status CRASHED old)),
         (serializeEntry (set_status DOWN old)), (serializeEntry new), mid, tail.
  split.
  { unfold Public.enlistServer. unfold bind at 1. unfold gets at 1.
    rewrite Hget. rewrite bool_decide_true by eauto.
    cbn [when]. unfold bind at 1. unfold bind at 1.
    unfold forceServerDown, ForceServerDown.execute.
    rewrite (bind_Returned _ _ _ _ _ (appendProtoBuf_run _ _ _)).
    fold s0. rewrite Hrun1, Hrun2.
    rewrite (bind_Returned _ _ _ _ _ Hrun3). reflexivity. }
  split; [rewrite Hq3, Hq; reflexivity|].
  split; [rewrite Hv3, Hv; reflexivity|].
  split; [reflexivity|]. split; [reflexivity|]. split; [exact Hu3|].
  split.
  { simpl. rewrite Happ. simpl. unfold downRecords.
    rewrite <- !app_assoc. reflexivity. }
  split; [reflexivity|]. split; [reflexivity|].
  pose proof (iget_serverId _ _ _ Hget) as Hoid.
  split; [split; [exact Hoid|reflexivity]|].
  split; [split; [exact Hoid|reflexivity]|].
  split; [split; [exact Hnid|exact Hnup]|].
  split; [exact Hnsv|]. split; assumption.
Qed.

Lemma enlistServer_replacement_delta_witness :
  let B := maskOf [BACKUP_SERVICE] in
  let s := execAll [CallEnlistServer (mkServerId 0 0) B 100 "tcp:1"] (initial 1) in
  exists s' u,
    Public.enlistServer (mkServerId 1 1) B 100 "tcp:2" s
      = Returned (mkServerId 1 2) s' /\
    updates s' = updates s ++ [u] /\
    map (fun r => (ProtoBuf.server_id r, ProtoBuf.entry_status r)) (ProtoBuf.server u)
    = [(mkServerId 1 1, CRASHED); (mkServerId 1 1, DOWN); (mkServerId 1 2, UP)].
Proof.
  intros B s.
  destruct (iget (mkServerId 1 1) s) as [old|] eqn:Hold; [|discriminate].
  destruct (enlistServer_replacement_delta (mkServerId 1 1) B 100 "tcp:2" old s Hold)
    as (newId & s' & u & rc & rd & rn & mid & tail & Hrun & Hq & _);
    [vm_compute in Hold; injection Hold as <-; discriminate|simpl; lia|].
  vm_compute in Hrun. injection Hrun as <- <-.
  eexists. exists u. split; [vm_compute; reflexivity|].
  split; [exact Hq|].
  vm_compute in Hq. injection Hq as <-. reflexivity.
Defined.

Lemma no_record_with_status (st : ServerStatus) (old new : ServerId)
    (recs : list ProtoBuf.ServerList_Entry) :
  (st = CRASHED \/ st = DOWN) ->
  Forall (fun r => ProtoBuf.entry_status r <> st) recs ->
  ~ replacementDelta old new recs.
Proof.
  intros Hst Hall (a & b & c & pre & mid1 & mid2 & post & -> & [_ Ha] & [_ Hb] & _).
  rewrite !Forall_app in Hall.
  destruct Hall as (_ & Ha' & _ & Hb' & _).
  apply Forall_inv in Ha', Hb'. destruct Hst as [->| ->]; contradiction.
Qed.

(** C2, as stated.  First the scenario of the specification: a master
    enlists, then a server enlists and replaces it.  The delta committed
    by the second call records the old id with status CRASHED and the new
    id with status UP; it holds no record with status DOWN, and the new
    id takes slot 2, slot 1 being still held by the crashed master.
    Second, the same replacement after the master was reported down, so
    that its entry is CRASHED already: the delta holds the record of the
    new id only. *)
Lemma enlistServer_master_replacement_has_no_down_record :
  let M1 := maskOf [MASTER_SERVICE] in
  let s := execAll [CallEnlistServer (mkServerId 0 0) M1 100 "tcp:1"] (initial 1) in
  let sc := execAll [CallHintServerDown (mkServerId 1 1) true] s in
  (exists newServerId s' u,
     status <$> iget (mkServerId 1 1) s = Some UP /\
     Public.enlistServer (mkServerId 1 1) M1 100 "tcp:2" s
       = Returned newServerId s' /\
     updates s' = updates s ++ [u] /\
     newServerId = mkServerId 2 1 /\
     ~ replacementDelta (mkServerId 1 1) newServerId (ProtoBuf.server u)) /\
  (exists newServerId s' u,
     status <$> iget (mkServerId 1 1) sc = Some CRASHED /\
     Public.enlistServer (mkServerId 1 1) M1 100 "tcp:2" sc
       = Returned newServerId s' /\
     updates s' = updates sc ++ [u] /\
     map ProtoBuf.entry_status (ProtoBuf.server u) = [UP] /\
     ~ replacementDelta (mkServerId 1 1) newServerId (ProtoBuf.server u)).
Proof.
  intros M1 s sc. split.
  - eexists. eexists. eexists.
    split; [vm_compute; reflexivity|].
    split; [vm_compute; reflexivity|].
    split; [vm_compute; reflexivity|].
    split; [reflexivity|].
    apply (no_record_with_status DOWN); [right; reflexivity|].
    repeat constructor; discriminate.
  - eexists. eexists. eexists.
    split; [vm_compute; reflexivity|].
    split; [vm_compute; reflexivity|].
    split; [vm_compute; reflexivity|].
    split; [reflexivity|].
    apply (no_record_with_status CRASHED); [left; reflexivity|].
    repeat constructor; discriminate.
Qed.

(** ** Hash-table entry packing *)

Section Bits.

Lemma testbit_small (x k n : Z) :
  0 <= x < 2 ^ k -> k <= n -> Z.testbit x n = false.
Proof.
  intros [Hx0 Hxk] Hkn.
  destruct (Z.eq_dec x 0) as [->|Hne]; [apply Z.testbit_0_l|].
  apply Z.bits_above_log2; [lia|].
  assert (0 <= k) by (destruct (Z.le_gt_cases 0 k); [lia|];
    rewrite Z.pow_neg_r in Hxk; lia).
  assert (Z.log2 x < k) by (apply Z.log2_lt_pow2; lia).
  lia.
Qed.

Lemma testbit_flag (c : bool) (n : Z) :
  0 <= n ->
  Z.testbit (Z.shiftl (if c then 1 else 0) 47) n = c && (n =? 47).
Proof.
  intros Hn. rewrite Z.shiftl_spec by lia.
  destruct (Z.eqb_spec n 47) as [->|Hne].
  - destruct c; reflexivity.
  - rewrite andb_false_r.
    destruct (Z.lt_ge_cases n 47); [apply Z.testbit_neg_r; lia|].
    destruct c; [|apply Z.testbit_0_l].
    apply (testbit_small 1 1); lia.
Qed.

(** The bits of a packed word, field by field. *)
Lemma testbit_packed (h p n : Z) (c : bool) :
  0 <= h <= 0xffff -> 0 <= p <= 0x7fffffffffff -> 0 <= n ->
  Z.testbit (Z.lor (Z.lor (wrap64 (Z.shiftl h 48))
                          (Z.shiftl (if c then 1 else 0) 47)) p) n
  = if n <? 47 then Z.testbit p n
    else if n =? 47 then c
    else Z.testbit h (n - 48).
Proof.
  intros Hh Hp Hn.
  assert (Hw : wrap64 (Z.shiftl h 48) = Z.shiftl h 48).
  { unfold wrap64. rewrite Z.shiftl_mul_pow2 by lia.
    apply Z.mod_small. lia. }
  rewrite Hw, !Z.lor_spec, testbit_flag, Z.shiftl_spec by lia.
  destruct (Z.ltb_spec n 47) as [Hlt|Hge].
  - rewrite (Z.testbit_neg_r h) by lia.
    replace (n =? 47) with false by (symmetry; apply Z.eqb_neq; lia).
    rewrite andb_false_r. reflexivity.
  - rewrite (testbit_small p 47 n) by lia.
    destruct (Z.eqb_spec n 47) as [->|Hne].
    + rewrite Z.testbit_neg_r by lia. rewrite andb_true_r, orb_false_r.
      reflexivity.
    + rewrite andb_false_r, !orb_false_r. reflexivity.
Qed.

End Bits.

Lemma pack_in_range (h p : Z) (c : bool) :
  0 <= p <= 0x7fffffffffff ->
  HashTable.pack h c p =
  HashTable.Packed (Z.lor (Z.lor (wrap64 (Z.shiftl h 48))
                                 (Z.shiftl (if c then 1 else 0) 47)) p).
Proof.
  intros Hp. unfold HashTable.pack.
  rewrite Z.shiftr_div_pow2, Z.div_small by lia. reflexivity.
Qed.

Lemma unpack_pack (h p : Z) (c : bool) :
  0 <= h <= 0xffff -> 0 <= p <= 0x7fffffffffff ->
  HashTable.unpack (Z.lor (Z.lor (wrap64 (Z.shiftl h 48))
                                 (Z.shiftl (if c then 1 else 0) 47)) p)
  = HashTable.mkUnpackedEntry h c p.
Proof.
  intros Hh Hp. unfold HashTable.unpack. f_equal.
  - apply Z.bits_inj'. intros n Hn.
    change 0xffff with (Z.ones 16).
    rewrite Z.land_spec, Z.shiftr_spec, testbit_packed by lia.
    destruct (Z.lt_ge_cases n 16).
    + rewrite Z.ones_spec_low, andb_true_r by lia.
      replace (n + 48 <? 47) with false by (symmetry; apply Z.ltb_ge; lia).
      replace (n + 48 =? 47) with false by (symmetry; apply Z.eqb_neq; lia).
      f_equal. lia.
    + rewrite Z.ones_spec_high, andb_false_r by lia.
      symmetry. apply (testbit_small h 16); lia.
  - rewrite testbit_packed by lia. reflexivity.
  - apply Z.bits_inj'. intros n Hn.
    change 0x7fffffffffff with (Z.ones 47).
    rewrite Z.land_spec, testbit_packed by lia.
    destruct (Z.ltb_spec n 47).
    + rewrite Z.ones_spec_low, andb_true_r by lia. reflexivity.
    + rewrite Z.ones_spec_high, andb_false_r by lia.
      symmetry. apply (testbit_small p 47); lia.
Qed.

(** C9.  For every secondary hash [h <= 0xFFFF], chain flag [c] and
    pointer [p <= 0x7FFFFFFFFFFF], unpacking the packed entry gives back
    exactly [(h, c, p)], so [packable] answers true; and [pack] fails with
    the out-of-range error for every 64-bit pointer value that does not
    fit in 47 bits. *)
Theorem pack_unpack_roundtrip :
  (forall h c p,
     0 <= h <= 0xffff -> 0 <= p <= 0x7fffffffffff ->
     (exists value,
        HashTable.pack h c p = HashTable.Packed value /\
        HashTable.unpack value = HashTable.mkUnpackedEntry h c p) /\
     HashTable.packable h c p = Some true) /\
  (forall h c p,
     0x7fffffffffff < p < 2 ^ 64 ->
     HashTable.pack h c p = HashTable.PackOutOfRange /\
     HashTable.packable h c p = None).
Proof.
  split.
  - intros h c p Hh Hp. split.
    + eexists. split; [apply pack_in_range; lia|]. apply unpack_pack; lia.
    + unfold HashTable.packable. rewrite pack_in_range by lia.
      rewrite unpack_pack by lia. simpl.
      rewrite !Z.eqb_refl. destruct c; reflexivity.
  - intros h c p Hp.
    assert (Hpack : HashTable.pack h c p = HashTable.PackOutOfRange).
    { unfold HashTable.pack.
      destruct (Z.eqb_spec (Z.shiftr p 47) 0) as [E|]; [|reflexivity].
      rewrite Z.shiftr_div_pow2 in E by lia.
      apply Z.div_small_iff in E; lia. }
    split; [exact Hpack|]. unfold HashTable.packable. rewrite Hpack.
    reflexivity.
Qed.

Lemma pack_unpack_roundtrip_witness :
  ((exists value,
      HashTable.pack 0xa257 false 0x3cdeadbeef98 = HashTable.Packed value /\
      HashTable.unpack value =
      HashTable.mkUnpackedEntry 0xa257 false 0x3cdeadbeef98) /\
   HashTable.packable 0xa257 false 0x3cdeadbeef98 = Some true) /\
  (HashTable.pack 0 false 0xffffffffffff = HashTable.PackOutOfRange /\
   HashTable.packable 0 false 0xffffffffffff = None).
Proof.
  split.
  - apply (proj1 pack_unpack_roundtrip); lia.
  - apply (proj2 pack_unpack_roundtrip); lia.
Defined.


(** * Further properties of the code *)

(** ** Histories run by [execAll] *)

(** Running calls from a reachable state leads to a reachable state: a
    call that fails an assertion is left out of the history. *)
Lemma Reachable_execAll_from (ts : nat) (cs : list Call) (n : nat)
    (s : CoordinatorServerList) :
  Reachable ts n s ->
  exists n', (n' <= n + length cs)%nat /\ Reachable ts n' (execAll cs s).
Proof.
  revert n s. induction cs as [|c cs IH]; intros n s Hreach.
  - exists n. split; [lia|exact Hreach].
  - change (execAll (c :: cs) s) with (execAll cs (exec (perform c) s)).
    assert (Hex : exec (perform c) s =
                  match finalState (perform c s) with
                  | Some s' => s'
                  | None => s
                  end) by reflexivity.
    rewrite Hex. destruct (finalState (perform c s)) as [s'|] eqn:Hstep.
    + destruct (IH (S n) s' (Reachable_call ts n s c s' Hreach Hstep))
        as (n' & Hle & Hreach').
      exists n'. split; [simpl; lia|exact Hreach'].
    + destruct (IH n s Hreach) as (n' & Hle & Hreach').
      exists n'. split; [simpl; lia|exact Hreach'].
Qed.

Lemma Reachable_execAll (ts : nat) (cs : list Call) :
  exists n, (n <= length cs)%nat /\ Reachable ts n (execAll cs (initial ts)).
Proof. apply (Reachable_execAll_from ts cs 0). apply Reachable_initial. Qed.

(** ** [Log::Position] *)

Lemma Position_lt_iff (a b : Log.Position) :
  Log.lt a b = true <->
  Log.segmentId a < Log.segmentId b \/
  (Log.segmentId a = Log.segmentId b /\
   Log.segmentOffset a < Log.segmentOffset b).
Proof.
  unfold Log.lt.
  rewrite orb_true_iff, andb_true_iff, negb_true_iff, !Z.ltb_lt, Z.ltb_ge. lia.
Qed.

Lemma Position_eq_iff (a b : Log.Position) :
  Log.eq a b = true <->
  Log.segmentId a = Log.segmentId b /\
  Log.segmentOffset a = Log.segmentOffset b.
Proof. unfold Log.eq. rewrite andb_true_iff, !Z.eqb_eq. reflexivity. Qed.

(** Turns a goal on the comparison operators into one on the fields. *)
Ltac position_fields :=
  unfold Log.ne, Log.le, Log.ge, Log.gt;
  lazymatch goal with
  | |- _ = false => apply not_true_iff_false
  | |- _ = true => idtac
  | |- @eq bool _ _ => apply Bool.eq_true_iff_eq
  | |- _ => idtac
  end;
  repeat first
    [ rewrite negb_involutive | rewrite orb_true_iff | rewrite negb_true_iff
    | rewrite <- not_true_iff_false
    | rewrite Position_lt_iff | rewrite Position_eq_iff ].

(** X1.  The comparison operators of [Log::Position] form a total order
    on positions: [==] holds of equal positions only, [<] is irreflexive
    and transitive, of two positions exactly one is below the other or
    they are equal, and [<=], [>], [>=], [!=] agree with [<] and [==].
    The order is the lexicographic one: first by segment id, then by
    offset. *)
Theorem Position_total_order (a b c : Log.Position) :
  (Log.eq a b = true <-> a = b) /\
  Log.lt a a = false /\
  (Log.lt a b = true -> Log.lt b c = true -> Log.lt a c = true) /\
  (Log.lt a b = true \/ Log.eq a b = true \/ Log.lt b a = true) /\
  (Log.lt a b = true -> Log.eq a b = false /\ Log.lt b a = false) /\
  Log.le a b = Log.lt a b || Log.eq a b /\
  Log.ge a b = Log.lt b a || Log.eq a b /\
  Log.gt a b = negb (Log.le a b) /\
  Log.ne a b = Log.lt a b || Log.lt b a /\
  (Log.lt a b = true <->
     Log.segmentId a < Log.segmentId b \/
     (Log.segmentId a = Log.segmentId b /\
      Log.segmentOffset a < Log.segmentOffset b)).
Proof.
  split.
  { rewrite Position_eq_iff. destruct a, b; simpl. split.
    - intros [-> ->]. reflexivity.
    - intros [= -> ->]. split; reflexivity. }
  split; [position_fields; lia|].
  split.
  { intros H1 H2. apply Position_lt_iff in H1, H2. position_fields. lia. }
  split; [position_fields; lia|].
  split.
  { intros H. apply Position_lt_iff in H. split; position_fields; lia. }
  split; [position_fields; lia|].
  split; [position_fields; lia|].
  split; [position_fields; lia|].
  split; [position_fields; lia|].
  apply Position_lt_iff.
Qed.

(** ** The index scans *)

Lemma scanFor_least (wanted : Entry -> bool) (l : list GenerationNumberEntryPair)
    (start : nat) :
  (start <= scanFor wanted l start <= start + length l)%nat /\
  (forall j p e, l !! j = Some p -> entry p = Some e ->
     (start + j < scanFor wanted l start)%nat -> wanted e = false) /\
  ((scanFor wanted l start < start + length l)%nat ->
   exists p e, l !! (scanFor wanted l start - start)%nat = Some p /\
               entry p = Some e /\ wanted e = true).
Proof.
  revert start. induction l as [|p l IH]; intros start; simpl.
  - split; [lia|]. split; [intros j p e Hj; discriminate|lia].
  - destruct (IH (S start)) as (Hb & Hbelow & Hat).
    destruct (entry p) as [e|] eqn:He.
    + destruct (wanted e) eqn:Hw.
      * split; [lia|]. split; [intros; lia|]. intros _.
        rewrite Nat.sub_diag. exists p, e. auto.
      * split; [lia|]. split.
        -- intros [|j] q e' Hq He' Hlt; simpl in Hq.
           ++ congruence.
           ++ apply (Hbelow j q e' Hq He'). lia.
        -- intros Hlt. destruct Hat as (q & e' & Hq & He' & Hw'); [lia|].
           exists q, e'. split; [|auto].
           replace (scanFor wanted l (S start) - start)%nat
             with (S (scanFor wanted l (S start) - S start)) by lia.
           exact Hq.
    + split; [lia|]. split.
      * intros [|j] q e' Hq He' Hlt; simpl in Hq.
        -- congruence.
        -- apply (Hbelow j q e' Hq He'). lia.
      * intros Hlt. destruct Hat as (q & e' & Hq & He' & Hw'); [lia|].
        exists q, e'. split; [|auto].
        replace (scanFor wanted l (S start) - start)%nat
          with (S (scanFor wanted l (S start) - S start)) by lia.
        exact Hq.
Qed.

(** The scan from [start] over the whole vector: either it runs off the
    end, and no entry at or after [start] passes the test, or it stops at
    the first slot at or after [start] whose entry passes. *)
Lemma scanFor_vector (wanted : Entry -> bool) (start : nat)
    (s : CoordinatorServerList) :
  let i := scanFor wanted (drop start (serverList s)) start in
  ((length (serverList s) <= i)%nat /\
   forall j e, (start <= j)%nat -> entryAt s j = Some e -> wanted e = false) \/
  ((start <= i < length (serverList s))%nat /\
   (exists e, entryAt s i = Some e /\ wanted e = true) /\
   forall j e, (start <= j < i)%nat -> entryAt s j = Some e -> wanted e = false).
Proof.
  intros i.
  destruct (scanFor_least wanted (drop start (serverList s)) start)
    as (Hb & Hbelow & Hat).
  fold i in Hb, Hbelow, Hat. rewrite length_drop in Hb, Hat.
  assert (Hlow : forall j e, (start <= j < i)%nat -> entryAt s j = Some e ->
                             wanted e = false).
  { intros j e Hj He. unfold entryAt in He.
    destruct (serverList s !! j) as [p|] eqn:Hp; [|discriminate].
    apply (Hbelow (j - start)%nat p e); [|exact He|lia].
    rewrite lookup_drop. replace (start + (j - start))%nat with j by lia.
    exact Hp. }
  destruct (Nat.le_gt_cases (length (serverList s)) i) as [Hend|Hin].
  - left. split; [exact Hend|]. intros j e Hj He.
    destruct (Nat.lt_ge_cases j i) as [Hlt|Hge]; [eauto|].
    unfold entryAt in He.
    destruct (serverList s !! j) as [p|] eqn:Hp; [|discriminate].
    apply lookup_lt_Some in Hp. lia.
  - right. split; [lia|]. split; [|exact Hlow].
    destruct Hat as (p & e & Hp & He & Hw); [lia|].
    rewrite lookup_drop in Hp.
    replace (start + (i - start))%nat with i in Hp by lia.
    exists e. unfold entryAt. rewrite Hp. auto.
Qed.

(** X2.  In a vector of fewer than 2^32 slots, [nextMasterIndex] returns
    [-1] (as a [uint32_t]) exactly when no slot at or after [startIndex]
    holds a master, a start past the end included; otherwise it returns
    the position of the first master at or after [startIndex], which is
    within the vector.  [nextBackupIndex] does the same for backups. *)
Theorem nextIndex_finds_first (startIndex : nat) (s : CoordinatorServerList) :
  Z.of_nat (length (serverList s)) < 2 ^ 32 ->
  ((Queries.nextMasterIndex startIndex s = 2 ^ 32 - 1 <->
    forall j e, (startIndex <= j)%nat -> entryAt s j = Some e -> isMaster e = false) /\
   (Queries.nextMasterIndex startIndex s <> 2 ^ 32 - 1 ->
    exists i e,
      Queries.nextMasterIndex startIndex s = Z.of_nat i /\
      (startIndex <= i < length (serverList s))%nat /\
      entryAt s i = Some e /\ isMaster e = true /\
      forall j e', (startIndex <= j < i)%nat -> entryAt s j = Some e' ->
                   isMaster e' = false)) /\
  ((Queries.nextBackupIndex startIndex s = 2 ^ 32 - 1 <->
    forall j e, (startIndex <= j)%nat -> entryAt s j = Some e -> isBackup e = false) /\
   (Queries.nextBackupIndex startIndex s <> 2 ^ 32 - 1 ->
    exists i e,
      Queries.nextBackupIndex startIndex s = Z.of_nat i /\
      (startIndex <= i < length (serverList s))%nat /\
      entryAt s i = Some e /\ isBackup e = true /\
      forall j e', (startIndex <= j < i)%nat -> entryAt s j = Some e' ->
                   isBackup e' = false)).
Proof.
  intros Hlen.
  assert (Hminus : wrap32 (-1) = 2 ^ 32 - 1) by reflexivity.
  unfold Queries.nextMasterIndex, Queries.nextBackupIndex.
  split.
  - destruct (scanFor_vector isMaster startIndex s)
      as [(Hend & Hnone)|(Hin & (e & He & Hw) & Hlow)].
    + rewrite bool_decide_true by exact Hend. rewrite Hminus.
      split; [split; [intros _; exact Hnone|reflexivity]|]. intros H. contradiction.
    + rewrite bool_decide_false by lia. split.
      * split; [lia|]. intros Hnone. rewrite (Hnone _ e (proj1 Hin) He) in Hw.
        discriminate.
      * intros _. eexists. exists e. split; [reflexivity|]. auto.
  - destruct (scanFor_vector isBackup startIndex s)
      as [(Hend & Hnone)|(Hin & (e & He & Hw) & Hlow)].
    + rewrite bool_decide_true by exact Hend. rewrite Hminus.
      split; [split; [intros _; exact Hnone|reflexivity]|]. intros H. contradiction.
    + rewrite bool_decide_false by lia. split.
      * split; [lia|]. intros Hnone. rewrite (Hnone _ e (proj1 Hin) He) in Hw.
        discriminate.
      * intros _. eexists. exists e. split; [reflexivity|]. auto.
Qed.

(** ** Lookups by id and by position *)

Lemma nextIndex_finds_first_witness :
  let s := execAll [CallEnlistServer (mkServerId 0 0) (maskOf [MASTER_SERVICE]) 0 "m";
                    CallEnlistServer (mkServerId 0 0) (maskOf [BACKUP_SERVICE]) 100 "b"]
                   (initial 0) in
  Queries.nextMasterIndex 0 s = 1 /\
  Queries.nextBackupIndex 0 s = 2 /\
  Queries.nextMasterIndex 2 s = 2 ^ 32 - 1 /\
  forall j e, (2 <= j)%nat -> entryAt s j = Some e -> isMaster e = false.
Proof.
  intros s.
  split; [reflexivity|]. split; [reflexivity|]. split; [reflexivity|].
  apply (proj1 (proj1 (nextIndex_finds_first 2 s ltac:(vm_compute; reflexivity)))).
  reflexivity.
Defined.

(** X3.  In every state a history of calls reaches, looking an entry up
    by position and by id agree: the entry [operator[](size_t)] finds in
    slot [i] is the one [operator[](const ServerId&)] returns for its id,
    and that id names slot [i]; so no server id occurs in two slots.
    [operator[](size_t)] fails with "Index beyond array length" exactly
    for positions at or past the size of the vector, and gives an empty
    [Tub] for an unoccupied slot within it. *)
Theorem lookups_agree (ts n : nat) (s : CoordinatorServerList) :
  Reachable ts n s ->
  (forall i e, Queries.atIndex i s = TubCopy (Some e) ->
     Queries.atServerId (serverId e) s = Returned e s /\
     indexNumber (serverId e) = i) /\
  (forall id e, Queries.atServerId id s = Returned e s ->
     Queries.atIndex (indexNumber id) s = TubCopy (Some e) /\ serverId e = id) /\
  (forall i j e e', Queries.atIndex i s = TubCopy (Some e) ->
     Queries.atIndex j s = TubCopy (Some e') ->
     serverId e = serverId e' -> i = j) /\
  (forall i, Queries.atIndex i s = IndexBeyondArray <->
             (length (serverList s) <= i)%nat).
Proof.
  intros Hreach. pose proof (Reachable_wellIndexed _ _ _ Hreach) as Hwf.
  unfold Queries.atIndex, Queries.atServerId, getReferenceFromIndex.
  assert (Hslot : forall i e,
            match serverList s !! i with
            | Some p => TubCopy (entry p)
            | None => IndexBeyondArray
            end = TubCopy (Some e) ->
            exists p, serverList s !! i = Some p /\ entry p = Some e).
  { intros i e H. destruct (serverList s !! i) as [p|]; [|discriminate].
    injection H as H. eauto. }
  split; [|split; [|split]].
  - intros i e (p & Hp & He)%Hslot.
    destruct (wellIndexed_iget s i p e Hwf Hp He) as [Hget Hi].
    split; [|exact Hi]. rewrite getReferenceFromServerId_iget, Hget. reflexivity.
  - intros id e H. rewrite getReferenceFromServerId_iget in H.
    destruct (iget id s) as [e0|] eqn:Hget; [|discriminate].
    injection H as ->. apply iget_Some in Hget as (p & Hp & He & Hid).
    rewrite Hp, He. auto.
  - intros i j e e' (p & Hp & He)%Hslot (q & Hq & He')%Hslot Hid.
    rewrite <- (Hwf _ _ _ Hp He), <- (Hwf _ _ _ Hq He'), Hid. reflexivity.
  - intros i. destruct (serverList s !! i) as [p|] eqn:Hp.
    + apply lookup_lt_Some in Hp. split; [discriminate|lia].
    + apply lookup_ge_None in Hp. split; [intros _; exact Hp|reflexivity].
Qed.

Lemma lookups_agree_witness :
  let s := execAll [CallEnlistServer (mkServerId 0 0) (maskOf [MASTER_SERVICE]) 0 "m";
                    CallEnlistServer (mkServerId 0 0) (maskOf [BACKUP_SERVICE]) 100 "b"]
                   (initial 0) in
  exists e,
    Queries.atIndex 2 s = TubCopy (Some e) /\
    Queries.atServerId (mkServerId 2 1) s = Returned e s /\
    Queries.atIndex 0 s = TubCopy None /\
    Queries.atIndex 3 s = IndexBeyondArray.
Proof.
  intros s.
  destruct (Reachable_execAll 0
              [CallEnlistServer (mkServerId 0 0) (maskOf [MASTER_SERVICE]) 0 "m";
               CallEnlistServer (mkServerId 0 0) (maskOf [BACKUP_SERVICE]) 100 "b"])
    as (n & _ & Hreach).
  fold s in Hreach.
  destruct (Queries.atIndex 2 s) as [[e|]|] eqn:He; try discriminate.
  exists e. split; [reflexivity|].
  destruct (lookups_agree 0 n s Hreach) as (Hix & _ & _ & Hend).
  destruct (Hix 2%nat e He) as [Hid _].
  split.
  - vm_compute in He. injection He as <-. exact Hid.
  - split; [reflexivity|]. apply Hend. vm_compute. lia.
Defined.

(** ** Unknown server ids *)


Lemma crashed_unknown (id : ServerId) (s : CoordinatorServerList) :
  iget id s = None -> crashed id s = Thrown ServerListException s.
Proof.
  intros Hnone. unfold crashed, bind, gets.
  rewrite invalidServerId_iget, Hnone, bool_decide_true by reflexivity.
  reflexivity.
Qed.

Lemma remove_unknown (id : ServerId) (s : CoordinatorServerList) :
  iget id s = None -> remove id s = Thrown ServerListException s.
Proof.
  intros Hnone. unfold remove, bind, gets.
  rewrite invalidServerId_iget, Hnone, bool_decide_true by reflexivity.
  reflexivity.
Qed.



(** ** The updater's scan: [hasUpdates] *)

Lemma scanned_refl (s : CoordinatorServerList) : scanned s s.
Proof. repeat split; try reflexivity. exists 0%nat. reflexivity. Qed.

Lemma scanned_trans (s1 s2 s3 : CoordinatorServerList) :
  scanned s1 s2 -> scanned s2 s3 -> scanned s1 s3.
Proof.
  intros (Hl & Hm & Hb & Hv & Hu & Hn & Ht & Hr & Hc & k & Hq)
         (Hl' & Hm' & Hb' & Hv' & Hu' & Hn' & Ht' & Hr' & Hc' & k' & Hq').
  repeat split; try congruence.
  exists (k + k')%nat. rewrite Hq', Hq, drop_drop. reflexivity.
Qed.

(** One trip through the loop body at a slot within the vector, when no
    recorded version is ahead of the list's: the trip returns; it says
    "found" exactly when the entry of the slot needs an update, and then
    the cursor is left on the slot. *)
Lemma hasUpdatesBody_run (i : nat) (s : CoordinatorServerList) :
  (i < length (serverList s))%nat -> versionsBounded s ->
  exists r s',
    hasUpdatesBody i s = Returned r s' /\
    scanned s s' /\
    minVersion (lastScan s') <= version s /\
    match entryAt s i with
    | Some e =>
        if needsUpdate (version s) e
        then r = Some true /\ lastScan s' = mkScan false i (minVersion (lastScan s'))
        else r = None /\
             noUpdatesFound (lastScan s') = noUpdatesFound (lastScan s) /\
             searchIndex (lastScan s') = searchIndex (lastScan s)
    | None =>
        r = None /\
        noUpdatesFound (lastScan s') = noUpdatesFound (lastScan s) /\
        searchIndex (lastScan s') = searchIndex (lastScan s)
    end.
Proof.
  intros Hi (Hv0 & Hmv & Hent).
  destruct (lookup_lt_is_Some_2 _ _ Hi) as [p Hp].
  specialize (Hent i). unfold entryAt in *. rewrite Hp in *.
  unfold hasUpdatesBody, pruneUpdates, needsUpdate.
  destruct (popUpTo_drop (minVersion (lastScan s)) (updates s)) as [k Hk].
  assert (Hle : (minVersion (lastScan s) <=? version s) = true)
    by (apply Z.leb_le; exact Hmv).
  destruct (bool_decide (i = 0%nat)); unfold_monad; simpl;
    rewrite ?Hle; simpl; rewrite Hp;
    (destruct (entry p) as [e|];
     [destruct (Hent e eq_refl) as [Hslv Hibu];
      destruct (has (services e) MEMBERSHIP_SERVICE); simpl;
      [destruct (bool_decide (status e = UP)); simpl;
       [repeat (match goal with
                | |- context [if ?b then _ else _] => destruct b eqn:?
                end; cbn)|]|]|]);
    (eexists; eexists; split; [reflexivity|]);
    (split; [repeat split; try reflexivity;
             first [exists k; exact Hk | exists 0%nat; reflexivity]|]);
    simpl; (split; [try lia; destruct (serverListVersion e =? 0); lia|]);
    try (repeat split; reflexivity); try discriminate.
Qed.

Lemma entryAt_scanned (s s' : CoordinatorServerList) (j : nat) :
  scanned s s' -> entryAt s' j = entryAt s j.
Proof. intros [Hl _]. unfold entryAt. rewrite Hl. reflexivity. Qed.

Lemma versionsBounded_scanned (s s' : CoordinatorServerList) :
  scanned s s' -> minVersion (lastScan s') <= version s ->
  versionsBounded s -> versionsBounded s'.
Proof.
  intros Hsc Hmv (Hv0 & _ & Hent).
  pose proof Hsc as (_ & _ & _ & Hv & _).
  unfold versionsBounded. rewrite Hv. split; [exact Hv0|]. split; [exact Hmv|].
  intros j e. rewrite (entryAt_scanned _ _ _ Hsc). apply Hent.
Qed.

(** The cursor arithmetic of the [do ... while] loop. *)
Lemma cycle_step (i start size : nat) :
  (i < size)%nat -> (start < size)%nat ->
  ((i + 1) mod size < size)%nat /\
  (1 <= cycleLength i start size)%nat /\
  inCycle i start size i /\
  (((i + 1) mod size)%nat <> start ->
   (cycleLength ((i + 1) mod size) start size < cycleLength i start size)%nat /\
   forall j, inCycle i start size j <->
             j = i \/ inCycle ((i + 1) mod size)%nat start size j) /\
  (((i + 1) mod size)%nat = start -> forall j, inCycle i start size j <-> j = i).
Proof.
  intros Hi Hstart.
  assert (Hmod : ((i + 1) mod size = i + 1 /\ i + 1 < size)%nat \/
                 ((i + 1) mod size = 0 /\ i + 1 = size)%nat).
  { destruct (Nat.eq_dec (i + 1)%nat size) as [Heq|Hne].
    - right. split; [|exact Heq]. rewrite Heq. apply Nat.Div0.mod_same.
    - left. split; [apply Nat.mod_small|]; lia. }
  unfold inCycle, cycleLength.
  destruct Hmod as [[-> Hlt]|[-> Heq]];
    repeat match goal with
           | |- context [(?a <? ?b)%nat] => destruct (Nat.ltb_spec a b)
           end;
    repeat split; intros; lia.
Qed.

(** The loop of [hasUpdates], from slot [i] with enough fuel to come
    back to where the scan started: it returns; "true" with the cursor on
    an entry that needs an update; "false", and the cache flag set, when
    no slot it had left to visit holds such an entry. *)
Lemma hasUpdatesLoop_run (fuel : nat) (i : nat) (s : CoordinatorServerList) :
  (i < length (serverList s))%nat ->
  (searchIndex (lastScan s) < length (serverList s))%nat ->
  (cycleLength i (searchIndex (lastScan s)) (length (serverList s)) <= fuel)%nat ->
  versionsBounded s ->
  exists b s',
    hasUpdatesLoop fuel i s = Returned b s' /\
    scanned s s' /\
    minVersion (lastScan s') <= version s /\
    if b then
      exists e, entryAt s (searchIndex (lastScan s')) = Some e /\
                needsUpdate (version s) e = true /\
                noUpdatesFound (lastScan s') = false
    else
      noUpdatesFound (lastScan s') = true /\
      searchIndex (lastScan s') = searchIndex (lastScan s) /\
      forall j e, inCycle i (searchIndex (lastScan s)) (length (serverList s)) j ->
                  entryAt s j = Some e -> needsUpdate (version s) e = false.
Proof.
  revert i s. induction fuel as [|fuel IH]; intros i s Hi Hstart Hfuel Hbound.
  - destruct (cycle_step _ _ _ Hi Hstart) as (_ & Hpos & _). lia.
  - destruct (hasUpdatesBody_run i s Hi Hbound) as (r & s1 & Hrun & Hsc & Hmv & Hcase).
    cbn [hasUpdatesLoop]. rewrite (bind_Returned _ _ _ _ _ Hrun).
    pose proof Hsc as (Hl1 & _ & _ & Hv1 & _).
    destruct (cycle_step _ _ _ Hi Hstart) as (Hi' & _ & Hin & Hnext & Hlast).
    assert (Hnone : r = None ->
              noUpdatesFound (lastScan s1) = noUpdatesFound (lastScan s) /\
              searchIndex (lastScan s1) = searchIndex (lastScan s) /\
              forall e, entryAt s i = Some e -> needsUpdate (version s) e = false).
    { intros ->. destruct (entryAt s i) as [e|].
      - destruct (needsUpdate (version s) e) eqn:Hneeds.
        + destruct Hcase as [[=] _].
        + destruct Hcase as (_ & Hf & Hc). split; [exact Hf|]. split; [exact Hc|].
          intros e' [= <-]. exact Hneeds.
      - destruct Hcase as (_ & Hf & Hc). split; [exact Hf|]. split; [exact Hc|].
        intros e' [=]. }
    destruct r as [b|].
    + assert (Hfound : exists e, b = true /\ entryAt s i = Some e /\
                needsUpdate (version s) e = true /\
                lastScan s1 = mkScan false i (minVersion (lastScan s1))).
      { destruct (entryAt s i) as [e|].
        - destruct (needsUpdate (version s) e) eqn:Hneeds.
          + destruct Hcase as [[= ->] Hls]. exists e. auto.
          + destruct Hcase as [[=] _].
        - destruct Hcase as [[=] _]. }
      destruct Hfound as (e & -> & He & Hneeds & Hls).
      exists true, s1. split; [reflexivity|]. split; [exact Hsc|].
      split; [exact Hmv|]. exists e. rewrite Hls. simpl. auto.
    + destruct (Hnone eq_refl) as (Hf1 & Hc1 & Hnot).
      unfold bind at 1. unfold gets at 1. unfold bind at 1. unfold gets at 1.
      rewrite Hl1, Hc1.
      destruct (decide (((i + 1) mod length (serverList s))%nat = searchIndex (lastScan s)))
        as [Heq|Hne].
      * rewrite bool_decide_false by (intros H; apply H; exact Heq).
        unfold_monad. eexists false, _. split; [reflexivity|].
        split.
        { destruct Hsc as (? & ? & ? & ? & ? & ? & ? & ? & ? & ?).
          repeat split; assumption. }
        split; [exact Hmv|]. simpl. split; [reflexivity|]. split; [exact Hc1|].
        intros j e Hj He. apply (Hlast Heq) in Hj. subst j. apply Hnot, He.
      * rewrite bool_decide_true by exact Hne.
        destruct (Hnext Hne) as [Hless Hsplit].
        destruct (IH ((i + 1) mod length (serverList s))%nat s1)
          as (b & s' & Hrun' & Hsc' & Hmv' & Hres).
        { rewrite Hl1. exact Hi'. }
        { rewrite Hl1, Hc1. exact Hstart. }
        { rewrite Hl1, Hc1. lia. }
        { apply (versionsBounded_scanned s s1 Hsc Hmv Hbound). }
        exists b, s'. split; [exact Hrun'|].
        split; [apply (scanned_trans _ _ _ Hsc Hsc')|].
        rewrite Hv1 in Hmv', Hres. split; [exact Hmv'|].
        destruct b.
        -- destruct Hres as (e & He & Hneeds & Hf).
           rewrite (entryAt_scanned _ _ _ Hsc) in He. exists e. auto.
        -- destruct Hres as (Hf & Hc & Hall). split; [exact Hf|].
           split; [congruence|].
           intros j e Hj He. apply Hsplit in Hj as [->|Hj]; [apply Hnot, He|].
           apply (Hall j e).
           ++ rewrite Hl1, Hc1. exact Hj.
           ++ rewrite (entryAt_scanned _ _ _ Hsc). exact He.
Qed.

(** [hasUpdates] on a list whose cursor is within the vector. *)
Lemma hasUpdates_run (s : CoordinatorServerList) :
  versionsBounded s ->
  (searchIndex (lastScan s) < length (serverList s))%nat ->
  exists b s',
    hasUpdates s = Returned b s' /\
    scanned s s' /\
    minVersion (lastScan s') <= version s /\
    (noUpdatesFound (lastScan s) = true -> b = false /\ s' = s) /\
    (noUpdatesFound (lastScan s) = false ->
     if b then
       exists e, entryAt s (searchIndex (lastScan s')) = Some e /\
                 needsUpdate (version s) e = true /\
                 noUpdatesFound (lastScan s') = false
     else
       noUpdatesFound (lastScan s') = true /\
       searchIndex (lastScan s') = searchIndex (lastScan s) /\
       forall j e, entryAt s j = Some e -> needsUpdate (version s) e = false).
Proof.
  intros Hbound Hstart. unfold hasUpdates, bind, gets.
  destruct (noUpdatesFound (lastScan s)) eqn:Hflag; simpl.
  - exists false, s. split; [reflexivity|]. split; [apply scanned_refl|].
    split; [apply Hbound|]. split; [auto|discriminate].
  - rewrite bool_decide_false by lia.
    destruct (hasUpdatesLoop_run (length (serverList s)) (searchIndex (lastScan s)) s)
      as (b & s' & Hrun & Hsc & Hmv & Hres); try assumption.
    { unfold cycleLength. rewrite Nat.ltb_irrefl. lia. }
    exists b, s'. split; [exact Hrun|]. split; [exact Hsc|]. split; [exact Hmv|].
    split; [discriminate|]. intros _. destruct b; [exact Hres|].
    destruct Hres as (Hf & Hc & Hall). split; [exact Hf|]. split; [exact Hc|].
    intros j e He. apply (Hall j e); [|exact He].
    unfold inCycle. rewrite Nat.ltb_irrefl.
    unfold entryAt in He.
    destruct (serverList s !! j) as [p|] eqn:Hp; [|discriminate].
    apply lookup_lt_Some in Hp. lia.
Qed.

(** X5.  [hasUpdates], on a list where no recorded version is ahead of
    the list's version and the cursor is within the vector, returns
    without failing an assertion, and changes nothing but the cursor and
    the front of the update queue.  With the cache flag set it answers
    "no" at once.  Otherwise it answers "yes" with the cursor on an entry
    that takes updates, is UP, is behind the current version and has no
    rpc under way, or it answers "no", sets the cache flag, and then no
    entry of the list is such an entry: the cyclic scan misses none. *)
Theorem hasUpdates_finds_stale_entry (s : CoordinatorServerList) :
  versionsBounded s ->
  (searchIndex (lastScan s) < length (serverList s))%nat ->
  exists b s',
    hasUpdates s = Returned b s' /\
    scanned s s' /\
    (noUpdatesFound (lastScan s) = true -> b = false /\ s' = s) /\
    (noUpdatesFound (lastScan s) = false ->
     if b then
       exists e, entryAt s' (searchIndex (lastScan s')) = Some e /\
                 needsUpdate (version s') e = true /\
                 noUpdatesFound (lastScan s') = false
     else
       noUpdatesFound (lastScan s') = true /\
       forall j e, entryAt s j = Some e -> needsUpdate (version s) e = false).
Proof.
  intros Hbound Hstart.
  destruct (hasUpdates_run s Hbound Hstart)
    as (b & s' & Hrun & Hsc & _ & Hcached & Hscan).
  exists b, s'. split; [exact Hrun|]. split; [exact Hsc|].
  split; [exact Hcached|]. intros Hflag. specialize (Hscan Hflag).
  pose proof Hsc as (_ & _ & _ & Hv & _).
  destruct b.
  - destruct Hscan as (e & He & Hneeds & Hf). exists e.
    rewrite (entryAt_scanned _ _ _ Hsc), Hv. auto.
  - destruct Hscan as (Hf & _ & Hall). auto.
Qed.

Lemma hasUpdates_finds_stale_entry_witness :
  let MM := maskOf [MASTER_SERVICE; MEMBERSHIP_SERVICE] in
  let s := execAll [CallEnlistServer (mkServerId 0 0) MM 0 "m1";
                    CallEnlistServer (mkServerId 0 0) MM 0 "m2";
                    CallUpdateEntryVersion (mkServerId 1 1) 2] (initial 0) in
  exists s' e,
    hasUpdates s = Returned true s' /\
    searchIndex (lastScan s') = 2%nat /\
    entryAt s' 2 = Some e /\ needsUpdate (version s') e = true.
Proof.
  intros MM s.
  assert (Hbound : versionsBounded s).
  { split; [vm_compute; discriminate|]. split; [vm_compute; discriminate|].
    intros [|[|[|j]]] e He; vm_compute in He; try discriminate;
      injection He as <-; vm_compute; split; discriminate. }
  destruct (hasUpdates_finds_stale_entry s Hbound ltac:(vm_compute; lia))
    as (b & s' & Hrun & _ & _ & Hscan).
  specialize (Hscan eq_refl).
  assert (Hrun' : hasUpdates s = Returned b s') by exact Hrun.
  vm_compute in Hrun'. injection Hrun' as <- <-.
  destruct Hscan as (e & He & Hneeds & _).
  eexists. exists e. split; [exact Hrun|]. split; [reflexivity|].
  split; [exact He|exact Hneeds].
Defined.

(** ** [isClusterUpToDate] *)

Lemma upToDateLoop_true (v : Z) (l : list GenerationNumberEntryPair) :
  upToDateLoop v l = true <->
  forall j p e, l !! j = Some p -> entry p = Some e ->
    has (services e) MEMBERSHIP_SERVICE && bool_decide (status e = UP) &&
    (negb (serverListVersion e =? v) || (0 <? isBeingUpdated e)) = false.
Proof.
  induction l as [|p l IH]; simpl.
  - split; [intros _ j p e Hj; discriminate|reflexivity].
  - destruct (entry p) as [e|] eqn:He.
    + destruct (has (services e) MEMBERSHIP_SERVICE && bool_decide (status e = UP) &&
                (negb (serverListVersion e =? v) || (0 <? isBeingUpdated e))) eqn:Hc.
      * split; [discriminate|]. intros H.
        rewrite (H 0%nat p e eq_refl He) in Hc. discriminate.
      * rewrite IH. split.
        -- intros H [|j] q e' Hq He'; simpl in Hq.
           ++ injection Hq as <-. rewrite He in He'. injection He' as <-.
              exact Hc.
           ++ eauto.
        -- intros H j q e' Hq He'. apply (H (S j) q e' Hq He').
    + rewrite IH. split.
      * intros H [|j] q e' Hq He'; simpl in Hq.
        -- injection Hq as <-. rewrite He in He'. discriminate.
        -- eauto.
      * intros H j q e' Hq He'. apply (H (S j) q e' Hq He').
Qed.

Lemma isClusterUpToDate_true (s : CoordinatorServerList) :
  isClusterUpToDate s = true <->
  forall j e, entryAt s j = Some e ->
    has (services e) MEMBERSHIP_SERVICE = true -> status e = UP ->
    serverListVersion e = version s /\ isBeingUpdated e <= 0.
Proof.
  unfold isClusterUpToDate. rewrite upToDateLoop_true. unfold entryAt. split.
  - intros H j e He Hm Hup.
    destruct (serverList s !! j) as [p|] eqn:Hp; [|discriminate].
    specialize (H j p e Hp He).
    assert (Hbd : bool_decide (status e = UP) = true)
      by (apply bool_decide_eq_true; exact Hup).
    rewrite Hm, Hbd in H. simpl in H.
    apply orb_false_iff in H as [H1 H2].
    apply negb_false_iff, Z.eqb_eq in H1. apply Z.ltb_ge in H2. auto.
  - intros H j p e Hp He. specialize (H j e). rewrite Hp in H. specialize (H He).
    destruct (has (services e) MEMBERSHIP_SERVICE); [|reflexivity].
    destruct (decide (status e = UP)) as [Hup|Hup].
    + destruct (H eq_refl Hup) as [Hv Hb].
      assert (Hbd : bool_decide (status e = UP) = true)
        by (apply bool_decide_eq_true; exact Hup).
      rewrite Hbd. simpl.
      apply orb_false_iff. split.
      * apply negb_false_iff, Z.eqb_eq, Hv.
      * apply Z.ltb_ge, Hb.
    + assert (Hbd : bool_decide (status e = UP) = false)
        by (apply bool_decide_eq_false; exact Hup).
      rewrite Hbd. reflexivity.
Qed.

(** X6.  [isClusterUpToDate] holds exactly when every UP entry that
    takes updates is at the list's version with no rpc under way.  It
    agrees with a full scan of [hasUpdates] as the updater's loop
    expects: if the cluster is up to date the scan answers "no"; if the
    scan answers "yes" the cluster is not up to date; and if the scan
    answers "no" while no entry has an rpc under way, the cluster is up
    to date, which is what the updater asserts before it waits. *)
Theorem scan_agrees_with_isClusterUpToDate (s : CoordinatorServerList) :
  versionsBounded s ->
  (searchIndex (lastScan s) < length (serverList s))%nat ->
  noUpdatesFound (lastScan s) = false ->
  (isClusterUpToDate s = true <->
   forall j e, entryAt s j = Some e ->
     has (services e) MEMBERSHIP_SERVICE = true -> status e = UP ->
     serverListVersion e = version s /\ isBeingUpdated e <= 0) /\
  exists b s',
    hasUpdates s = Returned b s' /\
    isClusterUpToDate s' = isClusterUpToDate s /\
    (isClusterUpToDate s = true -> b = false) /\
    (b = true -> isClusterUpToDate s' = false) /\
    (b = false ->
     (forall j e, entryAt s j = Some e -> isBeingUpdated e = 0) ->
     isClusterUpToDate s' = true).
Proof.
  intros Hbound Hstart Hflag. split; [apply isClusterUpToDate_true|].
  destruct (hasUpdates_run s Hbound Hstart)
    as (b & s' & Hrun & Hsc & _ & _ & Hscan).
  specialize (Hscan Hflag).
  assert (Hsame : isClusterUpToDate s' = isClusterUpToDate s).
  { destruct Hsc as (Hl & _ & _ & Hv & _). unfold isClusterUpToDate.
    rewrite Hl, Hv. reflexivity. }
  exists b, s'. split; [exact Hrun|]. split; [exact Hsame|].
  assert (Hyes : b = true -> isClusterUpToDate s = false).
  { intros ->. destruct Hscan as (e & He & Hneeds & _).
    apply not_true_iff_false. intros Hup.
    unfold needsUpdate in Hneeds.
    apply andb_true_iff in Hneeds as [Hneeds _].
    apply andb_true_iff in Hneeds as [Hneeds Hv].
    apply andb_true_iff in Hneeds as [Hm Hst].
    apply bool_decide_eq_true in Hst.
    destruct (proj1 (isClusterUpToDate_true s) Hup _ e He Hm Hst) as [Heq _].
    apply negb_true_iff, Z.eqb_neq in Hv. contradiction. }
  split.
  { intros Hup. destruct b; [|reflexivity]. rewrite (Hyes eq_refl) in Hup.
    discriminate. }
  split; [intros Hb; rewrite Hsame; auto|].
  intros -> Hidle. rewrite Hsame. apply isClusterUpToDate_true.
  destruct Hscan as (_ & _ & Hall).
  intros j e He Hm Hst. specialize (Hall j e He). specialize (Hidle j e He).
  unfold needsUpdate in Hall.
  assert (Hbd : bool_decide (status e = UP) = true)
    by (apply bool_decide_eq_true; exact Hst).
  rewrite Hm, Hbd, Hidle in Hall. simpl in Hall.
  rewrite andb_true_r in Hall. apply negb_false_iff, Z.eqb_eq in Hall.
  split; [exact Hall|lia].
Qed.

Lemma scan_agrees_with_isClusterUpToDate_witness :
  let MM := maskOf [MASTER_SERVICE; MEMBERSHIP_SERVICE] in
  let s := execAll [CallEnlistServer (mkServerId 0 0) MM 0 "m1";
                    CallUpdateEntryVersion (mkServerId 1 1) 1] (initial 0) in
  isClusterUpToDate s = true /\
  exists s', hasUpdates s = Returned false s' /\ isClusterUpToDate s' = true.
Proof.
  intros MM s.
  assert (Hbound : versionsBounded s).
  { split; [vm_compute; discriminate|]. split; [vm_compute; discriminate|].
    intros [|[|j]] e He; vm_compute in He; try discriminate;
      injection He as <-; vm_compute; split; discriminate. }
  destruct (scan_agrees_with_isClusterUpToDate s Hbound
              ltac:(vm_compute; lia) eq_refl)
    as (_ & b & s' & Hrun & Hsame & Hno & _).
  split; [reflexivity|].
  rewrite (Hno eq_refl) in Hrun. exists s'. split; [exact Hrun|].
  rewrite Hsame. reflexivity.
Defined.

(** ** [crashed] and [remove], one after the other *)

(** [remove] of an entry that is UP or CRASHED. *)
Lemma remove_listed (id : ServerId) (e : Entry) (s : CoordinatorServerList) :
  iget id s = Some e -> status e <> DOWN ->
  remove id s =
  Returned tt (removedState id (set_status CRASHED e) (markedState id e s)) /\
  remove id (markedState id e s) = remove id s.
Proof.
  intros Hget Hst.
  destruct (crashed_marks id e s Hget Hst) as [Hcr Hgetm].
  pose proof (remove_crashed id _ _ Hgetm eq_refl) as Hrm.
  assert (Hunfold : forall s0 e0, iget id s0 = Some e0 ->
            remove id s0 =
            (crashed id ;;
             modifyEntry (indexNumber id) (set_status DOWN) ;;
             let* removedEntry := derefEntry (indexNumber id) in
             appendToUpdate removedEntry ;;
             destroyEntry (indexNumber id) ;;
             notifyTrackers removedEntry SERVER_REMOVED) s0).
  { intros s0 e0 H0. unfold remove. unfold bind at 1. unfold gets at 1.
    rewrite invalidServerId_iget, H0, bool_decide_false by discriminate.
    reflexivity. }
  assert (Heq : remove id (markedState id e s) = remove id s).
  { rewrite (Hunfold _ _ Hget), (Hunfold _ _ Hgetm).
    rewrite (bind_Returned _ _ _ _ _ Hcr).
    rewrite (bind_Returned _ _ _ _ _
               (crashed_already id _ _ Hgetm eq_refl)).
    reflexivity. }
  split; [rewrite <- Heq; exact Hrm|exact Heq].
Qed.

(** X7.  For a server in the list, UP or CRASHED: [crashed] returns, and
    a second [crashed] changes nothing more; [remove] returns, and gives
    the same state whether or not [crashed] was called first.  After
    [remove] the id is unknown, so that a second [remove] or a [crashed]
    throws; the slot is empty but keeps its [nextGenerationNumber], and
    the lookup of every other id is as before. *)
Theorem crashed_then_remove (id : ServerId) (e : Entry) (s : CoordinatorServerList) :
  iget id s = Some e -> status e <> DOWN ->
  exists s1 s2,
    crashed id s = Returned tt s1 /\
    crashed id s1 = Returned tt s1 /\
    remove id s = Returned tt s2 /\
    remove id s1 = Returned tt s2 /\
    iget id s1 = Some (set_status CRASHED e) /\
    iget id s2 = None /\
    remove id s2 = Thrown ServerListException s2 /\
    crashed id s2 = Thrown ServerListException s2 /\
    (forall id', id' <> id -> iget id' s2 = iget id' s) /\
    (nextGenerationNumber <$> (serverList s2 !! indexNumber id)) =
      (nextGenerationNumber <$> (serverList s !! indexNumber id)) /\
    entryAt s2 (indexNumber id) = None /\
    length (serverList s2) = length (serverList s).
Proof.
  intros Hget Hst.
  destruct (crashed_marks id e s Hget Hst) as [Hcr Hgetm].
  destruct (remove_listed id e s Hget Hst) as [Hrm Heq].
  destruct (markedState_facts id e s Hget Hst) as (Hi & Hlen & _).
  set (sm := markedState id e s) in *.
  set (s2 := removedState id (set_status CRASHED e) sm) in *.
  assert (Hnone : iget id s2 = None).
  { unfold s2. rewrite (iget_removedState _ _ _ _ Hgetm), decide_True by reflexivity.
    reflexivity. }
  exists sm, s2. split; [exact Hcr|].
  split; [apply (crashed_already id _ _ Hgetm eq_refl)|].
  split; [exact Hrm|]. split; [rewrite Heq; exact Hrm|].
  split; [exact Hgetm|]. split; [exact Hnone|].
  split; [apply remove_unknown, Hnone|]. split; [apply crashed_unknown, Hnone|].
  split.
  { intros id' Hne. unfold s2.
    rewrite (iget_removedState _ _ _ _ Hgetm), decide_False by exact Hne.
    rewrite Hi, decide_False by exact Hne. reflexivity. }
  assert (Hslot : forall p, serverList sm !! indexNumber id = Some p ->
            serverList s2 !! indexNumber id = Some (mkPair (nextGenerationNumber p) None)).
  { intros p Hp. unfold s2, removedState. simpl.
    rewrite !list_lookup_alter_eq, Hp. reflexivity. }
  assert (Hgen : nextGenerationNumber <$> (serverList sm !! indexNumber id) =
                 nextGenerationNumber <$> (serverList s !! indexNumber id)).
  { unfold sm, markedState. destruct (bool_decide (status e = UP)); [|reflexivity].
    simpl. rewrite list_lookup_alter_eq.
    destruct (serverList s !! indexNumber id); reflexivity. }
  pose proof (iget_Some id sm (set_status CRASHED e)) as [Hex _].
  destruct (Hex Hgetm) as (p & Hp & _).
  split; [rewrite (Hslot p Hp), <- Hgen, Hp; reflexivity|].
  split; [unfold entryAt; rewrite (Hslot p Hp); reflexivity|].
  unfold s2, removedState. simpl. rewrite !length_alter. exact Hlen.
Qed.

Lemma crashed_then_remove_witness :
  let s := execAll [CallEnlistServer (mkServerId 0 0) (maskOf [BACKUP_SERVICE]) 100 "b"]
                   (initial 1) in
  exists s1 s2,
    crashed (mkServerId 1 1) s = Returned tt s1 /\
    remove (mkServerId 1 1) s = Returned tt s2 /\
    remove (mkServerId 1 1) s1 = Returned tt s2 /\
    remove (mkServerId 1 1) s2 = Thrown ServerListException s2.
Proof.
  intros s.
  destruct (iget (mkServerId 1 1) s) as [e|] eqn:Hget; [|discriminate].
  destruct (crashed_then_remove (mkServerId 1 1) e s Hget)
    as (s1 & s2 & H1 & _ & H2 & H3 & _ & _ & H4 & _).
  { vm_compute in Hget. injection Hget as <-. discriminate. }
  exists s1, s2. auto.
Defined.

(** ** [removeReplicationGroup], as its callers see it *)

(** X8.  On a list where every entry sits in the slot its id names,
    [removeReplicationGroup groupId] returns.  For group id 0 it does
    nothing at all.  For any other id it resets to 0 the replication id
    of exactly the UP backups that had [groupId], so that afterwards no
    UP backup is in that group; every other entry, the counters, the
    version, the update queue and [nextReplicationId] are as before. *)
Theorem removeReplicationGroup_clears_group (groupId : Z)
    (s : CoordinatorServerList) :
  wellIndexed (serverList s) ->
  (groupId = 0 -> removeReplicationGroup groupId s = Returned tt s) /\
  (groupId <> 0 ->
   exists s',
     removeReplicationGroup groupId s = Returned tt s' /\
     (forall id,
        iget id s' =
        (fun e => if isBackup e && (replicationId e =? groupId)
                  then set_replicationId 0 e else e) <$> iget id s) /\
     (forall id e', iget id s' = Some e' -> isBackup e' = true ->
                    replicationId e' <> groupId) /\
     length (serverList s') = length (serverList s) /\
     nextReplicationId s' = nextReplicationId s /\
     numberOfMasters s' = numberOfMasters s /\
     numberOfBackups s' = numberOfBackups s /\
     version s' = version s /\
     updates s' = updates s /\
     wellIndexed (serverList s')).
Proof.
  intros Hwf. split; [intros ->; reflexivity|]. intros Hg.
  destruct (removeReplicationGroup_exact groupId s Hg Hwf)
    as (s' & Hrun & Hl & _ & Hre & Hn & Hwf').
  pose proof (iget_map_resetPair groupId) as Hget.
  exists s'. split; [exact Hrun|]. split; [intros id; apply Hget, Hl|].
  split.
  { intros id e' He' Hb. rewrite (Hget id s s' Hl) in He'.
    destruct (iget id s) as [e|]; [|discriminate]. simpl in He'.
    destruct (isBackup e && (replicationId e =? groupId)) eqn:Hc;
      injection He' as <-.
    - simpl. auto.
    - rewrite Hb in Hc. simpl in Hc. apply Z.eqb_neq, Hc. }
  destruct Hre as (Hlen & _ & _ & Hm & Hb & Hv & Hq & _).
  auto 10.
Qed.

Lemma removeReplicationGroup_clears_group_witness :
  let B := maskOf [BACKUP_SERVICE] in
  let s := execAll [CallEnlistServer (mkServerId 0 0) B 100 "b1";
                    CallEnlistServer (mkServerId 0 0) B 100 "b2";
                    CallEnlistServer (mkServerId 0 0) B 100 "b3"] (initial 0) in
  replicationId <$> iget (mkServerId 2 1) s = Some 1 /\
  exists s',
    removeReplicationGroup 1 s = Returned tt s' /\
    replicationId <$> iget (mkServerId 2 1) s' = Some 0.
Proof.
  intros B s. split; [reflexivity|].
  destruct (removeReplicationGroup_clears_group 1 s) as [_ Hclear].
  { apply wellIndexed_check. reflexivity. }
  destruct (Hclear ltac:(discriminate)) as (s' & Hrun & Hget & _).
  exists s'. split; [exact Hrun|]. rewrite Hget. reflexivity.
Defined.

(** ** Reporting a server as down *)

(** [forceServerDown] on an entry that is UP or CRASHED: what the pending
    delta receives, and what becomes of the victim. *)
Lemma forceServerDown_run (id : ServerId) (e : Entry) (s : CoordinatorServerList) :
  iget id s = Some e -> status e <> DOWN ->
  exists s' mid,
    forceServerDown id s = Returned tt s' /\
    queued s s' (downRecords e ++ mid) /\
    Forall (fun r => ProtoBuf.entry_status r = UP) mid /\
    length (serverList s') = length (serverList s) /\
    iget id s' =
      (if has (services e) MASTER_SERVICE then Some (set_status CRASHED e) else None) /\
    recoveries s' = recoveries s ++ [e].
Proof.
  intros Hget Hst.
  set (s0 := with_logCabin
               (fun lc => mkLogCabin
                  (logEntries lc ++ [(ForceServerDownRecord id, [])])
                  (invalidated lc ++ [])) s).
  set (entryId := Z.of_nat (length (logEntries (logCabin s) ++
                                    [(ForceServerDownRecord id, [])]))).
  assert (Hget0 : iget id s0 = Some e) by exact Hget.
  set (s1 := downState id e s0).
  destruct (downState_facts id e s0 Hget0 Hst)
    as (Hi1 & _ & Hlen1 & Happ1 & _ & Hrec1 & _ & _ & Hv1 & Hq1 & Hl1 & _).
  fold s1 in Hi1, Hlen1, Happ1, Hrec1, Hv1, Hq1, Hl1.
  destruct (removeReplicationGroup_regrouped (replicationId e) s1)
    as (s2 & Hrun2 & Hre2 & _).
  destruct (createReplicationGroup_regrouped s2) as (s3 & Hrun3 & Hre3).
  pose proof (regrouped_trans _ _ _ Hre2 Hre3) as Hre.
  destruct (queued_regrouped _ _ Hre) as (mid & Hq & Hmid).
  eexists. exists mid. split.
  { unfold forceServerDown, ForceServerDown.execute.
    rewrite (bind_Returned _ _ _ _ _ (appendProtoBuf_run _ _ _)).
    fold s0. unfold ForceServerDown.complete.
    rewrite (bind_Returned _ _ _ _ _ (getServerInfoLogId_eq _ _ _ Hget0)).
    rewrite (bind_Returned _ _ _ _ _ (getServerUpdateLogId_eq _ _ _ Hget0)).
    unfold bind at 1. rewrite getReferenceFromServerId_iget, Hget0.
    rewrite (forceDown_first_phase_then _ _ _ _ Hget0 Hst). fold s1.
    rewrite (bind_Returned _ _ _ _ _ Hrun2).
    rewrite (bind_Returned _ _ _ _ _ Hrun3). reflexivity. }
  split.
  { apply (queued_trans s s1 _ (downRecords e) mid).
    - repeat split; assumption.
    - destruct Hq as (Ha & ? & ? & ?). repeat split; assumption. }
  split; [exact Hmid|]. split.
  { simpl. rewrite (regrouped_length _ _ Hre). exact Hlen1. }
  split.
  { rewrite iget_with_logCabin.
    specialize (Hi1 id). rewrite decide_True in Hi1 by reflexivity.
    destruct (has (services e) MASTER_SERVICE).
    - eapply regrouped_iget_not_up; [exact Hre|exact Hi1|]. simpl. discriminate.
    - eapply regrouped_iget_None; [exact Hre|exact Hi1]. }
  simpl. destruct Hre as (_ & _ & _ & _ & _ & _ & _ & _ & _ & Hrec & _).
  rewrite Hrec. exact Hrec1.
Qed.

(** The commit that ends a public method whose pending delta is known. *)
Lemma commit_queued (s s1 : CoordinatorServerList)
    (recs : list ProtoBuf.ServerList_Entry) :
  queued s s1 recs -> recs <> [] ->
  exists s',
    commitUpdate s1 = Returned tt s' /\
    version s' = wrap64 (version s + 1) /\
    updates s' =
      updates s ++
      [ProtoBuf.mkServerList (ProtoBuf.server (update s) ++ recs) (version s')
                             (Some ProtoBuf.UPDATE)] /\
    update s' = ProtoBuf.empty /\
    serverList s' = serverList s1 /\
    numberOfMasters s' = numberOfMasters s1 /\
    numberOfBackups s' = numberOfBackups s1 /\
    trackers s' = trackers s1 /\
    recoveries s' = recoveries s1.
Proof.
  intros (Happ & Hv & Hq & _) Hne. unfold appended in Happ.
  destruct (commitUpdate_effect s1) as [_ Hcommit].
  destruct Hcommit
    as (s' & Hrun & Hv' & _ & Hq' & Hu' & _ & _ & _ & Hl & Hm & Hb & _ & Ht & Hr & _).
  { rewrite Happ. simpl. intros Hnil. apply app_eq_nil in Hnil as [_ Hnil].
    contradiction. }
  exists s'. split; [exact Hrun|]. rewrite Hv in Hv'. split; [exact Hv'|].
  split; [rewrite Hq', Hq, Happ; reflexivity|]. auto 10.
Qed.

(** X9.  [hintServerDown] on a server that is in the list.  If the entry
    is not UP the report is spurious: the answer is "down" and nothing
    changes.  If it is UP and the failure check clears the server, the
    answer is "not down" and nothing changes.  If it is UP and the check
    confirms the failure, the answer is "down", and one update is
    committed that holds what was pending, then the CRASHED record of the
    server, then (unless it is a master) its DOWN record, then only
    records of UP servers; the recovery manager is called once for the
    server; a master stays in the list as CRASHED and any other server is
    gone from it; and a second report about the same id is spurious. *)
Theorem hintServerDown_verdicts (id : ServerId) (e : Entry)
    (s : CoordinatorServerList) :
  iget id s = Some e ->
  (status e <> UP ->
   forall verdict, Public.hintServerDown id verdict s = Returned true s) /\
  (status e = UP ->
   Public.hintServerDown id false s = Returned false s /\
   exists s' mid,
     Public.hintServerDown id true s = Returned true s' /\
     version s' = wrap64 (version s + 1) /\
     updates s' =
       updates s ++
       [ProtoBuf.mkServerList
          (ProtoBuf.server (update s) ++
           [serializeEntry (set_status CRASHED e)] ++
           (if has (services e) MASTER_SERVICE then []
            else [serializeEntry (set_status DOWN e)]) ++ mid)
          (version s') (Some ProtoBuf.UPDATE)] /\
     Forall (fun r => ProtoBuf.entry_status r = UP) mid /\
     update s' = ProtoBuf.empty /\
     recoveries s' = recoveries s ++ [e] /\
     iget id s' =
       (if has (services e) MASTER_SERVICE
        then Some (set_status CRASHED e) else None) /\
     forall verdict, Public.hintServerDown id verdict s' = Returned true s').
Proof.
  intros Hget. split.
  - intros Hst verdict. unfold Public.hintServerDown, bind, gets.
    rewrite Hget, bool_decide_true by exact Hst. reflexivity.
  - intros Hup.
    assert (Hguard : bool_decide (status e <> UP) = false).
    { apply bool_decide_eq_false. intros H. apply H, Hup. }
    split.
    { unfold Public.hintServerDown, bind, gets. rewrite Hget, Hguard. reflexivity. }
    destruct (forceServerDown_run id e s Hget) as (s1 & mid & Hrun & Hq & Hmid & _ & Hi & Hrec).
    { rewrite Hup. discriminate. }
    destruct (commit_queued s s1 (downRecords e ++ mid) Hq)
      as (s' & Hcommit & Hv & Hupd & Hu & Hl & _ & _ & _ & Hrec').
    { unfold downRecords. rewrite bool_decide_true by exact Hup.
      simpl. discriminate. }
    assert (Hi' : iget id s' =
              (if has (services e) MASTER_SERVICE
               then Some (set_status CRASHED e) else None)).
    { rewrite <- Hi. unfold iget. rewrite Hl. reflexivity. }
    exists s', mid. split.
    { unfold Public.hintServerDown. unfold bind at 1. unfold gets at 1.
      rewrite Hget, Hguard. simpl.
      rewrite (bind_Returned _ _ _ _ _ Hrun).
      rewrite (bind_Returned _ _ _ _ _ Hcommit). reflexivity. }
    split; [exact Hv|]. split.
    { rewrite Hupd. unfold downRecords. rewrite bool_decide_true by exact Hup.
      rewrite <- !app_assoc. reflexivity. }
    split; [exact Hmid|]. split; [exact Hu|].
    split; [rewrite Hrec', Hrec; reflexivity|]. split; [exact Hi'|].
    intros verdict. unfold Public.hintServerDown, bind, gets. rewrite Hi'.
    destruct (has (services e) MASTER_SERVICE); [|reflexivity].
    rewrite bool_decide_true by (simpl; discriminate). reflexivity.
Qed.

Lemma hintServerDown_verdicts_witness :
  let s := execAll [CallEnlistServer (mkServerId 0 0) (maskOf [MASTER_SERVICE]) 0 "m"]
                   (initial 1) in
  exists s',
    Public.hintServerDown (mkServerId 1 1) true s = Returned true s' /\
    status <$> iget (mkServerId 1 1) s' = Some CRASHED /\
    Public.hintServerDown (mkServerId 1 1) true s' = Returned true s'.
Proof.
  intros s.
  set (e := set_serverInfoLogId 2
              (newEntry (mkServerId 1 1) "m" (maskOf [MASTER_SERVICE]))).
  assert (Hget : iget (mkServerId 1 1) s = Some e) by reflexivity.
  destruct (hintServerDown_verdicts (mkServerId 1 1) e s Hget) as [_ Hup].
  destruct (Hup eq_refl) as (_ & s' & mid & Hrun & _ & _ & _ & _ & _ & Hi & Hagain).
  exists s'. split; [exact Hrun|]. split; [|apply Hagain].
  rewrite Hi. reflexivity.
Defined.

(** ** [add] *)

Lemma alter_insert_eq {A} (f : A -> A) (i : nat) (x : A) (l : list A) :
  alter f i (<[i := x]> l) = <[i := f x]> l.
Proof.
  apply list_eq. intros j. destruct (decide (i = j)) as [->|Hne].
  - rewrite list_lookup_alter_eq.
    destruct (decide (j < length l)%nat) as [Hlt|Hge].
    + rewrite !list_lookup_insert_eq by exact Hlt. reflexivity.
    + rewrite !(lookup_ge_None_2 (<[j := _]> l))
        by (rewrite length_insert; lia).
      reflexivity.
  - rewrite list_lookup_alter_ne, !list_lookup_insert_ne by done. reflexivity.
Qed.

(** The state [add] leaves. *)
Lemma add_effect (id : ServerId) (loc : string) (mask : ServiceMask) (readSpeed : Z)
    (s : CoordinatorServerList) :
  (indexNumber id < length (serverList s))%nat \/
  Z.of_nat (indexNumber id) < 2 ^ 32 - 1 ->
  let e' := addedEntry id loc mask readSpeed in
  exists s',
    add id loc mask readSpeed s = Returned tt s' /\
    serverList s' =
      <[indexNumber id := mkPair (wrap32 (generationNumber id + 1)) (Some e')]>
        (grown (indexNumber id) (serverList s)) /\
    numberOfMasters s' =
      (if has mask MASTER_SERVICE then wrap32 (numberOfMasters s + 1)
       else numberOfMasters s) /\
    numberOfBackups s' =
      (if has mask BACKUP_SERVICE then wrap32 (numberOfBackups s + 1)
       else numberOfBackups s) /\
    update s' = ProtoBuf.add_server (serializeEntry e') (update s) /\
    trackers s' = map (notified e' SERVER_ADDED) (trackers s) /\
    version s' = version s /\ updates s' = updates s /\
    lastScan s' = lastScan s /\ nextReplicationId s' = nextReplicationId s /\
    recoveries s' = recoveries s /\ logCabin s' = logCabin s.
Proof.
  intros Hindex e'.
  destruct (grow_step (indexNumber id) s Hindex)
    as (s1 & p0 & Hrun1 & Hl1 & Hp0 & Hsame).
  destruct (grown_lookup (indexNumber id) (serverList s)) as (Hin & _).
  rewrite <- Hl1 in Hin.
  destruct Hsame as (Hm & Hb & Hv & Hu & Hq & Hls & Hn & Ht & Hr & Hc).
  unfold add. unfold bind at 1. unfold gets at 1.
  rewrite (bind_Returned _ _ _ _ _ Hrun1).
  unfold bind at 1. unfold gets at 1. rewrite Hp0.
  unfold modifyEntry, appendToUpdate. unfold_monad. subst e'. unfold addedEntry.
  destruct (has mask MASTER_SERVICE), (has mask BACKUP_SERVICE); simpl;
    rewrite derefEntry_entryAt; unfold entryAt; simpl;
    rewrite ?alter_insert_eq, list_lookup_insert_eq by exact Hin;
    simpl; rewrite notifyTrackers_eq;
    (eexists; split; [reflexivity|]); simpl;
    rewrite ?alter_insert_eq, Hl1, Hm, Hb, Hv, Hu, Hq, Hls, Hn, Ht, Hr, Hc;
    repeat split; reflexivity.
Qed.

Lemma entryAt_insert_grown (s s' : CoordinatorServerList) (index : nat) (g : Z)
    (e : Entry) (j : nat) :
  serverList s' = <[index := mkPair g (Some e)]> (grown index (serverList s)) ->
  entryAt s' j = if decide (j = index) then Some e else entryAt s j.
Proof.
  intros Hl. unfold entryAt. rewrite Hl.
  destruct (grown_lookup index (serverList s)) as (Hin & Hlen & Hlow & Hhigh).
  destruct (decide (j = index)) as [->|Hne].
  - rewrite list_lookup_insert_eq by exact Hin. reflexivity.
  - rewrite list_lookup_insert_ne by done.
    destruct (decide (j < length (serverList s))%nat) as [Hlt|Hge].
    + rewrite Hlow by exact Hlt. reflexivity.
    + rewrite (lookup_ge_None_2 (serverList s)) by lia.
      destruct (decide (j < S index)%nat) as [Hlt'|Hge'].
      * rewrite Hhigh by lia. reflexivity.
      * rewrite lookup_ge_None_2 by lia. reflexivity.
Qed.

(** The index 0xFFFFFFFF past the end of the vector: [index + 1] is 0
    in [uint32_t], [resize(0)] empties the vector, and the slot that
    [serverList[index]] names does not exist. *)
Lemma add_wraps (id : ServerId) (loc : string) (mask : ServiceMask) (readSpeed : Z)
    (s : CoordinatorServerList) :
  Z.of_nat (indexNumber id) = 2 ^ 32 - 1 ->
  (length (serverList s) <= indexNumber id)%nat ->
  add id loc mask readSpeed s = Abort Undefined.
Proof.
  intros Hmax Hle. unfold add. unfold bind at 1, gets at 1.
  rewrite bool_decide_true by exact Hle.
  unfold when. unfold bind at 1, modify at 1.
  unfold bind at 1, gets at 1. rewrite Hmax.
  replace (wrap32 (2 ^ 32 - 1 + 1)) with 0 by reflexivity.
  reflexivity.
Qed.

(** X10.  [add] takes the index of the id as a [uint32_t].  For an index
    within the vector, or below 0xFFFFFFFF, it returns and never looks at
    what the slot holds.  The vector grows to reach the index when that
    index is past its end, the slots in between being empty.  The slot
    then holds a fresh UP entry with the given locator and services (and
    the read speed, for a backup), found under the id, and whatever entry
    was in the slot is gone; the slot's [nextGenerationNumber] is the
    generation of the id plus one; entries in other slots are untouched.
    The master and backup counters go up by one for each of the two
    services in the mask, the record of the entry joins the pending
    delta, every tracker is told SERVER_ADDED, and nothing is committed.
    For the index 0xFFFFFFFF past the end of the vector, [index + 1]
    wraps to 0: the vector is emptied and the access to the slot is
    undefined. *)
Theorem add_installs_entry (id : ServerId) (loc : string) (mask : ServiceMask)
    (readSpeed : Z) (s : CoordinatorServerList) :
  ((indexNumber id < length (serverList s))%nat \/
   Z.of_nat (indexNumber id) < 2 ^ 32 - 1 ->
   exists s' e',
    add id loc mask readSpeed s = Returned tt s' /\
    iget id s' = Some e' /\
    serverId e' = id /\ serviceLocator e' = loc /\ services e' = mask /\
    status e' = UP /\ replicationId e' = 0 /\ serverListVersion e' = 0 /\
    expectedReadMBytesPerSec e' =
      (if has mask BACKUP_SERVICE then readSpeed else 0) /\
    (forall j, entryAt s' j = if decide (j = indexNumber id) then Some e'
                              else entryAt s j) /\
    (forall id', id' <> id ->
       iget id' s' = if decide (indexNumber id' = indexNumber id) then None
                     else iget id' s) /\
    length (serverList s') = Nat.max (length (serverList s)) (S (indexNumber id)) /\
    nextGenerationNumber <$> (serverList s' !! indexNumber id) =
      Some (wrap32 (generationNumber id + 1)) /\
    numberOfMasters s' =
      (if has mask MASTER_SERVICE then wrap32 (numberOfMasters s + 1)
       else numberOfMasters s) /\
    numberOfBackups s' =
      (if has mask BACKUP_SERVICE then wrap32 (numberOfBackups s + 1)
       else numberOfBackups s) /\
    update s' = ProtoBuf.add_server (serializeEntry e') (update s) /\
    trackers s' = map (notified e' SERVER_ADDED) (trackers s) /\
    version s' = version s /\ updates s' = updates s) /\
  (Z.of_nat (indexNumber id) = 2 ^ 32 - 1 ->
   (length (serverList s) <= indexNumber id)%nat ->
   add id loc mask readSpeed s = Abort Undefined).
Proof.
  split; [|apply add_wraps]. intros Hindex.
  destruct (add_effect id loc mask readSpeed s Hindex)
    as (s' & Hrun & Hl & Hm & Hb & Hu & Ht & Hv & Hq & _).
  set (e' := addedEntry id loc mask readSpeed) in *.
  destruct (grown_lookup (indexNumber id) (serverList s)) as (Hin & Hlen & _).
  assert (Hat : forall j, entryAt s' j =
                  if decide (j = indexNumber id) then Some e' else entryAt s j)
    by (intros j; apply (entryAt_insert_grown s s' _ _ _ j Hl)).
  assert (Hslot : serverList s' !! indexNumber id =
                  Some (mkPair (wrap32 (generationNumber id + 1)) (Some e'))).
  { rewrite Hl. apply list_lookup_insert_eq, Hin. }
  assert (He' : serverId e' = id /\ serviceLocator e' = loc /\ services e' = mask /\
                status e' = UP /\ replicationId e' = 0 /\ serverListVersion e' = 0 /\
                expectedReadMBytesPerSec e' =
                  (if has mask BACKUP_SERVICE then readSpeed else 0)).
  { subst e'. unfold addedEntry. destruct (has mask BACKUP_SERVICE);
      repeat split; reflexivity. }
  exists s', e'. split; [exact Hrun|]. split.
  { apply iget_Some. eexists. split; [exact Hslot|]. split; [reflexivity|].
    apply He'. }
  destruct He' as (H1 & H2 & H3 & H4 & H5 & H6 & H7).
  do 7 (split; [assumption|]). split; [exact Hat|]. split.
  { intros id' Hne. unfold iget.
    destruct (decide (indexNumber id' = indexNumber id)) as [Hix|Hix].
    - rewrite Hix, Hslot. simpl. rewrite H1.
      rewrite decide_False by congruence. reflexivity.
    - specialize (Hat (indexNumber id')). rewrite decide_False in Hat by exact Hix.
      unfold entryAt in Hat.
      destruct (serverList s' !! indexNumber id') as [p'|],
               (serverList s !! indexNumber id') as [p|];
        try rewrite Hat; try reflexivity.
      rewrite <- Hat. reflexivity. }
  split; [rewrite Hl, length_insert; exact Hlen|].
  split; [rewrite Hslot; reflexivity|].
  auto 10.
Qed.

Lemma add_installs_entry_witness :
  let id := mkServerId 3 5 in
  exists s' e',
    add id "b" (maskOf [BACKUP_SERVICE]) 100 (initial 1) = Returned tt s' /\
    iget id s' = Some e' /\
    length (serverList s') = 4%nat /\
    nextGenerationNumber <$> (serverList s' !! 3%nat) = Some 6 /\
    numberOfBackups s' = 1.
Proof.
  intros id.
  destruct (proj1 (add_installs_entry id "b" (maskOf [BACKUP_SERVICE]) 100
                     (initial 1)))
    as (s' & e' & Hrun & Hget & _ & _ & _ & _ & _ & _ & _ & _ & _ & Hlen & Hgen
        & _ & Hb & _).
  { right. reflexivity. }
  exists s', e'. split; [exact Hrun|]. split; [exact Hget|].
  split; [exact Hlen|]. split; [exact Hgen|exact Hb].
Defined.

(** ** [pruneUpdates] *)

Lemma filter_all {A} (P : A -> Prop) `{forall x, Decision (P x)} (l : list A) :
  Forall P l -> filter P l = l.
Proof.
  induction 1 as [|x l Hx _ IH]; [reflexivity|].
  rewrite filter_cons_True by exact Hx. f_equal. exact IH.
Qed.

(** On a queue whose versions increase, dropping from the front while
    the version is at most [v] keeps exactly the updates above [v]. *)
Lemma popUpTo_filter (v : Z) (q : list ProtoBuf.ServerList) :
  (forall i j u u', (i < j)%nat -> q !! i = Some u -> q !! j = Some u' ->
     ProtoBuf.version_number u < ProtoBuf.version_number u') ->
  popUpTo v q = filter (fun u => v < ProtoBuf.version_number u) q.
Proof.
  induction q as [|u q IH]; intros Hinc; [reflexivity|]. simpl.
  assert (Hinc' : forall i j u1 u2, (i < j)%nat -> q !! i = Some u1 ->
            q !! j = Some u2 ->
            ProtoBuf.version_number u1 < ProtoBuf.version_number u2).
  { intros i j u1 u2 Hlt H1 H2. apply (Hinc (S i) (S j) u1 u2); [lia|exact H1|exact H2]. }
  destruct (Z.leb_spec (ProtoBuf.version_number u) v) as [Hle|Hgt].
  - rewrite filter_cons_False by lia. apply IH, Hinc'.
  - rewrite filter_cons_True by lia. f_equal.
    symmetry. apply filter_all.
    apply Forall_lookup_2. intros j u' Hj.
    pose proof (Hinc 0%nat (S j) u u' ltac:(lia) eq_refl Hj). lia.
Qed.

Lemma queueOk_increasing (v : Z) (q : list ProtoBuf.ServerList) :
  queueOk v q ->
  forall i j u u', (i < j)%nat -> q !! i = Some u -> q !! j = Some u' ->
    ProtoBuf.version_number u < ProtoBuf.version_number u'.
Proof.
  intros Hq i j u u' Hlt Hi Hj.
  pose proof (lookup_lt_Some _ _ _ Hj) as Hjl.
  rewrite (Hq _ _ Hi), (Hq _ _ Hj). lia.
Qed.

(** X12.  [pruneUpdates(version)] fails its assertion when asked to prune
    past the version of the list.  Otherwise, in every state a history
    of fewer than 2^64 calls reaches, it returns, keeps in the queue
    exactly the updates with a version above the argument, in their
    order, and touches nothing else; what is left still carries
    consecutive versions up to the version of the list. *)
Theorem pruneUpdates_keeps_newer (ts n : nat) (v : Z) (s : CoordinatorServerList) :
  Reachable ts n s -> Z.of_nat n < 2 ^ 64 ->
  (version s < v -> pruneUpdates v s = Abort AssertionFailed) /\
  (v <= version s ->
   pruneUpdates v s =
     Returned tt
       (with_updates
          (fun q => filter (fun u => v < ProtoBuf.version_number u) q) s) /\
   (forall u, u ∈ filter (fun u => v < ProtoBuf.version_number u) (updates s) <->
              u ∈ updates s /\ v < ProtoBuf.version_number u) /\
   queueOk (version s)
           (filter (fun u => v < ProtoBuf.version_number u) (updates s))).
Proof.
  intros Hreach Hn. destruct (Reachable_queueOk ts n s Hreach Hn) as [Hq _].
  unfold pruneUpdates. unfold_monad. split.
  - intros Hlt. destruct (Z.leb_spec v (version s)); [lia|reflexivity].
  - intros Hle. destruct (Z.leb_spec v (version s)); [|lia].
    pose proof (popUpTo_filter v (updates s) (queueOk_increasing _ _ Hq)) as Hpop.
    split; [unfold ret, with_updates; cbn beta iota; rewrite Hpop; reflexivity|].
    split; [intros u; rewrite list_elem_of_filter; tauto|].
    rewrite <- Hpop.
    destruct (popUpTo_drop v (updates s)) as [k ->]. apply queueOk_drop, Hq.
Qed.

Lemma pruneUpdates_keeps_newer_witness :
  let M1 := maskOf [MASTER_SERVICE] in
  let s := execAll [CallEnlistServer (mkServerId 0 0) M1 0 "m1";
                    CallEnlistServer (mkServerId 0 0) M1 0 "m2";
                    CallEnlistServer (mkServerId 0 0) M1 0 "m3"] (initial 0) in
  map ProtoBuf.version_number (updates s) = [1; 2; 3] /\
  exists s',
    pruneUpdates 2 s = Returned tt s' /\
    map ProtoBuf.version_number (updates s') = [3].
Proof.
  intros M1 s. split; [reflexivity|].
  destruct (Reachable_execAll 0
              [CallEnlistServer (mkServerId 0 0) M1 0 "m1";
               CallEnlistServer (mkServerId 0 0) M1 0 "m2";
               CallEnlistServer (mkServerId 0 0) M1 0 "m3"]) as (n & Hle & Hreach).
  fold s in Hreach.
  assert (Hn : Z.of_nat n < 2 ^ 64) by (simpl in Hle; lia).
  destruct (pruneUpdates_keeps_newer 0 n 2 s Hreach Hn) as [_ Hkeep].
  destruct (Hkeep ltac:(vm_compute; discriminate)) as (Hrun & _).
  eexists. split; [exact Hrun|]. reflexivity.
Defined.

(** ** Relations every call respects *)

Section Structure.

Context (R : CoordinatorServerList -> CoordinatorServerList -> Prop).
Context `{!PreOrder R}.

Lemma relates_ret {A} (a : A) : relates R (ret a).
Proof. intros s s' [= <-]. reflexivity. Qed.

Lemma relates_gets {A} (f : CoordinatorServerList -> A) : relates R (gets f).
Proof. intros s s' [= <-]. reflexivity. Qed.

Lemma relates_throw {A} (e : Exception) : relates R (throw (A := A) e).
Proof. intros s s' [= <-]. reflexivity. Qed.

Lemma relates_abort {A} (why : AbortReason) : relates R (abort (A := A) why).
Proof. intros s s' [=]. Qed.

Lemma relates_assert (b : bool) : relates R (assert b).
Proof. unfold assert. destruct b; [apply relates_ret|apply relates_abort]. Qed.

Lemma relates_modify (f : CoordinatorServerList -> CoordinatorServerList) :
  (forall s, R s (f s)) -> relates R (modify f).
Proof. intros Hf s s' [= <-]. apply Hf. Qed.

Lemma relates_bind {A B} (m : M A) (k : A -> M B) :
  relates R m -> (forall a, relates R (k a)) -> relates R (bind m k).
Proof.
  intros Hm Hk s s'. unfold bind.
  destruct (m s) as [a s1|e s1|why] eqn:Hms; simpl.
  - intros H. transitivity s1.
    + apply Hm. rewrite Hms. reflexivity.
    + apply (Hk a). exact H.
  - intros [= <-]. apply Hm. rewrite Hms. reflexivity.
  - discriminate.
Qed.

Lemma relates_catch {A} (m h : M A) :
  relates R m -> relates R h -> relates R (catch m h).
Proof.
  intros Hm Hh s s'. unfold catch.
  destruct (m s) as [a s1|e s1|why] eqn:Hms; simpl.
  - intros [= <-]. apply Hm. rewrite Hms. reflexivity.
  - assert (H1 : R s s1) by (apply Hm; rewrite Hms; reflexivity).
    destruct e; simpl.
    + intros H. transitivity s1; [exact H1|apply Hh, H].
    + intros [= <-]. exact H1.
  - discriminate.
Qed.

Lemma relates_when (b : bool) (m : M unit) : relates R m -> relates R (when b m).
Proof. unfold when. destruct b; [trivial|intros _; apply relates_ret]. Qed.

Lemma relates_getReferenceFromServerId id : relates R (getReferenceFromServerId id).
Proof.
  intros s s' H. rewrite getReferenceFromServerId_iget in H.
  destruct (iget id s); injection H as <-; reflexivity.
Qed.

Lemma relates_derefEntry i : relates R (derefEntry i).
Proof.
  intros s s' H. rewrite derefEntry_entryAt in H.
  destruct (entryAt s i); [|discriminate]. injection H as <-. reflexivity.
Qed.

End Structure.

(** Walks through the binds and branches of a method; [leaf] has to deal
    with the writes. *)
Ltac relates_walk leaf :=
  repeat match goal with
         | |- relates ?R (bind _ _) => apply (relates_bind R); [|intros ?]
         | |- relates ?R (when _ _) => apply (relates_when R)
         | |- relates ?R (catch _ _) => apply (relates_catch R)
         | |- relates ?R (ret _) => apply (relates_ret R)
         | |- relates ?R (gets _) => apply (relates_gets R)
         | |- relates ?R (throw _) => apply (relates_throw R)
         | |- relates ?R (abort _) => apply (relates_abort R)
         | |- relates ?R (assert _) => apply (relates_assert R)
         | |- relates ?R (getReferenceFromServerId _) =>
             apply (relates_getReferenceFromServerId R)
         | |- relates ?R (derefEntry _) => apply (relates_derefEntry R)
         | |- relates _ (if ?b then _ else _) => destruct b
         | |- relates _ (match ?x with _ => _ end) => destruct x
         | |- relates _ _ => progress leaf
         end.

Section Relates.

Context (R : CoordinatorServerList -> CoordinatorServerList -> Prop).
Context `{!Stepwise R}.

Create HintDb relates.

#[local] Hint Resolve stepwise_crashed stepwise_remove stepwise_appendToUpdate
  stepwise_nextReplicationId stepwise_logCabin stepwise_recoveries
  stepwise_lastScan stepwise_commitUpdate stepwise_pruneUpdates : relates.

(** A syntax-directed proof that a method respects [R]: the writes are
    those the class accounts for, or methods already dealt with. *)
Ltac relates_auto :=
  relates_walk
    ltac:(first [ apply stepwise_modifyEntry; intros ?; repeat split; reflexivity
                | solve [auto with relates] ]).

Lemma relates_setReplicationId id rid : relates R (setReplicationId id rid).
Proof. unfold setReplicationId. relates_auto. Qed.

Lemma relates_addServerInfoLogId id entryId : relates R (addServerInfoLogId id entryId).
Proof. unfold addServerInfoLogId. relates_auto. Qed.

Lemma relates_getServerInfoLogId id : relates R (getServerInfoLogId id).
Proof. unfold getServerInfoLogId. relates_auto. Qed.

Lemma relates_addServerUpdateLogId id entryId :
  relates R (addServerUpdateLogId id entryId).
Proof. unfold addServerUpdateLogId. relates_auto. Qed.

Lemma relates_getServerUpdateLogId id : relates R (getServerUpdateLogId id).
Proof. unfold getServerUpdateLogId. relates_auto. Qed.

#[local] Hint Resolve relates_setReplicationId relates_addServerInfoLogId
  relates_getServerInfoLogId relates_addServerUpdateLogId
  relates_getServerUpdateLogId : relates.

Lemma relates_assignReplicationGroup rid g : relates R (assignReplicationGroup rid g).
Proof. induction g as [|id g IH]; simpl; relates_auto. Qed.

#[local] Hint Resolve relates_assignReplicationGroup : relates.

Lemma relates_createGroups stack : relates R (createGroups stack).
Proof.
  remember (length stack) as n eqn:Hn.
  revert stack Hn. induction n as [n IH] using lt_wf_ind. intros stack Hn.
  destruct stack as [|b1 [|b2 [|b3 rest]]]; simpl; try apply (relates_ret R).
  relates_auto. apply (IH (length rest)); [simpl in Hn; lia|reflexivity].
Qed.

#[local] Hint Resolve relates_createGroups : relates.

Lemma relates_createReplicationGroup : relates R createReplicationGroup.
Proof. unfold createReplicationGroup. relates_auto. Qed.

Lemma relates_removeGroupLoop groupId indices group :
  relates R (removeGroupLoop groupId indices group).
Proof.
  revert group. induction indices as [|i rest IH]; intros group; simpl;
    [apply (relates_ret R)|].
  apply (relates_bind R); [apply (relates_gets R)|]. intros slot.
  apply (relates_bind R); [relates_auto|]. intros _. apply IH.
Qed.

#[local] Hint Resolve relates_createReplicationGroup relates_removeGroupLoop
  : relates.

Lemma relates_removeReplicationGroup groupId :
  relates R (removeReplicationGroup groupId).
Proof. unfold removeReplicationGroup. relates_auto. Qed.

Lemma relates_appendProtoBuf r inv : relates R (appendProtoBuf r inv).
Proof. unfold appendProtoBuf. relates_auto. Qed.

Lemma relates_invalidate ids : relates R (invalidate ids).
Proof. unfold invalidate. relates_auto. Qed.

Lemma relates_startMasterRecovery e : relates R (startMasterRecovery e).
Proof. unfold startMasterRecovery. relates_auto. Qed.

#[local] Hint Resolve relates_removeReplicationGroup relates_appendProtoBuf
  relates_invalidate relates_startMasterRecovery : relates.

Lemma relates_ForceServerDown_complete id entryId :
  relates R (ForceServerDown.complete id entryId).
Proof. unfold ForceServerDown.complete. relates_auto. Qed.

#[local] Hint Resolve relates_ForceServerDown_complete : relates.

Lemma relates_forceServerDown id : relates R (forceServerDown id).
Proof. unfold forceServerDown, ForceServerDown.execute. relates_auto. Qed.

Lemma relates_SetMasterRecoveryInfo_complete id info entryId :
  relates R (SetMasterRecoveryInfo.complete id info entryId).
Proof. unfold SetMasterRecoveryInfo.complete. relates_auto. Qed.

#[local] Hint Resolve relates_forceServerDown relates_SetMasterRecoveryInfo_complete
  : relates.

Lemma relates_SetMasterRecoveryInfo_execute id info :
  relates R (SetMasterRecoveryInfo.execute id info).
Proof. unfold SetMasterRecoveryInfo.execute. relates_auto. Qed.

Lemma relates_hasUpdatesBody i : relates R (hasUpdatesBody i).
Proof. unfold hasUpdatesBody. relates_auto. Qed.

#[local] Hint Resolve relates_SetMasterRecoveryInfo_execute relates_hasUpdatesBody
  : relates.

Lemma relates_hasUpdatesLoop fuel i : relates R (hasUpdatesLoop fuel i).
Proof. revert i. induction fuel as [|fuel IH]; intros i; simpl; relates_auto. Qed.

#[local] Hint Resolve relates_hasUpdatesLoop : relates.

Lemma relates_hasUpdates : relates R hasUpdates.
Proof. unfold hasUpdates. relates_auto. Qed.

#[local] Hint Resolve relates_hasUpdates : relates.

Lemma relates_loadNextUpdate updateSlot : relates R (loadNextUpdate updateSlot).
Proof. unfold loadNextUpdate. relates_auto. Qed.

Lemma relates_updateEntryVersion id v : relates R (updateEntryVersion id v).
Proof. unfold updateEntryVersion. relates_auto. Qed.

#[local] Hint Resolve relates_loadNextUpdate relates_updateEntryVersion : relates.

(** Every call that allocates no slot respects [R]. *)
Lemma relates_steady (c : Call) : steady c = true -> relates R (perform c).
Proof.
  destruct c; simpl; try discriminate; intros _;
    unfold Public.crashed, Public.remove, Public.setMasterRecoveryInfo,
      Public.setMasterRecoveryInfoRecover, Public.hintServerDown,
      Public.forceServerDownRecover;
    relates_auto.
Qed.

Section Allocating.

Context `{!Allocates R}.

#[local] Hint Resolve allocates_generateUniqueId allocates_add : relates.

Lemma relates_EnlistServer_complete id mask readSpeed loc entryId :
  relates R (EnlistServer.complete id mask readSpeed loc entryId).
Proof. unfold EnlistServer.complete. relates_auto. Qed.

#[local] Hint Resolve relates_EnlistServer_complete : relates.

Lemma relates_EnlistServer_execute mask readSpeed loc :
  relates R (EnlistServer.execute mask readSpeed loc).
Proof. unfold EnlistServer.execute. relates_auto. Qed.

#[local] Hint Resolve relates_EnlistServer_execute : relates.

(** Every call respects [R]. *)
Lemma relates_perform (c : Call) : relates R (perform c).
Proof.
  destruct (steady c) eqn:Hc; [apply relates_steady, Hc|].
  destruct c; try discriminate; simpl;
    unfold Public.add, Public.generateUniqueId, Public.enlistServer,
      Public.enlistServerRecover, Public.enlistedServerRecover;
    relates_auto.
Qed.

(** So [R] relates the initial state to every state a history reaches. *)
Lemma Reachable_relates (ts n : nat) (s : CoordinatorServerList) :
  Reachable ts n s -> R (initial ts) s.
Proof.
  induction 1 as [|n s c s' Hreach IH Hstep].
  - reflexivity.
  - transitivity s; [exact IH|]. apply (relates_perform c), Hstep.
Qed.

End Allocating.

End Relates.

(** ** What the trackers hear *)

Lemma told_nil (t : Tracker) : told [] t = t.
Proof. destruct t. unfold told. simpl. rewrite app_nil_r. reflexivity. Qed.

Lemma told_app (evs1 evs2 : list (Entry * ServerChangeEvent)) (t : Tracker) :
  told evs2 (told evs1 t) = told (evs1 ++ evs2) t.
Proof.
  unfold told. simpl. rewrite <- app_assoc, length_app. f_equal. lia.
Qed.

Lemma map_told_nil (l : list Tracker) : map (told []) l = l.
Proof.
  induction l as [|t l IH]; [reflexivity|].
  simpl. rewrite told_nil, IH. reflexivity.
Qed.

Lemma sameNews_frame (s s' : CoordinatorServerList) :
  trackers s' = trackers s -> sameNews s s'.
Proof. intros Ht. exists []. rewrite Ht, map_told_nil. reflexivity. Qed.

#[local] Instance sameNews_preorder : PreOrder sameNews.
Proof.
  split.
  - intros s. apply sameNews_frame. reflexivity.
  - intros s1 s2 s3 [evs1 H1] [evs2 H2]. exists (evs1 ++ evs2).
    rewrite H2, H1, map_map. apply map_ext. intros t. apply told_app.
Qed.

Lemma sameNews_notifyTrackers e ev : relates sameNews (notifyTrackers e ev).
Proof.
  intros s s' H. rewrite notifyTrackers_eq in H. injection H as <-.
  exists [(e, ev)]. reflexivity.
Qed.

(** The writes that do not concern the trackers, and the notifications. *)
Ltac sameNews_leaf :=
  first [ apply sameNews_notifyTrackers
        | apply (relates_modify sameNews); intros ?; apply sameNews_frame;
          reflexivity ].

#[local] Instance sameNews_stepwise : Stepwise sameNews.
Proof.
  assert (Hcrashed : forall id, relates sameNews (crashed id)).
  { intros id. unfold crashed, modifyEntry, appendToUpdate.
    relates_walk sameNews_leaf. }
  split; try exact _; intros;
    unfold remove, modifyEntry, destroyEntry, appendToUpdate, commitUpdate,
      pruneUpdates;
    relates_walk ltac:(first [apply Hcrashed | sameNews_leaf]).
Qed.

#[local] Instance sameNews_allocates : Allocates sameNews.
Proof.
  split; intros;
    unfold generateUniqueId, firstFreeIndex, add, modifyEntry, appendToUpdate;
    relates_walk sameNews_leaf.
Qed.

(** X13.  In every state a history of calls reaches, all registered
    trackers have received the same changes in the same order, and each
    has had exactly one callback for every change it received. *)
Theorem trackers_hear_the_same (ts n : nat) (s : CoordinatorServerList) :
  Reachable ts n s ->
  exists evs, trackers s = replicate ts (mkTracker evs (length evs)).
Proof.
  intros Hreach.
  destruct (Reachable_relates sameNews ts n s Hreach) as [evs Hevs].
  exists evs. rewrite Hevs. simpl. clear Hreach Hevs.
  induction ts as [|ts IH]; [reflexivity|]. simpl. f_equal; [|exact IH].
  unfold told. simpl. f_equal. lia.
Qed.

Lemma trackers_hear_the_same_witness :
  let s := execAll [CallEnlistServer (mkServerId 0 0) (maskOf [BACKUP_SERVICE]) 100 "b";
                    CallHintServerDown (mkServerId 1 1) true] (initial 2) in
  exists evs,
    trackers s = replicate 2 (mkTracker evs (length evs)) /\
    map snd evs = [SERVER_ADDED; SERVER_CRASHED; SERVER_REMOVED].
Proof.
  intros s.
  destruct (Reachable_execAll 2
              [CallEnlistServer (mkServerId 0 0) (maskOf [BACKUP_SERVICE]) 100 "b";
               CallHintServerDown (mkServerId 1 1) true]) as (n & _ & Hreach).
  fold s in Hreach.
  destruct (trackers_hear_the_same 2 n s Hreach) as [evs Hevs].
  exists evs. split; [exact Hevs|].
  assert (H : trackers s = replicate 2 (mkTracker evs (length evs))) by exact Hevs.
  vm_compute in H. injection H as <- _. reflexivity.
Defined.

(** ** What the update queue holds *)

#[local] Instance keepsStamped_preorder : PreOrder keepsStamped.
Proof.
  split.
  - intros s H. exact H.
  - intros s1 s2 s3 H1 H2 H. apply H2, H1, H.
Qed.

Lemma keepsStamped_commitUpdate : relates keepsStamped commitUpdate.
Proof.
  intros s s' Hfinal (Ht & Hv & Hq).
  destruct (commitUpdate_effect s) as [Hempty Hcommit].
  destruct (ProtoBuf.server (update s)) as [|r recs] eqn:Hrecs.
  - rewrite (Hempty eq_refl) in Hfinal. injection Hfinal as <-.
    repeat split; assumption.
  - destruct (Hcommit ltac:(discriminate))
      as (s1 & Hrun & _ & _ & Hq1 & Hu1 & _).
    rewrite Hrun in Hfinal. injection Hfinal as Heq. subst s'.
    unfold queueStamped. rewrite Hu1, Hq1. repeat split; try reflexivity.
    apply Forall_app. split; [exact Hq|].
    repeat constructor. simpl. discriminate.
Qed.

Lemma keepsStamped_pruneUpdates v : relates keepsStamped (pruneUpdates v).
Proof.
  unfold pruneUpdates.
  relates_walk ltac:(apply (relates_modify keepsStamped)).
  intros s (Ht & Hv & Hq). repeat split; try assumption. simpl.
  destruct (popUpTo_drop v (updates s)) as [k ->]. apply Forall_drop, Hq.
Qed.

(** The writes that concern neither the queue nor the pending delta, and
    the records added to the pending delta. *)
Ltac keepsStamped_leaf :=
  first [ apply keepsStamped_commitUpdate
        | apply keepsStamped_pruneUpdates
        | apply (relates_modify keepsStamped); intros ? H; exact H
        | apply (relates_modify keepsStamped); intros ? (Ht & Hv & Hq);
          repeat split; assumption ].

#[local] Instance keepsStamped_stepwise : Stepwise keepsStamped.
Proof.
  assert (Hcrashed : forall id, relates keepsStamped (crashed id)).
  { intros id. unfold crashed, modifyEntry, appendToUpdate, notifyTrackers.
    relates_walk keepsStamped_leaf. }
  split; try exact _; intros;
    unfold remove, modifyEntry, destroyEntry, appendToUpdate, notifyTrackers;
    relates_walk ltac:(first [apply Hcrashed | keepsStamped_leaf]).
Qed.

#[local] Instance keepsStamped_allocates : Allocates keepsStamped.
Proof.
  split; intros;
    unfold generateUniqueId, firstFreeIndex, add, modifyEntry, appendToUpdate,
      notifyTrackers;
    relates_walk keepsStamped_leaf.
Qed.

(** X14.  In every state a history of calls reaches, each update in the
    queue holds at least one record and has the type UPDATE, and the
    pending delta carries neither a type nor a version: the stamp is put
    on at the commit, and an empty delta is never committed. *)
Theorem queue_holds_stamped_updates (ts n : nat) (s : CoordinatorServerList) :
  Reachable ts n s ->
  Forall (fun u => ProtoBuf.server u <> [] /\
                   ProtoBuf.type u = Some ProtoBuf.UPDATE) (updates s) /\
  ProtoBuf.type (update s) = None /\
  ProtoBuf.version_number (update s) = 0.
Proof.
  intros Hreach.
  destruct (Reachable_relates keepsStamped ts n s Hreach) as (Ht & Hv & Hq).
  { repeat split; constructor. }
  auto.
Qed.

Lemma queue_holds_stamped_updates_witness :
  let s := execAll [CallEnlistServer (mkServerId 0 0) (maskOf [BACKUP_SERVICE]) 100 "b";
                    CallCrashed (mkServerId 9 9);
                    CallHintServerDown (mkServerId 1 1) true] (initial 0) in
  length (updates s) = 2%nat /\
  Forall (fun u => ProtoBuf.server u <> [] /\
                   ProtoBuf.type u = Some ProtoBuf.UPDATE) (updates s).
Proof.
  intros s. split; [reflexivity|].
  destruct (Reachable_execAll 0
              [CallEnlistServer (mkServerId 0 0) (maskOf [BACKUP_SERVICE]) 100 "b";
               CallCrashed (mkServerId 9 9);
               CallHintServerDown (mkServerId 1 1) true]) as (n & _ & Hreach).
  fold s in Hreach.
  apply (queue_holds_stamped_updates 0 n s Hreach).
Defined.

(** ** Server ids are never issued twice *)

Lemma bind_inv {A B} (m : M A) (k : A -> M B) (s s'' : CoordinatorServerList)
    (b : B) :
  bind m k s = Returned b s'' ->
  exists a s', m s = Returned a s' /\ k a s' = Returned b s''.
Proof.
  unfold bind. destruct (m s) as [a s'|e s'|why]; [|discriminate|discriminate].
  intros H. exists a, s'. auto.
Qed.

#[local] Instance sameSlots_preorder : PreOrder sameSlots.
Proof.
  split.
  - intros s i. destruct (serverList s !! i) as [p|]; [|exact I].
    split; [reflexivity|]. intros e' He'. exists e'. auto.
  - intros s1 s2 s3 H12 H23 i. specialize (H12 i). specialize (H23 i).
    destruct (serverList s1 !! i) as [p1|], (serverList s2 !! i) as [p2|],
             (serverList s3 !! i) as [p3|]; try contradiction; try exact I.
    destruct H12 as [Hg12 He12], H23 as [Hg23 He23].
    split; [congruence|]. intros e3 He3.
    destruct (He23 e3 He3) as (e2 & He2 & Hid23).
    destruct (He12 e2 He2) as (e1 & He1 & Hid12).
    exists e1. split; [exact He1|congruence].
Qed.

Lemma sameSlots_frame (s s' : CoordinatorServerList) :
  serverList s' = serverList s -> sameSlots s s'.
Proof. intros Hl i. rewrite Hl. apply (reflexivity (R := sameSlots)). Qed.

(** A write to one slot that keeps its generation counter and brings in
    no new id. *)
Lemma sameSlots_alter (g : GenerationNumberEntryPair -> GenerationNumberEntryPair)
    (i : nat) (s : CoordinatorServerList) :
  (forall p, nextGenerationNumber (g p) = nextGenerationNumber p /\
             forall e', entry (g p) = Some e' ->
                        exists e, entry p = Some e /\ serverId e' = serverId e) ->
  sameSlots s (with_serverList (alter g i) s).
Proof.
  intros Hg j. simpl. destruct (decide (i = j)) as [->|Hne].
  - rewrite list_lookup_alter_eq. destruct (serverList s !! j) as [p|]; simpl;
      [apply Hg|exact I].
  - rewrite list_lookup_alter_ne by done.
    apply (reflexivity (R := sameSlots) s j).
Qed.

Ltac sameSlots_leaf :=
  first [ apply (relates_modify sameSlots); intros ?; apply sameSlots_frame;
          reflexivity
        | apply (relates_modify sameSlots); intros ?; apply sameSlots_alter;
          intros p; simpl; split; [reflexivity|];
          first [ discriminate
                | destruct (entry p) as [e0|]; simpl; [|discriminate];
                  intros e' [= <-]; exists e0; split; [reflexivity|];
                  first [ reflexivity
                        | match goal with
                          | H : keepsRole _ |- _ => apply H
                          end ] ] ].

#[local] Instance sameSlots_stepwise : Stepwise sameSlots.
Proof.
  assert (Hcrashed : forall id, relates sameSlots (crashed id)).
  { intros id. unfold crashed, modifyEntry, appendToUpdate, notifyTrackers.
    relates_walk sameSlots_leaf. }
  split; try exact _; intros;
    unfold remove, modifyEntry, destroyEntry, appendToUpdate, notifyTrackers,
      commitUpdate, pruneUpdates;
    relates_walk ltac:(first [apply Hcrashed | sameSlots_leaf]).
Qed.

Lemma sameSlots_length (s s' : CoordinatorServerList) :
  sameSlots s s' -> length (serverList s') = length (serverList s).
Proof.
  intros H.
  destruct (Nat.lt_trichotomy (length (serverList s')) (length (serverList s)))
    as [Hlt|[Heq|Hgt]]; [|exact Heq|].
  - specialize (H (length (serverList s'))).
    destruct (lookup_lt_is_Some_2 (serverList s) _ Hlt) as [p Hp].
    rewrite Hp, lookup_ge_None_2 in H by lia. contradiction.
  - specialize (H (length (serverList s))).
    destruct (lookup_lt_is_Some_2 (serverList s') _ Hgt) as [p Hp].
    rewrite Hp, lookup_ge_None_2 in H by lia. contradiction.
Qed.

Lemma issuedOk_sameSlots (n : nat) (ids : list ServerId)
    (s s' : CoordinatorServerList) :
  sameSlots s s' -> issuedOk n ids s -> issuedOk n ids s'.
Proof.
  intros Hsame (Hnd & Hissued & Hgen & Hin & Hlen).
  split; [exact Hnd|]. split.
  { intros x Hx. destruct (Hissued x Hx) as (p & Hp & Hlt).
    specialize (Hsame (indexNumber x)). rewrite Hp in Hsame.
    destruct (serverList s' !! indexNumber x) as [p'|]; [|contradiction].
    exists p'. split; [reflexivity|]. destruct Hsame as [-> _]. exact Hlt. }
  split.
  { intros i p' Hp'. specialize (Hsame i). rewrite Hp' in Hsame.
    destruct (serverList s !! i) as [p|] eqn:Hp; [|contradiction].
    destruct Hsame as [-> _]. apply (Hgen i p Hp). }
  split.
  { intros i p' e' Hp' He'. specialize (Hsame i). rewrite Hp' in Hsame.
    destruct (serverList s !! i) as [p|] eqn:Hp; [|contradiction].
    destruct Hsame as [_ Hid]. destruct (Hid e' He') as (e & He & ->).
    apply (Hin i p e Hp He). }
  rewrite (sameSlots_length _ _ Hsame). exact Hlen.
Qed.

(** A new id from [generateUniqueId] differs from every id issued
    before, as long as the generation counters have not wrapped. *)
Lemma issuedOk_generate (n : nat) (ids : list ServerId) (id : ServerId)
    (s s' : CoordinatorServerList) :
  issuedOk n ids s -> Z.of_nat n < 2 ^ 32 - 2 ->
  generateUniqueId s = Returned id s' ->
  issuedOk (S n) (id :: ids) s' /\
  exists p, serverList s' !! indexNumber id = Some p /\
            nextGenerationNumber p = wrap32 (generationNumber id + 1) /\
            entry p = Some (newEntry id "" 0).
Proof.
  intros (Hnd & Hissued & Hgen & Hin & Hlen) Hn Hrun.
  destruct (generateUniqueId_effect s)
    as (index & g & s1 & Hrun1 & Hne0 & H1 & Hfree & Hleast & Hg & Hslot & _ & _
        & Hlen1 & Hlow & Hhigh & _); [lia|].
  rewrite Hrun1 in Hrun. injection Hrun as <- <-. simpl.
  assert (Hgb : 1 <= g <= Z.of_nat n + 1).
  { rewrite Hg. destruct (serverList s !! index) as [p|] eqn:Hp.
    - apply (Hgen index p Hp).
    - unfold initialGeneration. lia. }
  assert (Hw : wrap32 (g + 1) = g + 1) by (unfold wrap32; apply Z.mod_small; lia).
  assert (Hindex : (index <= Nat.max 1 (length (serverList s)))%nat).
  { destruct (decide (index <= 1)%nat) as [|Hbig]; [lia|].
    specialize (Hleast (index - 1)%nat ltac:(lia)). unfold entryAt in Hleast.
    destruct (serverList s !! (index - 1)%nat) as [p|] eqn:Hp; [|contradiction].
    apply lookup_lt_Some in Hp. lia. }
  split; [|eexists; split; [exact Hslot|]; split; reflexivity].
  assert (Hfresh : mkServerId index g ∉ ids).
  { intros Hx. destruct (Hissued _ Hx) as (p & Hp & Hlt). simpl in Hp, Hlt.
    rewrite Hp in Hg. lia. }
  split; [constructor; assumption|]. split.
  { intros x Hx. apply elem_of_cons in Hx as [->|Hx].
    - simpl. eexists. split; [exact Hslot|]. simpl. lia.
    - destruct (Hissued x Hx) as (p & Hp & Hlt).
      destruct (decide (indexNumber x = index)) as [Hix|Hix].
      + rewrite Hix in *. eexists. split; [exact Hslot|]. simpl.
        rewrite Hp in Hg. lia.
      + exists p. split; [|exact Hlt]. rewrite Hlow; [exact Hp|exact Hix|].
        eapply lookup_lt_Some, Hp. }
  split.
  { intros i p Hp. destruct (decide (i = index)) as [->|Hi].
    - rewrite Hslot in Hp. injection Hp as <-. simpl. lia.
    - destruct (decide (i < length (serverList s))%nat) as [Hlt|Hge].
      + rewrite Hlow in Hp by assumption. specialize (Hgen i p Hp). lia.
      + apply lookup_lt_Some in Hp as Hlt'. rewrite Hlen1 in Hlt'.
        rewrite Hhigh in Hp by lia. injection Hp as <-. simpl.
        unfold initialGeneration. lia. }
  split.
  { intros i p e Hp He. destruct (decide (i = index)) as [->|Hi].
    - rewrite Hslot in Hp. injection Hp as <-. injection He as <-. left.
    - right. destruct (decide (i < length (serverList s))%nat) as [Hlt|Hge].
      + rewrite Hlow in Hp by assumption. apply (Hin i p e Hp He).
      + apply lookup_lt_Some in Hp as Hlt'. rewrite Hlen1 in Hlt'.
        rewrite Hhigh in Hp by lia. injection Hp as <-. discriminate. }
  rewrite Hlen1. lia.
Qed.

(** ** Enlisting a server that replaces none *)

Lemma entryAt_alter (f : Entry -> Entry) (i j : nat) (s : CoordinatorServerList) :
  entryAt (with_serverList
             (alter (fun p => mkPair (nextGenerationNumber p) (f <$> entry p)) i) s) j
  = if decide (i = j) then f <$> entryAt s j else entryAt s j.
Proof. unfold entryAt. simpl. apply entryAt_modifyEntry. Qed.

Lemma grown_within (index : nat) (l : list GenerationNumberEntryPair) :
  (index < length l)%nat -> grown index l = l.
Proof. intros Hlt. unfold grown. rewrite bool_decide_false by lia. reflexivity. Qed.

(** [EnlistServer::execute], slot by slot. *)
Lemma enlist_execute_slots (mask : ServiceMask) (readSpeed : Z) (loc : string)
    (s : CoordinatorServerList) :
  Z.of_nat (length (serverList s)) < 2 ^ 32 ->
  exists newServerId s' tail rid logId,
    let e' := addedEntry newServerId loc mask readSpeed in
    EnlistServer.execute mask readSpeed loc s = Returned newServerId s' /\
    queued s s' ([serializeEntry e'] ++ tail) /\
    Forall (fun r => ProtoBuf.entry_status r = UP) tail /\
    indexNumber newServerId <> 0%nat /\
    entryAt s (indexNumber newServerId) = None /\
    (forall j, (1 <= j < indexNumber newServerId)%nat -> entryAt s j <> None) /\
    generationNumber newServerId =
      match serverList s !! indexNumber newServerId with
      | Some p => nextGenerationNumber p
      | None => initialGeneration
      end /\
    entryAt s' (indexNumber newServerId) =
      Some (set_serverInfoLogId logId (set_replicationId rid e')) /\
    (forall j, j <> indexNumber newServerId ->
       match entryAt s j with
       | Some e => exists rid',
                     entryAt s' j = Some (set_replicationId rid' e) /\
                     (status e <> UP -> rid' = replicationId e)
       | None => entryAt s' j = None
       end) /\
    length (serverList s') =
      Nat.max (length (serverList s)) (S (indexNumber newServerId)) /\
    numberOfMasters s' =
      (if has mask MASTER_SERVICE then wrap32 (numberOfMasters s + 1)
       else numberOfMasters s) /\
    numberOfBackups s' =
      (if has mask BACKUP_SERVICE then wrap32 (numberOfBackups s + 1)
       else numberOfBackups s) /\
    trackers s' = map (notified e' SERVER_ADDED) (trackers s) /\
    recoveries s' = recoveries s /\
    exists s1, generateUniqueId s = Returned newServerId s1 /\ sameSlots s1 s'.
Proof.
  intros Hlen.
  destruct (generateUniqueId_effect s Hlen)
    as (index & g & s1 & Hrun1 & Hne0 & _ & Hfree & Hleast & Hg & Hslot1 & _ & _
        & Hlen1 & Hlow1 & Hhigh1 & Hsame1).
  set (newId := mkServerId index g) in *.
  set (e' := addedEntry newId loc mask readSpeed).
  assert (Hin1 : (index < length (serverList s1))%nat)
    by (eapply lookup_lt_Some; exact Hslot1).
  assert (Hat1 : forall j, j <> index -> entryAt s1 j = entryAt s j).
  { intros j Hj. unfold entryAt.
    destruct (decide (j < length (serverList s))%nat) as [Hlt|Hge].
    - rewrite Hlow1 by assumption. reflexivity.
    - rewrite (lookup_ge_None_2 (serverList s)) by lia.
      destruct (decide (j < S index)%nat) as [Hlt'|Hge'].
      + rewrite Hhigh1 by lia. reflexivity.
      + rewrite lookup_ge_None_2 by lia. reflexivity. }
  assert (Hget1 : iget newId s1 = Some (newEntry newId "" 0)).
  { apply iget_Some. eexists. split; [exact Hslot1|]. split; reflexivity. }
  (* the log record and the first log id *)
  set (logId1 := Z.of_nat (length (logEntries (logCabin s1) ++
                   [(ServerEnlisting newId mask readSpeed loc, [])]))).
  set (s1a := with_logCabin
                (fun lc => mkLogCabin
                   (logEntries lc ++ [(ServerEnlisting newId mask readSpeed loc, [])])
                   (invalidated lc ++ [])) s1).
  set (s1b := with_serverList
                (alter (fun p => mkPair (nextGenerationNumber p)
                                        (set_serverInfoLogId logId1 <$> entry p))
                       index) s1a).
  assert (Hlen1b : length (serverList s1b) = length (serverList s1))
    by (simpl; apply length_alter).
  (* add *)
  destruct (add_effect newId loc mask readSpeed s1b)
    as (s2 & Hrun2 & Hl2 & Hm2 & Hb2 & Hu2 & Ht2 & Hv2 & Hq2 & Hls2 & Hn2 & Hr2 & Hc2);
    [left; rewrite Hlen1b; exact Hin1|].
  fold e' in Hl2, Hu2, Ht2.
  change (indexNumber newId) with index in Hl2.
  assert (Hat2 : forall j, entryAt s2 j =
                   if decide (j = index) then Some e' else entryAt s j).
  { intros j. rewrite (entryAt_insert_grown s1b s2 _ _ _ j Hl2).
    destruct (decide (j = index)) as [|Hj]; [reflexivity|].
    unfold s1b. rewrite entryAt_alter, decide_False by congruence.
    apply (Hat1 j Hj). }
  assert (Hget2 : iget newId s2 = Some e').
  { apply iget_Some. exists (mkPair (wrap32 (generationNumber newId + 1)) (Some e')).
    split.
    - rewrite Hl2. apply list_lookup_insert_eq. rewrite grown_within; lia.
    - split; [reflexivity|]. subst e'. unfold addedEntry.
      destruct (has mask BACKUP_SERVICE); reflexivity. }
  assert (Hlen2 : length (serverList s2) = length (serverList s1)).
  { rewrite Hl2, length_insert, grown_within by lia. exact Hlen1b. }
  (* the replication groups *)
  assert (Hgroup : exists s3,
    when (isBackup e') createReplicationGroup s2 = Returned tt s3 /\
    regrouped s2 s3).
  { unfold when. destruct (isBackup e').
    - apply createReplicationGroup_regrouped.
    - exists s2. split; [reflexivity|apply regrouped_refl]. }
  destruct Hgroup as (s3 & Hrun3 & Hre).
  destruct (regrouped_iget_Some _ _ _ _ Hre Hget2) as (rid & Hget3 & _).
  destruct (queued_regrouped _ _ Hre) as (tail & Hq3 & Htail).
  pose proof Hre as (Hlen3 & Hslots & _ & Hm3 & Hb3 & _ & _ & _ & Ht3 & Hr3 & _).
  set (logId := Z.of_nat (length (logEntries (logCabin s3) ++
                   [(ServerEnlisted newId mask readSpeed loc, [logId1])]))).
  set (s3a := with_logCabin
                (fun lc => mkLogCabin
                   (logEntries lc ++ [(ServerEnlisted newId mask readSpeed loc, [logId1])])
                   (invalidated lc ++ [logId1])) s3).
  set (s4 := with_serverList
               (alter (fun p => mkPair (nextGenerationNumber p)
                                       (set_serverInfoLogId logId <$> entry p))
                      index) s3a).
  exists newId, s4, tail, rid, logId. cbv zeta. fold e'.
  change (indexNumber newId) with index.
  split.
  { unfold EnlistServer.execute.
    rewrite (bind_Returned _ _ _ _ _ Hrun1).
    rewrite (bind_Returned _ _ _ _ _ (appendProtoBuf_run _ _ _)).
    fold s1a logId1.
    rewrite (bind_Returned _ _ _ _ _
               (addServerInfoLogId_run newId logId1 _ s1a Hget1)).
    change (indexNumber newId) with index. fold s1b.
    unfold EnlistServer.complete.
    rewrite (bind_Returned _ _ _ _ _ Hrun2).
    unfold bind at 1. rewrite getReferenceFromServerId_iget, Hget2.
    rewrite (bind_Returned _ _ _ _ _ Hrun3).
    rewrite (bind_Returned _ _ _ _ _ (appendProtoBuf_run _ _ _)).
    fold s3a logId.
    rewrite (bind_Returned _ _ _ _ _
               (addServerInfoLogId_run newId logId _ s3a Hget3)).
    reflexivity. }
  destruct Hsame1 as (Hm1 & Hb1 & Hv1 & Hu1 & Hq1 & Hls1 & Hn1 & Ht1 & Hr1 & Hc1).
  destruct Hq3 as (Happ3 & Hv3 & Hq3 & Hls3).
  split.
  { split.
    - unfold appended in *. simpl. rewrite Happ3, Hu2. simpl.
      change (update s1b) with (update s1). rewrite Hu1.
      rewrite <- app_assoc. reflexivity.
    - simpl. change (version s1b) with (version s1) in Hv2.
      change (updates s1b) with (updates s1) in Hq2.
      change (lastScan s1b) with (lastScan s1) in Hls2.
      repeat split; congruence. }
  split; [exact Htail|]. split; [exact Hne0|]. split; [exact Hfree|].
  split; [exact Hleast|]. split; [exact Hg|].
  split.
  { unfold s4. rewrite entryAt_alter, decide_True by reflexivity.
    change (entryAt s3a index) with (entryAt s3 index).
    pose proof (iget_entryAt _ _ _ Hget3) as Hat3.
    change (indexNumber newId) with index in Hat3.
    rewrite Hat3. reflexivity. }
  split.
  { intros j Hj. unfold s4. rewrite entryAt_alter, decide_False by congruence.
    change (entryAt s3a j) with (entryAt s3 j).
    specialize (Hslots j). rewrite Hat2, decide_False in Hslots by exact Hj.
    exact Hslots. }
  split.
  { unfold s4. simpl. rewrite length_alter, Hlen3, Hlen2. exact Hlen1. }
  simpl. change (numberOfMasters s1b) with (numberOfMasters s1) in Hm2.
  change (numberOfBackups s1b) with (numberOfBackups s1) in Hb2.
  change (trackers s1b) with (trackers s1) in Ht2.
  change (recoveries s1b) with (recoveries s1) in Hr2.
  split; [rewrite Hm3, Hm2, Hm1; reflexivity|].
  split; [rewrite Hb3, Hb2, Hb1; reflexivity|].
  split; [rewrite Ht3, Ht2, Ht1; reflexivity|].
  split; [rewrite Hr3, Hr2, Hr1; reflexivity|].
  exists s1. split; [exact Hrun1|].
  assert (Hkeep : forall logId0 (s0 : CoordinatorServerList),
            sameSlots s0
              (with_serverList
                 (alter (fun p => mkPair (nextGenerationNumber p)
                                         (set_serverInfoLogId logId0 <$> entry p))
                        index) s0)).
  { intros logId0 s0. apply sameSlots_alter. intros p. simpl.
    split; [reflexivity|]. destruct (entry p) as [e0|]; simpl; [|discriminate].
    intros e1 [= <-]. exists e0. split; reflexivity. }
  transitivity s1b; [apply (Hkeep logId1 s1a)|].
  transitivity s2.
  { intros j. rewrite Hl2, grown_within by lia.
    destruct (decide (j = index)) as [->|Hj].
    - rewrite list_lookup_insert_eq by lia.
      unfold s1b. simpl. rewrite list_lookup_alter_eq.
      change (serverList s1a) with (serverList s1). rewrite Hslot1. simpl.
      split; [reflexivity|]. intros e1 [= <-]. eexists. split; [reflexivity|].
      subst e'. unfold addedEntry. destruct (has mask BACKUP_SERVICE); reflexivity.
    - rewrite list_lookup_insert_ne by done.
      apply (reflexivity (R := sameSlots) s1b j). }
  transitivity s3.
  { apply (relates_when sameSlots (isBackup e') createReplicationGroup
             (relates_createReplicationGroup sameSlots) s2 s3).
    rewrite Hrun3. reflexivity. }
  apply (Hkeep logId s3a).
Qed.

Lemma entryAt_iget (id : ServerId) (e : Entry) (s : CoordinatorServerList) :
  entryAt s (indexNumber id) = Some e -> serverId e = id -> iget id s = Some e.
Proof.
  intros Hat Hid. apply iget_Some. unfold entryAt in Hat.
  destruct (serverList s !! indexNumber id) as [p|]; [|discriminate].
  exists p. auto.
Qed.

(** X11.  [enlistServer] with a [replacesId] that is not in the list, in
    a vector of fewer than 2^32 slots, returns a new id whose index is
    the least free slot from 1 on and whose generation is the one that
    slot had next.  One update is committed: what was pending, then the
    UP record of the new server, then only records of UP servers.  The
    new server is found under the returned id, UP, with the locator,
    services and (for a backup) read speed of the call.  Every server
    that was in the list is still there, changed at most in its
    replication id, and not at all unless it is UP; the recovery manager
    is not called. *)
Theorem enlistServer_adds_server (replacesId : ServerId) (mask : ServiceMask)
    (readSpeed : Z) (loc : string) (s : CoordinatorServerList) :
  iget replacesId s = None ->
  Z.of_nat (length (serverList s)) < 2 ^ 32 ->
  exists newServerId s' e tail,
    Public.enlistServer replacesId mask readSpeed loc s = Returned newServerId s' /\
    indexNumber newServerId <> 0%nat /\
    entryAt s (indexNumber newServerId) = None /\
    (forall j, (1 <= j < indexNumber newServerId)%nat -> entryAt s j <> None) /\
    generationNumber newServerId =
      match serverList s !! indexNumber newServerId with
      | Some p => nextGenerationNumber p
      | None => initialGeneration
      end /\
    iget newServerId s' = Some e /\
    serviceLocator e = loc /\ services e = mask /\ status e = UP /\
    expectedReadMBytesPerSec e =
      (if has mask BACKUP_SERVICE then readSpeed else 0) /\
    (forall id' e0, iget id' s = Some e0 ->
       exists rid, iget id' s' = Some (set_replicationId rid e0) /\
                   (status e0 <> UP -> rid = replicationId e0)) /\
    version s' = wrap64 (version s + 1) /\
    updates s' =
      updates s ++
      [ProtoBuf.mkServerList
         (ProtoBuf.server (update s) ++
          [serializeEntry (addedEntry newServerId loc mask readSpeed)] ++ tail)
         (version s') (Some ProtoBuf.UPDATE)] /\
    Forall (fun r => ProtoBuf.entry_status r = UP) tail /\
    update s' = ProtoBuf.empty /\
    recoveries s' = recoveries s.
Proof.
  intros Hnone Hlen.
  destruct (enlist_execute_slots mask readSpeed loc s Hlen)
    as (newId & s1 & tail & rid & logId & Hrun & Hq & Htail & Hne0 & Hfree & Hleast
        & Hg & Hnew & Hothers & _ & _ & _ & _ & Hrec & _).
  destruct (commit_queued s s1 _ Hq)
    as (s' & Hcommit & Hv & Hupd & Hu & Hl & _ & _ & _ & Hrec').
  { discriminate. }
  assert (Hat : forall j, entryAt s' j = entryAt s1 j)
    by (intros j; unfold entryAt; rewrite Hl; reflexivity).
  set (e' := addedEntry newId loc mask readSpeed) in *.
  assert (He' : serverId e' = newId /\ serviceLocator e' = loc /\ services e' = mask /\
                status e' = UP /\
                expectedReadMBytesPerSec e' =
                  (if has mask BACKUP_SERVICE then readSpeed else 0)).
  { subst e'. unfold addedEntry. destruct (has mask BACKUP_SERVICE);
      repeat split; reflexivity. }
  destruct He' as (H1 & H2 & H3 & H4 & H5).
  exists newId, s', (set_serverInfoLogId logId (set_replicationId rid e')), tail.
  split.
  { unfold Public.enlistServer. unfold bind at 1. unfold gets at 1.
    rewrite Hnone.
    rewrite bool_decide_false by (intros [x Hx]; discriminate).
    cbn [when]. unfold bind at 1. unfold ret at 1.
    rewrite (bind_Returned _ _ _ _ _ Hrun).
    rewrite (bind_Returned _ _ _ _ _ Hcommit). reflexivity. }
  split; [exact Hne0|]. split; [exact Hfree|]. split; [exact Hleast|].
  split; [exact Hg|]. split.
  { apply entryAt_iget; [rewrite Hat; exact Hnew|exact H1]. }
  do 4 (split; [assumption|]). split.
  { intros id' e0 Hget. pose proof (iget_entryAt _ _ _ Hget) as Hat0.
    assert (Hj : indexNumber id' <> indexNumber newId) by congruence.
    specialize (Hothers _ Hj). rewrite Hat0 in Hothers.
    destruct Hothers as (rid' & Hat' & Hkeep). exists rid'. split; [|exact Hkeep].
    apply entryAt_iget; [rewrite Hat; exact Hat'|].
    simpl. apply (iget_serverId _ _ _ Hget). }
  split; [exact Hv|]. split; [exact Hupd|]. split; [exact Htail|].
  split; [exact Hu|]. congruence.
Qed.

Lemma enlistServer_adds_server_witness :
  let s := execAll [CallEnlistServer (mkServerId 0 0) (maskOf [MASTER_SERVICE]) 0 "m";
                    CallRemove (mkServerId 1 1);
                    CallEnlistServer (mkServerId 0 0) (maskOf [MASTER_SERVICE]) 0 "m2"]
                   (initial 0) in
  exists s' e,
    Public.enlistServer (mkServerId 1 1) (maskOf [BACKUP_SERVICE]) 100 "b" s
      = Returned (mkServerId 2 1) s' /\
    iget (mkServerId 2 1) s' = Some e /\ serviceLocator e = "b" /\
    expectedReadMBytesPerSec e = 100.
Proof.
  intros s.
  destruct (enlistServer_adds_server (mkServerId 1 1) (maskOf [BACKUP_SERVICE])
              100 "b" s eq_refl ltac:(vm_compute; reflexivity))
    as (newId & s' & e & tail & Hrun & _ & _ & _ & _ & Hget & Hloc & _ & _ & Hspeed & _).
  assert (Hid : newId = mkServerId 2 1).
  { assert (Hrun' := Hrun). vm_compute in Hrun'. injection Hrun' as <- _.
    reflexivity. }
  subst newId. exists s', e. auto.
Defined.

Lemma issuedOk_later (n : nat) (ids : list ServerId) (s : CoordinatorServerList) :
  issuedOk n ids s -> issuedOk (S n) ids s.
Proof.
  intros (Hnd & Hissued & Hgen & Hin & Hlen).
  repeat split; try assumption; try lia; specialize (Hgen i p H); lia.
Qed.

Lemma issuedOk_enlist (n : nat) (ids : list ServerId) (id replacesId : ServerId)
    (mask : ServiceMask) (readSpeed : Z) (loc : string)
    (s s' : CoordinatorServerList) :
  issuedOk n ids s -> Z.of_nat n < 2 ^ 32 - 2 ->
  Public.enlistServer replacesId mask readSpeed loc s = Returned id s' ->
  issuedOk (S n) (id :: ids) s'.
Proof.
  intros Hok Hn Hrun. unfold Public.enlistServer in Hrun.
  unfold bind at 1 in Hrun. unfold gets at 1 in Hrun.
  apply bind_inv in Hrun as ([] & s0 & Hdown & Hrun).
  apply bind_inv in Hrun as (a & sx & Hexec & Hrun).
  apply bind_inv in Hrun as ([] & sy & Hcommit & Hret).
  injection Hret as -> ->.
  assert (Hsame0 : sameSlots s s0).
  { apply (relates_when sameSlots (bool_decide (is_Some (iget replacesId s)))
             (forceServerDown replacesId)
             (relates_forceServerDown sameSlots replacesId) s s0).
    rewrite Hdown. reflexivity. }
  pose proof (issuedOk_sameSlots _ _ _ _ Hsame0 Hok) as Hok0.
  destruct (enlist_execute_slots mask readSpeed loc s0)
    as (newId & sz & tail & rid & logId & Hexec' & _ & _ & _ & _ & _ & _ & _ & _ & _
        & _ & _ & _ & _ & s1 & Hgen & Hsame1).
  { destruct Hok0 as (_ & _ & _ & _ & Hlen). lia. }
  rewrite Hexec' in Hexec. injection Hexec as -> ->.
  destruct (issuedOk_generate n ids id s0 s1 Hok0 Hn Hgen) as [Hok1 _].
  apply (issuedOk_sameSlots _ _ s1); [|exact Hok1].
  transitivity sx; [exact Hsame1|].
  apply (stepwise_commitUpdate (R := sameSlots)). rewrite Hcommit. reflexivity.
Qed.

(** The invariant of the histories that issue ids. *)
Lemma Issued_issuedOk (ts n : nat) (ids : list ServerId)
    (s : CoordinatorServerList) :
  Issued ts n ids s -> Z.of_nat n < 2 ^ 32 - 1 -> issuedOk n ids s.
Proof.
  induction 1 as [|n ids s id s' Hissued IH Hrun
                  |n ids s replacesId mask readSpeed loc id s' Hissued IH Hrun
                  |n ids s c s' Hissued IH Hsteady Hstep]; intros Hn.
  - split; [constructor|]. split; [intros x Hx; inversion Hx|].
    split; [intros i p Hp; discriminate|].
    split; [intros i p e Hp; discriminate|]. simpl. lia.
  - apply (issuedOk_generate n ids id s s' (IH ltac:(lia)) ltac:(lia) Hrun).
  - apply (issuedOk_enlist n ids id replacesId mask readSpeed loc s s'
             (IH ltac:(lia)) ltac:(lia) Hrun).
  - apply issuedOk_later, (issuedOk_sameSlots n ids s s'); [|apply IH; lia].
    apply (relates_steady sameSlots c Hsteady s s' Hstep).
Qed.

(** X15.  In a history of fewer than 2^32 - 1 calls in which ids come
    from [generateUniqueId] and [enlistServer] only, no id is handed out
    twice, whatever servers crashed or were removed in between; every
    entry in the list sits under an id that was handed out; and the
    [nextGenerationNumber] of a slot is above the generation of every id
    handed out for that slot. *)
Theorem server_ids_are_never_reissued (ts n : nat) (ids : list ServerId)
    (s : CoordinatorServerList) :
  Issued ts n ids s -> Z.of_nat n < 2 ^ 32 - 1 ->
  NoDup ids /\
  (forall id e, iget id s = Some e -> id ∈ ids) /\
  (forall id, id ∈ ids ->
     exists p, serverList s !! indexNumber id = Some p /\
               generationNumber id < nextGenerationNumber p).
Proof.
  intros Hissued Hn.
  destruct (Issued_issuedOk ts n ids s Hissued Hn) as (Hnd & Hgen & _ & Hin & _).
  split; [exact Hnd|]. split; [|exact Hgen].
  intros id e (p & Hp & He & <-)%iget_Some. apply (Hin _ p e Hp He).
Qed.

Lemma server_ids_are_never_reissued_witness :
  let M1 := maskOf [MASTER_SERVICE] in
  let B := maskOf [BACKUP_SERVICE] in
  let s3 := execAll [CallEnlistServer (mkServerId 0 0) M1 0 "m1";
                     CallEnlistServer (mkServerId 1 1) B 100 "b";
                     CallRemove (mkServerId 1 1)] (initial 0) in
  exists s4,
    Public.enlistServer (mkServerId 0 0) M1 0 "m3" s3 = Returned (mkServerId 1 2) s4 /\
    Issued 0 4 [mkServerId 1 2; mkServerId 2 1; mkServerId 1 1] s4 /\
    NoDup [mkServerId 1 2; mkServerId 2 1; mkServerId 1 1].
Proof.
  intros M1 B s3.
  set (s1 := execAll [CallEnlistServer (mkServerId 0 0) M1 0 "m1"] (initial 0)).
  set (s2 := execAll [CallEnlistServer (mkServerId 1 1) B 100 "b"] s1).
  assert (I1 : Issued 0 1 [mkServerId 1 1] s1).
  { apply (Issued_enlist 0 0 [] (initial 0) (mkServerId 0 0) M1 0 "m1");
      [apply Issued_initial|vm_compute; reflexivity]. }
  assert (I2 : Issued 0 2 [mkServerId 2 1; mkServerId 1 1] s2).
  { apply (Issued_enlist 0 1 _ s1 (mkServerId 1 1) B 100 "b");
      [exact I1|vm_compute; reflexivity]. }
  assert (I3 : Issued 0 3 [mkServerId 2 1; mkServerId 1 1] s3).
  { apply (Issued_steady 0 2 _ s2 (CallRemove (mkServerId 1 1)));
      [exact I2|reflexivity|vm_compute; reflexivity]. }
  eexists. split; [vm_compute; reflexivity|].
  match goal with
  | |- Issued _ _ _ ?s4 /\ _ =>
      assert (I4 : Issued 0 4 [mkServerId 1 2; mkServerId 2 1; mkServerId 1 1] s4)
  end.
  { apply (Issued_enlist 0 3 _ s3 (mkServerId 0 0) M1 0 "m3");
      [exact I3|vm_compute; reflexivity]. }
  split; [exact I4|].
  apply (server_ids_are_never_reissued 0 4 _ _ I4). reflexivity.
Defined.

(** ** The updater's hand-over: [loadNextUpdate] and [updateEntryVersion] *)

Lemma scanned_lastScan (f : ScanMetadata -> ScanMetadata)
    (s : CoordinatorServerList) :
  scanned s (with_lastScan f s).
Proof. repeat split; try reflexivity. exists 0%nat. reflexivity. Qed.

(** What a trip through the body of the scan has done when it comes
    back: it says "found" only on a slot whose entry needs an update, and
    then the cursor is on that slot. *)
Lemma hasUpdatesBody_found (i : nat) (s s' : CoordinatorServerList)
    (r : option bool) :
  hasUpdatesBody i s = Returned r s' ->
  scanned s s' /\
  match r with
  | Some b =>
      b = true /\ searchIndex (lastScan s') = i /\
      noUpdatesFound (lastScan s') = false /\
      exists e, entryAt s i = Some e /\ needsUpdate (version s) e = true
  | None => True
  end.
Proof.
  intros Hrun. unfold hasUpdatesBody in Hrun.
  apply bind_inv in Hrun as ([] & s0 & Hprune & Hrun).
  assert (Hsc0 : scanned s s0).
  { unfold when in Hprune. destruct (bool_decide (i = 0%nat)).
    - unfold pruneUpdates in Hprune. unfold_monad.
      destruct (minVersion (lastScan s) <=? version s); [|discriminate].
      injection Hprune as <-.
      destruct (popUpTo_drop (minVersion (lastScan s)) (updates s)) as [k Hk].
      repeat split; try reflexivity. exists k. exact Hk.
    - injection Hprune as <-. apply scanned_refl. }
  unfold bind at 1, gets at 1 in Hrun.
  assert (Hat : entryAt s i = entryAt s0 i) by (symmetry; apply entryAt_scanned, Hsc0).
  unfold entryAt at 2 in Hat.
  destruct (serverList s0 !! i) as [p|]; [|discriminate].
  destruct (entry p) as [e|];
    [|injection Hrun as <- <-; split; [exact Hsc0|exact I]].
  destruct (has (services e) MEMBERSHIP_SERVICE && bool_decide (status e = UP))
    eqn:Hmember;
    [|injection Hrun as <- <-; split; [exact Hsc0|exact I]].
  unfold bind at 1, gets at 1 in Hrun.
  apply bind_inv in Hrun as ([] & s1 & Hmin & Hrun).
  assert (Hsc1 : scanned s0 s1).
  { unfold when, modify, ret in Hmin.
    destruct (_ || _) in Hmin; injection Hmin as <-;
      [apply scanned_lastScan|apply scanned_refl]. }
  pose proof (scanned_trans _ _ _ Hsc0 Hsc1) as Hsc.
  unfold bind at 1, gets at 1 in Hrun.
  destruct (negb (serverListVersion e =? version s1) && (isBeingUpdated e =? 0))
    eqn:Hstale.
  - unfold bind, modify, ret in Hrun. injection Hrun as <- <-.
    split; [apply (scanned_trans _ _ _ Hsc), scanned_lastScan|].
    split; [reflexivity|]. split; [reflexivity|]. split; [reflexivity|].
    exists e. split; [exact Hat|]. unfold needsUpdate.
    destruct Hsc as (_ & _ & _ & Hv & _). rewrite <- Hv, Hmember, <- andb_assoc.
    exact Hstale.
  - injection Hrun as <- <-. split; [exact Hsc|exact I].
Qed.

(** A scan that says "found" has left the cursor on an entry that needs
    an update, and has changed nothing but the cursor and the front of
    the queue. *)
Lemma hasUpdatesLoop_found (fuel i : nat) (s s' : CoordinatorServerList) :
  hasUpdatesLoop fuel i s = Returned true s' ->
  scanned s s' /\ noUpdatesFound (lastScan s') = false /\
  exists e, entryAt s (searchIndex (lastScan s')) = Some e /\
            needsUpdate (version s) e = true.
Proof.
  revert i s. induction fuel as [|fuel IH]; intros i s Hrun; [discriminate|].
  simpl in Hrun.
  apply bind_inv in Hrun as (r & s1 & Hbody & Hrun).
  destruct (hasUpdatesBody_found i s s1 r Hbody) as [Hsc Hr].
  destruct r as [b|].
  - injection Hrun as -> <-. destruct Hr as (_ & Hi & Hfound & He).
    split; [exact Hsc|]. split; [exact Hfound|]. rewrite Hi. exact He.
  - unfold bind at 1, gets at 1 in Hrun. unfold bind at 1, gets at 1 in Hrun.
    destruct (bool_decide _) in Hrun; [|discriminate].
    destruct (IH _ _ Hrun) as (Hsc' & Hfound & e & He & Hneeds).
    split; [apply (scanned_trans _ _ _ Hsc Hsc')|]. split; [exact Hfound|].
    exists e. rewrite <- (entryAt_scanned _ _ _ Hsc).
    destruct Hsc as (_ & _ & _ & Hv & _). rewrite <- Hv. auto.
Qed.

Lemma hasUpdates_found (s s' : CoordinatorServerList) :
  hasUpdates s = Returned true s' ->
  scanned s s' /\ noUpdatesFound (lastScan s') = false /\
  exists e, entryAt s (searchIndex (lastScan s')) = Some e /\
            needsUpdate (version s) e = true.
Proof.
  unfold hasUpdates. unfold bind at 1, gets at 1. unfold bind at 1, gets at 1.
  destruct (_ || _); [discriminate|]. apply hasUpdatesLoop_found.
Qed.

(** The queue of a history is no longer than the version of the list. *)
Lemma Reachable_queue_length (ts n : nat) (s : CoordinatorServerList) :
  Reachable ts n s -> Z.of_nat n < 2 ^ 64 ->
  Z.of_nat (length (updates s)) <= version s.
Proof.
  induction 1 as [|n s c s' Hreach IH Hstep]; intros Hn; [simpl; lia|].
  destruct (Reachable_queueOk ts n s Hreach ltac:(lia)) as [_ Hv].
  specialize (IH ltac:(lia)).
  destruct (commitsAtMostOnce_perform c s s' Hstep)
    as [(Hv' & k & Hq')|(Hv' & k & u & Hq' & Hu)].
  - rewrite Hv', Hq', length_drop. lia.
  - rewrite Hv', Hq', length_drop, length_app. unfold wrap64.
    rewrite Z.mod_small; simpl; lia.
Qed.

(** What a call of [loadNextUpdate] that loads an update has done. *)
Lemma loadNextUpdate_loaded (updateSlot loaded : UpdateSlot)
    (s s' : CoordinatorServerList) :
  wellIndexed (serverList s) ->
  loadNextUpdate updateSlot s = Returned (true, loaded) s' ->
  exists e s1 target,
    hasUpdates s = Returned true s1 /\ scanned s s1 /\
    noUpdatesFound (lastScan s1) = false /\
    iget (serverId e) s = Some e /\ needsUpdate (version s) e = true /\
    originalVersion loaded = serverListVersion e /\
    slotServerId loaded = serverId e /\
    s' = loadedState (indexNumber (serverId e)) target s1 /\
    if serverListVersion e =? 0
    then target = version s /\
         protobuf loaded =
           serialize ProtoBuf.empty (maskOf [MASTER_SERVICE; BACKUP_SERVICE]) s
    else target = wrap64 (serverListVersion e + 1) /\
         exists h,
           head (updates s1) = Some h /\
           updates s1 !! Z.to_nat (wrap64 (target - ProtoBuf.version_number h))
             = Some (protobuf loaded).
Proof.
  intros Hwi Hrun. unfold loadNextUpdate in Hrun.
  apply bind_inv in Hrun as (found & s1 & Hscan & Hrun).
  destruct found; simpl in Hrun; [|injection Hrun; discriminate].
  destruct (hasUpdates_found s s1 Hscan) as (Hsc & Hfound & e & He & Hneeds).
  unfold bind at 1, gets at 1 in Hrun.
  set (index := searchIndex (lastScan s1)) in *.
  pose proof Hsc as (Hl & _ & _ & Hv & _).
  assert (He1 : entryAt s1 index = Some e)
    by (rewrite (entryAt_scanned _ _ _ Hsc); exact He).
  unfold bind at 1, derefEntry at 1 in Hrun.
  unfold entryAt in He1.
  destruct (serverList s1 !! index) as [p|] eqn:Hp; [|discriminate].
  rewrite He1 in Hrun.
  unfold bind at 1, gets at 1 in Hrun. unfold bind at 1, modify at 1 in Hrun.
  assert (Hidx : indexNumber (serverId e) = index).
  { apply (Hwi index p e); [rewrite <- Hl; exact Hp|exact He1]. }
  assert (Hget : iget (serverId e) s = Some e).
  { apply entryAt_iget; [rewrite Hidx; exact He|reflexivity]. }
  exists e, s1. rewrite Hidx.
  destruct (serverListVersion e =? 0) eqn:Hzero.
  - unfold bind, gets, modifyEntry, modify, ret in Hrun. injection Hrun as <- <-.
    exists (version s). simpl. rewrite Hv.
    repeat (split; [first [assumption|reflexivity]|]).
    unfold serialize. simpl. rewrite Hl, Hv. reflexivity.
  - unfold bind at 1, gets at 1 in Hrun. unfold bind at 1, gets at 1 in Hrun.
    unfold bind at 1, assert at 1 in Hrun.
    destruct (negb _) in Hrun; [|discriminate].
    unfold bind at 1, assert at 1 in Hrun.
    match type of Hrun with
    | context [updates ?s2] =>
        change (updates s2) with (updates s1) in Hrun;
        change (version s2) with (version s1) in Hrun
    end.
    destruct (head (updates s1)) as [h|] eqn:Hh; [|discriminate].
    destruct (_ <=? _) in Hrun; [|discriminate].
    unfold bind at 1, assert at 1 in Hrun.
    destruct (match last (updates s1) with Some _ => _ | None => _ end) in Hrun;
      [|discriminate].
    destruct (updates s1 !! _) as [u|] eqn:Hu in Hrun; [|discriminate].
    unfold bind, modifyEntry, modify, ret in Hrun. injection Hrun as <- <-.
    exists (wrap64 (serverListVersion e + 1)). simpl.
    repeat (split; [first [assumption|reflexivity]|]).
    exists h. split; [reflexivity|exact Hu].
Qed.

Lemma entryAt_loadedState (index : nat) (target : Z) (s s1 : CoordinatorServerList)
    (j : nat) :
  scanned s s1 ->
  entryAt (loadedState index target s1) j =
    if decide (index = j) then set_isBeingUpdated target <$> entryAt s j
    else entryAt s j.
Proof.
  intros Hsc. unfold loadedState. rewrite entryAt_alter.
  destruct (decide (index = j)); [f_equal|]; apply (entryAt_scanned s s1 j Hsc).
Qed.

(** X16.  In every state a history of fewer than 2^64 - 1 calls reaches:
    when [loadNextUpdate] loads an update, it is for a server in the
    list that needs one, [originalVersion] is the version that server
    has, the server's entry is marked as being updated to exactly the
    version number of the message loaded, and no other entry changes.
    For a server at version 0 the message is the full list at the
    version of the list; otherwise it is a committed update of the queue
    and carries the version after the server's. *)
Theorem loadNextUpdate_ships_next_version (ts n : nat)
    (updateSlot loaded : UpdateSlot) (s s' : CoordinatorServerList) :
  Reachable ts n s -> Z.of_nat n < 2 ^ 64 - 1 ->
  loadNextUpdate updateSlot s = Returned (true, loaded) s' ->
  exists e,
    iget (slotServerId loaded) s = Some e /\
    needsUpdate (version s) e = true /\
    originalVersion loaded = serverListVersion e /\
    iget (slotServerId loaded) s' =
      Some (set_isBeingUpdated (ProtoBuf.version_number (protobuf loaded)) e) /\
    (forall j, j <> indexNumber (slotServerId loaded) -> entryAt s' j = entryAt s j) /\
    (if serverListVersion e =? 0
     then protobuf loaded =
            serialize ProtoBuf.empty (maskOf [MASTER_SERVICE; BACKUP_SERVICE]) s
     else protobuf loaded ∈ updates s /\
          ProtoBuf.version_number (protobuf loaded) =
            wrap64 (serverListVersion e + 1)).
Proof.
  intros Hreach Hn Hrun.
  destruct (loadNextUpdate_loaded updateSlot loaded s s'
              (Reachable_wellIndexed ts n s Hreach) Hrun)
    as (e & s1 & target & Hscan & Hsc & _ & Hget & Hneeds & Horig & Hid & -> & Hpb).
  assert (Hreach1 : Reachable ts (S n) s1).
  { apply (Reachable_call ts n s CallHasUpdates s1 Hreach).
    simpl. unfold bind. rewrite Hscan. reflexivity. }
  destruct (Reachable_queueOk ts (S n) s1 Hreach1 ltac:(lia)) as [Hq Hv1].
  pose proof (Reachable_queue_length ts (S n) s1 Hreach1 ltac:(lia)) as Hlen.
  assert (Htarget : ProtoBuf.version_number (protobuf loaded) = target).
  { destruct (serverListVersion e =? 0).
    - destruct Hpb as [-> ->]. reflexivity.
    - destruct Hpb as (-> & h & Hh & Hu).
      rewrite head_lookup in Hh.
      pose proof (lookup_lt_Some _ _ _ Hu) as Hlt.
      rewrite (Hq _ _ Hu). rewrite (Hq _ _ Hh) in Hu, Hlt |- *.
      unfold wrap64 in *.
      pose proof (Z.mod_pos_bound (serverListVersion e + 1) (2 ^ 64) ltac:(lia)) as HT.
      set (T := (serverListVersion e + 1) mod 2 ^ 64) in *.
      set (hd := version s1 - Z.of_nat (length (updates s1) - 1 - 0)) in *.
      pose proof (Z.mod_pos_bound (T - hd) (2 ^ 64) ltac:(lia)) as HX.
      pose proof (Z.div_mod (T - hd) (2 ^ 64) ltac:(lia)) as HD.
      set (X := (T - hd) mod 2 ^ 64) in *.
      set (Q := (T - hd) / 2 ^ 64) in *.
      subst hd. lia. }
  exists e. rewrite Hid, Htarget.
  split; [exact Hget|]. split; [exact Hneeds|]. split; [exact Horig|].
  split.
  { apply entryAt_iget; [|reflexivity].
    rewrite (entryAt_loadedState _ _ s s1 _ Hsc), decide_True by reflexivity.
    rewrite (iget_entryAt _ _ _ Hget). reflexivity. }
  split.
  { intros j Hj. rewrite (entryAt_loadedState _ _ s s1 _ Hsc).
    rewrite decide_False by congruence. reflexivity. }
  destruct (serverListVersion e =? 0); [apply Hpb|].
  destruct Hpb as (Ht & h & Hh & Hu). split; [|exact Ht].
  destruct Hsc as (_ & _ & _ & _ & _ & _ & _ & _ & _ & k & Hk).
  apply list_elem_of_lookup_2 in Hu. rewrite Hk in Hu.
  apply (subseteq_drop k (updates s)), Hu.
Qed.

Lemma loadNextUpdate_ships_next_version_witness :
  let members := maskOf [MASTER_SERVICE; MEMBERSHIP_SERVICE] in
  let updateSlot := mkUpdateSlot 0 (mkServerId 0 0) ProtoBuf.empty in
  let cs := [CallEnlistServer (mkServerId 0 0) members 0 "m1";
             CallLoadNextUpdate updateSlot;
             CallUpdateEntryVersion (mkServerId 1 1) 1;
             CallEnlistServer (mkServerId 0 0) (maskOf [BACKUP_SERVICE]) 100 "b"] in
  let s := execAll cs (initial 0) in
  exists loaded s',
    loadNextUpdate updateSlot s = Returned (true, loaded) s' /\
    originalVersion loaded = 1 /\
    ProtoBuf.version_number (protobuf loaded) = 2 /\
    exists e,
      iget (slotServerId loaded) s' =
        Some (set_isBeingUpdated (ProtoBuf.version_number (protobuf loaded)) e).
Proof.
  intros members updateSlot cs s.
  destruct (Reachable_execAll 0 cs) as (n & Hn & Hreach). fold s in Hreach.
  eexists _, _. split; [vm_compute; reflexivity|].
  split; [reflexivity|]. split; [reflexivity|].
  match goal with
  | |- exists e, iget (slotServerId ?loaded) ?s' = _ =>
      destruct (loadNextUpdate_ships_next_version 0 n updateSlot loaded s s' Hreach)
        as (e & _ & _ & _ & He & _);
        [simpl in Hn; lia|vm_compute; reflexivity|exists e; exact He]
  end.
Defined.

(** X17.  In every state a history reaches: after [loadNextUpdate] has
    loaded an update for a server, [updateEntryVersion] for that server
    returns; the server's entry is then the one it had before the load
    with [serverListVersion] set to the version reported, no rpc is
    marked as under way, no other entry has changed, and the next scan
    will look at the list again.  Reporting the original version (the
    rpc failed) leaves the vector of servers exactly as it was before
    the load. *)
Theorem updateEntryVersion_completes_load (ts n : nat)
    (updateSlot loaded : UpdateSlot) (v : Z) (s s1 : CoordinatorServerList) :
  Reachable ts n s ->
  loadNextUpdate updateSlot s = Returned (true, loaded) s1 ->
  exists e s2,
    iget (slotServerId loaded) s = Some e /\
    updateEntryVersion (slotServerId loaded) v s1 = Returned tt s2 /\
    iget (slotServerId loaded) s2 = Some (set_serverListVersion v e) /\
    isBeingUpdated e = 0 /\
    (forall j, j <> indexNumber (slotServerId loaded) -> entryAt s2 j = entryAt s j) /\
    noUpdatesFound (lastScan s2) = false /\
    (v = originalVersion loaded -> serverList s2 = serverList s).
Proof.
  intros Hreach Hrun.
  destruct (loadNextUpdate_loaded updateSlot loaded s s1
              (Reachable_wellIndexed ts n s Hreach) Hrun)
    as (e & s0 & target & _ & Hsc & Hfound & Hget & Hneeds & Horig & Hid & -> & _).
  rewrite Hid, Horig. set (index := indexNumber (serverId e)).
  set (s1 := loadedState index target s0).
  assert (Hent : entryAt s index = Some e) by apply (iget_entryAt _ _ _ Hget).
  assert (Hidle : isBeingUpdated e = 0).
  { unfold needsUpdate in Hneeds. apply andb_true_iff in Hneeds as [_ H].
    apply Z.eqb_eq, H. }
  assert (Hat1 : entryAt s1 index = Some (set_isBeingUpdated target e)).
  { unfold s1. rewrite (entryAt_loadedState _ _ s s0 _ Hsc).
    rewrite decide_True by reflexivity. rewrite Hent. reflexivity. }
  assert (Href : getReferenceFromServerId (serverId e) s1
                 = Returned (set_isBeingUpdated target e) s1).
  { unfold getReferenceFromServerId. unfold entryAt in Hat1. fold index.
    destruct (serverList s1 !! index) as [p|]; [|discriminate].
    rewrite Hat1. simpl. rewrite decide_True by reflexivity. reflexivity. }
  set (s2 := with_lastScan
               (fun ls => if v <? version s1
                          then mkScan false (searchIndex ls) (minVersion ls)
                          else ls)
               (with_serverList
                  (alter (fun p => mkPair (nextGenerationNumber p)
                                          (set_isBeingUpdated 0 <$> entry p)) index)
                  (with_serverList
                     (alter (fun p => mkPair (nextGenerationNumber p)
                                             (set_serverListVersion v <$> entry p))
                            index) s1))).
  assert (Hrun2 : exists s2', updateEntryVersion (serverId e) v s1 = Returned tt s2' /\
            serverList s2' = serverList s2 /\ lastScan s2' = lastScan s2).
  { unfold updateEntryVersion, catch. unfold bind at 1. rewrite Href.
    fold index. unfold_monad. unfold modifyEntry, modify, s2, s1, loadedState. simpl.
    destruct (v <? version s0) eqn:Hlt; eexists; (split; [reflexivity|]);
      simpl; destruct (lastScan s0); split; reflexivity. }
  destruct Hrun2 as (s2' & Hrun2 & Hl2 & Hscan2).
  assert (Hat2 : forall j, entryAt s2' j =
            if decide (index = j) then Some (set_serverListVersion v e)
            else entryAt s j).
  { intros j. unfold entryAt at 1. rewrite Hl2. fold (entryAt s2 j).
    unfold s2. change (entryAt (with_lastScan ?f ?x) j) with (entryAt x j).
    rewrite !entryAt_alter. unfold s1.
    rewrite (entryAt_loadedState _ _ s s0 _ Hsc).
    destruct (decide (index = j)) as [<-|]; [|reflexivity].
    rewrite Hent. simpl. f_equal.
    destruct e. simpl in *. subst. reflexivity. }
  exists e, s2'. split; [exact Hget|]. split; [exact Hrun2|].
  split.
  { apply entryAt_iget; [|reflexivity]. fold index. rewrite Hat2.
    rewrite decide_True by reflexivity. reflexivity. }
  split; [exact Hidle|]. split.
  { intros j Hj. rewrite Hat2. rewrite decide_False by congruence. reflexivity. }
  split.
  { rewrite Hscan2. unfold s2. simpl. destruct (v <? version s0); [reflexivity|].
    simpl. exact Hfound. }
  intros ->. apply list_eq. intros j.
  pose proof (Hat2 j) as Hj. unfold entryAt in Hj.
  assert (Hlen : length (serverList s2') = length (serverList s)).
  { rewrite Hl2. unfold s2, s1, loadedState. simpl. rewrite !length_alter.
    destruct Hsc as [-> _]. reflexivity. }
  assert (Hgen : forall p p', serverList s2' !! j = Some p -> serverList s !! j = Some p' ->
            nextGenerationNumber p = nextGenerationNumber p').
  { rewrite Hl2. unfold s2, s1, loadedState. simpl. destruct Hsc as [-> _].
    intros p p' Hp Hp'. rewrite !list_lookup_alter in Hp.
    destruct (decide (index = j)) as [Heq|Hne].
    - rewrite !decide_True in Hp by reflexivity. rewrite Heq, Hp' in Hp.
      simpl in Hp. injection Hp as <-. reflexivity.
    - congruence. }
  destruct (serverList s2' !! j) as [p|] eqn:Hp, (serverList s !! j) as [p'|] eqn:Hp'.
  - specialize (Hgen p p' eq_refl eq_refl). f_equal.
    destruct p as [g t], p' as [g' t']. simpl in *. subst g'. f_equal.
    destruct (decide (index = j)) as [<-|]; [|exact Hj].
    rewrite Hj. unfold entryAt in Hent. rewrite Hp' in Hent. simpl in Hent.
    rewrite Hent. f_equal. destruct e. reflexivity.
  - apply lookup_lt_Some in Hp. apply lookup_ge_None in Hp'. lia.
  - apply lookup_lt_Some in Hp'. apply lookup_ge_None in Hp. lia.
  - reflexivity.
Qed.

Lemma updateEntryVersion_completes_load_witness :
  let members := maskOf [MASTER_SERVICE; MEMBERSHIP_SERVICE] in
  let updateSlot := mkUpdateSlot 0 (mkServerId 0 0) ProtoBuf.empty in
  let cs := [CallEnlistServer (mkServerId 0 0) members 0 "m1";
             CallLoadNextUpdate updateSlot;
             CallUpdateEntryVersion (mkServerId 1 1) 1;
             CallEnlistServer (mkServerId 0 0) (maskOf [BACKUP_SERVICE]) 100 "b"] in
  let s := execAll cs (initial 0) in
  exists loaded s1 s2,
    loadNextUpdate updateSlot s = Returned (true, loaded) s1 /\
    updateEntryVersion (slotServerId loaded) (originalVersion loaded) s1
      = Returned tt s2 /\
    serverList s1 <> serverList s /\
    serverList s2 = serverList s.
Proof.
  intros members updateSlot cs s.
  destruct (Reachable_execAll 0 cs) as (n & _ & Hreach). fold s in Hreach.
  assert (Hload : exists loaded s1,
            loadNextUpdate updateSlot s = Returned (true, loaded) s1 /\
            serverList s1 <> serverList s).
  { eexists _, _. split; [vm_compute; reflexivity|]. vm_compute. discriminate. }
  destruct Hload as (loaded & s1 & Hload & Hchanged).
  destruct (updateEntryVersion_completes_load 0 n updateSlot loaded
              (originalVersion loaded) s s1 Hreach Hload)
    as (e & s2 & _ & Hrun & _ & _ & _ & _ & Hsame).
  exists loaded, s1, s2. auto.
Defined.

(** ** The counters of masters and backups *)

Lemma countOf_bound (wanted : Entry -> bool) (l : list GenerationNumberEntryPair) :
  (countOf wanted l <= length l)%nat.
Proof.
  induction l as [|p l IH]; simpl; [lia|].
  destruct (entry p) as [e|]; [destruct (wanted e); simpl|]; lia.
Qed.

Lemma countOf_none (wanted : Entry -> bool) (l : list GenerationNumberEntryPair) :
  (forall j, offersAt wanted l j = false) -> countOf wanted l = 0%nat.
Proof.
  induction l as [|p l IH]; intros Hnone; [reflexivity|]. simpl.
  rewrite IH by (intros j; apply (Hnone (S j))).
  specialize (Hnone 0%nat). unfold offersAt in Hnone. simpl in Hnone.
  destruct (entry p); [rewrite Hnone|]; reflexivity.
Qed.

(** The count depends only on what the slots offer. *)
Lemma countOf_ext (wanted : Entry -> bool) (l l' : list GenerationNumberEntryPair) :
  (forall j, offersAt wanted l' j = offersAt wanted l j) ->
  countOf wanted l' = countOf wanted l.
Proof.
  revert l'. induction l as [|p l IH]; intros l' Hsame.
  - apply countOf_none. intros j. rewrite Hsame. reflexivity.
  - destruct l' as [|p' l'].
    + symmetry. apply countOf_none. intros j. rewrite <- Hsame. reflexivity.
    + simpl. rewrite (IH l') by (intros j; apply (Hsame (S j))).
      specialize (Hsame 0%nat). unfold offersAt in Hsame. simpl in Hsame.
      destruct (entry p), (entry p');
        first [rewrite Hsame; reflexivity|rewrite <- Hsame; reflexivity|reflexivity].
Qed.

(** A write to one slot moves the count by what the slot offered and
    what it offers now. *)
Lemma countOf_alter (wanted : Entry -> bool)
    (g : GenerationNumberEntryPair -> GenerationNumberEntryPair) (i : nat)
    (l : list GenerationNumberEntryPair) :
  (countOf wanted (alter g i l) + Nat.b2n (offersAt wanted l i) =
   countOf wanted l + Nat.b2n (offersAt wanted (alter g i l) i))%nat.
Proof.
  revert i. induction l as [|p l IH]; intros i; [reflexivity|].
  destruct i as [|i].
  - unfold offersAt. simpl. destruct (entry p), (entry (g p)); simpl;
      repeat match goal with
             | |- context [wanted ?x] => destruct (wanted x)
             end; simpl; lia.
  - specialize (IH i). unfold offersAt in *. simpl.
    change (list_alter g i l) with (alter g i l).
    destruct (entry p) as [e|]; [destruct (wanted e)|]; simpl; lia.
Qed.

Lemma countOf_alter_same (wanted : Entry -> bool)
    (g : GenerationNumberEntryPair -> GenerationNumberEntryPair) (i : nat)
    (l : list GenerationNumberEntryPair) :
  offersAt wanted (alter g i l) i = offersAt wanted l i ->
  countOf wanted (alter g i l) = countOf wanted l.
Proof. intros H. pose proof (countOf_alter wanted g i l). rewrite H in *. lia. Qed.

(** A vector that differs from [l] in what slot [i] offers only, where
    [l] offered nothing. *)
Lemma countOf_but (wanted : Entry -> bool) (i : nat)
    (l l' : list GenerationNumberEntryPair) :
  (forall j, j <> i -> offersAt wanted l' j = offersAt wanted l j) ->
  offersAt wanted l i = false ->
  countOf wanted l' = (countOf wanted l + Nat.b2n (offersAt wanted l' i))%nat.
Proof.
  intros Hsame Hfree.
  set (clear := fun p => mkPair (nextGenerationNumber p) None).
  assert (Hcleared : offersAt wanted (alter clear i l') i = false).
  { unfold offersAt. rewrite list_lookup_alter_eq.
    destruct (l' !! i); reflexivity. }
  pose proof (countOf_alter wanted clear i l') as Halter.
  rewrite Hcleared in Halter.
  rewrite <- (countOf_ext wanted l (alter clear i l')); [simpl in Halter; lia|].
  intros j. destruct (decide (j = i)) as [->|Hne].
  - rewrite Hcleared, Hfree. reflexivity.
  - unfold offersAt at 1. rewrite list_lookup_alter_ne by congruence.
    apply (Hsame j Hne).
Qed.

Lemma offersAt_entryAt (wanted : Entry -> bool) (s : CoordinatorServerList) (j : nat) :
  offersAt wanted (serverList s) j =
  match entryAt s j with
  | Some e => wanted e
  | None => false
  end.
Proof. unfold offersAt, entryAt. destruct (serverList s !! j); reflexivity. Qed.

#[local] Instance keepsCounted_preorder : PreOrder keepsCounted.
Proof. split; [intros s H; exact H|intros s1 s2 s3 H12 H23 H; auto]. Qed.

Lemma keepsCounted_frame (s s' : CoordinatorServerList) :
  serverList s' = serverList s -> numberOfMasters s' = numberOfMasters s ->
  numberOfBackups s' = numberOfBackups s -> keepsCounted s s'.
Proof. intros Hl Hm Hb. unfold keepsCounted, countersOk. rewrite Hl, Hm, Hb. auto. Qed.

(** A write to one slot that leaves alone what the slot offers. *)
Lemma keepsCounted_alter
    (g : GenerationNumberEntryPair -> GenerationNumberEntryPair) (i : nat)
    (s : CoordinatorServerList) :
  (forall wanted, wanted = isMaster \/ wanted = isBackup ->
     offersAt wanted (alter g i (serverList s)) i = offersAt wanted (serverList s) i) ->
  keepsCounted s (with_serverList (alter g i) s).
Proof.
  intros Hg [Hm Hb]. split; simpl.
  - rewrite (countOf_alter_same isMaster g i _ (Hg _ (or_introl eq_refl))). exact Hm.
  - rewrite (countOf_alter_same isBackup g i _ (Hg _ (or_intror eq_refl))). exact Hb.
Qed.

Lemma keepsCounted_modifyEntry (i : nat) (f : Entry -> Entry) :
  keepsRole f -> relates keepsCounted (modifyEntry i f).
Proof.
  intros Hf s s' [= <-]. apply keepsCounted_alter. intros wanted Hw.
  unfold offersAt. rewrite list_lookup_alter_eq.
  destruct (serverList s !! i) as [p|]; [|reflexivity]. simpl.
  destruct (entry p) as [e|]; [|reflexivity]. simpl.
  destruct (Hf e) as (_ & Hst & Hsv).
  destruct Hw as [->| ->]; unfold isMaster, isBackup; rewrite Hst, Hsv; reflexivity.
Qed.

Lemma wrap32_pred (c : nat) : wrap32 (wrap32 (Z.of_nat (S c)) - 1) = wrap32 (Z.of_nat c).
Proof. unfold wrap32. rewrite Zminus_mod_idemp_l. f_equal. lia. Qed.

Lemma wrap32_succ (c : nat) : wrap32 (wrap32 (Z.of_nat c) + 1) = wrap32 (Z.of_nat (S c)).
Proof. unfold wrap32. rewrite Zplus_mod_idemp_l. f_equal. lia. Qed.

(** [crashed] takes an UP server out of the counts it was in. *)
Lemma keepsCounted_crashedState (id : ServerId) (e : Entry) (s : CoordinatorServerList) :
  iget id s = Some e -> status e = UP -> keepsCounted s (crashedState id e s).
Proof.
  intros Hget Hup [Hm Hb].
  pose proof (iget_entryAt _ _ _ Hget) as Hat.
  set (g := fun p => mkPair (nextGenerationNumber p) (set_status CRASHED <$> entry p)).
  assert (Hcount : forall wanted service,
            (forall x, wanted x = bool_decide (status x = UP) && has (services x) service) ->
            (countOf wanted (alter g (indexNumber id) (serverList s)) +
             Nat.b2n (has (services e) service) = countOf wanted (serverList s))%nat).
  { intros wanted service Hwanted.
    pose proof (countOf_alter wanted g (indexNumber id) (serverList s)) as Halter.
    unfold offersAt in Halter. rewrite list_lookup_alter_eq in Halter.
    unfold entryAt in Hat.
    destruct (serverList s !! indexNumber id) as [p|]; [|discriminate].
    simpl in Halter. rewrite Hat in Halter. simpl in Halter.
    rewrite !Hwanted in Halter. simpl in Halter. rewrite Hup in Halter.
    rewrite bool_decide_true in Halter by reflexivity. simpl in Halter. lia. }
  pose proof (Hcount isMaster MASTER_SERVICE (fun x => eq_refl)) as HcM.
  pose proof (Hcount isBackup BACKUP_SERVICE (fun x => eq_refl)) as HcB.
  split; simpl; fold g.
  - rewrite Hm, <- HcM. destruct (has (services e) MASTER_SERVICE); simpl.
    + rewrite Nat.add_1_r. apply wrap32_pred.
    + rewrite Nat.add_0_r. reflexivity.
  - rewrite Hb, <- HcB. destruct (has (services e) BACKUP_SERVICE); simpl.
    + rewrite Nat.add_1_r. apply wrap32_pred.
    + rewrite Nat.add_0_r. reflexivity.
Qed.

Lemma keepsCounted_markedState (id : ServerId) (e : Entry) (s : CoordinatorServerList) :
  iget id s = Some e -> keepsCounted s (markedState id e s).
Proof.
  intros Hget. unfold markedState. destruct (bool_decide_reflect (status e = UP)).
  - apply keepsCounted_crashedState; assumption.
  - reflexivity.
Qed.

(** [remove] of a CRASHED server moves no count. *)
Lemma keepsCounted_removedState (id : ServerId) (e : Entry) (s : CoordinatorServerList) :
  iget id s = Some e -> status e = CRASHED -> keepsCounted s (removedState id e s).
Proof.
  intros Hget Hst. pose proof (iget_entryAt _ _ _ Hget) as Hat.
  unfold entryAt in Hat.
  destruct (serverList s !! indexNumber id) as [p|] eqn:Hp; [|discriminate].
  unfold removedState.
  transitivity (with_serverList
                  (alter (fun p => mkPair (nextGenerationNumber p)
                                          (set_status DOWN <$> entry p))
                         (indexNumber id)) s).
  - apply keepsCounted_alter. intros wanted Hw. unfold offersAt.
    rewrite list_lookup_alter_eq, Hp. simpl. rewrite Hat. simpl.
    destruct Hw as [->| ->]; unfold isMaster, isBackup; simpl; rewrite Hst;
      reflexivity.
  - match goal with
    | |- keepsCounted ?a (with_trackers _ (with_serverList ?f (with_update _ ?a))) =>
        transitivity (with_serverList f a);
          [|apply keepsCounted_frame; reflexivity]
    end.
    apply keepsCounted_alter. intros wanted Hw. unfold offersAt. simpl.
    rewrite !list_lookup_alter_eq, Hp. simpl. rewrite Hat. simpl.
    destruct Hw as [->| ->]; reflexivity.
Qed.

Lemma crashed_down (id : ServerId) (e : Entry) (s : CoordinatorServerList) :
  iget id s = Some e -> status e = DOWN -> crashed id s = Abort AssertionFailed.
Proof.
  intros Hget Hst. pose proof (iget_entryAt _ _ _ Hget) as Hat.
  unfold crashed. unfold_monad.
  rewrite invalidServerId_iget, Hget, bool_decide_false by discriminate.
  rewrite derefEntry_entryAt, Hat.
  rewrite bool_decide_false by (rewrite Hst; discriminate).
  rewrite bool_decide_false by (rewrite Hst; intros H; apply H; reflexivity).
  reflexivity.
Qed.

Lemma keepsCounted_crashed (id : ServerId) : relates keepsCounted (crashed id).
Proof.
  intros s s' Hfinal. destruct (iget id s) as [e|] eqn:Hget.
  - destruct (decide (status e = DOWN)) as [Hdown|Hst].
    + rewrite (crashed_down id e s Hget Hdown) in Hfinal. discriminate.
    + destruct (crashed_marks id e s Hget Hst) as [Hrun _].
      rewrite Hrun in Hfinal. injection Hfinal as <-.
      apply keepsCounted_markedState, Hget.
  - rewrite (crashed_unknown id s Hget) in Hfinal. injection Hfinal as <-.
    reflexivity.
Qed.

Lemma keepsCounted_remove (id : ServerId) : relates keepsCounted (remove id).
Proof.
  intros s s' Hfinal. destruct (iget id s) as [e|] eqn:Hget.
  - destruct (decide (status e = DOWN)) as [Hdown|Hst].
    + unfold remove in Hfinal. unfold bind at 1, gets at 1 in Hfinal.
      rewrite invalidServerId_iget, Hget, bool_decide_false in Hfinal by discriminate.
      unfold bind at 1 in Hfinal.
      rewrite (crashed_down id e s Hget Hdown) in Hfinal. discriminate.
    + destruct (remove_listed id e s Hget Hst) as [Hrun _].
      destruct (crashed_marks id e s Hget Hst) as [_ Hgetm].
      rewrite Hrun in Hfinal. injection Hfinal as <-.
      transitivity (markedState id e s);
        [apply keepsCounted_markedState, Hget|].
      apply (keepsCounted_removedState id _ _ Hgetm). reflexivity.
  - rewrite (remove_unknown id s Hget) in Hfinal. injection Hfinal as <-.
    reflexivity.
Qed.

Ltac keepsCounted_leaf :=
  first [ apply keepsCounted_crashed
        | apply keepsCounted_remove
        | apply (relates_modify keepsCounted); intros ?; apply keepsCounted_frame;
          reflexivity ].

#[local] Instance keepsCounted_stepwise : Stepwise keepsCounted.
Proof.
  split; try exact _; intros;
    try (apply keepsCounted_modifyEntry; assumption);
    unfold appendToUpdate, commitUpdate, pruneUpdates;
    relates_walk keepsCounted_leaf.
Qed.

(** [generateUniqueId] reserves a slot with an entry that offers no
    service. *)
Lemma keepsCounted_generate (s s' : CoordinatorServerList) (id : ServerId) :
  Z.of_nat (length (serverList s)) < 2 ^ 32 ->
  generateUniqueId s = Returned id s' -> keepsCounted s s'.
Proof.
  intros Hlen Hrun.
  destruct (generateUniqueId_effect s Hlen)
    as (index & g & s1 & Hrun1 & _ & _ & Hfree & _ & _ & Hslot & _ & Hnone & Hlen1
        & Hlow & Hhigh & Hm & Hb & _).
  rewrite Hrun1 in Hrun. injection Hrun as _ <-.
  assert (Hsame : forall wanted service,
            (forall x, wanted x = bool_decide (status x = UP) && has (services x) service) ->
            countOf wanted (serverList s1) = countOf wanted (serverList s)).
  { intros wanted service Hwanted. apply countOf_ext. intros j.
    destruct (decide (j = index)) as [->|Hne].
    - rewrite (offersAt_entryAt wanted s index), Hfree.
      unfold offersAt. rewrite Hslot. simpl. rewrite Hwanted, Hnone.
      apply andb_false_r.
    - destruct (decide (j < length (serverList s))%nat) as [Hlt|Hge].
      + unfold offersAt. rewrite (Hlow j Hne Hlt). reflexivity.
      + unfold offersAt. rewrite (lookup_ge_None_2 (serverList s) j) by lia.
        destruct (decide (j < S index)%nat) as [Hlt|Hge'].
        * rewrite (Hhigh j Hne) by lia. reflexivity.
        * rewrite lookup_ge_None_2 by lia. reflexivity. }
  intros [HcM HcB]. split.
  - rewrite Hm, HcM, (Hsame isMaster MASTER_SERVICE (fun x => eq_refl)). reflexivity.
  - rewrite Hb, HcB, (Hsame isBackup BACKUP_SERVICE (fun x => eq_refl)). reflexivity.
Qed.

(** [EnlistServer::execute] puts the new server in the counts of the
    services it offers. *)
Lemma keepsCounted_execute (mask : ServiceMask) (readSpeed : Z) (loc : string)
    (s s' : CoordinatorServerList) (id : ServerId) :
  Z.of_nat (length (serverList s)) < 2 ^ 32 ->
  EnlistServer.execute mask readSpeed loc s = Returned id s' -> keepsCounted s s'.
Proof.
  intros Hlen Hrun.
  destruct (enlist_execute_slots mask readSpeed loc s Hlen)
    as (newId & s1 & tail & rid & logId & Hrun1 & _ & _ & _ & Hfree & _ & _ & Hnew
        & Hother & _ & Hm & Hb & _).
  rewrite Hrun1 in Hrun. injection Hrun as _ <-.
  assert (Hcount : forall wanted service,
            (forall x, wanted x = bool_decide (status x = UP) && has (services x) service) ->
            countOf wanted (serverList s1) =
              (countOf wanted (serverList s) + Nat.b2n (has mask service))%nat).
  { intros wanted service Hwanted.
    rewrite (countOf_but wanted (indexNumber newId) (serverList s) (serverList s1)).
    - rewrite (offersAt_entryAt wanted s1), Hnew, Hwanted. do 2 f_equal.
      unfold addedEntry. destruct (has mask BACKUP_SERVICE); reflexivity.
    - intros j Hj. rewrite !offersAt_entryAt. specialize (Hother j Hj).
      destruct (entryAt s j) as [e|].
      + destruct Hother as (rid' & -> & _). rewrite !Hwanted. reflexivity.
      + rewrite Hother. reflexivity.
    - rewrite offersAt_entryAt, Hfree. reflexivity. }
  intros [HcM HcB]. split.
  - rewrite Hm, HcM, (Hcount isMaster MASTER_SERVICE (fun x => eq_refl)).
    destruct (has mask MASTER_SERVICE); simpl.
    + rewrite Nat.add_1_r. apply wrap32_succ.
    + rewrite Nat.add_0_r. reflexivity.
  - rewrite Hb, HcB, (Hcount isBackup BACKUP_SERVICE (fun x => eq_refl)).
    destruct (has mask BACKUP_SERVICE); simpl.
    + rewrite Nat.add_1_r. apply wrap32_succ.
    + rewrite Nat.add_0_r. reflexivity.
Qed.

Lemma keepsCounted_enlist (replacesId id : ServerId) (mask : ServiceMask)
    (readSpeed : Z) (loc : string) (s s' : CoordinatorServerList) :
  Z.of_nat (length (serverList s)) < 2 ^ 32 ->
  Public.enlistServer replacesId mask readSpeed loc s = Returned id s' ->
  keepsCounted s s'.
Proof.
  intros Hlen Hrun. unfold Public.enlistServer in Hrun.
  unfold bind at 1 in Hrun. unfold gets at 1 in Hrun.
  apply bind_inv in Hrun as ([] & s0 & Hdown & Hrun).
  apply bind_inv in Hrun as (a & sx & Hexec & Hrun).
  apply bind_inv in Hrun as ([] & sy & Hcommit & Hret).
  injection Hret as -> ->.
  set (replaces := bool_decide (is_Some (iget replacesId s))) in Hdown.
  assert (Hsame0 : sameSlots s s0).
  { apply (relates_when sameSlots replaces (forceServerDown replacesId)
             (relates_forceServerDown sameSlots replacesId) s s0).
    rewrite Hdown. reflexivity. }
  transitivity s0.
  { apply (relates_when keepsCounted replaces (forceServerDown replacesId)
             (relates_forceServerDown keepsCounted replacesId) s s0).
    rewrite Hdown. reflexivity. }
  transitivity sx.
  { apply (keepsCounted_execute mask readSpeed loc s0 sx id); [|exact Hexec].
    rewrite (sameSlots_length _ _ Hsame0). exact Hlen. }
  apply (stepwise_commitUpdate (R := keepsCounted)). rewrite Hcommit. reflexivity.
Qed.

(** The invariant of the histories that issue ids: the counters count. *)
Lemma Issued_countersOk (ts n : nat) (ids : list ServerId)
    (s : CoordinatorServerList) :
  Issued ts n ids s -> Z.of_nat n < 2 ^ 32 - 1 -> countersOk s.
Proof.
  induction 1 as [|n ids s id s' Hissued IH Hrun
                  |n ids s replacesId mask readSpeed loc id s' Hissued IH Hrun
                  |n ids s c s' Hissued IH Hsteady Hstep]; intros Hn.
  - split; reflexivity.
  - destruct (Issued_issuedOk ts n ids s Hissued ltac:(lia)) as (_ & _ & _ & _ & Hlen).
    apply (keepsCounted_generate s s' id); [lia|exact Hrun|apply IH; lia].
  - destruct (Issued_issuedOk ts n ids s Hissued ltac:(lia)) as (_ & _ & _ & _ & Hlen).
    apply (keepsCounted_enlist replacesId id mask readSpeed loc s s');
      [lia|exact Hrun|apply IH; lia].
  - apply (relates_steady keepsCounted c Hsteady s s' Hstep). apply IH. lia.
Qed.

(** X18.  In a history of fewer than 2^32 - 1 calls in which servers
    come into the list through [generateUniqueId] and [enlistServer]
    only, [masterCount()] is the number of entries of the list that are
    up and offer the master service, and [backupCount()] the number of
    those that are up and offer the backup service, whatever servers
    crashed, were removed or were replaced on the way. *)
Theorem counters_count_the_servers (ts n : nat) (ids : list ServerId)
    (s : CoordinatorServerList) :
  Issued ts n ids s -> Z.of_nat n < 2 ^ 32 - 1 ->
  Queries.masterCount s = Z.of_nat (countOf isMaster (serverList s)) /\
  Queries.backupCount s = Z.of_nat (countOf isBackup (serverList s)).
Proof.
  intros Hissued Hn.
  destruct (Issued_countersOk ts n ids s Hissued Hn) as [Hm Hb].
  destruct (Issued_issuedOk ts n ids s Hissued Hn) as (_ & _ & _ & _ & Hlen).
  pose proof (countOf_bound isMaster (serverList s)).
  pose proof (countOf_bound isBackup (serverList s)).
  unfold Queries.masterCount, Queries.backupCount. rewrite Hm, Hb.
  unfold wrap32. rewrite !Z.mod_small by lia. split; reflexivity.
Qed.

Lemma counters_count_the_servers_witness :
  let both := maskOf [MASTER_SERVICE; BACKUP_SERVICE] in
  let s := execAll [CallEnlistServer (mkServerId 0 0) both 100 "mb";
                    CallEnlistServer (mkServerId 0 0) (maskOf [BACKUP_SERVICE]) 100 "b";
                    CallCrashed (mkServerId 1 1)] (initial 0) in
  Queries.masterCount s = 0 /\ Queries.backupCount s = 1 /\
  Queries.masterCount s = Z.of_nat (countOf isMaster (serverList s)) /\
  Queries.backupCount s = Z.of_nat (countOf isBackup (serverList s)).
Proof.
  intros both s.
  set (s1 := execAll [CallEnlistServer (mkServerId 0 0) both 100 "mb"] (initial 0)).
  set (s2 := execAll [CallEnlistServer (mkServerId 0 0) (maskOf [BACKUP_SERVICE])
                        100 "b"] s1).
  assert (I1 : Issued 0 1 [mkServerId 1 1] s1).
  { apply (Issued_enlist 0 0 [] (initial 0) (mkServerId 0 0) both 100 "mb");
      [apply Issued_initial|vm_compute; reflexivity]. }
  assert (I2 : Issued 0 2 [mkServerId 2 1; mkServerId 1 1] s2).
  { apply (Issued_enlist 0 1 _ s1 (mkServerId 0 0) (maskOf [BACKUP_SERVICE]) 100 "b");
      [exact I1|vm_compute; reflexivity]. }
  assert (I3 : Issued 0 3 [mkServerId 2 1; mkServerId 1 1] s).
  { apply (Issued_steady 0 2 _ s2 (CallCrashed (mkServerId 1 1)));
      [exact I2|reflexivity|vm_compute; reflexivity]. }
  split; [vm_compute; reflexivity|]. split; [vm_compute; reflexivity|].
  apply (counters_count_the_servers 0 3 _ s I3). reflexivity.
Defined.
